(** * goskiplist: an indexable skip list and the sorted set built on it

    A shallow embedding of [skiplist.go] and [zset.go].  Go pointers are
    addresses into an explicit store of nodes, [nil] is [None], the
    [uint32] spans and ranks are integers reduced modulo [2^32] at every
    operation, and a run-time panic is a result of its own.  The loops
    that walk forward pointers carry fuel equal to the size of the store
    plus one: a walk that long has met some node twice, and since the
    store is not written during a walk the Go loop would not return
    either. *)

From Stdlib Require Import ZArith Lia String.
From stdpp Require Import base option list gmap.

Local Open Scope Z_scope.

Module Skiplist.

(** ** Results of running Go code *)

Inductive result (A : Type) : Type :=
| Ok (a : A)
| Panic (msg : string)
| OutOfFuel.
Arguments Ok {A} a.
Arguments Panic {A} msg.
Arguments OutOfFuel {A}.

Definition rbind {A B : Type} (m : result A) (k : A → result B) : result B :=
  match m with
  | Ok a => k a
  | Panic msg => Panic msg
  | OutOfFuel => OutOfFuel
  end.

Notation "'do' x <- m ; k" := (rbind m (fun x => k))
  (at level 10, x pattern, m at level 100, k at level 200).

Definition is_panic {A : Type} (r : result A) : Prop :=
  match r with Panic _ => True | _ => False end.

(** ** Machine integers *)

Definition wrap32 (z : Z) : Z := z mod 4294967296.

Definition MaxInt64 : Z := 9223372036854775807.

(** [int64] addition wraps around in two's complement. *)
Definition wrap64 (z : Z) : Z :=
  (z + 9223372036854775808) mod 18446744073709551616 - 9223372036854775808.

(** ** The random source

    [rand.Float64() < p] is all the code asks of the source, so the
    source is the stream of the answers to that test. *)

Definition rng := nat → bool.

Definition rng_next (r : rng) : bool * rng := (r 0%nat, fun n => r (S n)).

Definition maxInt (x y : Z) : Z := if Z.gtb x y then x else y.

Definition DefaultMaxLevel : Z := 32.

(** Pointers are addresses into a store. *)
Abbreviation addr := nat.

Section Engine.

Context {K V : Type} `{EqDecision K}.

(** The [nil] of [interface{}] as a key and as a value. *)
Variable knil : K.
Variable vnil : V.

(** ** Nodes and the store *)

Record level := Level { forward : option addr; span : Z }.

Record node := Node {
  levels : list level;
  backward : option addr;
  key : K;
  value : V
}.

Local Abbreviation heap := (list node).

Record SkipList := mkSkipList {
  header : addr;
  footer : option addr;
  slength : Z;
  MaxLevel : Z
}.

(** The comparator, the [lessThan] field fixed at construction. *)
Variable lessThan : K → K → bool.

Definition alloc (h : heap) (n : node) : heap * addr := (h ++ [n], length h).

Definition load (h : heap) (a : addr) : result node :=
  match h !! a with
  | Some n => Ok n
  | None => Panic "invalid memory address"
  end.

Definition deref (h : heap) (p : option addr) : result (addr * node) :=
  match p with
  | Some a => do n <- load h a; Ok (a, n)
  | None => Panic "nil pointer dereference"
  end.

(** [a.levels[i]] *)
Definition slot (h : heap) (a : addr) (i : nat) : result level :=
  do n <- load h a;
  match levels n !! i with
  | Some l => Ok l
  | None => Panic "index out of range"
  end.

Definition set_levels (n : node) (ls : list level) : node :=
  Node ls (backward n) (key n) (value n).

Definition set_backward (n : node) (b : option addr) : node :=
  Node (levels n) b (key n) (value n).

Definition set_value (n : node) (v : V) : node :=
  Node (levels n) (backward n) (key n) v.

(** [a.levels[i] = l] *)
Definition store_slot (h : heap) (a : addr) (i : nat) (l : level) : result heap :=
  do n <- load h a;
  match levels n !! i with
  | Some _ => Ok (<[a := set_levels n (<[i := l]> (levels n))]> h)
  | None => Panic "index out of range"
  end.

(** [a.levels[i].forward = f] *)
Definition store_forward (h : heap) (a : addr) (i : nat) (f : option addr) : result heap :=
  do l <- slot h a i; store_slot h a i (Level f (span l)).

(** [a.levels[i].span = sp] *)
Definition store_span (h : heap) (a : addr) (i : nat) (sp : Z) : result heap :=
  do l <- slot h a i; store_slot h a i (Level (forward l) sp).

(** [update[i]] on a slice of pointers, [rank[i]] on a slice of [uint32]. *)
Definition index {A : Type} (l : list A) (i : nat) : result A :=
  match l !! i with
  | Some x => Ok x
  | None => Panic "index out of range"
  end.

Definition assign {A : Type} (l : list A) (i : nat) (x : A) : result (list A) :=
  match l !! i with
  | Some _ => Ok (<[i := x]> l)
  | None => Panic "index out of range"
  end.

(** [make([]T, len, cap)] checks its sizes at run time. *)
Definition make {A : Type} (zero : A) (len cap : Z) : result (list A) :=
  if (len <? 0) then Panic "makeslice: len out of range"
  else if (cap <? len) then Panic "makeslice: cap out of range"
  else Ok (replicate (Z.to_nat len) zero).

(** ** node methods *)

Definition next (n : node) : option addr :=
  match levels n with
  | [] => None
  | l :: _ => forward l
  end.

Definition previous (n : node) : option addr := backward n.

Definition hasNext (n : node) : bool := bool_decide (next n ≠ None).

Definition hasPrevious (n : node) : bool := bool_decide (previous n ≠ None).

(** ** Construction *)

Definition Len (s : SkipList) : Z := slength s.

Definition empty_header : node := Node [Level None 0] None knil vnil.

Definition Clear (h : heap) (s : SkipList) : heap * SkipList :=
  let '(h, hd) := alloc h empty_header in
  (h, mkSkipList hd None 0 (MaxLevel s)).

Definition NewCustomMap (h : heap) : heap * SkipList :=
  let '(h, hd) := alloc h empty_header in
  (h, mkSkipList hd None 0 DefaultMaxLevel).

(** ** Levels *)

Definition level_of (h : heap) (s : SkipList) : result Z :=
  do hd <- load h (header s); Ok (Z.of_nat (length (levels hd)) - 1).

Definition effectiveMaxLevel (h : heap) (s : SkipList) : result Z :=
  do lv <- level_of h s; Ok (maxInt lv (MaxLevel s)).

(** [for n = 0; n < s.effectiveMaxLevel() && rand.Float64() < p; n++ {}]:
    [budget] is the distance from [n] to the effective maximum, and the
    source is consulted only while it is positive. *)
Fixpoint randomLevel_loop (budget : nat) (n : nat) (r : rng) : nat * rng :=
  match budget with
  | O => (n, r)
  | S budget' =>
      let '(c, r') := rng_next r in
      if c then randomLevel_loop budget' (S n) r' else (n, r')
  end.

Definition randomLevel (h : heap) (s : SkipList) (r : rng) : result (nat * rng) :=
  do eff <- effectiveMaxLevel h s;
  Ok (randomLevel_loop (Z.to_nat eff) 0%nat r).

(** ** Searching *)

(** The fuel of a walk: one more than there are nodes in the store. *)
Definition fuel_of (h : heap) : nat := S (length h).

(** The inner loop of [getLowerBound] and [searchForDelete]:
    [for current.levels[i].forward != nil &&
         s.lessThan(current.levels[i].forward.key, key)] *)
Fixpoint advance (fuel : nat) (h : heap) (i : nat) (k : K) (current : addr)
  : result addr :=
  match fuel with
  | O => OutOfFuel
  | S fuel' =>
      do l <- slot h current i;
      match forward l with
      | None => Ok current
      | Some f =>
          do fn <- load h f;
          if lessThan (key fn) k then advance fuel' h i k f else Ok current
      end
  end.

(** The same loop where it also sums the spans it crosses, in [Rank] and
    [searchForInsert]. *)
Fixpoint advance_rank (fuel : nat) (h : heap) (i : nat) (k : K) (current : addr)
  (rank : Z) : result (addr * Z) :=
  match fuel with
  | O => OutOfFuel
  | S fuel' =>
      do l <- slot h current i;
      match forward l with
      | None => Ok (current, rank)
      | Some f =>
          do fn <- load h f;
          if lessThan (key fn) k
          then advance_rank fuel' h i k f (wrap32 (rank + span l))
          else Ok (current, rank)
      end
  end.

(** [current.levels[i].forward != nil && current.levels[i].forward.key == key] *)
Definition forward_matches (h : heap) (current : addr) (i : nat) (k : K)
  : result (option addr) :=
  do l <- slot h current i;
  match forward l with
  | None => Ok None
  | Some f =>
      do fn <- load h f;
      if decide (key fn = k) then Ok (Some f) else Ok None
  end.

Definition next_of (h : heap) (a : addr) : result (option addr) :=
  do n <- load h a; Ok (next n).

(** [getLowerBound], levels [n-1] down to [0]. *)
Fixpoint getLowerBound_loop (h : heap) (k : K) (n : nat) (current : addr)
  : result (option addr) :=
  match n with
  | O => next_of h current
  | S i =>
      do current <- advance (fuel_of h) h i k current;
      do m <- forward_matches h current i k;
      match m with
      | Some f => Ok (Some f)
      | None => getLowerBound_loop h k i current
      end
  end.

Definition getLowerBound (h : heap) (current : addr) (k : K) : result (option addr) :=
  do n <- load h current;
  let depth := Z.of_nat (length (levels n)) - 1 in
  getLowerBound_loop h k (Z.to_nat (depth + 1)) current.

Definition Get (h : heap) (s : SkipList) (k : K) : result (V * bool) :=
  do c <- getLowerBound h (header s) k;
  match c with
  | None => Ok (vnil, false)
  | Some a =>
      do n <- load h a;
      if decide (key n ≠ k) then Ok (vnil, false) else Ok (value n, true)
  end.

Fixpoint Rank_loop (h : heap) (k : K) (n : nat) (current : addr) (rank : Z)
  : result Z :=
  match n with
  | O => Ok 0
  | S i =>
      do (current, rank) <- advance_rank (fuel_of h) h i k current rank;
      do m <- forward_matches h current i k;
      match m with
      | Some _ => do l <- slot h current i; Ok (wrap32 (rank + span l))
      | None => Rank_loop h k i current rank
      end
  end.

Definition Rank (h : heap) (s : SkipList) (k : K) : result Z :=
  do lv <- level_of h s;
  Rank_loop h k (Z.to_nat (lv + 1)) (header s) 0.

(** ** Cursors *)

Record iter := mkIter {
  current : option addr;
  ikey : K;
  ivalue : V
}.

Definition Key (i : iter) : K := ikey i.
Definition Value (i : iter) : V := ivalue i.

Definition iter_at (a : addr) (n : node) : iter := mkIter (Some a) (key n) (value n).

(** The inner loop of [GetElemByRank]:
    [for current.levels[i].forward != nil &&
         (traversed+current.levels[i].span < rank)] *)
Fixpoint advance_span (fuel : nat) (h : heap) (i : nat) (rank : Z) (current : addr)
  (traversed : Z) : result (addr * Z) :=
  match fuel with
  | O => OutOfFuel
  | S fuel' =>
      do l <- slot h current i;
      match forward l with
      | None => Ok (current, traversed)
      | Some f =>
          if wrap32 (traversed + span l) <? rank
          then advance_span fuel' h i rank f (wrap32 (traversed + span l))
          else Ok (current, traversed)
      end
  end.

Fixpoint GetElemByRank_loop (h : heap) (rank : Z) (n : nat) (current : addr)
  (traversed : Z) : result (option iter) :=
  match n with
  | O => Ok None
  | S i =>
      do (current, traversed) <- advance_span (fuel_of h) h i rank current traversed;
      do l <- slot h current i;
      match forward l with
      | Some f =>
          if wrap32 (traversed + span l) =? rank
          then do fn <- load h f; Ok (Some (iter_at f fn))
          else GetElemByRank_loop h rank i current traversed
      | None => GetElemByRank_loop h rank i current traversed
      end
  end.

Definition GetElemByRank (h : heap) (s : SkipList) (rank : Z) : result (option iter) :=
  do lv <- level_of h s;
  GetElemByRank_loop h rank (Z.to_nat (lv + 1)) (header s) 0.

(** ** Insertion *)

(** [searchForInsert], levels [n-1] down to [0]; [update] and [rank] are
    the caller's slices, written in place. *)
Fixpoint searchForInsert_loop (h : heap) (lv : Z) (k : K) (n : nat) (current : addr)
  (update : list (option addr)) (rank : list Z)
  : result (option addr * list (option addr) * list Z) :=
  match n with
  | O => do c <- next_of h current; Ok (c, update, rank)
  | S i =>
      do r0 <- (if decide (Z.of_nat i = lv) then Ok 0 else index rank (S i));
      do rank <- assign rank i r0;
      do (current, r) <- advance_rank (fuel_of h) h i k current r0;
      do rank <- assign rank i r;
      do m <- forward_matches h current i k;
      match m with
      | Some f => Ok (Some f, update, rank)
      | None =>
          do update <- assign update i (Some current);
          searchForInsert_loop h lv k i current update rank
      end
  end.

Definition searchForInsert (h : heap) (s : SkipList) (k : K)
  (update : list (option addr)) (rank : list Z)
  : result (option addr * list (option addr) * list Z) :=
  do lv <- level_of h s;
  searchForInsert_loop h lv k (Z.to_nat (lv + 1)) (header s) update rank.

(** [s.header.levels = append(s.header.levels, level{})] *)
Definition append_level (h : heap) (s : SkipList) : result heap :=
  do hd <- load h (header s);
  Ok (<[header s := set_levels hd (levels hd ++ [Level None 0])]> h).

(** [for i := currentLevel + 1; i <= newLevel; i++] in [Set]. *)
Fixpoint Set_grow (count i : nat) (h : heap) (s : SkipList)
  (update : list (option addr)) (rank : list Z)
  : result (heap * list (option addr) * list Z) :=
  match count with
  | O => Ok (h, update, rank)
  | S count' =>
      do h <- append_level h s;
      let rank := rank ++ [0] in
      let update := update ++ [Some (header s)] in
      do u <- index update i;
      do (ua, _) <- deref h u;
      do h <- store_span h ua i (wrap32 (slength s));
      Set_grow count' (S i) h s update rank
  end.

(** [for i := 0; i <= newLevel; i++] in [Set]. *)
Fixpoint Set_splice (count i : nat) (h : heap) (newNode : addr)
  (update : list (option addr)) (rank : list Z) : result heap :=
  match count with
  | O => Ok h
  | S count' =>
      do u <- index update i;
      do (ua, _) <- deref h u;
      do ul <- slot h ua i;
      do h <- store_forward h newNode i (forward ul);
      do h <- store_forward h ua i (Some newNode);
      do ul <- slot h ua i;
      do r0 <- index rank 0%nat;
      do ri <- index rank i;
      do h <- store_span h newNode i (wrap32 (span ul - wrap32 (r0 - ri)));
      do h <- store_span h ua i (wrap32 (wrap32 (r0 - ri) + 1));
      Set_splice count' (S i) h newNode update rank
  end.

(** [for i := newLevel + 1; i <= s.level(); i++ { update[i].levels[i].span++ }] *)
Fixpoint bump_spans (count i : nat) (h : heap) (update : list (option addr))
  : result heap :=
  match count with
  | O => Ok h
  | S count' =>
      do u <- index update i;
      do (ua, _) <- deref h u;
      do ul <- slot h ua i;
      do h <- store_span h ua i (wrap32 (span ul + 1));
      bump_spans count' (S i) h update
  end.

(** The end of [Set], from [newNode := &node{...}] on. *)
Definition Set_link (h : heap) (s : SkipList) (k : K) (v : V) (newLevel : nat)
  (update : list (option addr)) (rank : list Z) : result (heap * SkipList) :=
  do eff <- effectiveMaxLevel h s;
  do lvls <- make (Level None 0) (Z.of_nat newLevel + 1) (eff + 1);
  let '(h, newNode) := alloc h (Node lvls None k v) in
  do u0 <- index update 0%nat;
  do (pa, pn) <- deref h u0;
  do h <- (if decide (key pn ≠ knil)
           then do nn <- load h newNode; Ok (<[newNode := set_backward nn (Some pa)]> h)
           else Ok h);
  do h <- Set_splice (S newLevel) 0%nat h newNode update rank;
  do lv <- level_of h s;
  do h <- bump_spans (Z.to_nat (lv - Z.of_nat newLevel)) (S newLevel) h update;
  let s := mkSkipList (header s) (footer s) (slength s + 1) (MaxLevel s) in
  do nl <- slot h newNode 0%nat;
  do h <- match forward nl with
          | Some f =>
              do fn <- load h f;
              if decide (backward fn ≠ Some newNode)
              then Ok (<[f := set_backward fn (Some newNode)]> h)
              else Ok h
          | None => Ok h
          end;
  do newfoot <- match footer s with
                | None => Ok true
                | Some ft => do fn <- load h ft; Ok (lessThan (key fn) k)
                end;
  let s := if newfoot
           then mkSkipList (header s) (Some newNode) (slength s) (MaxLevel s)
           else s in
  Ok (h, s).

(** The part of [Set] that runs when the key is not in the list, from
    [newLevel := s.randomLevel()] on. *)
Definition Set_insert (h : heap) (s : SkipList) (r : rng) (k : K) (v : V)
  (update : list (option addr)) (rank : list Z) : result (heap * SkipList * rng) :=
  do (newLevel, r) <- randomLevel h s r;
  do currentLevel <- level_of h s;
  do (h, update, rank) <-
    (if Z.of_nat newLevel >? currentLevel
     then Set_grow (Z.to_nat (Z.of_nat newLevel - currentLevel))
                   (Z.to_nat (currentLevel + 1)) h s update rank
     else Ok (h, update, rank));
  do (h, s) <- Set_link h s k v newLevel update rank;
  Ok (h, s, r).

(** [if candidate != nil && candidate.key == key] *)
Definition Set_found (h : heap) (k : K) (candidate : option addr)
  : result (option (addr * node)) :=
  match candidate with
  | Some c => do cn <- load h c; Ok (if decide (key cn = k) then Some (c, cn) else None)
  | None => Ok None
  end.

Definition SkipList_Set (h : heap) (s : SkipList) (r : rng) (k : K) (v : V)
  : result (heap * SkipList * rng) :=
  if decide (k = knil) then Panic "goskiplist: nil keys are not supported" else
  do lv <- level_of h s;
  do eff <- effectiveMaxLevel h s;
  do update <- make (None : option addr) (lv + 1) (eff + 1);
  do rank <- make 0 (lv + 1) (eff + 1);
  do (candidate, update, rank) <- searchForInsert h s k update rank;
  do found <- Set_found h k candidate;
  match found with
  | Some (c, cn) => Ok (<[c := set_value cn v]> h, s, r)
  | None => Set_insert h s r k v update rank
  end.

(** ** Bulk fill *)

(** [for i := currentLevel + 1; i <= newLevel; i++] in [FillBySortedSlice]. *)
Fixpoint Fill_grow (count i : nat) (h : heap) (s : SkipList) (pos : Z)
  (update : list (option addr)) : result (heap * list (option addr)) :=
  match count with
  | O => Ok (h, update)
  | S count' =>
      do h <- append_level h s;
      let update := update ++ [Some (header s)] in
      do u <- index update i;
      do (ua, _) <- deref h u;
      do h <- store_span h ua i (wrap32 pos);
      Fill_grow count' (S i) h s pos update
  end.

(** [for i := 0; i <= newLevel; i++] in [FillBySortedSlice]. *)
Fixpoint Fill_splice (count i : nat) (h : heap) (newNode : addr)
  (update : list (option addr)) : result (heap * list (option addr)) :=
  match count with
  | O => Ok (h, update)
  | S count' =>
      do u <- index update i;
      do (ua, _) <- deref h u;
      do h <- store_forward h ua i (Some newNode);
      do ul <- slot h ua i;
      do h <- store_span h ua i (wrap32 (span ul + 1));
      do update <- assign update i (Some newNode);
      Fill_splice count' (S i) h newNode update
  end.

(** One round of [for pos, elem := range elements], from
    [newNode := &node{...}] on. *)
Definition Fill_link (h : heap) (s : SkipList) (elem : K * V) (newLevel : nat)
  (update : list (option addr)) : result (heap * SkipList * list (option addr)) :=
  do eff <- effectiveMaxLevel h s;
  do lvls <- make (Level None 0) (Z.of_nat newLevel + 1) (eff + 1);
  let '(h, newNode) := alloc h (Node lvls None (fst elem) (snd elem)) in
  do u0 <- index update 0%nat;
  do h <- (if decide (u0 ≠ Some (header s))
           then
             do nn <- load h newNode;
             let h := <[newNode := set_backward nn u0]> h in
             do (_, un) <- deref h u0;
             do nn <- load h newNode;
             if lessThan (key un) (key nn) then Ok h
             else Panic "goskiplist: fill by unsorted slice"
           else Ok h);
  do (h, update) <- Fill_splice (S newLevel) 0%nat h newNode update;
  do lv <- level_of h s;
  do h <- bump_spans (Z.to_nat (lv - Z.of_nat newLevel)) (S newLevel) h update;
  let s := mkSkipList (header s) (Some newNode) (slength s + 1) (MaxLevel s) in
  Ok (h, s, update).

(** One round of [for pos, elem := range elements]. *)
Definition Fill_round (h : heap) (s : SkipList) (r : rng) (pos : Z) (elem : K * V)
  (update : list (option addr)) : result (heap * SkipList * rng * list (option addr)) :=
  do (newLevel, r) <- randomLevel h s r;
  do currentLevel <- level_of h s;
  do (h, update) <-
    (if Z.of_nat newLevel >? currentLevel
     then Fill_grow (Z.to_nat (Z.of_nat newLevel - currentLevel))
                    (Z.to_nat (currentLevel + 1)) h s pos update
     else Ok (h, update));
  do (h, s, update) <- Fill_link h s elem newLevel update;
  Ok (h, s, r, update).

Fixpoint Fill_loop (elements : list (K * V)) (pos : Z) (h : heap) (s : SkipList)
  (r : rng) (update : list (option addr)) : result (heap * SkipList * rng) :=
  match elements with
  | [] => Ok (h, s, r)
  | elem :: elements' =>
      do (h, s, r, update) <- Fill_round h s r pos elem update;
      Fill_loop elements' (pos + 1) h s r update
  end.

Definition FillBySortedSlice (h : heap) (s : SkipList) (r : rng)
  (elements : list (K * V)) : result (heap * SkipList * rng * bool) :=
  if decide (Len s ≠ 0) then Panic "goskiplist: can only fill empty skiplist" else
  do lv <- level_of h s;
  do eff <- effectiveMaxLevel h s;
  do update <- make (None : option addr) (lv + 1) (eff + 1);
  do update <- assign update 0%nat (Some (header s));
  do (h, s, r) <- Fill_loop elements 0 h s r update;
  Ok (h, s, r, true).

(** ** Deletion *)

Fixpoint searchForDelete_loop (h : heap) (k : K) (n : nat) (current : addr)
  (update : list (option addr)) : result (option addr * list (option addr)) :=
  match n with
  | O => do c <- next_of h current; Ok (c, update)
  | S i =>
      do current <- advance (fuel_of h) h i k current;
      do update <- assign update i (Some current);
      searchForDelete_loop h k i current update
  end.

Definition searchForDelete (h : heap) (current : addr) (k : K)
  (update : list (option addr)) : result (option addr * list (option addr)) :=
  do n <- load h current;
  let depth := Z.of_nat (length (levels n)) - 1 in
  searchForDelete_loop h k (Z.to_nat (depth + 1)) current update.

(** [for i := 0; i <= s.level(); i++] in [Delete]. *)
Fixpoint Delete_unlink (count i : nat) (h : heap) (candidate : addr)
  (update : list (option addr)) : result heap :=
  match count with
  | O => Ok h
  | S count' =>
      do u <- index update i;
      do (ua, _) <- deref h u;
      do ul <- slot h ua i;
      do h <- (if decide (forward ul = Some candidate)
               then
                 do cl <- slot h candidate i;
                 do h <- store_span h ua i (wrap32 (span ul + wrap32 (span cl - 1)));
                 do cl <- slot h candidate i;
                 store_forward h ua i (forward cl)
               else store_span h ua i (wrap32 (span ul - 1)));
      Delete_unlink count' (S i) h candidate update
  end.

(** [for s.level() > 0 && s.header.levels[s.level()].forward == nil]:
    every round drops one level, so it is over within as many rounds as
    the header has levels. *)
Fixpoint Delete_trim (count : nat) (h : heap) (s : SkipList) : result heap :=
  match count with
  | O => OutOfFuel
  | S count' =>
      do lv <- level_of h s;
      if lv >? 0 then
        do l <- slot h (header s) (Z.to_nat lv);
        match forward l with
        | None =>
            do hd <- load h (header s);
            Delete_trim count'
              (<[header s := set_levels hd (take (Z.to_nat lv) (levels hd))]> h) s
        | Some _ => Ok h
        end
      else Ok h
  end.

(** [if candidate == nil || candidate.key != key] *)
Definition Delete_found (h : heap) (k : K) (candidate : option addr)
  : result (option (addr * node)) :=
  match candidate with
  | Some c => do cn <- load h c; Ok (if decide (key cn ≠ k) then None else Some (c, cn))
  | None => Ok None
  end.

(** The end of [Delete], from [previous := candidate.backward] on. *)
Definition Delete_remove (h : heap) (s : SkipList) (c : addr) (cn : node)
  (update : list (option addr)) : result (heap * SkipList * (V * bool)) :=
  let prev := backward cn in
  let s := if decide (footer s = Some c)
           then mkSkipList (header s) prev (slength s) (MaxLevel s) else s in
  let nxt := next cn in
  do h <- match nxt with
          | Some nx => do nn <- load h nx; Ok (<[nx := set_backward nn prev]> h)
          | None => Ok h
          end;
  do lv <- level_of h s;
  do h <- Delete_unlink (Z.to_nat (lv + 1)) 0%nat h c update;
  do hd <- load h (header s);
  do h <- Delete_trim (S (length (levels hd))) h s;
  let s := mkSkipList (header s) (footer s) (slength s - 1) (MaxLevel s) in
  do cn <- load h c;
  Ok (h, s, (value cn, true)).

Definition Delete (h : heap) (s : SkipList) (k : K)
  : result (heap * SkipList * (V * bool)) :=
  if decide (k = knil) then Panic "goskiplist: nil keys are not supported" else
  do lv <- level_of h s;
  do eff <- effectiveMaxLevel h s;
  do update <- make (None : option addr) (lv + 1) eff;
  do (candidate, update) <- searchForDelete h (header s) k update;
  do found <- Delete_found h k candidate;
  match found with
  | None => Ok (h, s, (vnil, false))
  | Some (c, cn) => Delete_remove h s c cn update
  end.

(** ** Cursor movement *)

Definition iter_Next (h : heap) (i : iter) : result (iter * bool) :=
  do (_, cn) <- deref h (current i);
  if negb (hasNext cn) then Ok (i, false) else
  do (a, n) <- deref h (next cn);
  Ok (iter_at a n, true).

Definition iter_Previous (h : heap) (i : iter) : result (iter * bool) :=
  do (_, cn) <- deref h (current i);
  if negb (hasPrevious cn) then Ok (i, false) else
  do (a, n) <- deref h (previous cn);
  Ok (iter_at a n, true).

Record rangeIterator := mkRangeIterator {
  riter : iter;
  upperLimit : K;
  lowerLimit : K
}.

Definition rangeIterator_Next (h : heap) (i : rangeIterator)
  : result (rangeIterator * bool) :=
  do (_, cn) <- deref h (current (riter i));
  if negb (hasNext cn) then Ok (i, false) else
  do (_, nn) <- deref h (next cn);
  if negb (lessThan (key nn) (upperLimit i)) then Ok (i, false) else
  do (a, n) <- deref h (next cn);
  Ok (mkRangeIterator (iter_at a n) (upperLimit i) (lowerLimit i), true).

Definition rangeIterator_Previous (h : heap) (i : rangeIterator)
  : result (rangeIterator * bool) :=
  do (_, cn) <- deref h (current (riter i));
  if negb (hasPrevious cn) then Ok (i, false) else
  do (_, pn) <- deref h (previous cn);
  if lessThan (key pn) (lowerLimit i) then Ok (i, false) else
  do (a, n) <- deref h (previous cn);
  Ok (mkRangeIterator (iter_at a n) (upperLimit i) (lowerLimit i), true).

(** [Iterator()] starts on the header. *)
Definition Iterator (s : SkipList) : iter := mkIter (Some (header s)) knil vnil.

Definition SeekToFirst (h : heap) (s : SkipList) : result (option iter) :=
  if decide (slength s = 0) then Ok None else
  do hd <- load h (header s);
  do (a, n) <- deref h (next hd);
  Ok (Some (iter_at a n)).

(** [Range] allocates the node the cursor starts on. *)
Definition Range (h : heap) (s : SkipList) (from to : K) : result (heap * rangeIterator) :=
  do start <- getLowerBound h (header s) from;
  let '(h, a) := alloc h (Node [Level start 0] start knil vnil) in
  Ok (h, mkRangeIterator (mkIter (Some a) knil vnil) to from).

(** ** Lookups that return a neighbour, and the other cursors *)

Definition GetGreaterOrEqual (h : heap) (s : SkipList) (min : K)
  : result (K * V * bool) :=
  do c <- getLowerBound h (header s) min;
  match c with
  | Some a => do n <- load h a; Ok (key n, value n, true)
  | None => Ok (knil, vnil, false)
  end.

Definition SkipList_Seek (h : heap) (s : SkipList) (k : K) : result (option iter) :=
  do c <- getLowerBound h (header s) k;
  match c with
  | None => Ok None
  | Some a => do n <- load h a; Ok (Some (iter_at a n))
  end.

Definition SeekToLast (h : heap) (s : SkipList) : result (option iter) :=
  match footer s with
  | None => Ok None
  | Some a => do n <- load h a; Ok (Some (iter_at a n))
  end.

(** [iter.Seek]: the search starts on the node before the current one,
    or on the header when the cursor is closed, when the key sought lies
    before the current key, or when the current node has no node before
    it. *)
Definition iter_Seek (h : heap) (s : SkipList) (i : iter) (k : K)
  : result (iter * bool) :=
  let c := match current i with None => header s | Some a => a end in
  do cn <- load h c;
  let c := if bool_decide (key cn ≠ knil) && lessThan k (key cn)
           then header s else c in
  do cn <- load h c;
  let c := match backward cn with None => header s | Some b => b end in
  do r <- getLowerBound h c k;
  match r with
  | None => Ok (i, false)
  | Some a => do n <- load h a; Ok (iter_at a n, true)
  end.

Definition rangeIterator_Seek (h : heap) (s : SkipList) (i : rangeIterator) (k : K)
  : result (rangeIterator * bool) :=
  if lessThan k (lowerLimit i) then Ok (i, false)
  else if negb (lessThan k (upperLimit i)) then Ok (i, false)
  else do (it, ok) <- iter_Seek h s (riter i) k;
       Ok (mkRangeIterator it (upperLimit i) (lowerLimit i), ok).

(** ** The type [Set]: an engine whose values are all nil *)

Definition Set_Add (h : heap) (s : SkipList) (r : rng) (k : K)
  : result (heap * SkipList * rng) :=
  SkipList_Set h s r k vnil.

Definition Set_Remove (h : heap) (s : SkipList) (k : K)
  : result (heap * SkipList * bool) :=
  do (h, s, res) <- Delete h s k; Ok (h, s, res.2).

Definition Set_Len (s : SkipList) : Z := Len s.

Definition Set_Contains (h : heap) (s : SkipList) (k : K) : result bool :=
  do res <- Get h s k; Ok res.2.

Definition SetMaxLevel (s : SkipList) (newMaxLevel : Z) : SkipList :=
  mkSkipList (header s) (footer s) (slength s) newMaxLevel.

Definition GetMaxLevel (s : SkipList) : Z := MaxLevel s.

End Engine.

Global Arguments fuel_of : simpl never.

(** A node of the level-0 chain seen from outside: its address and the
    number of its levels. *)
Abbreviation tower := (addr * nat)%type.

(** The store of the engine's nodes. *)
Abbreviation heap K V := (list (node (K := K) (V := V))).

(** ** The sorted set of [zset.go]

    A score cell is a heap object of its own: the engine's keys are
    pointers to cells, the comparator reads the cells through the
    pointers, and the pool hands a returned cell out again after
    overwriting it. *)

Section ZSet.

Context {AK Sc : Type} `{Countable AK} `{EqDecision Sc}.

(** The [nil] of [interface{}] as an engine value. *)
Variable aknil : AK.

Variable scoreLessThan : Sc → Sc → bool.

Record zsetScore := mkScore { score : Sc; counter : Z }.

Local Abbreviation cells := (list zsetScore).

(** The channel of the pool is a bounded queue. *)
Record zsetScorePool := mkPool {
  pool : list addr;
  pool_cap : nat;
  pool_counter : Z
}.

Record ZSet := mkZSet {
  key2Score : gmap AK addr;
  sl : SkipList;
  zpool : zsetScorePool
}.

Definition newzsetScorePool (cap : nat) : zsetScorePool := mkPool [] cap 0.

Definition pool_Get (c : cells) (p : zsetScorePool) (sc : Sc)
  : cells * zsetScorePool * addr :=
  match pool p with
  | s :: rest =>
      let n := wrap64 (pool_counter p + 1) in
      (<[s := mkScore sc n]> c, mkPool rest (pool_cap p) n, s)
  | [] =>
      let n := wrap64 (pool_counter p + 1) in
      (c ++ [mkScore sc n], mkPool [] (pool_cap p) n, length c)
  end.

Definition pool_Put (p : zsetScorePool) (s : addr) : zsetScorePool :=
  if decide (length (pool p) < pool_cap p)%nat
  then mkPool (pool p ++ [s]) (pool_cap p) (pool_counter p)
  else p.

Definition load_cell (c : cells) (p : option addr) : result zsetScore :=
  match p with
  | Some a =>
      match c !! a with
      | Some zs => Ok zs
      | None => Panic "invalid memory address"
      end
  | None => Panic "nil pointer dereference"
  end.

(** The comparator [NewCustomZSet] gives the engine.  Its type
    assertions fail on a key that is no cell; the engine never calls it
    on one, and the model answers [false] there. *)
Definition zless (c : cells) (l r : option addr) : bool :=
  match l ≫= (c !!.), r ≫= (c !!.) with
  | Some lzs, Some rzs =>
      if scoreLessThan (score lzs) (score rzs) then true
      else if decide (score lzs = score rzs)
           then bool_decide (counter lzs < counter rzs)
           else false
  | _, _ => false
  end.

Definition NewCustomZSet (h : heap (option addr) AK) : heap (option addr) AK * ZSet :=
  let '(h, s) := NewCustomMap None aknil h in
  (h, mkZSet ∅ s (newzsetScorePool 128)).

(** The state a sorted set lives in: the cells, the engine's nodes, the
    random source. *)
Record zworld := mkWorld {
  zcells : cells;
  zheap : heap (option addr) AK;
  zrng : rng
}.

(** The branch [if score != curZScore.score] shared by [Add] and [Update]. *)
Definition rescore (w : zworld) (z : ZSet) (k : AK) (sc : Sc) (cur : addr)
  : result (zworld * ZSet) :=
  do (h, s, _) <- Delete None aknil (zless (zcells w)) (zheap w) (sl z) (Some cur);
  let p := pool_Put (zpool z) cur in
  let '(c, p, zs) := pool_Get (zcells w) p sc in
  do (h, s, r) <- SkipList_Set None (zless c) h s (zrng w) (Some zs) k;
  Ok (mkWorld c h r, mkZSet (<[k := zs]> (key2Score z)) s p).

Definition Add (w : zworld) (z : ZSet) (k : AK) (sc : Sc)
  : result (zworld * ZSet * bool) :=
  match key2Score z !! k with
  | Some cur =>
      do cz <- load_cell (zcells w) (Some cur);
      if decide (sc ≠ score cz)
      then do (w, z) <- rescore w z k sc cur; Ok (w, z, true)
      else Ok (w, z, true)
  | None =>
      let '(c, p, zs) := pool_Get (zcells w) (zpool z) sc in
      let m := <[k := zs]> (key2Score z) in
      do (h, s, r) <- SkipList_Set None (zless c) (zheap w) (sl z) (zrng w) (Some zs) k;
      Ok (mkWorld c h r, mkZSet m s p, true)
  end.

Definition Update (w : zworld) (z : ZSet) (k : AK) (sc : Sc)
  : result (zworld * ZSet * bool) :=
  match key2Score z !! k with
  | None => Ok (w, z, false)
  | Some cur =>
      do cz <- load_cell (zcells w) (Some cur);
      if decide (sc ≠ score cz)
      then do (w, z) <- rescore w z k sc cur; Ok (w, z, true)
      else Ok (w, z, true)
  end.

Definition Remove (w : zworld) (z : ZSet) (k : AK)
  : result (zworld * ZSet * bool) :=
  match key2Score z !! k with
  | None => Ok (w, z, false)
  | Some cur =>
      do (h, s, _) <- Delete None aknil (zless (zcells w)) (zheap w) (sl z) (Some cur);
      let p := pool_Put (zpool z) cur in
      Ok (mkWorld (zcells w) h (zrng w),
          mkZSet (delete k (key2Score z)) s p, true)
  end.

Definition ZSet_Rank (w : zworld) (z : ZSet) (k : AK) : result Z :=
  match key2Score z !! k with
  | None => Ok 0
  | Some cur => Rank (zless (zcells w)) (zheap w) (sl z) (Some cur)
  end.

(** [curZScore, _ := z.key2Score[key]; return curZScore.score]: the
    lookup of a missing key gives the nil pointer. *)
Definition Score (w : zworld) (z : ZSet) (k : AK) : result Sc :=
  let curZScore := key2Score z !! k in
  do cz <- load_cell (zcells w) curZScore;
  Ok (score cz).

(** [for rangeIter.Next() { keys = append(keys, rangeIter.Value()) }] *)
Fixpoint collect (fuel : nat) (less : option addr → option addr → bool)
  (h : heap (option addr) AK) (i : rangeIterator) (keys : list AK)
  : result (list AK) :=
  match fuel with
  | O => OutOfFuel
  | S fuel' =>
      do (i, ok) <- rangeIterator_Next less h i;
      if ok then collect fuel' less h i (keys ++ [Value (riter i)])
      else Ok keys
  end.

Definition RangeByScore (w : zworld) (z : ZSet) (scoreFrom scoreTo : Sc)
  : result (zworld * list AK) :=
  let lo := length (zcells w) in
  let c := zcells w ++ [mkScore scoreFrom 0] in
  let hi := length c in
  let c := c ++ [mkScore scoreTo MaxInt64] in
  do (h, it) <- Range None aknil (zless c) (zheap w) (sl z) (Some lo) (Some hi);
  do keys <- collect (fuel_of h) (zless c) h it [];
  Ok (mkWorld c h (zrng w), keys).

Definition Card (z : ZSet) : Z := Z.of_nat (size (key2Score z)).

(** [ZSet.Clear]: a new map and a cleared engine; the pool stays. *)
Definition ZSet_Clear (w : zworld) (z : ZSet) : zworld * ZSet :=
  let '(h, s) := Clear None aknil (zheap w) (sl z) in
  (mkWorld (zcells w) h (zrng w), mkZSet ∅ s (zpool z)).

(** [for iter.Next() { elements = append(elements,
      [2]interface{}{iter.Value(), iter.Key().( *zsetScore).score}) }] *)
Fixpoint Marshal_loop (fuel : nat) (c : cells) (h : heap (option addr) AK)
  (i : iter) (elements : list (AK * Sc)) : result (list (AK * Sc)) :=
  match fuel with
  | O => OutOfFuel
  | S fuel' =>
      do (i, ok) <- iter_Next h i;
      if ok
      then do zs <- load_cell c (Key i);
           Marshal_loop fuel' c h i (elements ++ [(Value i, score zs)])
      else Ok elements
  end.

Definition Marshal (w : zworld) (z : ZSet) : result (list (AK * Sc)) :=
  Marshal_loop (fuel_of (zheap w)) (zcells w) (zheap w)
    (Iterator None aknil (sl z)) [].

(** [Foreach]: [fn] is a callback that leaves the set alone; what it
    does is a change of a state [A] of the caller. *)
Fixpoint Foreach_loop {A : Type} (fuel : nat) (c : cells)
  (h : heap (option addr) AK) (i : iter) (fn : AK → Sc → A → A) (st : A)
  : result A :=
  match fuel with
  | O => OutOfFuel
  | S fuel' =>
      do (i, ok) <- iter_Next h i;
      if ok
      then do zs <- load_cell c (Key i);
           Foreach_loop fuel' c h i fn (fn (Value i) (score zs) st)
      else Ok st
  end.

Definition Foreach {A : Type} (w : zworld) (z : ZSet) (fn : AK → Sc → A → A) (st : A)
  : result A :=
  Foreach_loop (fuel_of (zheap w)) (zcells w) (zheap w)
    (Iterator None aknil (sl z)) fn st.

(** The loop of [Unmarshal]: every element gets a cell from the pool and
    an entry in the map, and its place in the caller's slice is
    overwritten with the pair of the cell and the key. *)
Fixpoint Unmarshal_loop (elements : list (AK * Sc)) (c : cells)
  (m : gmap AK addr) (p : zsetScorePool)
  : cells * gmap AK addr * zsetScorePool * list (option addr * AK) :=
  match elements with
  | [] => (c, m, p, [])
  | (k, sc) :: rest =>
      let '(c, p, zs) := pool_Get c p sc in
      let m := <[k := zs]> m in
      let '(c, m, p, out) := Unmarshal_loop rest c m p in
      (c, m, p, (Some zs, k) :: out)
  end.

Definition Unmarshal (w : zworld) (z : ZSet) (elements : list (AK * Sc))
  : result (zworld * ZSet * list (option addr * AK) * bool) :=
  let '(c, m, p, elems) :=
    Unmarshal_loop elements (zcells w) (key2Score z) (zpool z) in
  do (h, s, r, ok) <- FillBySortedSlice (zless c) (zheap w) (sl z) (zrng w) elems;
  Ok (mkWorld c h r, mkZSet m s p, elems, ok).

(** [for i := rankFrom; i <= rankTo; i++ { keys = append(...);
      if !iter.Next() { break } }] on [uint32] counters. *)
Fixpoint RangeByRank_loop (fuel : nat) (c : cells) (h : heap (option addr) AK)
  (it : iter) (i rankTo : Z) (keys : list (AK * Sc)) : result (list (AK * Sc)) :=
  match fuel with
  | O => OutOfFuel
  | S fuel' =>
      if i <=? rankTo
      then do zs <- load_cell c (Key it);
           let keys := keys ++ [(Value it, score zs)] in
           do (it, ok) <- iter_Next h it;
           if ok then RangeByRank_loop fuel' c h it (wrap32 (i + 1)) rankTo keys
           else Ok keys
      else Ok keys
  end.

(** [RangeByRank] returns [nil] or a slice. *)
Definition RangeByRank (w : zworld) (z : ZSet) (rankFrom rankTo : Z)
  : result (option (list (AK * Sc))) :=
  let rankTo := if wrap32 (Len (sl z)) <? rankTo then wrap32 (Len (sl z)) else rankTo in
  if rankTo <? rankFrom then Ok None else
  do it <- GetElemByRank (zheap w) (sl z) rankFrom;
  match it with
  | None => Ok None
  | Some it =>
      do keys <- RangeByRank_loop (fuel_of (zheap w)) (zcells w) (zheap w) it
                   rankFrom rankTo [];
      Ok (Some keys)
  end.

End ZSet.

(** ** What a well-formed engine looks like

    The level-0 chain of an engine is described by its towers: the
    address and the number of levels of every node, in list order.  The
    header is the tower in front of them. *)

Section Spec.

Context {K V : Type} `{EqDecision K}.
Variable knil : K.
Variable lessThan : K → K → bool.

Local Abbreviation heap := (heap K V).
Local Abbreviation iter := (iter (K := K) (V := V)).


Definition slot_at (h : heap) (a : addr) (j : nat) : option level :=
  h !! a ≫= λ n, levels n !! j.

Definition height (h : heap) (a : addr) : option nat :=
  (λ n, length (levels n)) <$> h !! a.

Definition keyof (h : heap) (a : addr) : K := from_option key knil (h !! a).

Definition backof (h : heap) (a : addr) : option addr := h !! a ≫= backward.

(** The first tower of [rest] that reaches above level [i], with its
    distance counted from one. *)
Fixpoint next_at (i : nat) (rest : list tower) : option (addr * nat) :=
  match rest with
  | [] => None
  | (a, ht) :: rest' =>
      if decide (i < ht)%nat then Some (a, 1%nat)
      else (λ bd, (bd.1, S bd.2)) <$> next_at i rest'
  end.

(** The slot at level [i] of a node followed by [rest]. *)
Definition want_slot (i : nat) (rest : list tower) : level :=
  match next_at i rest with
  | Some bd => Level (Some bd.1) (wrap32 (Z.of_nat bd.2))
  | None => Level None (wrap32 (Z.of_nat (length rest)))
  end.

Definition nodes_ok (h : heap) (all : list tower) : Prop :=
  ∀ p a ht, all !! p = Some (a, ht) →
    height h a = Some ht ∧
    ∀ j, (j < ht)%nat → slot_at h a j = Some (want_slot j (drop (S p) all)).

Definition sorted_keys (h : heap) (l : list addr) : Prop :=
  ∀ p q a b, (p < q)%nat → l !! p = Some a → l !! q = Some b →
    lessThan (keyof h a) (keyof h b) = true.

Record shape (h : heap) (s : SkipList) (L : nat) (ts : list tower) : Prop := {
  shape_nodup : NoDup (header s :: ts.*1);
  shape_nodes : nodes_ok h ((header s, L) :: ts);
  shape_heights : (1 ≤ L)%nat ∧ ∀ a ht, (a, ht) ∈ ts → (1 ≤ ht ≤ L)%nat;
  shape_sorted : sorted_keys h (ts.*1);
  shape_length : slength s = Z.of_nat (length ts)
}.

(** The top level of the header is in use, unless it is level 0. *)
Definition top_ok (L : nat) (ts : list tower) : Prop :=
  L = 1%nat ∨ ∃ a, (a, L) ∈ ts.

Record back (h : heap) (s : SkipList) (ts : list tower) : Prop := {
  back_header : ∃ hd, h !! header s = Some hd ∧ backward hd = None ∧ key hd = knil;
  back_nodes : ∀ p a, ts.*1 !! p = Some a →
    ∃ n, h !! a = Some n ∧
         backward n = match p with O => None | S p' => ts.*1 !! p' end;
  back_footer : footer s = last (ts.*1);
  back_nonnil : ∀ a, a ∈ ts.*1 → keyof h a ≠ knil
}.

Definition Inv (h : heap) (s : SkipList) (L : nat) (ts : list tower) : Prop :=
  shape h s L ts ∧ top_ok L ts ∧ back h s ts.

(** ** The vocabulary of the properties *)

(** [m] steps along level 0. *)
Fixpoint steps (h : heap) (m : nat) (p : option addr) : option addr :=
  match m with
  | O => p
  | S m' =>
      match p with
      | Some a =>
          match h !! a with
          | Some n => steps h m' (next n)
          | None => None
          end
      | None => None
      end
  end.

(** The header and the nodes of the level-0 chain. *)
Definition live (h : heap) (s : SkipList) (a : addr) : Prop :=
  ∃ m, steps h m (Some (header s)) = Some a.

(** The last node of the list: it has no successor. *)
Definition at_end (h : heap) (p : option addr) : Prop :=
  ∃ a n, p = Some a ∧ h !! a = Some n ∧ next n = None.

(** Following the forward pointer of a slot is the same as taking
    [span] steps along level 0. *)
Definition span_ok (h : heap) (a : addr) (l : level) : Prop :=
  match forward l with
  | Some f => steps h (Z.to_nat (span l)) (Some a) = Some f
  | None => at_end h (steps h (Z.to_nat (span l)) (Some a))
  end.

(** The sum of the spans along the chain of level [i] from [a] on. *)
Fixpoint span_sum (fuel : nat) (h : heap) (i : nat) (a : addr) : option Z :=
  match fuel with
  | O => None
  | S fuel' =>
      match slot_at h a i with
      | None => None
      | Some l =>
          match forward l with
          | None => Some (span l)
          | Some b => (λ z, span l + z) <$> span_sum fuel' h i b
          end
      end
  end.

Definition span_invariant (h : heap) (s : SkipList) : Prop :=
  (∀ a i l, live h s a → slot_at h a i = Some l → span_ok h a l) ∧
  (∀ i l, slot_at h (header s) i = Some l →
     span_sum (fuel_of h) h i (header s) = Some (slength s)).

(** The addresses of the level-0 chain from [p] on. *)
Fixpoint chain (fuel : nat) (h : heap) (p : option addr) : list addr :=
  match fuel with
  | O => []
  | S fuel' =>
      match p with
      | Some a => a :: chain fuel' h (from_option next None (h !! a))
      | None => []
      end
  end.

(** [m] moves of a cursor that all succeed, with the keys they show. *)
Fixpoint moves (move : heap → iter → result (iter * bool)) (m : nat) (h : heap)
  (i : iter) : option (list K * iter) :=
  match m with
  | O => Some ([], i)
  | S m' =>
      match move h i with
      | Ok (i', true) =>
          (λ r, (Key i' :: r.1, r.2)) <$> moves move m' h i'
      | _ => None
      end
  end.

(** ** Auxiliary notions of the proofs *)

(** What a store into a slot leaves alone in a node. *)
Definition meta (h : heap) (a : addr) : option (nat * option addr * K * V) :=
  (λ n, (length (levels n), backward n, key n, value n)) <$> h !! a.

Definition same_meta (h h' : heap) : Prop := ∀ a, meta h' a = meta h a.

(** The towers at positions [1..r] have keys below [k], the later ones
    do not. *)
Record split_at (h : heap) (all : list tower) (k : K) (r : nat) : Prop := {
  split_lt : ∀ q a ht, (1 ≤ q ≤ r)%nat → all !! q = Some (a, ht) →
             lessThan (keyof h a) k = true;
  split_ge : ∀ q a ht, (r < q)%nat → all !! q = Some (a, ht) →
             lessThan (keyof h a) k = false;
  split_bound : (r < length all)%nat
}.

(** No tower strictly after position [p] and up to position [r] reaches
    above level [j]. *)
Definition low_between (all : list tower) (j p r : nat) : Prop :=
  ∀ q a ht, (p < q ≤ r)%nat → all !! q = Some (a, ht) → (ht ≤ j)%nat.

(** Position [p] holds the last tower up to position [r] that reaches
    above level [j]. *)
Definition pred_at (all : list tower) (j r p : nat) (a : addr) : Prop :=
  (p ≤ r)%nat ∧ (∃ ht, all !! p = Some (a, ht) ∧ (j < ht)%nat) ∧ low_between all j p r.

(** What the searches for [k] rely on. *)
Record search_ctx (h : heap) (all : list tower) (k : K) (r : nat) : Prop := {
  ctx_nodes : nodes_ok h all;
  ctx_split : split_at h all k r;
  ctx_low : ∀ p a ht, all !! p = Some (a, ht) → (1 ≤ ht)%nat;
  ctx_fuel : (length all ≤ length h)%nat;
  ctx_uniq : ∀ q a ht, (S r < q)%nat → all !! q = Some (a, ht) → keyof h a ≠ k
}.

(** The node that holds [k], which can only be the one after position [r]. *)
Definition target (h : heap) (all : list tower) (k : K) (r : nat) : option addr :=
  match all !! S r with
  | Some (f, _) => if decide (keyof h f = k) then Some f else None
  | None => None
  end.

(** Where a descent stands before it enters level [n - 1]. *)
Definition desc (all : list tower) (n r p : nat) (a : addr) : Prop :=
  (p ≤ r)%nat ∧ (∃ ht, all !! p = Some (a, ht) ∧ (n ≤ ht)%nat) ∧ low_between all n p r.

(** The two halves of [want_slot]: where the forward pointer leads and
    how many steps that is. *)
Definition fwd_at (i : nat) (rest : list tower) : option addr :=
  fst <$> next_at i rest.

Definition dist_at (i : nat) (rest : list tower) : nat :=
  match next_at i rest with
  | Some bd => bd.2
  | None => length rest
  end.

(** The list with a tower put in after position [r]. *)
Definition insert_after (all : list tower) (r : nat) (t : tower) : list tower :=
  take (S r) all ++ t :: drop (S r) all.

(** The list without the tower after position [r]. *)
Definition remove_after (all : list tower) (r : nat) : list tower :=
  take (S r) all ++ drop (S (S r)) all.

(** A slot whose span has grown by one. *)
Definition bump (l : level) : level := Level (forward l) (wrap32 (span l + 1)).

(** The header after [count] rounds of [append]. *)
Definition grown (hd : node (K := K) (V := V)) (count : nat) (sp : Z) : node :=
  set_levels hd (levels hd ++ replicate count (Level None sp)).

(** The description of a node whose back pointer has been set. *)
Definition meta_set_back (b : option addr) (m : nat * option addr * K * V)
  : nat * option addr * K * V :=
  (m.1.1.1, b, m.1.2, m.2).

(** A node without its levels. *)
Definition binfo (h : heap) (a : addr) : option (option addr * K * V) :=
  (λ n, (backward n, key n, value n)) <$> h !! a.

(** The header with its levels cut down to [L']. *)
Definition trimmed (hd : node (K := K) (V := V)) (L' : nat) : node :=
  set_levels hd (take L' (levels hd)).

(** The slot of the tower before a removed node [cl] is the slot of. *)
Definition unlinked (hc j : nat) (l cl : level) : level :=
  if decide (j < hc)%nat
  then Level (forward cl) (wrap32 (span l + wrap32 (span cl - 1)))
  else Level (forward l) (wrap32 (span l - 1)).

(** The back pointers alone, whatever the keys are. *)
Definition links (h : heap) (s : SkipList) (ts : list tower) : Prop :=
  (∃ hd, h !! header s = Some hd ∧ backward hd = None) ∧
  (∀ p a, ts.*1 !! p = Some a →
     ∃ n, h !! a = Some n ∧
          backward n = match p with O => None | S p' => ts.*1 !! p' end) ∧
  footer s = last (ts.*1).

(** Adjacent elements ascend. *)
Definition ascending (elements : list (K * V)) : Prop :=
  ∀ i e1 e2, elements !! i = Some e1 → elements !! S i = Some e2 →
    lessThan e1.1 e2.1 = true.

(** A well-formed engine, whatever its keys are. *)
Definition wf (h : heap) (s : SkipList) (L : nat) (ts : list tower) : Prop :=
  shape h s L ts ∧ top_ok L ts ∧ links h s ts.

(** The slice [update] between two rounds of [FillBySortedSlice]: at
    every level, the last tower that reaches above it. *)
Definition tails (s : SkipList) (L : nat) (ts : list tower)
  (update : list (option addr)) : Prop :=
  length update = L ∧
  ∀ j, (j < L)%nat →
    ∃ pj aj, update !! j = Some (Some aj) ∧
             pred_at ((header s, L) :: ts) j (length ts) pj aj.

(** The node of rank [r + 1] among the towers [all], as a cursor. *)
Definition selected (h : heap) (all : list tower) (r : nat) : option iter :=
  match all !! S r with
  | Some (f, _) => iter_at f <$> h !! f
  | None => None
  end.

(** The nodes at the front of [l] whose keys are below [to]. *)
Fixpoint below (h : heap) (to : K) (l : list addr) : list addr :=
  match l with
  | [] => []
  | a :: l' => if lessThan (keyof h a) to then a :: below h to l' else []
  end.

Definition valueof (vnil : V) (h : heap) (a : addr) : V :=
  from_option value vnil (h !! a).

(** The keys and values of the level-0 chain after the header, in list
    order: what the engine holds. *)
Definition entry_of (vnil : V) (h : heap) (a : addr) : K * V :=
  (keyof h a, valueof vnil h a).

Definition entries (vnil : V) (h : heap) (s : SkipList) : list (K * V) :=
  entry_of vnil h <$> tail (chain (fuel_of h) h (Some (header s))).

(** [r] entries lie below [k] and the others do not: the entry at index
    [r], if there is one, is the first whose key is not below [k]. *)
Definition lower_bound (E : list (K * V)) (k : K) (r : nat) : Prop :=
  (∀ j e, (j < r)%nat → E !! j = Some e → lessThan e.1 k = true) ∧
  (∀ j e, (r ≤ j)%nat → E !! j = Some e → lessThan e.1 k = false).

(** The cursor on the node that [m] steps from the header lead to. *)
Definition cursor (h : heap) (s : SkipList) (m : nat) : option iter :=
  steps h m (Some (header s)) ≫= λ a, iter_at a <$> h !! a.

End Spec.

(** ** What a well-formed sorted set looks like *)

Section ZSpec.

Context {AK Sc : Type} `{Countable AK} `{EqDecision Sc}.
Variable aknil : AK.
Variable scoreLessThan : Sc → Sc → bool.

(** The score cell that a node of the engine has for its key. *)
Definition cell_of (w : zworld (AK := AK) (Sc := Sc)) (a : addr) : option zsetScore :=
  keyof None (zheap w) a ≫= (zcells w !!.).

(** [from <= s <= to], said with the strict order. *)
Definition within (from to : Sc) (c : option (zsetScore (Sc := Sc))) : bool :=
  match c with
  | Some zs =>
      negb (scoreLessThan (score zs) from) && negb (scoreLessThan to (score zs))
  | None => false
  end.

(** The engine is well formed under the comparator of the set and [l] is
    its list of nodes; every node has a cell, whose counter is not
    negative (the pool counts up from zero); the map holds exactly the
    members of the list, each with its cell. *)
Definition zset_ok (w : zworld) (z : ZSet (AK := AK)) (l : list addr) : Prop :=
  ∃ L ts,
    Inv None (zless scoreLessThan (zcells w)) (zheap w) (sl z) L ts ∧
    l = ts.*1 ∧
    (∀ a, a ∈ l → ∃ zs, cell_of w a = Some zs ∧ 0 ≤ counter zs) ∧
    (∀ ak c, key2Score z !! ak = Some c ↔
             ∃ a, a ∈ l ∧ keyof None (zheap w) a = Some c ∧
                  valueof aknil (zheap w) a = ak).

(** What [Add], [Update] and [Remove] keep: the set is well formed; the
    cells that wait in the pool are pairwise different and are cells of
    no node; the counters of the cells of the nodes lie between 1 and
    the counter of the pool. *)
Definition zset_inv (w : zworld) (z : ZSet (AK := AK)) (l : list addr) : Prop :=
  zset_ok w z l ∧
  NoDup (pool (zpool z)) ∧
  (∀ c, c ∈ pool (zpool z) →
        (c < length (zcells w))%nat ∧
        ∀ a, a ∈ l → keyof None (zheap w) a ≠ Some c) ∧
  0 ≤ pool_counter (zpool z) ∧
  (∀ a zs, a ∈ l → cell_of w a = Some zs →
           0 < counter zs ≤ pool_counter (zpool z)).

(** The pair that [Marshal], [Foreach] and [RangeByRank] show for a
    node: its application key and the score of its cell. *)
Definition row (w : zworld) (a : addr) : option (AK * Sc) :=
  (λ zs, (valueof aknil (zheap w) a, score zs)) <$> cell_of w a.

Definition rows (w : zworld) (l : list addr) : list (AK * Sc) := omap (row w) l.

End ZSpec.

(** ** The engines a program can build

    An engine comes from [NewCustomMap] and goes through calls that
    return: [Set], [Delete], [FillBySortedSlice] (on keys that are not
    nil, which is what the package asks of its callers) and [Clear].
    The field [MaxLevel] is exported and may be assigned between calls,
    and the store may receive nodes of other owners, such as the start
    node of a range cursor. *)

Section Reach.

Context {K V : Type} `{EqDecision K}.
Variable knil : K.
Variable vnil : V.
Variable lessThan : K → K → bool.

Inductive reachable : heap K V → SkipList → Prop :=
| reach_new h :
    reachable (NewCustomMap knil vnil h).1 (NewCustomMap knil vnil h).2
| reach_set h s rg k v h' s' rg' :
    reachable h s →
    SkipList_Set knil lessThan h s rg k v = Ok (h', s', rg') →
    reachable h' s'
| reach_delete h s k h' s' res :
    reachable h s →
    Delete knil vnil lessThan h s k = Ok (h', s', res) →
    reachable h' s'
| reach_fill h s rg elements h' s' rg' ok :
    reachable h s →
    (∀ e, e ∈ elements → e.1 ≠ knil) →
    FillBySortedSlice lessThan h s rg elements = Ok (h', s', rg', ok) →
    reachable h' s'
| reach_clear h s :
    reachable h s →
    reachable (Clear knil vnil h s).1 (Clear knil vnil h s).2
| reach_maxlevel h s m :
    reachable h s →
    reachable h (mkSkipList (header s) (footer s) (slength s) m)
| reach_alloc h s n :
    reachable h s → reachable (h ++ [n]) s.

End Reach.

(** ** Engines with integer keys

    The comparator of [NewIntMap], [l.(int) < r.(int)], on keys that are
    [nil] or hold an integer (the type assertion fails on [nil]; the
    model answers [false] there), and a few engines built with it. *)

Definition int_less (l r : option Z) : bool :=
  match l, r with
  | Some x, Some y => x <? y
  | _, _ => false
  end.

(** A random source that answers yes, no, yes, no and so on. *)
Definition coin : rng := Nat.even.

(** An engine with the store it lives in and the random source. *)
Definition IntMap : Type := heap (option Z) (option Z) * SkipList * rng.

Definition int_new : IntMap :=
  (NewCustomMap None None [], coin).

Definition int_set (less : option Z → option Z → bool) (k v : Z)
  (st : result IntMap) : result IntMap :=
  do (h, s, r) <- st; SkipList_Set None less h s r (Some k) (Some v).

Definition store (st : result IntMap) : heap (option Z) (option Z) :=
  match st with Ok (h, _, _) => h | _ => [] end.

Definition engine (st : result IntMap) : SkipList :=
  match st with Ok (_, s, _) => s | _ => mkSkipList 0 None 0 0 end.

(** The keys 10, 30 and 20, set in this order. *)
Definition demo : result IntMap :=
  int_set int_less 20 200 (int_set int_less 30 300 (int_set int_less 10 100 (Ok int_new))).

(** A comparator that cannot tell 2 from 3: it orders the halves. *)
Definition half_less (l r : option Z) : bool :=
  match l, r with
  | Some x, Some y => x / 2 <? y / 2
  | _, _ => false
  end.

(** ** A sorted set of integers

    Application keys and scores are integers, the scores ordered by
    [<]; [zdemo] is the set after [Add 7 50]. *)

Definition ZState : Type :=
  zworld (AK := option Z) (Sc := Z) * ZSet (AK := option Z).

Definition znew : ZState :=
  let '(h, z) := NewCustomZSet None [] in (mkWorld [] h coin, z).

Definition zdemo : result (ZState * bool) :=
  Add None Z.ltb znew.1 znew.2 (Some 7) 50.

Definition zworld_of (st : result (ZState * bool)) : zworld :=
  match st with Ok (w, _, _) => w | _ => znew.1 end.

Definition zset_of (st : result (ZState * bool)) : ZSet :=
  match st with Ok (_, z, _) => z | _ => znew.2 end.

(** ** An engine of [2^32] nodes

    The slice of the keys [0 .. n-1] with nil values for
    [FillBySortedSlice], a random source that always answers yes, the
    assignment [s.MaxLevel = m], and the number [2^32 - 1]. *)

Definition run_of (n : nat) : list (option Z * option Z) :=
  (λ i, (Some (Z.of_nat i), None)) <$> seq 0 n.

Definition yes : rng := λ _, true.

Definition with_MaxLevel (s : SkipList) (m : Z) : SkipList :=
  mkSkipList (header s) (footer s) (slength s) m.

Definition huge : nat := Z.to_nat 4294967295.

End Skiplist.

Import Skiplist.

Set Default Proof Using "Type".

(** * Basic facts *)

(** Arithmetic modulo [2^32]: keep the numeric hypotheses only, then let
    [lia] see the quotient and the remainder of each division. *)
Ltac is_arith T :=
  lazymatch T with
  | @eq Z _ _ => idtac
  | @eq nat _ _ => idtac
  | Z.le _ _ => idtac
  | Z.lt _ _ => idtac
  | Z.ge _ _ => idtac
  | Z.gt _ _ => idtac
  | le _ _ => idtac
  | lt _ _ => idtac
  | ge _ _ => idtac
  | gt _ _ => idtac
  | ?A ∧ ?B => is_arith A; is_arith B
  | ?A ∨ ?B => is_arith A; is_arith B
  | ¬ ?A => is_arith A
  | Z => idtac
  | nat => idtac
  end.

Ltac keep_arith :=
  repeat match goal with
  | H : ?T |- _ => tryif is_arith T then fail else clear H
  end.

Ltac wrap_lia :=
  keep_arith; unfold wrap32 in *; Z.to_euclidean_division_equations; lia.

Lemma wrap32_range z : 0 ≤ wrap32 z < 4294967296.
Proof. wrap_lia. Qed.

Lemma wrap32_small z : 0 ≤ z < 4294967296 → wrap32 z = z.
Proof. wrap_lia. Qed.

Lemma wrap32_add z1 z2 : wrap32 (wrap32 z1 + wrap32 z2) = wrap32 (z1 + z2).
Proof. wrap_lia. Qed.

Lemma wrap32_add_l z1 z2 : wrap32 (wrap32 z1 + z2) = wrap32 (z1 + z2).
Proof. wrap_lia. Qed.

Lemma wrap32_add_r z1 z2 : wrap32 (z1 + wrap32 z2) = wrap32 (z1 + z2).
Proof. wrap_lia. Qed.

Lemma wrap32_sub z1 z2 : wrap32 (wrap32 z1 - wrap32 z2) = wrap32 (z1 - z2).
Proof. wrap_lia. Qed.

Lemma wrap32_idemp z : wrap32 (wrap32 z) = wrap32 z.
Proof. wrap_lia. Qed.

Lemma rbind_Ok {A B} (m : result A) (k : A → result B) b :
  rbind m k = Ok b → ∃ a, m = Ok a ∧ k a = Ok b.
Proof. destruct m; simpl; [eauto | done | done]. Qed.

Section HeapFacts.

Context {K V : Type} `{EqDecision K}.
Variable knil : K.

Local Abbreviation heap := (heap K V).
Local Abbreviation node := (node (K := K) (V := V)).
Local Abbreviation keyof := (keyof knil).

Implicit Types (h : heap) (a b : addr) (n : node) (l : level).

Lemma load_Ok h a n : h !! a = Some n → load h a = Ok n.
Proof. unfold load. by intros ->. Qed.

Lemma load_inv h a n : load h a = Ok n → h !! a = Some n.
Proof. unfold load. by destruct (h !! a); intros [=->]. Qed.

Lemma slot_Ok h a i l : slot_at h a i = Some l → slot h a i = Ok l.
Proof.
  unfold slot_at, slot, load. destruct (h !! a) as [n|]; simpl; [|done].
  by intros ->.
Qed.

Lemma slot_inv h a i l : slot h a i = Ok l → slot_at h a i = Some l.
Proof.
  unfold slot_at, slot, load. destruct (h !! a) as [n|]; simpl; [|done].
  by destruct (levels n !! i); intros [=->].
Qed.

Lemma slot_at_height h a i l : slot_at h a i = Some l → ∃ ht, height h a = Some ht ∧ (i < ht)%nat.
Proof.
  unfold slot_at, height. destruct (h !! a) as [n|]; simpl; [|done].
  intros Hl. eexists; split; [done|]. by eapply lookup_lt_Some.
Qed.

Lemma height_slot_at h a i ht : height h a = Some ht → (i < ht)%nat → is_Some (slot_at h a i).
Proof.
  unfold slot_at, height. destruct (h !! a) as [n|]; simpl; [|done].
  intros [= <-] Hi. by apply lookup_lt_is_Some.
Qed.

Lemma height_Some h a ht : height h a = Some ht → ∃ n, h !! a = Some n ∧ length (levels n) = ht.
Proof. unfold height. destruct (h !! a); simpl; [|done]. intros [= <-]. eauto. Qed.

Local Abbreviation meta := (meta (K:=K) (V:=V)).
Local Abbreviation same_meta := (same_meta (K:=K) (V:=V)).

Lemma same_meta_refl h : same_meta h h.
Proof. done. Qed.

Lemma same_meta_trans h1 h2 h3 : same_meta h1 h2 → same_meta h2 h3 → same_meta h1 h3.
Proof. intros H1 H2 a. by rewrite H2, H1. Qed.

Lemma same_meta_height h h' a : same_meta h h' → height h' a = height h a.
Proof.
  intros Hm. specialize (Hm a). unfold meta, height in *.
  destruct (h' !! a), (h !! a); simpl in *; congruence.
Qed.

Lemma same_meta_keyof h h' a : same_meta h h' → keyof h' a = keyof h a.
Proof.
  intros Hm. specialize (Hm a). unfold meta, Skiplist.keyof in *.
  destruct (h' !! a), (h !! a); simpl in *; congruence.
Qed.

Lemma same_meta_backof h h' a : same_meta h h' → backof h' a = backof h a.
Proof.
  intros Hm. specialize (Hm a). unfold meta, backof in *.
  destruct (h' !! a), (h !! a); simpl in *; congruence.
Qed.

Lemma meta_is_Some h a : is_Some (meta h a) ↔ (a < length h)%nat.
Proof.
  unfold meta. rewrite fmap_is_Some. apply lookup_lt_is_Some.
Qed.

Lemma same_meta_length h h' : same_meta h h' → length h' = length h.
Proof.
  intros Hm. apply Nat.le_antisymm.
  - destruct (decide (length h' ≤ length h)%nat) as [|Hn]; [done|].
    assert (is_Some (meta h (length h))) as Hs.
    { rewrite <- Hm. apply meta_is_Some. lia. }
    apply meta_is_Some in Hs. lia.
  - destruct (decide (length h ≤ length h')%nat) as [|Hn]; [done|].
    assert (is_Some (meta h' (length h'))) as Hs.
    { rewrite Hm. apply meta_is_Some. lia. }
    apply meta_is_Some in Hs. lia.
Qed.

Lemma store_slot_spec h a i l l0 :
  slot_at h a i = Some l0 →
  ∃ h', store_slot h a i l = Ok h' ∧ same_meta h h' ∧
        ∀ b j, slot_at h' b j = if decide (b = a ∧ j = i) then Some l else slot_at h b j.
Proof.
  unfold slot_at, store_slot, load. destruct (h !! a) as [n|] eqn:Ha; simpl; [|done].
  intros Hl. rewrite Hl. eexists; split; [done|]. split.
  - intros b. unfold meta. destruct (decide (b = a)) as [->|Hne].
    + rewrite list_lookup_insert_eq by (by eapply lookup_lt_Some).
      rewrite Ha. simpl. by rewrite length_insert.
    + by rewrite list_lookup_insert_ne.
  - intros b j. destruct (decide (b = a)) as [->|Hne].
    + rewrite list_lookup_insert_eq by (by eapply lookup_lt_Some). simpl.
      rewrite Ha. simpl. destruct (decide (j = i)) as [->|Hj].
      * rewrite decide_True by done.
        apply list_lookup_insert_eq. by eapply lookup_lt_Some.
      * rewrite decide_False by (intros [? ?]; done). by rewrite list_lookup_insert_ne.
    + rewrite decide_False by (intros [? ?]; done). by rewrite list_lookup_insert_ne.
Qed.

Lemma store_forward_spec h a i f l0 :
  slot_at h a i = Some l0 →
  ∃ h', store_forward h a i f = Ok h' ∧ same_meta h h' ∧
        ∀ b j, slot_at h' b j =
               if decide (b = a ∧ j = i) then Some (Level f (span l0)) else slot_at h b j.
Proof.
  intros Hl. unfold store_forward. rewrite (slot_Ok _ _ _ _ Hl). simpl.
  by eapply store_slot_spec.
Qed.

Lemma store_span_spec h a i sp l0 :
  slot_at h a i = Some l0 →
  ∃ h', store_span h a i sp = Ok h' ∧ same_meta h h' ∧
        ∀ b j, slot_at h' b j =
               if decide (b = a ∧ j = i) then Some (Level (forward l0) sp) else slot_at h b j.
Proof.
  intros Hl. unfold store_span. rewrite (slot_Ok _ _ _ _ Hl). simpl.
  by eapply store_slot_spec.
Qed.

Lemma deref_Ok h a n : h !! a = Some n → deref h (Some a) = Ok (a, n).
Proof. intros Hn. unfold deref. by rewrite (load_Ok _ _ _ Hn). Qed.

Lemma index_Ok {A} (l : list A) i x : l !! i = Some x → index l i = Ok x.
Proof. unfold index. by intros ->. Qed.

Lemma assign_Ok {A} (l : list A) i x : (i < length l)%nat → assign l i x = Ok (<[i := x]> l).
Proof.
  intros Hi. unfold assign. by destruct (lookup_lt_is_Some_2 l i Hi) as [y ->].
Qed.

End HeapFacts.

(** * Towers *)

Lemma next_at_app i (A B : list tower) :
  next_at i (A ++ B) =
  match next_at i A with
  | Some x => Some x
  | None => (λ bd, (bd.1, (length A + bd.2)%nat)) <$> next_at i B
  end.
Proof.
  induction A as [|[a ht] A IH]; simpl.
  - by destruct (next_at i B) as [[]|].
  - destruct (decide (i < ht)%nat); [done|]. rewrite IH.
    destruct (next_at i A) as [[]|]; simpl; [done|].
    by destruct (next_at i B) as [[]|].
Qed.

Lemma next_at_None i (l : list tower) :
  next_at i l = None ↔ ∀ q a ht, l !! q = Some (a, ht) → (ht ≤ i)%nat.
Proof.
  induction l as [|[a ht] l IH]; simpl.
  - split; [|done]. intros _ q a ht. by rewrite lookup_nil.
  - destruct (decide (i < ht)%nat) as [Hlt|Hge].
    + split; [done|]. intros Hall. assert (ht ≤ i)%nat by (by apply (Hall 0%nat a)). lia.
    + rewrite fmap_None, IH. split.
      * intros Hall [|q] b hb; simpl; [intros [= <- <-]; lia|]. apply Hall.
      * intros Hall q b hb Hq. by apply (Hall (S q) b hb).
Qed.

Lemma next_at_Some i (l : list tower) b d :
  next_at i l = Some (b, d) →
  ∃ d' ht, d = S d' ∧ l !! d' = Some (b, ht) ∧ (i < ht)%nat ∧
           ∀ q a ht', (q < d')%nat → l !! q = Some (a, ht') → (ht' ≤ i)%nat.
Proof.
  revert d. induction l as [|[a ht] l IH]; simpl; intros d; [done|].
  destruct (decide (i < ht)%nat) as [Hlt|Hge].
  - intros [= <- <-]. exists 0%nat, ht. repeat split; [done..|]. lia.
  - destruct (next_at i l) as [[b' d0]|]; simpl; [|done].
    intros [= <- <-]. destruct (IH _ eq_refl) as (d' & hb & -> & Hl & Hi & Hlow).
    exists (S d'), hb. repeat split; [done..|].
    intros [|q] a' ht'; simpl; [intros _ [= <- <-]; lia|].
    intros Hq. apply Hlow. lia.
Qed.

Lemma want_slot_None i (l : list tower) :
  next_at i l = None → want_slot i l = Level None (wrap32 (Z.of_nat (length l))).
Proof. unfold want_slot. by intros ->. Qed.

Lemma want_slot_Some i (l : list tower) b d :
  next_at i l = Some (b, d) → want_slot i l = Level (Some b) (wrap32 (Z.of_nat d)).
Proof. unfold want_slot. by intros ->. Qed.

Section Walk.

Context {K V : Type} `{EqDecision K}.
Variable knil : K.
Variable lessThan : K → K → bool.

Local Abbreviation heap := (heap K V).
Local Abbreviation keyof := (keyof knil).
Local Abbreviation split_at := (split_at knil lessThan).

Implicit Types (h : heap) (all : list tower).

Lemma nodes_ok_load h all p a ht :
  nodes_ok h all → all !! p = Some (a, ht) →
  ∃ n, h !! a = Some n ∧ length (levels n) = ht ∧ keyof h a = key n.
Proof.
  intros Hok Hp. destruct (Hok _ _ _ Hp) as [Hh _].
  destruct (height_Some _ _ _ Hh) as (n & Hn & Hlen).
  exists n. repeat split; [done..|]. unfold Skiplist.keyof. by rewrite Hn.
Qed.

Lemma nodes_ok_slot h all p a ht j :
  nodes_ok h all → all !! p = Some (a, ht) → (j < ht)%nat →
  slot_at h a j = Some (want_slot j (drop (S p) all)).
Proof. intros Hok Hp Hj. by apply (Hok _ _ _ Hp). Qed.

(** One walk along level [j]: from a tower that reaches above [j], not
    after position [r], the loop stops on the last such tower up to [r]
    and has added the distance to the rank. *)
Lemma advance_rank_spec h all k r j fuel p a ht rk :
  nodes_ok h all → split_at h all k r →
  all !! p = Some (a, ht) → (j < ht)%nat → (p ≤ r)%nat →
  (r - p < fuel)%nat → 0 ≤ rk < 4294967296 →
  ∃ p' a', advance_rank lessThan fuel h j k a rk
             = Ok (a', wrap32 (rk + (Z.of_nat p' - Z.of_nat p))) ∧
           (p ≤ p')%nat ∧ pred_at all j r p' a'.
Proof.
  intros Hok Hsp. revert p a ht rk.
  induction fuel as [|fuel IH]; intros p a ht rk Hp Hj Hpr Hfuel Hrk; [lia|].
  simpl. rewrite (slot_Ok _ _ _ _ (nodes_ok_slot _ _ _ _ _ _ Hok Hp Hj)). simpl.
  destruct (next_at j (drop (S p) all)) as [[b d]|] eqn:Hnext.
  - rewrite (want_slot_Some _ _ _ _ Hnext). simpl.
    destruct (next_at_Some _ _ _ _ Hnext) as (d' & hb & -> & Hb & Hjb & Hlow).
    rewrite lookup_drop in Hb.
    destruct (nodes_ok_load _ _ _ _ _ Hok Hb) as (fn & Hfn & _ & Hkey).
    rewrite (load_Ok _ _ _ Hfn). simpl. rewrite <- Hkey.
    destruct (decide (S p + d' ≤ r)%nat) as [Hle|Hgt].
    + rewrite (split_lt _ _ _ _ _ _ Hsp (S p + d')%nat b hb) by (done || lia).
      destruct (IH (S p + d')%nat b hb (wrap32 (rk + wrap32 (Z.of_nat (S d')))))
        as (p' & a' & Heq & Hpp & Hpred); [done|done|lia|lia|apply wrap32_range|].
      exists p', a'. split; [|split; [lia|done]].
      rewrite Heq. f_equal. f_equal. wrap_lia.
    + rewrite (split_ge _ _ _ _ _ _ Hsp (S p + d')%nat b hb) by (done || lia).
      exists p, a. split; [|split; [lia|]].
      * f_equal. f_equal. rewrite wrap32_small; lia.
      * split; [done|]. split; [by eauto|].
        intros q a0 h0 Hq Hq0. apply (Hlow (q - S p)%nat a0 h0); [lia|].
        rewrite lookup_drop. by replace (S p + (q - S p))%nat with q by lia.
  - rewrite (want_slot_None _ _ Hnext). simpl.
    exists p, a. split; [|split; [lia|]].
    + f_equal. f_equal. rewrite wrap32_small; lia.
    + split; [done|]. split; [by eauto|].
      intros q a0 h0 Hq Hq0. rewrite next_at_None in Hnext.
      apply (Hnext (q - S p)%nat a0 h0).
      rewrite lookup_drop. by replace (S p + (q - S p))%nat with q by lia.
Qed.

Lemma advance_of_rank h k j fuel a rk a' rk' :
  advance_rank lessThan fuel h j k a rk = Ok (a', rk') →
  advance lessThan fuel h j k a = Ok a'.
Proof.
  revert a rk. induction fuel as [|fuel IH]; intros a rk; simpl; [done|].
  destruct (slot h a j) as [l| |]; simpl; [|done..].
  destruct (forward l) as [f|]; [|by intros [= <- <-]].
  destruct (load h f) as [fn| |]; simpl; [|done..].
  destruct (lessThan (key fn) k); [apply IH|by intros [= <- <-]].
Qed.

Lemma advance_spec h all k r j fuel p a ht :
  nodes_ok h all → split_at h all k r →
  all !! p = Some (a, ht) → (j < ht)%nat → (p ≤ r)%nat →
  (r - p < fuel)%nat →
  ∃ p' a', advance lessThan fuel h j k a = Ok a' ∧
           (p ≤ p')%nat ∧ pred_at all j r p' a'.
Proof.
  intros Hok Hsp Hp Hj Hpr Hfuel.
  destruct (advance_rank_spec h all k r j fuel p a ht 0)
    as (p' & a' & Heq & Hpp & Hpred); [done..|lia|].
  exists p', a'. split; [|done]. by eapply advance_of_rank.
Qed.

End Walk.

(** * The descents *)

Global Opaque advance advance_rank.

Section Descent.

Context {K V : Type} `{EqDecision K}.
Variable knil : K.
Variable lessThan : K → K → bool.

Local Abbreviation heap := (heap K V).
Local Abbreviation keyof := (keyof knil).
Local Abbreviation search_ctx := (search_ctx knil lessThan).
Local Abbreviation target := (target knil).

Variables (h : heap) (all : list tower) (k : K) (r : nat).
Hypothesis Hctx : search_ctx h all k r.

Lemma pred_at_desc j p a : pred_at all j r p a → desc all j r p a.
Proof.
  intros (Hpr & (ht & Hp & Hj) & Hlow). split; [done|]. split; [|done].
  exists ht. split; [done|lia].
Qed.

Lemma ctx_r_lt : (r < length h)%nat.
Proof using Hctx K V all h k knil lessThan r.
  pose proof (split_bound _ _ _ _ _ _ (ctx_split _ _ _ _ _ _ Hctx)).
  pose proof (ctx_fuel _ _ _ _ _ _ Hctx). lia.
Qed.

Lemma desc_advance_rank j p a rk :
  desc all (S j) r p a → 0 ≤ rk < 4294967296 →
  ∃ p' a', advance_rank lessThan (fuel_of h) h j k a rk
             = Ok (a', wrap32 (rk + (Z.of_nat p' - Z.of_nat p))) ∧
           (p ≤ p')%nat ∧ pred_at all j r p' a'.
Proof using Hctx K V all h k knil lessThan r.
  intros (Hpr & (ht & Hp & Hj) & Hlow) Hrk.
  pose proof ctx_r_lt. unfold fuel_of.
  eapply advance_rank_spec; eauto using ctx_nodes, ctx_split; lia.
Qed.

Lemma desc_advance j p a :
  desc all (S j) r p a →
  ∃ p' a', advance lessThan (fuel_of h) h j k a = Ok a' ∧
           (p ≤ p')%nat ∧ pred_at all j r p' a'.
Proof using Hctx K V all h k knil lessThan r.
  intros (Hpr & (ht & Hp & Hj) & Hlow).
  pose proof ctx_r_lt. unfold fuel_of.
  eapply advance_spec; eauto using ctx_nodes, ctx_split; lia.
Qed.

(** At level 0 the descent stands on position [r]. *)
Lemma desc_0 p a : desc all 0 r p a → p = r.
Proof using Hctx K V all h k knil lessThan r.
  intros (Hpr & (ht & Hp & Hj) & Hlow).
  destruct (decide (p = r)) as [|Hne]; [done|].
  destruct (lookup_lt_is_Some_2 all (S p)) as [[b hb] Hb].
  { pose proof (split_bound _ _ _ _ _ _ (ctx_split _ _ _ _ _ _ Hctx)). lia. }
  pose proof (ctx_low _ _ _ _ _ _ Hctx _ _ _ Hb).
  assert (hb ≤ 0)%nat by (apply (Hlow (S p) b hb); [lia|done]). lia.
Qed.

Lemma next_at_0 (l : list tower) :
  (∀ p a ht, l !! p = Some (a, ht) → (1 ≤ ht)%nat) →
  next_at 0 l = (λ t, (t.1, 1%nat)) <$> head l.
Proof.
  intros Hlow. destruct l as [|[a ht] l]; simpl; [done|].
  assert (1 ≤ ht)%nat by (by apply (Hlow 0%nat a)).
  by rewrite decide_True by lia.
Qed.

Lemma next_at_0_drop p :
  next_at 0 (drop (S p) all) = (λ t, (t.1, 1%nat)) <$> all !! S p.
Proof using Hctx K V all h k knil lessThan r.
  rewrite next_at_0.
  - by rewrite head_lookup, lookup_drop, Nat.add_0_r.
  - intros q a ht. rewrite lookup_drop. apply (ctx_low _ _ _ _ _ _ Hctx).
Qed.

Lemma next_of_slot a l : slot_at h a 0 = Some l → next_of h a = Ok (forward l).
Proof.
  unfold slot_at, next_of, load. destruct (h !! a) as [n|]; simpl; [|done].
  unfold next. destruct (levels n); simpl; [done|]. by intros [= ->].
Qed.

Lemma desc_next p a : desc all 0 r p a → next_of h a = Ok (fst <$> all !! S r).
Proof using Hctx K V all h k knil lessThan r.
  intros Hd. pose proof (desc_0 _ _ Hd) as ->.
  destruct Hd as (_ & (ht & Hp & _) & _).
  pose proof (ctx_low _ _ _ _ _ _ Hctx _ _ _ Hp).
  pose proof (nodes_ok_slot _ _ _ _ _ 0%nat (ctx_nodes _ _ _ _ _ _ Hctx) Hp) as Hs.
  rewrite (next_of_slot _ _ (Hs ltac:(lia))).
  unfold want_slot. rewrite next_at_0_drop.
  by destruct (all !! S r) as [[]|].
Qed.

(** The forward pointer of the tower a walk stops on leads past
    position [r]; if it leads to [k], it leads to position [r + 1]. *)
Lemma pred_at_forward j p a :
  pred_at all j r p a →
  ∃ l, slot_at h a j = Some l ∧
       match forward l with
       | None => (j = 0%nat → all !! S r = None)
       | Some f =>
           ∃ q hf, all !! q = Some (f, hf) ∧ (r < q)%nat ∧ (j < hf)%nat ∧
                   span l = wrap32 (Z.of_nat q - Z.of_nat p) ∧ (j = 0%nat → q = S r)
       end.
Proof using Hctx K V all h k knil lessThan r.
  intros Hpred. pose proof (pred_at_desc _ _ _ Hpred) as Hd.
  destruct Hpred as (Hpr & (ht & Hp & Hj) & Hlow).
  pose proof (nodes_ok_slot _ _ _ _ _ j (ctx_nodes _ _ _ _ _ _ Hctx) Hp Hj) as Hs.
  eexists; split; [done|].
  destruct (next_at j (drop (S p) all)) as [[b d]|] eqn:Hnext.
  - rewrite (want_slot_Some _ _ _ _ Hnext). simpl.
    destruct (next_at_Some _ _ _ _ Hnext) as (d' & hb & -> & Hb & Hjb & Hlow').
    rewrite lookup_drop in Hb. exists (S p + d')%nat, hb.
    split; [done|]. split.
    { destruct (decide (r < S p + d')%nat); [done|].
      assert (hb ≤ j)%nat by (apply (Hlow (S p + d')%nat b hb); [lia|done]). lia. }
    split; [done|]. split; [f_equal; lia|].
    intros ->. pose proof (desc_0 _ _ Hd) as ->.
    rewrite next_at_0_drop in Hnext.
    destruct (all !! S r) as [[]|]; simpl in Hnext; [|done].
    injection Hnext as _ Hd'. lia.
  - rewrite (want_slot_None _ _ Hnext). simpl. intros ->.
    pose proof (desc_0 _ _ Hd) as ->.
    rewrite next_at_0_drop in Hnext. by destruct (all !! S r).
Qed.

Lemma forward_matches_spec j p a :
  pred_at all j r p a →
  ∃ m, forward_matches h a j k = Ok m ∧
       (∀ f, m = Some f →
          target h all k r = Some f ∧
          ∃ l, slot_at h a j = Some l ∧ forward l = Some f ∧
               span l = wrap32 (Z.of_nat (S r) - Z.of_nat p)) ∧
       (j = 0%nat → m = target h all k r).
Proof using EqDecision0 Hctx K V all h k knil lessThan r.
  intros Hpred. destruct (pred_at_forward _ _ _ Hpred) as (l & Hl & Hf).
  unfold forward_matches. rewrite (slot_Ok _ _ _ _ Hl). simpl.
  destruct (forward l) as [f|] eqn:Hfw.
  - destruct Hf as (q & hf & Hq & Hrq & Hjf & Hsp & Hq0).
    destruct (nodes_ok_load knil _ _ _ _ _ (ctx_nodes _ _ _ _ _ _ Hctx) Hq)
      as (fn & Hfn & _ & Hkey).
    rewrite (load_Ok _ _ _ Hfn). simpl. rewrite <- Hkey.
    destruct (decide (keyof h f = k)) as [Hk|Hk].
    + assert (q = S r) as ->.
      { destruct (decide (q = S r)); [done|].
        exfalso. apply (ctx_uniq _ _ _ _ _ _ Hctx q f hf); [lia|done..]. }
      assert (target h all k r = Some f) as Ht.
      { unfold Skiplist.target. rewrite Hq. by rewrite decide_True. }
      eexists; split; [done|]. split; [|by rewrite Ht].
      intros ? [= <-]. split; [done|]. eauto.
    + eexists; split; [done|]. split; [done|].
      intros Hj0. specialize (Hq0 Hj0) as ->.
      unfold Skiplist.target. rewrite Hq. by rewrite decide_False.
  - eexists; split; [done|]. split; [done|].
    intros Hj0. unfold Skiplist.target. by rewrite (Hf Hj0).
Qed.

Lemma target_Some f : target h all k r = Some f → fst <$> all !! S r = Some f.
Proof.
  unfold Skiplist.target. destruct (all !! S r) as [[g hg]|]; [|done].
  destruct (decide (keyof h g = k)); [|done]. by intros [= ->].
Qed.

Lemma getLowerBound_loop_spec n p a :
  desc all n r p a →
  getLowerBound_loop lessThan h k n a = Ok (fst <$> all !! S r).
Proof using EqDecision0 Hctx K V all h k knil lessThan r.
  revert p a. induction n as [|j IH]; intros p a Hd; simpl.
  - by eapply desc_next.
  - destruct (desc_advance _ _ _ Hd) as (p' & a' & -> & _ & Hpred). simpl.
    destruct (forward_matches_spec _ _ _ Hpred) as (m & -> & Hm & _). simpl.
    destruct m as [f|].
    + destruct (Hm f eq_refl) as [Ht _]. by rewrite (target_Some _ Ht).
    + eapply IH. by apply pred_at_desc.
Qed.

Lemma searchForDelete_loop_spec n p a (update : list (option addr)) :
  desc all n r p a → (n ≤ length update)%nat →
  ∃ update', searchForDelete_loop lessThan h k n a update
               = Ok (fst <$> all !! S r, update') ∧
             length update' = length update ∧
             (∀ j, (j < n)%nat → ∃ pj aj, update' !! j = Some (Some aj) ∧
                                          pred_at all j r pj aj) ∧
             (∀ j, (n ≤ j)%nat → update' !! j = update !! j).
Proof using Hctx K V all h k knil lessThan r.
  revert p a update. induction n as [|j IH]; intros p a update Hd Hlen; simpl.
  - rewrite (desc_next _ _ Hd). simpl. eexists; split; [done|].
    split; [done|]. split; [lia|done].
  - destruct (desc_advance _ _ _ Hd) as (p' & a' & -> & _ & Hpred). simpl.
    rewrite assign_Ok by lia. simpl.
    destruct (IH p' a' (<[j := Some a']> update)) as (u' & -> & Hlen' & Hlow & Hhigh).
    { by apply pred_at_desc. }
    { rewrite length_insert. lia. }
    exists u'. split; [done|]. rewrite Hlen', length_insert. split; [done|]. split.
    + intros i Hi. destruct (decide (i = j)) as [->|Hne].
      * exists p', a'. split; [|done]. rewrite Hhigh by lia.
        apply list_lookup_insert_eq. lia.
      * apply Hlow. lia.
    + intros i Hi. rewrite Hhigh by lia. apply list_lookup_insert_ne. lia.
Qed.

Lemma Rank_loop_spec n p a :
  desc all n r p a →
  Rank_loop lessThan h k n a (wrap32 (Z.of_nat p)) =
  Ok (if decide (n = 0%nat) then 0
      else match target h all k r with
           | Some _ => wrap32 (Z.of_nat (S r))
           | None => 0
           end).
Proof using EqDecision0 Hctx K V all h k knil lessThan r.
  revert p a. induction n as [|j IH]; intros p a Hd; simpl; [done|].
  destruct (desc_advance_rank _ _ _ (wrap32 (Z.of_nat p)) Hd)
    as (p' & a' & -> & Hpp & Hpred); [apply wrap32_range|]. simpl.
  destruct (forward_matches_spec _ _ _ Hpred) as (m & -> & Hm & Hm0). simpl.
  assert (wrap32 (wrap32 (Z.of_nat p) + (Z.of_nat p' - Z.of_nat p))
          = wrap32 (Z.of_nat p')) as -> by wrap_lia.
  destruct m as [f|].
  - destruct (Hm f eq_refl) as (-> & l & Hl & _ & Hsp).
    rewrite (slot_Ok _ _ _ _ Hl). simpl. f_equal. rewrite Hsp.
    wrap_lia.
  - rewrite (IH p' a' (pred_at_desc _ _ _ Hpred)).
    destruct (decide (j = 0%nat)) as [->|]; [|done].
    by rewrite <- (Hm0 eq_refl).
Qed.

Lemma searchForInsert_loop_spec lv n p a (update : list (option addr)) (rank : list Z) :
  desc all n r p a →
  (n ≤ length update)%nat → (n ≤ length rank)%nat → Z.of_nat n ≤ lv + 1 →
  (∀ j, n = S j →
        if decide (Z.of_nat j = lv) then p = 0%nat
        else rank !! n = Some (wrap32 (Z.of_nat p))) →
  ∃ c update' rank',
    searchForInsert_loop lessThan h lv k n a update rank = Ok (c, update', rank') ∧
    ((∃ f, c = Some f ∧ target h all k r = Some f) ∨
     (c = fst <$> all !! S r ∧
      length update' = length update ∧ length rank' = length rank ∧
      (∀ j, (j < n)%nat →
            ∃ pj aj, update' !! j = Some (Some aj) ∧
                     rank' !! j = Some (wrap32 (Z.of_nat pj)) ∧
                     pred_at all j r pj aj) ∧
      (∀ j, (n ≤ j)%nat → update' !! j = update !! j ∧ rank' !! j = rank !! j))).
Proof using EqDecision0 Hctx K V all h k knil lessThan r.
  revert p a update rank.
  induction n as [|j IH]; intros p a update rank Hd Hlu Hlr Hlv Hrk; simpl.
  - rewrite (desc_next _ _ Hd). simpl. do 3 eexists. split; [done|]. right.
    repeat split; [lia|done..].
  - assert ((if decide (Z.of_nat j = lv) then Ok 0 else index rank (S j))
            = Ok (wrap32 (Z.of_nat p))) as ->.
    { specialize (Hrk j eq_refl). destruct (decide (Z.of_nat j = lv)).
      - by subst p.
      - by apply index_Ok. }
    simpl. rewrite assign_Ok by lia. simpl.
    destruct (desc_advance_rank _ _ _ (wrap32 (Z.of_nat p)) Hd)
      as (p' & a' & -> & Hpp & Hpred); [apply wrap32_range|]. simpl.
    assert (wrap32 (wrap32 (Z.of_nat p) + (Z.of_nat p' - Z.of_nat p))
            = wrap32 (Z.of_nat p')) as -> by wrap_lia.
    rewrite assign_Ok by (rewrite length_insert; lia). simpl.
    destruct (forward_matches_spec _ _ _ Hpred) as (m & -> & Hm & _). simpl.
    destruct m as [f|].
    { do 3 eexists. split; [done|]. left. exists f. split; [done|].
      by destruct (Hm f eq_refl). }
    rewrite assign_Ok by lia. simpl.
    rewrite list_insert_insert_eq.
    destruct (IH p' a' (<[j := Some a']> update) (<[j := wrap32 (Z.of_nat p')]> rank))
      as (c & u' & rk' & -> & Hres).
    { by apply pred_at_desc. }
    { rewrite length_insert. lia. }
    { rewrite length_insert. lia. }
    { lia. }
    { intros j' ->. rewrite decide_False by lia.
      apply list_lookup_insert_eq. lia. }
    do 3 eexists. split; [done|].
    destruct Hres as [Hfound|(Hc & Hlu' & Hlr' & Hlow & Hhigh)]; [by left|right].
    rewrite length_insert in Hlu'. rewrite length_insert in Hlr'.
    split; [done|]. split; [done|]. split; [done|]. split.
    + intros i Hi. destruct (decide (i = j)) as [->|Hne].
      * exists p', a'. destruct (Hhigh j) as [-> ->]; [lia|].
        rewrite !list_lookup_insert_eq by lia. done.
      * apply Hlow. lia.
    + intros i Hi. destruct (Hhigh i) as [-> ->]; [lia|].
      rewrite !list_lookup_insert_ne by lia. done.
Qed.

End Descent.

(** * From the shape of an engine to its searches *)

Lemma NoDup_bounded_length (l : list nat) (n : nat) :
  NoDup l → (∀ x, x ∈ l → (x < n)%nat) → (length l ≤ n)%nat.
Proof.
  intros Hnd Hlt.
  assert (length (seq 0%nat n) = n) as Hn by apply length_seq.
  rewrite <- Hn at 1. clear Hn.
  apply submseteq_length, NoDup_submseteq; [done|].
  intros x Hx. apply elem_of_seq. specialize (Hlt x Hx). lia.
Qed.

Section Queries.

Context {K V : Type} `{EqDecision K}.
Variable knil : K.
Variable vnil : V.
Variable lessThan : K → K → bool.

Local Abbreviation heap := (heap K V).
Local Abbreviation keyof := (keyof knil).
Local Abbreviation search_ctx := (search_ctx knil lessThan).
Local Abbreviation split_at := (split_at knil lessThan).
Local Abbreviation target := (target knil).
Local Abbreviation shape := (shape knil lessThan).
Local Abbreviation sorted_keys := (sorted_keys knil lessThan).

Hypothesis lt_trans : ∀ a b c,
  lessThan a b = true → lessThan b c = true → lessThan a c = true.

Implicit Types (h : heap) (s : SkipList) (ts : list tower).

Lemma sorted_keys_cons h x l : sorted_keys h (x :: l) → sorted_keys h l.
Proof. intros Hs p q a b Hpq Hp Hq. apply (Hs (S p) (S q)); [lia|done..]. Qed.

Lemma sorted_split h l k :
  sorted_keys h l →
  ∃ r, (r ≤ length l)%nat ∧
       (∀ q a, (q < r)%nat → l !! q = Some a → lessThan (keyof h a) k = true) ∧
       (∀ q a, (r ≤ q)%nat → l !! q = Some a → lessThan (keyof h a) k = false).
Proof using K V knil lessThan lt_trans.
  induction l as [|x l IH]; intros Hs.
  - exists 0%nat. split; [done|]. split; [lia|]. intros q a _. by rewrite lookup_nil.
  - destruct (lessThan (keyof h x) k) eqn:Hx.
    + destruct (IH (sorted_keys_cons _ _ _ Hs)) as (r & Hr & Hlt & Hge).
      exists (S r). split; [simpl; lia|]. split.
      * intros [|q] a Hq; simpl; [by intros [= <-]|]. apply Hlt. lia.
      * intros [|q] a Hq; simpl; [lia|]. apply Hge. lia.
    + exists 0%nat. split; [lia|]. split; [lia|].
      intros [|q] a _; simpl; [by intros [= <-]|]. intros Hq.
      destruct (lessThan (keyof h a) k) eqn:Ha; [|done].
      rewrite <- Hx. symmetry. apply (lt_trans _ (keyof h a)); [|done].
      by apply (Hs 0%nat (S q)); [lia|..].
Qed.

Lemma lookup_towers (hd : tower) ts q :
  (hd :: ts) !! S q = ts !! q.
Proof. done. Qed.

Lemma shape_in_heap h s L ts p a ht :
  shape h s L ts → ((header s, L) :: ts) !! p = Some (a, ht) → (a < length h)%nat.
Proof.
  intros Hsh Hp. destruct (shape_nodes _ _ _ _ _ _ Hsh _ _ _ Hp) as [Hh _].
  destruct (height_Some _ _ _ Hh) as (n & Hn & _). by eapply lookup_lt_Some.
Qed.

Lemma shape_fuel h s L ts :
  shape h s L ts → (length ((header s, L) :: ts) ≤ length h)%nat.
Proof.
  intros Hsh.
  replace (length ((header s, L) :: ts)) with (length (header s :: ts.*1))
    by (simpl; by rewrite length_fmap).
  apply NoDup_bounded_length; [apply (shape_nodup _ _ _ _ _ _ Hsh)|].
  intros x Hx. change (header s :: ts.*1) with (((header s, L) :: ts).*1) in Hx.
  apply list_elem_of_fmap in Hx as ([a ht] & -> & Hin).
  apply list_elem_of_lookup in Hin as [p Hp]. by eapply shape_in_heap.
Qed.

Lemma shape_low h s L ts p a ht :
  shape h s L ts → ((header s, L) :: ts) !! p = Some (a, ht) → (1 ≤ ht ≤ L)%nat.
Proof.
  intros Hsh. destruct (shape_heights _ _ _ _ _ _ Hsh) as [HL Hts].
  destruct p as [|p]; simpl.
  - intros [= <- <-]. lia.
  - intros Hp. apply (Hts a). by eapply list_elem_of_lookup_2.
Qed.

Lemma shape_search_ctx h s L ts k :
  shape h s L ts → ∃ r, search_ctx h ((header s, L) :: ts) k r.
Proof using K V knil lessThan lt_trans.
  intros Hsh.
  destruct (sorted_split h (ts.*1) k (shape_sorted _ _ _ _ _ _ Hsh))
    as (r & Hr & Hlt & Hge).
  rewrite length_fmap in Hr.
  exists r. split.
  - apply (shape_nodes _ _ _ _ _ _ Hsh).
  - split.
    + intros [|q] a ht Hq; [lia|]. rewrite lookup_towers. intros Hqa.
      apply (Hlt q); [lia|]. by rewrite list_lookup_fmap, Hqa.
    + intros [|q] a ht Hq; [lia|]. rewrite lookup_towers. intros Hqa.
      apply (Hge q); [lia|]. by rewrite list_lookup_fmap, Hqa.
    + simpl. lia.
  - intros p a ht Hp. by destruct (shape_low _ _ _ _ _ _ _ Hsh Hp).
  - by eapply shape_fuel.
  - intros [|q] a ht Hq; [lia|]. rewrite lookup_towers. intros Hqa Hk.
    destruct (lookup_lt_is_Some_2 ts r) as [[b hb] Hb].
    { apply lookup_lt_Some in Hqa. lia. }
    assert (lessThan (keyof h b) k = true) as Hbk.
    { rewrite <- Hk. apply (shape_sorted _ _ _ _ _ _ Hsh r q); [lia|..].
      - by rewrite list_lookup_fmap, Hb.
      - by rewrite list_lookup_fmap, Hqa. }
    rewrite (Hge r b) in Hbk; [done|lia|]. by rewrite list_lookup_fmap, Hb.
Qed.

Lemma shape_desc h s L ts r :
  shape h s L ts → desc ((header s, L) :: ts) L r 0 (header s).
Proof.
  intros Hsh. split; [lia|]. split; [by eauto|].
  intros q a ht Hq Hqa. by destruct (shape_low _ _ _ _ _ _ _ Hsh Hqa).
Qed.

Lemma shape_header h s L ts :
  shape h s L ts → ∃ hd, h !! header s = Some hd ∧ length (levels hd) = L ∧ (1 ≤ L)%nat.
Proof.
  intros Hsh.
  destruct (shape_nodes _ _ _ _ _ _ Hsh 0%nat (header s) L eq_refl) as [Hh _].
  destruct (height_Some _ _ _ Hh) as (n & Hn & Hlen).
  exists n. repeat split; [done..|]. by destruct (shape_heights _ _ _ _ _ _ Hsh).
Qed.

Lemma shape_level_of h s L ts :
  shape h s L ts → level_of h s = Ok (Z.of_nat L - 1).
Proof.
  intros Hsh. destruct (shape_header _ _ _ _ Hsh) as (hd & Hhd & HL & _).
  unfold level_of. rewrite (load_Ok _ _ _ Hhd). simpl. by rewrite HL.
Qed.

Lemma getLowerBound_spec h s L ts k r :
  shape h s L ts → search_ctx h ((header s, L) :: ts) k r →
  getLowerBound lessThan h (header s) k = Ok (fst <$> ts !! r).
Proof.
  intros Hsh Hctx. destruct (shape_header _ _ _ _ Hsh) as (hd & Hhd & HL & HL1).
  unfold getLowerBound. rewrite (load_Ok _ _ _ Hhd). simpl. rewrite HL.
  replace (Z.to_nat (Z.of_nat L - 1 + 1)) with L by lia.
  by rewrite (getLowerBound_loop_spec knil lessThan h _ k r Hctx L 0%nat (header s)
                (shape_desc _ _ _ _ _ Hsh)).
Qed.

Lemma target_load h s L ts k r f :
  shape h s L ts → target h ((header s, L) :: ts) k r = Some f →
  ∃ ht n, ts !! r = Some (f, ht) ∧ h !! f = Some n ∧ key n = k.
Proof.
  intros Hsh. unfold Skiplist.target. rewrite lookup_towers.
  destruct (ts !! r) as [[g hg]|] eqn:Hg; [|done].
  destruct (decide (keyof h g = k)) as [Hk|]; [|done]. intros [= ->].
  destruct (nodes_ok_load knil _ _ (S r) _ _ (shape_nodes _ _ _ _ _ _ Hsh) Hg)
    as (n & Hn & _ & Hkey).
  exists hg, n. split; [done|]. split; [done|]. by rewrite <- Hkey.
Qed.

Lemma target_None h s L ts k r f ht n :
  shape h s L ts → target h ((header s, L) :: ts) k r = None →
  ts !! r = Some (f, ht) → h !! f = Some n → key n ≠ k.
Proof.
  intros Hsh. unfold Skiplist.target. rewrite lookup_towers.
  intros Ht Hf Hn. rewrite Hf in Ht.
  destruct (decide (keyof h f = k)) as [|Hk]; [done|].
  intros Hkey. apply Hk. unfold Skiplist.keyof. by rewrite Hn.
Qed.

Lemma Get_spec h s L ts k r :
  shape h s L ts → search_ctx h ((header s, L) :: ts) k r →
  Get vnil lessThan h s k =
  Ok (match target h ((header s, L) :: ts) k r with
      | Some f => (from_option value vnil (h !! f), true)
      | None => (vnil, false)
      end).
Proof.
  intros Hsh Hctx. unfold Get. rewrite (getLowerBound_spec _ _ _ _ _ _ Hsh Hctx). simpl.
  destruct (target h ((header s, L) :: ts) k r) as [f|] eqn:Ht.
  - destruct (target_load _ _ _ _ _ _ _ Hsh Ht) as (ht & n & -> & Hn & Hk). simpl.
    rewrite (load_Ok _ _ _ Hn). simpl. rewrite Hn. simpl.
    by rewrite decide_False by (intros Hne; by apply Hne).
  - destruct (ts !! r) as [[f ht]|] eqn:Hf; simpl; [|done].
    destruct (nodes_ok_load knil _ _ (S r) _ _ (shape_nodes _ _ _ _ _ _ Hsh) Hf)
      as (n & Hn & _ & Hkey).
    rewrite (load_Ok _ _ _ Hn). simpl.
    by rewrite decide_True by (by eapply target_None).
Qed.

Lemma Rank_spec h s L ts k r :
  shape h s L ts → search_ctx h ((header s, L) :: ts) k r →
  Rank lessThan h s k =
  Ok (match target h ((header s, L) :: ts) k r with
      | Some _ => wrap32 (Z.of_nat (S r))
      | None => 0
      end).
Proof.
  intros Hsh Hctx. destruct (shape_header _ _ _ _ Hsh) as (hd & Hhd & HL & HL1).
  unfold Rank. rewrite (shape_level_of _ _ _ _ Hsh). simpl.
  replace (Z.to_nat (Z.of_nat L - 1 + 1)) with L by lia.
  change 0 with (wrap32 (Z.of_nat 0)) at 1.
  rewrite (Rank_loop_spec knil lessThan h _ k r Hctx L 0%nat (header s)
             (shape_desc _ _ _ _ _ Hsh)).
  by rewrite decide_False by lia.
Qed.

End Queries.

(** * Towers under insertion and removal *)

Lemma want_slot_eq j (l : list tower) :
  want_slot j l = Level (fwd_at j l) (wrap32 (Z.of_nat (dist_at j l))).
Proof. unfold want_slot, fwd_at, dist_at. by destruct (next_at j l) as [[]|]. Qed.

Lemma fwd_at_app_None j (A B : list tower) :
  next_at j A = None → fwd_at j (A ++ B) = fwd_at j B.
Proof.
  intros HA. unfold fwd_at. rewrite next_at_app, HA.
  by destruct (next_at j B) as [[]|].
Qed.

Lemma dist_at_app_None j (A B : list tower) :
  next_at j A = None → dist_at j (A ++ B) = (length A + dist_at j B)%nat.
Proof.
  intros HA. unfold dist_at. rewrite next_at_app, HA.
  destruct (next_at j B) as [[]|]; simpl; [done|]. by rewrite length_app.
Qed.

Lemma fwd_at_app_Some j (A B : list tower) :
  next_at j A ≠ None → fwd_at j (A ++ B) = fwd_at j A.
Proof.
  intros HA. unfold fwd_at. rewrite next_at_app. by destruct (next_at j A).
Qed.

Lemma dist_at_app_Some j (A B : list tower) :
  next_at j A ≠ None → dist_at j (A ++ B) = dist_at j A.
Proof.
  intros HA. unfold dist_at. rewrite next_at_app. by destruct (next_at j A).
Qed.

Lemma fwd_at_cons j x H (B : list tower) :
  fwd_at j ((x, H) :: B) = if decide (j < H)%nat then Some x else fwd_at j B.
Proof.
  unfold fwd_at. simpl. destruct (decide (j < H)%nat); [done|].
  by destruct (next_at j B) as [[]|].
Qed.

Lemma dist_at_cons j x H (B : list tower) :
  dist_at j ((x, H) :: B) = if decide (j < H)%nat then 1%nat else S (dist_at j B).
Proof.
  unfold dist_at. simpl. destruct (decide (j < H)%nat); [done|].
  by destruct (next_at j B) as [[]|].
Qed.

Lemma want_slot_app_Some j (A B C : list tower) :
  next_at j A ≠ None → want_slot j (A ++ B) = want_slot j (A ++ C).
Proof.
  intros HA. rewrite !want_slot_eq.
  by rewrite !fwd_at_app_Some, !dist_at_app_Some.
Qed.

(** The towers between two positions. *)
Lemma drop_take_split (all : list tower) p r :
  (p ≤ r)%nat →
  drop (S p) all = take (r - p) (drop (S p) all) ++ drop (S r) all.
Proof.
  intros Hpr. rewrite <- (take_drop (r - p) (drop (S p) all)) at 1.
  f_equal. rewrite drop_drop. f_equal. lia.
Qed.

Lemma lookup_between (all : list tower) p r q :
  take (r - p) (drop (S p) all) !! q =
  if decide (q < r - p)%nat then all !! (S p + q)%nat else None.
Proof.
  destruct (decide (q < r - p)%nat).
  - by rewrite lookup_take_lt, lookup_drop.
  - apply lookup_take_ge. lia.
Qed.

Lemma between_None (all : list tower) j p r :
  next_at j (take (r - p) (drop (S p) all)) = None ↔ low_between all j p r.
Proof.
  rewrite next_at_None. split.
  - intros Hlow q a ht Hq Hqa. apply (Hlow (q - S p)%nat a ht).
    rewrite lookup_between, decide_True by lia.
    by replace (S p + (q - S p))%nat with q by lia.
  - intros Hlow q a ht. rewrite lookup_between.
    destruct (decide (q < r - p)%nat); [|done]. apply Hlow. lia.
Qed.

Lemma low_between_dec (all : list tower) j p r :
  Decision (low_between all j p r).
Proof.
  destruct (next_at j (take (r - p) (drop (S p) all))) eqn:Hn.
  - right. rewrite <- between_None. by rewrite Hn.
  - left. by rewrite <- between_None.
Qed.

Lemma lookup_insert_after (all : list tower) r t p :
  (r < length all)%nat →
  insert_after all r t !! p =
  if decide (p ≤ r)%nat then all !! p
  else if decide (p = S r) then Some t else all !! (p - 1)%nat.
Proof.
  intros Hr. unfold insert_after. destruct (decide (p ≤ r)%nat).
  - rewrite lookup_app_l by (rewrite length_take; lia).
    apply lookup_take_lt. lia.
  - rewrite lookup_app_r by (rewrite length_take; lia).
    rewrite length_take. replace (S r `min` length all)%nat with (S r) by lia.
    destruct (decide (p = S r)) as [->|].
    + by rewrite Nat.sub_diag.
    + destruct (p - S r)%nat as [|m] eqn:Hm; [lia|]. simpl.
      rewrite lookup_drop. f_equal. lia.
Qed.

Lemma drop_insert_after_le (all : list tower) r t p :
  (r < length all)%nat → (p ≤ r)%nat →
  drop (S p) (insert_after all r t) =
  take (r - p) (drop (S p) all) ++ t :: drop (S r) all.
Proof.
  intros Hr Hp. unfold insert_after.
  rewrite drop_app_le by (rewrite length_take; lia). f_equal.
  rewrite take_drop_commute. f_equal. f_equal. lia.
Qed.

Lemma drop_insert_after_gt (all : list tower) r t p :
  (r < length all)%nat → (r < p)%nat →
  drop (S p) (insert_after all r t) = drop p all.
Proof.
  intros Hr Hp. unfold insert_after.
  rewrite drop_app_ge by (rewrite length_take; lia).
  rewrite length_take. replace (S r `min` length all)%nat with (S r) by lia.
  destruct (S p - S r)%nat as [|m] eqn:Hm; [lia|]. simpl.
  rewrite drop_drop. f_equal. lia.
Qed.

Lemma lookup_remove_after (all : list tower) r p :
  (r < length all)%nat →
  remove_after all r !! p = if decide (p ≤ r)%nat then all !! p else all !! S p.
Proof.
  intros Hr. unfold remove_after. destruct (decide (p ≤ r)%nat).
  - rewrite lookup_app_l by (rewrite length_take; lia).
    apply lookup_take_lt. lia.
  - rewrite lookup_app_r by (rewrite length_take; lia).
    rewrite length_take. replace (S r `min` length all)%nat with (S r) by lia.
    rewrite lookup_drop. f_equal. lia.
Qed.

Lemma drop_remove_after_le (all : list tower) r p :
  (r < length all)%nat → (p ≤ r)%nat →
  drop (S p) (remove_after all r) =
  take (r - p) (drop (S p) all) ++ drop (S (S r)) all.
Proof.
  intros Hr Hp. unfold remove_after.
  rewrite drop_app_le by (rewrite length_take; lia). f_equal.
  rewrite take_drop_commute. f_equal. f_equal. lia.
Qed.

Lemma drop_remove_after_gt (all : list tower) r p :
  (r < length all)%nat → (r < p)%nat →
  drop (S p) (remove_after all r) = drop (S (S p)) all.
Proof.
  intros Hr Hp. unfold remove_after.
  rewrite drop_app_ge by (rewrite length_take; lia).
  rewrite length_take. replace (S r `min` length all)%nat with (S r) by lia.
  rewrite drop_drop. f_equal. lia.
Qed.

(** Uniqueness of the tower a walk stops on. *)
Lemma pred_at_unique (all : list tower) j r p a p' a' :
  pred_at all j r p a → pred_at all j r p' a' → p = p' ∧ a = a'.
Proof.
  intros (Hpr & (ht & Hp & Hj) & Hlow) (Hpr' & (ht' & Hp' & Hj') & Hlow').
  assert (p = p') as <-.
  { destruct (Nat.lt_trichotomy p p') as [Hlt|[|Hlt]]; [|done|].
    - assert (ht' ≤ j)%nat by (apply (Hlow p' a' ht'); [lia|done]). lia.
    - assert (ht ≤ j)%nat by (apply (Hlow' p a ht); [lia|done]). lia. }
  split; [done|]. congruence.
Qed.

Section InsertNodes.

Context {K V : Type}.
Local Abbreviation heap := (heap K V).

Lemma length_between (all : list tower) p r :
  (r < length all)%nat → (p ≤ r)%nat →
  length (take (r - p) (drop (S p) all)) = (r - p)%nat.
Proof. intros Hr Hp. rewrite length_take, length_drop. lia. Qed.

(** The store after an insertion, described slot by slot, has the
    shape of the list with the new tower in it. *)
Lemma insert_nodes_ok (h h' : heap) (all : list tower) r x H :
  nodes_ok h all → (r < length all)%nat →
  height h' x = Some H →
  (∀ j, (j < H)%nat → slot_at h' x j = Some (want_slot j (drop (S r) all))) →
  (∀ p a ht, all !! p = Some (a, ht) → height h' a = Some ht) →
  (∀ p a ht j, all !! p = Some (a, ht) → (j < ht)%nat →
     (p ≤ r)%nat → low_between all j p r → (j < H)%nat →
     slot_at h' a j = Some (Level (Some x) (wrap32 (Z.of_nat r - Z.of_nat p + 1)))) →
  (∀ p a ht j, all !! p = Some (a, ht) → (j < ht)%nat →
     (p ≤ r)%nat → low_between all j p r → (H ≤ j)%nat →
     slot_at h' a j = Some (bump (want_slot j (drop (S p) all)))) →
  (∀ p a ht j, all !! p = Some (a, ht) → (j < ht)%nat →
     ¬ ((p ≤ r)%nat ∧ low_between all j p r) →
     slot_at h' a j = Some (want_slot j (drop (S p) all))) →
  nodes_ok h' (insert_after all r (x, H)).
Proof.
  intros Hok Hr Hx Hxs Hht Hnew Hbump Hsame p a ht.
  rewrite lookup_insert_after by done.
  destruct (decide (p ≤ r)%nat) as [Hp|Hp].
  - intros Hpa. split; [by eapply Hht|]. intros j Hj.
    rewrite drop_insert_after_le by done.
    pose proof (between_None all j p r) as Hbetween.
    pose proof (length_between all p r Hr Hp) as HlenA.
    pose proof (drop_take_split all p r Hp) as Hsplit.
    set (A := take (r - p) (drop (S p) all)) in *.
    set (B := drop (S r) all) in *.
    destruct (low_between_dec all j p r) as [Hlow|Hlow].
    + pose proof Hlow as HA. rewrite <- Hbetween in HA.
      destruct (decide (j < H)%nat) as [HjH|HjH].
      * rewrite (Hnew p a ht j) by done. f_equal.
        rewrite want_slot_eq, fwd_at_app_None, dist_at_app_None by done.
        rewrite fwd_at_cons, dist_at_cons, !decide_True by done.
        rewrite HlenA. f_equal. f_equal. lia.
      * rewrite (Hbump p a ht j) by (done || lia). f_equal.
        rewrite Hsplit. unfold bump.
        rewrite !want_slot_eq. simpl.
        rewrite !fwd_at_app_None, !dist_at_app_None by done.
        rewrite fwd_at_cons, dist_at_cons, !decide_False by done.
        f_equal. wrap_lia.
    + rewrite (Hsame p a ht j) by (done || tauto). f_equal.
      rewrite Hsplit.
      apply want_slot_app_Some. by rewrite Hbetween.
  - destruct (decide (p = S r)) as [->|Hne].
    + intros [= <- <-]. split; [done|]. intros j Hj.
      rewrite drop_insert_after_gt by (done || lia). by apply Hxs.
    + intros Hpa. split; [by eapply Hht|]. intros j Hj.
      rewrite drop_insert_after_gt by (done || lia).
      rewrite (Hsame (p - 1)%nat a ht j) by (done || lia).
      do 2 f_equal. destruct p; [lia|]. simpl. f_equal. lia.
Qed.

End InsertNodes.

(** * What the loops of the updates do to the store *)

Section Loops.

Context {K V : Type} `{EqDecision K}.

Local Abbreviation heap := (heap K V).
Local Abbreviation node := (node (K := K) (V := V)).
Local Abbreviation same_meta := (same_meta (K := K) (V := V)).

Implicit Types (h : heap) (s : SkipList) (update : list (option addr)) (rank : list Z).

Lemma slot_at_insert_levels h a n ls b j :
  h !! a = Some n →
  slot_at (<[a := set_levels n ls]> h) b j =
  if decide (b = a) then ls !! j else slot_at h b j.
Proof.
  intros Ha. unfold slot_at. destruct (decide (b = a)) as [->|Hne].
  - rewrite list_lookup_insert_eq by (by eapply lookup_lt_Some). done.
  - by rewrite list_lookup_insert_ne.
Qed.

Lemma grow_step h s hd sp :
  h !! header s = Some hd →
  ∃ h1, append_level h s = Ok h1 ∧
        store_span h1 (header s) (length (levels hd)) sp
        = Ok (<[header s := grown hd 1 sp]> h).
Proof.
  intros Hhd. unfold append_level. rewrite (load_Ok _ _ _ Hhd). simpl.
  eexists; split; [done|].
  assert (header s < length h)%nat as Hlt by (by eapply lookup_lt_Some).
  unfold store_span, slot, store_slot, load.
  rewrite list_lookup_insert_eq by done. simpl.
  rewrite !lookup_app_r, !Nat.sub_diag by done. simpl.
  rewrite list_insert_insert_eq. unfold grown, set_levels. simpl.
  do 3 f_equal. rewrite insert_app_r_alt, Nat.sub_diag by done. done.
Qed.

Lemma grown_grown (hd : node) c1 c2 sp : grown (grown hd c1 sp) c2 sp = grown hd (c1 + c2) sp.
Proof.
  unfold grown, set_levels. simpl. f_equal.
  by rewrite <- app_assoc, <- replicate_add.
Qed.

Lemma Set_grow_spec count h s hd update rank :
  h !! header s = Some hd → length update = length (levels hd) →
  Set_grow count (length (levels hd)) h s update rank =
  Ok (<[header s := grown hd count (wrap32 (slength s))]> h,
      update ++ replicate count (Some (header s)),
      rank ++ replicate count 0).
Proof.
  revert h hd update rank.
  induction count as [|count IH]; intros h hd update rank Hhd Hlen; simpl.
  - unfold grown, set_levels. rewrite !app_nil_r.
    rewrite list_insert_id; [done|]. rewrite Hhd. by destruct hd.
  - destruct (grow_step h s hd (wrap32 (slength s)) Hhd) as (h1 & Hh1 & Hst).
    rewrite Hh1. simpl.
    rewrite (index_Ok _ _ (Some (header s)))
      by (by rewrite lookup_app_r, Hlen, Nat.sub_diag by lia).
    simpl.
    assert (∃ n1, h1 !! header s = Some n1) as [n1 Hn1].
    { unfold append_level in Hh1. rewrite (load_Ok _ _ _ Hhd) in Hh1.
      simpl in Hh1. injection Hh1 as <-. eexists.
      apply list_lookup_insert_eq. by eapply lookup_lt_Some. }
    rewrite (load_Ok _ _ _ Hn1). simpl. rewrite Hst. simpl.
    assert (header s < length h)%nat as Hlt by (by eapply lookup_lt_Some).
    specialize (IH (<[header s := grown hd 1 (wrap32 (slength s))]> h)
                   (grown hd 1 (wrap32 (slength s)))
                   (update ++ [Some (header s)]) (rank ++ [0])).
    replace (length (levels (grown hd 1 (wrap32 (slength s)))))
      with (S (length (levels hd))) in IH
      by (unfold grown; simpl; rewrite length_app; simpl; lia).
    rewrite IH.
    + rewrite list_insert_insert_eq, grown_grown, <- !app_assoc. done.
    + by apply list_lookup_insert_eq.
    + rewrite length_app. simpl. lia.
Qed.

Lemma Fill_grow_spec count h s pos hd update :
  h !! header s = Some hd → length update = length (levels hd) →
  Fill_grow count (length (levels hd)) h s pos update =
  Ok (<[header s := grown hd count (wrap32 pos)]> h,
      update ++ replicate count (Some (header s))).
Proof.
  revert h hd update.
  induction count as [|count IH]; intros h hd update Hhd Hlen; simpl.
  - unfold grown, set_levels. rewrite !app_nil_r.
    rewrite list_insert_id; [done|]. rewrite Hhd. by destruct hd.
  - destruct (grow_step h s hd (wrap32 pos) Hhd) as (h1 & Hh1 & Hst).
    rewrite Hh1. simpl.
    rewrite (index_Ok _ _ (Some (header s)))
      by (by rewrite lookup_app_r, Hlen, Nat.sub_diag by lia).
    simpl.
    assert (∃ n1, h1 !! header s = Some n1) as [n1 Hn1].
    { unfold append_level in Hh1. rewrite (load_Ok _ _ _ Hhd) in Hh1.
      simpl in Hh1. injection Hh1 as <-. eexists.
      apply list_lookup_insert_eq. by eapply lookup_lt_Some. }
    rewrite (load_Ok _ _ _ Hn1). simpl. rewrite Hst. simpl.
    assert (header s < length h)%nat as Hlt by (by eapply lookup_lt_Some).
    specialize (IH (<[header s := grown hd 1 (wrap32 pos)]> h)
                   (grown hd 1 (wrap32 pos))
                   (update ++ [Some (header s)])).
    replace (length (levels (grown hd 1 (wrap32 pos))))
      with (S (length (levels hd))) in IH
      by (unfold grown; simpl; rewrite length_app; simpl; lia).
    rewrite IH.
    + rewrite list_insert_insert_eq, grown_grown, <- !app_assoc. done.
    + by apply list_lookup_insert_eq.
    + rewrite length_app. simpl. lia.
Qed.

Lemma Set_splice_spec count i h x update rank r0 :
  (count ≠ 0%nat → rank !! 0%nat = Some r0) →
  (∀ j, (i ≤ j < i + count)%nat →
        ∃ u l lx rj, update !! j = Some (Some u) ∧ u ≠ x ∧
                     slot_at h u j = Some l ∧ slot_at h x j = Some lx ∧
                     rank !! j = Some rj) →
  ∃ h', Set_splice count i h x update rank = Ok h' ∧ same_meta h h' ∧
        (∀ b j, ¬ (i ≤ j < i + count)%nat → slot_at h' b j = slot_at h b j) ∧
        (∀ j u l rj, (i ≤ j < i + count)%nat →
           update !! j = Some (Some u) → slot_at h u j = Some l →
           rank !! j = Some rj →
           slot_at h' x j = Some (Level (forward l) (wrap32 (span l - wrap32 (r0 - rj)))) ∧
           slot_at h' u j = Some (Level (Some x) (wrap32 (wrap32 (r0 - rj) + 1))) ∧
           ∀ b, b ≠ x → b ≠ u → slot_at h' b j = slot_at h b j).
Proof.
  revert i h. induction count as [|count IH]; intros i h Hr0 Hpre; simpl.
  - exists h. split; [done|]. split; [done|]. split; [done|]. intros; lia.
  - destruct (Hpre i) as (u & l & lx & ri & Hu & Hux & Hl & Hlx & Hri); [lia|].
    rewrite (index_Ok _ _ _ Hu). simpl.
    destruct (slot_at_height _ _ _ _ Hl) as (hu & Hhu & _).
    destruct (height_Some _ _ _ Hhu) as (un & Hun & _).
    rewrite (load_Ok _ _ _ Hun). simpl.
    rewrite (slot_Ok _ _ _ _ Hl). simpl.
    destruct (store_forward_spec h x i (forward l) lx Hlx) as (h1 & -> & Hm1 & Hs1). simpl.
    assert (slot_at h1 u i = Some l) as Hl1.
    { rewrite Hs1, decide_False; [done|]. by intros [? _]. }
    destruct (store_forward_spec h1 u i (Some x) l Hl1) as (h2 & -> & Hm2 & Hs2). simpl.
    assert (slot_at h2 u i = Some (Level (Some x) (span l))) as Hl2.
    { by rewrite Hs2, decide_True. }
    rewrite (slot_Ok _ _ _ _ Hl2). simpl.
    rewrite (index_Ok _ _ _ (Hr0 ltac:(lia))), (index_Ok _ _ _ Hri). simpl.
    assert (slot_at h2 x i = Some (Level (forward l) (span lx))) as Hx2.
    { rewrite Hs2, decide_False by (intros [? _]; congruence).
      by rewrite Hs1, decide_True. }
    destruct (store_span_spec h2 x i (wrap32 (span l - wrap32 (r0 - ri))) _ Hx2)
      as (h3 & -> & Hm3 & Hs3). simpl.
    assert (slot_at h3 u i = Some (Level (Some x) (span l))) as Hl3.
    { rewrite Hs3, decide_False; [done|]. by intros [? _]. }
    destruct (store_span_spec h3 u i (wrap32 (wrap32 (r0 - ri) + 1)) _ Hl3)
      as (h4 & -> & Hm4 & Hs4). simpl.
    assert (∀ b j, j ≠ i → slot_at h4 b j = slot_at h b j) as Hframe.
    { intros b j Hj.
      rewrite Hs4, decide_False by (intros [_ ?]; done).
      rewrite Hs3, decide_False by (intros [_ ?]; done).
      rewrite Hs2, decide_False by (intros [_ ?]; done).
      rewrite Hs1, decide_False by (intros [_ ?]; done). done. }
    destruct (IH (S i) h4) as (h' & -> & Hm' & Hout & Hin).
    { intros _. apply Hr0. lia. }
    { intros j Hj. destruct (Hpre j) as (u' & l' & lx' & rj & ? & ? & ? & ? & ?); [lia|].
      exists u', l', lx', rj. rewrite !Hframe by lia. done. }
    exists h'. split; [done|]. split.
    { eauto using same_meta_trans. }
    split.
    { intros b j Hj. rewrite Hout by lia. apply Hframe. lia. }
    intros j u' l' rj Hj Hu' Hl' Hrj.
    destruct (decide (j = i)) as [->|Hne].
    + rewrite Hu in Hu'. injection Hu' as <-.
      rewrite Hl in Hl'. injection Hl' as <-.
      rewrite Hri in Hrj. injection Hrj as <-.
      rewrite !Hout by lia. split; [|split].
      * rewrite Hs4, decide_False by (intros [? _]; congruence).
        by rewrite Hs3, decide_True.
      * by rewrite Hs4, decide_True.
      * intros b Hbx Hbu. rewrite Hout by lia.
        rewrite Hs4, decide_False by (intros [? _]; done).
        rewrite Hs3, decide_False by (intros [? _]; done).
        rewrite Hs2, decide_False by (intros [? _]; done).
        rewrite Hs1, decide_False by (intros [? _]; done). done.
    + destruct (Hin j u' l' rj) as (Hx' & Hu'' & Hother); [lia|done| |done|].
      { by rewrite Hframe. }
      split; [done|]. split; [done|].
      intros b Hbx Hbu. rewrite Hother by done. by apply Hframe.
Qed.

Lemma bump_spans_spec count i h update :
  (∀ j, (i ≤ j < i + count)%nat →
        ∃ u l, update !! j = Some (Some u) ∧ slot_at h u j = Some l) →
  ∃ h', bump_spans count i h update = Ok h' ∧ same_meta h h' ∧
        (∀ b j, ¬ (i ≤ j < i + count)%nat → slot_at h' b j = slot_at h b j) ∧
        (∀ j u l, (i ≤ j < i + count)%nat →
           update !! j = Some (Some u) → slot_at h u j = Some l →
           slot_at h' u j = Some (bump l) ∧
           ∀ b, b ≠ u → slot_at h' b j = slot_at h b j).
Proof.
  revert i h. induction count as [|count IH]; intros i h Hpre; simpl.
  - exists h. split; [done|]. split; [done|]. split; [done|]. intros; lia.
  - destruct (Hpre i) as (u & l & Hu & Hl); [lia|].
    rewrite (index_Ok _ _ _ Hu). simpl.
    destruct (slot_at_height _ _ _ _ Hl) as (hu & Hhu & _).
    destruct (height_Some _ _ _ Hhu) as (un & Hun & _).
    rewrite (load_Ok _ _ _ Hun). simpl.
    rewrite (slot_Ok _ _ _ _ Hl). simpl.
    destruct (store_span_spec h u i (wrap32 (span l + 1)) _ Hl)
      as (h1 & -> & Hm1 & Hs1). simpl.
    assert (∀ b j, j ≠ i → slot_at h1 b j = slot_at h b j) as Hframe.
    { intros b j Hj. by rewrite Hs1, decide_False by (intros [_ ?]; done). }
    destruct (IH (S i) h1) as (h' & -> & Hm' & Hout & Hin).
    { intros j Hj. destruct (Hpre j) as (u' & l' & ? & ?); [lia|].
      exists u', l'. rewrite !Hframe by lia. done. }
    exists h'. split; [done|]. split.
    { eauto using same_meta_trans. }
    split.
    { intros b j Hj. rewrite Hout by lia. apply Hframe. lia. }
    intros j u' l' Hj Hu' Hl'.
    destruct (decide (j = i)) as [->|Hne].
    + rewrite Hu in Hu'. injection Hu' as <-.
      rewrite Hl in Hl'. injection Hl' as <-.
      rewrite !Hout by lia. split.
      * by rewrite Hs1, decide_True.
      * intros b Hbu. rewrite Hout by lia.
        by rewrite Hs1, decide_False by (intros [? _]; done).
    + destruct (Hin j u' l') as (Hu'' & Hother); [lia|done| |].
      { by rewrite Hframe. }
      split; [done|].
      intros b Hbu. rewrite Hother by done. by apply Hframe.
Qed.

Lemma Fill_splice_spec count i h x update :
  (∀ j, (i ≤ j < i + count)%nat →
        ∃ u l, update !! j = Some (Some u) ∧ slot_at h u j = Some l) →
  ∃ h' update', Fill_splice count i h x update = Ok (h', update') ∧ same_meta h h' ∧
        length update' = length update ∧
        (∀ j, update' !! j = if decide (i ≤ j < i + count)%nat then Some (Some x)
                             else update !! j) ∧
        (∀ b j, ¬ (i ≤ j < i + count)%nat → slot_at h' b j = slot_at h b j) ∧
        (∀ j u l, (i ≤ j < i + count)%nat →
           update !! j = Some (Some u) → slot_at h u j = Some l →
           slot_at h' u j = Some (Level (Some x) (wrap32 (span l + 1))) ∧
           ∀ b, b ≠ u → slot_at h' b j = slot_at h b j).
Proof.
  revert i h update. induction count as [|count IH]; intros i h update Hpre; simpl.
  - exists h, update. split; [done|]. split; [done|]. split; [done|]. split.
    { intros j. by rewrite decide_False by lia. }
    split; [done|]. intros; lia.
  - destruct (Hpre i) as (u & l & Hu & Hl); [lia|].
    rewrite (index_Ok _ _ _ Hu). simpl.
    destruct (slot_at_height _ _ _ _ Hl) as (hu & Hhu & _).
    destruct (height_Some _ _ _ Hhu) as (un & Hun & _).
    rewrite (load_Ok _ _ _ Hun). simpl.
    destruct (store_forward_spec h u i (Some x) l Hl) as (h1 & -> & Hm1 & Hs1). simpl.
    assert (slot_at h1 u i = Some (Level (Some x) (span l))) as Hl1.
    { by rewrite Hs1, decide_True. }
    rewrite (slot_Ok _ _ _ _ Hl1). simpl.
    destruct (store_span_spec h1 u i (wrap32 (span l + 1)) _ Hl1)
      as (h2 & -> & Hm2 & Hs2). simpl.
    rewrite assign_Ok by (by eapply lookup_lt_Some). simpl.
    assert (∀ b j, j ≠ i → slot_at h2 b j = slot_at h b j) as Hframe.
    { intros b j Hj.
      rewrite Hs2, decide_False by (intros [_ ?]; done).
      by rewrite Hs1, decide_False by (intros [_ ?]; done). }
    destruct (IH (S i) h2 (<[i := Some x]> update)) as (h' & u' & -> & Hm' & Hlen & Hup & Hout & Hin).
    { intros j Hj. destruct (Hpre j) as (u' & l' & ? & ?); [lia|].
      exists u', l'. rewrite !Hframe by lia.
      by rewrite list_lookup_insert_ne by lia. }
    exists h', u'. split; [done|]. split.
    { eauto using same_meta_trans. }
    split; [by rewrite Hlen, length_insert|]. split.
    { intros j. rewrite Hup. destruct (decide (j = i)) as [->|Hne].
      - rewrite decide_False, decide_True by lia.
        apply list_lookup_insert_eq. by eapply lookup_lt_Some.
      - rewrite list_lookup_insert_ne by done.
        destruct (decide (S i ≤ j < S i + count)%nat).
        + by rewrite decide_True by lia.
        + by rewrite decide_False by lia. }
    split.
    { intros b j Hj. rewrite Hout by lia. apply Hframe. lia. }
    intros j u0 l0 Hj Hu0 Hl0.
    destruct (decide (j = i)) as [->|Hne].
    + rewrite Hu in Hu0. injection Hu0 as <-.
      rewrite Hl in Hl0. injection Hl0 as <-.
      rewrite !Hout by lia. split.
      * by rewrite Hs2, decide_True.
      * intros b Hbu. rewrite Hout by lia.
        rewrite Hs2, decide_False by (intros [? _]; done).
        by rewrite Hs1, decide_False by (intros [? _]; done).
    + destruct (Hin j u0 l0) as (Hu'' & Hother); [lia| | |].
      { by rewrite list_lookup_insert_ne by done. }
      { by rewrite Hframe. }
      split; [done|].
      intros b Hbu. rewrite Hother by done. by apply Hframe.
Qed.

End Loops.

(** * Linking a new node *)

Lemma maxInt_ge_l x y : x ≤ maxInt x y.
Proof. unfold maxInt. destruct (Z.gtb_spec x y); lia. Qed.

Lemma maxInt_ge_r x y : y ≤ maxInt x y.
Proof. unfold maxInt. destruct (Z.gtb_spec x y); lia. Qed.

Lemma make_Ok {A} (zero : A) len cap :
  0 ≤ len ≤ cap → make zero len cap = Ok (replicate (Z.to_nat len) zero).
Proof.
  intros Hl. unfold make.
  destruct (Z.ltb_spec len 0); [lia|]. destruct (Z.ltb_spec cap len); [lia|]. done.
Qed.

Section Meta.

Context {K V : Type} `{EqDecision K}.
Variable knil : K.

Local Abbreviation heap := (heap K V).
Local Abbreviation node := (node (K := K) (V := V)).
Local Abbreviation meta := (meta (K := K) (V := V)).
Local Abbreviation same_meta := (same_meta (K := K) (V := V)).
Local Abbreviation keyof := (keyof knil).

Implicit Types (h : heap) (n : node).

Lemma meta_Some h a n :
  h !! a = Some n → meta h a = Some (length (levels n), backward n, key n, value n).
Proof. unfold Skiplist.meta. by intros ->. Qed.

Lemma meta_inv h a len b k v :
  meta h a = Some (len, b, k, v) →
  ∃ n, h !! a = Some n ∧ length (levels n) = len ∧ backward n = b ∧
       key n = k ∧ value n = v.
Proof.
  unfold Skiplist.meta. destruct (h !! a) as [n|]; simpl; [|done].
  intros [= <- <- <- <-]. by exists n.
Qed.

Lemma meta_height h a : height h a = (λ m, m.1.1.1) <$> meta h a.
Proof. unfold height, Skiplist.meta. by destruct (h !! a). Qed.

Lemma meta_keyof h a : keyof h a = from_option (λ m, m.1.2) knil (meta h a).
Proof. unfold Skiplist.keyof, Skiplist.meta. by destruct (h !! a). Qed.

Lemma meta_backof h a : backof h a = meta h a ≫= λ m, m.1.1.2.
Proof. unfold backof, Skiplist.meta. by destruct (h !! a). Qed.

Lemma meta_None h a : (length h ≤ a)%nat → meta h a = None.
Proof. intros Ha. unfold Skiplist.meta. by rewrite lookup_ge_None_2. Qed.

Lemma meta_alloc h n a :
  meta (h ++ [n]) a =
  if decide (a = length h)
  then Some (length (levels n), backward n, key n, value n)
  else meta h a.
Proof.
  unfold Skiplist.meta. destruct (decide (a = length h)) as [->|Hne].
  - by rewrite lookup_app_r, Nat.sub_diag by lia.
  - destruct (decide (a < length h)%nat).
    + by rewrite lookup_app_l.
    + rewrite !lookup_ge_None_2; [done|lia|]. rewrite length_app. simpl. lia.
Qed.

Lemma slot_at_alloc h n a j :
  slot_at (h ++ [n]) a j =
  if decide (a = length h) then levels n !! j else slot_at h a j.
Proof.
  unfold slot_at. destruct (decide (a = length h)) as [->|Hne].
  - by rewrite lookup_app_r, Nat.sub_diag by lia.
  - destruct (decide (a < length h)%nat).
    + by rewrite lookup_app_l.
    + rewrite !lookup_ge_None_2; [done|lia|]. rewrite length_app. simpl. lia.
Qed.

Lemma meta_set_backward h a n b c :
  h !! a = Some n →
  meta (<[a := set_backward n b]> h) c =
  if decide (c = a) then meta_set_back b <$> meta h a else meta h c.
Proof.
  intros Ha. unfold Skiplist.meta. destruct (decide (c = a)) as [->|Hne].
  - rewrite list_lookup_insert_eq by (by eapply lookup_lt_Some). by rewrite Ha.
  - by rewrite list_lookup_insert_ne.
Qed.

Lemma slot_at_set_backward h a n b c j :
  h !! a = Some n →
  slot_at (<[a := set_backward n b]> h) c j = slot_at h c j.
Proof.
  intros Ha. unfold slot_at. destruct (decide (c = a)) as [->|Hne].
  - rewrite list_lookup_insert_eq by (by eapply lookup_lt_Some). by rewrite Ha.
  - by rewrite list_lookup_insert_ne.
Qed.

Lemma meta_set_value h a n v c :
  h !! a = Some n →
  meta (<[a := set_value n v]> h) c =
  if decide (c = a) then Some (length (levels n), backward n, key n, v) else meta h c.
Proof.
  intros Ha. unfold Skiplist.meta. destruct (decide (c = a)) as [->|Hne].
  - by rewrite list_lookup_insert_eq by (by eapply lookup_lt_Some).
  - by rewrite list_lookup_insert_ne.
Qed.

Lemma slot_at_set_value h a n v c j :
  h !! a = Some n →
  slot_at (<[a := set_value n v]> h) c j = slot_at h c j.
Proof.
  intros Ha. unfold slot_at. destruct (decide (c = a)) as [->|Hne].
  - rewrite list_lookup_insert_eq by (by eapply lookup_lt_Some). by rewrite Ha.
  - by rewrite list_lookup_insert_ne.
Qed.

Lemma meta_lt h a m : meta h a = Some m → (a < length h)%nat.
Proof. intros Hm. apply meta_is_Some. by rewrite Hm. Qed.

Lemma slot_at_lt h a j l : slot_at h a j = Some l → (a < length h)%nat.
Proof.
  unfold slot_at. destruct (h !! a) eqn:Ha; simpl; [|done].
  intros _. by eapply lookup_lt_Some.
Qed.

Lemma same_meta_level_of h h' s : same_meta h h' → level_of h' s = level_of h s.
Proof.
  intros Hm. pose proof (same_meta_height _ _ (header s) Hm) as Hh.
  unfold level_of, load, height in *.
  destruct (h' !! header s), (h !! header s); simpl in *; congruence.
Qed.

End Meta.

Section Link.

Context {K V : Type} `{EqDecision K}.
Variable knil : K.
Variable lessThan : K → K → bool.

Local Abbreviation heap := (heap K V).
Local Abbreviation node := (node (K := K) (V := V)).
Local Abbreviation meta := (meta (K := K) (V := V)).
Local Abbreviation same_meta := (same_meta (K := K) (V := V)).
Local Abbreviation keyof := (keyof knil).

Implicit Types (h : heap) (n : node) (s : SkipList).

Lemma height_level_of h s L :
  height h (header s) = Some L → level_of h s = Ok (Z.of_nat L - 1).
Proof.
  intros Hh. destruct (height_Some _ _ _ Hh) as (hd & Hhd & <-).
  unfold level_of. by rewrite (load_Ok _ _ _ Hhd).
Qed.

Lemma height_effectiveMaxLevel h s L :
  height h (header s) = Some L →
  effectiveMaxLevel h s = Ok (maxInt (Z.of_nat L - 1) (MaxLevel s)).
Proof.
  intros Hh. unfold effectiveMaxLevel. by rewrite (height_level_of _ _ _ Hh).
Qed.

Lemma lookup_meta h a : (a < length h)%nat → ∃ n, h !! a = Some n.
Proof. intros Ha. by apply lookup_lt_is_Some_2. Qed.

Lemma Set_link_spec h s k v newLevel update rank L u0 l0 r0 :
  height h (header s) = Some L → (S newLevel ≤ L)%nat →
  (∀ j, (j < L)%nat →
        ∃ u l rj, update !! j = Some (Some u) ∧ slot_at h u j = Some l ∧
                  rank !! j = Some rj) →
  update !! 0%nat = Some (Some u0) → slot_at h u0 0 = Some l0 →
  rank !! 0%nat = Some r0 →
  (∀ f, forward l0 = Some f → (f < length h)%nat) →
  (∀ ft, footer s = Some ft → (ft < length h)%nat) →
  let x := length h in
  let bx := if decide (keyof h u0 ≠ knil) then Some u0 else None in
  let foot := match footer s with
              | None => Some x
              | Some ft => if lessThan (keyof h ft) k then Some x else Some ft
              end in
  ∃ h', Set_link knil lessThan h s k v newLevel update rank
          = Ok (h', mkSkipList (header s) foot (slength s + 1) (MaxLevel s)) ∧
    (∀ a, meta h' a =
          if decide (a = x) then Some (S newLevel, bx, k, v)
          else if decide (forward l0 = Some a)
               then meta_set_back (Some x) <$> meta h a
               else meta h a) ∧
    (∀ j u l rj, (j < S newLevel)%nat →
       update !! j = Some (Some u) → slot_at h u j = Some l → rank !! j = Some rj →
       slot_at h' x j = Some (Level (forward l) (wrap32 (span l - wrap32 (r0 - rj)))) ∧
       slot_at h' u j = Some (Level (Some x) (wrap32 (wrap32 (r0 - rj) + 1))) ∧
       ∀ b, b ≠ x → b ≠ u → slot_at h' b j = slot_at h b j) ∧
    (∀ j u l, (S newLevel ≤ j < L)%nat →
       update !! j = Some (Some u) → slot_at h u j = Some l →
       slot_at h' u j = Some (bump l) ∧
       ∀ b, b ≠ u → slot_at h' b j = slot_at h b j) ∧
    (∀ b j, (L ≤ j)%nat → slot_at h' b j = slot_at h b j).
Proof.
  intros HL HH Hupd Hu0 Hl0 Hr0 Hsucc Hfoot x bx foot.
  unfold Set_link, alloc, deref. fold x.
  rewrite (height_effectiveMaxLevel _ _ _ HL). cbn [rbind].
  rewrite make_Ok by (pose proof (maxInt_ge_l (Z.of_nat L - 1) (MaxLevel s)); lia).
  cbn [rbind]. replace (Z.to_nat (Z.of_nat newLevel + 1)) with (S newLevel) by lia.
  rewrite (index_Ok _ _ _ Hu0). cbn [rbind].
  pose proof (slot_at_lt _ _ _ _ Hl0) as Hu0lt.
  destruct (lookup_meta h u0 Hu0lt) as [pn Hpn].
  set (N0 := Node (replicate (S newLevel) (Level None 0)) None k v).
  assert ((h ++ [N0]) !! u0 = Some pn) as Hpn2 by (by rewrite lookup_app_l).
  rewrite (load_Ok _ _ _ Hpn2). cbn [rbind].
  assert (keyof h u0 = key pn) as Hkey0 by (unfold Skiplist.keyof; by rewrite Hpn).
  set (Nx := Node (replicate (S newLevel) (Level None 0)) bx k v).
  set (h3 := h ++ [Nx]).
  assert ((if decide (key pn ≠ knil)
           then do nn <- load (h ++ [N0]) x;
                Ok (<[x := set_backward nn (Some u0)]> (h ++ [N0]))
           else Ok (h ++ [N0])) = Ok h3) as ->.
  { unfold h3, Nx, bx. rewrite Hkey0. destruct (decide (key pn ≠ knil)).
    - unfold load, x. rewrite lookup_app_r, Nat.sub_diag by lia.
      change ([N0] !! 0%nat) with (Some N0). cbn [rbind].
      rewrite insert_app_r_alt, Nat.sub_diag by lia. done.
    - done. }
  cbn [rbind].
  assert (∀ b j, slot_at h3 b j =
                 if decide (b = x) then replicate (S newLevel) (Level None 0) !! j
                 else slot_at h b j) as Hs3.
  { intros b j. unfold h3. by rewrite slot_at_alloc. }
  assert (∀ a, meta h3 a = if decide (a = x) then Some (S newLevel, bx, k, v)
                           else meta h a) as Hm3.
  { intros a. unfold h3. rewrite meta_alloc. simpl. by rewrite length_replicate. }
  assert (∀ u j l, slot_at h u j = Some l → slot_at h3 u j = Some l ∧ u ≠ x) as Hold.
  { intros u j l Hl. pose proof (slot_at_lt _ _ _ _ Hl).
    split; [|unfold x; lia]. rewrite Hs3, decide_False; [done|unfold x; lia]. }
  (* the splice *)
  destruct (Set_splice_spec (S newLevel) 0%nat h3 x update rank r0)
    as (h4 & -> & Hm4 & Hout4 & Hin4).
  { done. }
  { intros j Hj. destruct (Hupd j) as (u & l & rj & Hu & Hl & Hrj); [lia|].
    destruct (Hold _ _ _ Hl) as [Hl3 Hux].
    exists u, l, (Level None 0), rj. repeat split; [done..| |done].
    rewrite Hs3, decide_True by done. apply lookup_replicate_2. lia. }
  cbn [rbind].
  (* the spans above the new node *)
  assert (height h3 (header s) = Some L) as HL3.
  { rewrite meta_height, Hm3, decide_False, <- meta_height; [done|].
    destruct (height_Some _ _ _ HL) as (hd & Hhd & _).
    apply lookup_lt_Some in Hhd. unfold x. lia. }
  rewrite (same_meta_level_of _ _ _ Hm4), (height_level_of _ _ _ HL3). cbn [rbind].
  replace (Z.to_nat (Z.of_nat L - 1 - Z.of_nat newLevel)) with (L - S newLevel)%nat by lia.
  destruct (bump_spans_spec (L - S newLevel) (S newLevel) h4 update)
    as (h5 & -> & Hm5 & Hout5 & Hin5).
  { intros j Hj. destruct (Hupd j) as (u & l & rj & Hu & Hl & Hrj); [lia|].
    destruct (Hold _ _ _ Hl) as [Hl3 Hux].
    exists u, l. split; [done|]. by rewrite Hout4 by lia. }
  cbn [rbind].
  (* the successor *)
  assert (slot_at h5 x 0 = Some (Level (forward l0) (wrap32 (span l0 - wrap32 (r0 - r0)))))
    as Hx0.
  { rewrite Hout5 by lia.
    destruct (Hold _ _ _ Hl0) as [Hl3 _].
    by destruct (Hin4 0%nat u0 l0 r0) as (-> & _); [lia|done..]. }
  rewrite (slot_Ok _ _ _ _ Hx0). cbn [rbind forward].
  assert (same_meta h3 h5) as Hm35 by eauto using same_meta_trans.
  assert (∃ h6,
    match forward l0 with
    | Some f =>
        do fn <- load h5 f;
        if decide (backward fn ≠ Some x)
        then Ok (<[f := set_backward fn (Some x)]> h5) else Ok h5
    | None => Ok h5
    end = Ok h6 ∧
    (∀ b j, slot_at h6 b j = slot_at h5 b j) ∧
    (∀ a, meta h6 a = if decide (forward l0 = Some a)
                      then meta_set_back (Some x) <$> meta h5 a else meta h5 a))
    as (h6 & -> & Hs6 & Hm6).
  { destruct (forward l0) as [f|] eqn:Hf.
    - assert (f < length h5)%nat as Hflt.
      { rewrite (same_meta_length _ _ Hm35). unfold h3. rewrite length_app.
        specialize (Hsucc f eq_refl). simpl. lia. }
      destruct (lookup_meta h5 f Hflt) as [fn Hfn].
      rewrite (load_Ok _ _ _ Hfn). cbn [rbind].
      destruct (decide (backward fn ≠ Some x)) as [Hb|Hb].
      + eexists; split; [done|]. split.
        * intros b j. by apply slot_at_set_backward.
        * intros a. rewrite (meta_set_backward _ _ _ _ _ Hfn).
          destruct (decide (a = f)) as [->|Hne].
          -- by rewrite decide_True.
          -- by rewrite decide_False by congruence.
      + exists h5. split; [done|]. split; [done|].
        intros a. destruct (decide (Some f = Some a)) as [[= <-]|]; [|done].
        rewrite (meta_Some _ _ _ Hfn). simpl. unfold meta_set_back. cbn [rbind].
        do 4 f_equal. by destruct (decide (backward fn = Some x)).
    - exists h5. split; [done|]. split; [done|].
      intros a. by rewrite decide_False. }
  cbn [rbind footer header slength MaxLevel].
  assert (∀ a, meta h6 a =
               if decide (a = x) then Some (S newLevel, bx, k, v)
               else if decide (forward l0 = Some a)
                    then meta_set_back (Some x) <$> meta h a
                    else meta h a) as Hmeta.
  { intros a. rewrite Hm6, Hm35, Hm3.
    destruct (decide (a = x)) as [->|Hne]; [|done].
    rewrite decide_False; [done|]. intros Hf. specialize (Hsucc _ Hf). unfold x in Hsucc. lia. }
  (* the footer *)
  assert ((match footer s with
           | Some ft => do fn <- load h6 ft; Ok (lessThan (key fn) k)
           | None => Ok true
           end) = Ok (match footer s with
                      | None => true
                      | Some ft => lessThan (keyof h ft) k
                      end)) as ->.
  { destruct (footer s) as [ft|] eqn:Hft; [|done].
    specialize (Hfoot ft eq_refl).
    destruct (lookup_meta h ft Hfoot) as [fn Hfn].
    pose proof (Hmeta ft) as Hmft. rewrite decide_False in Hmft by (unfold x; lia).
    rewrite (meta_Some _ _ _ Hfn) in Hmft.
    assert (∃ fn', h6 !! ft = Some fn' ∧ key fn' = key fn) as (fn' & Hfn' & Hk').
    { destruct (decide (forward l0 = Some ft)); simpl in Hmft.
      - destruct (meta_inv _ _ _ _ _ _ Hmft) as (n' & ? & _ & _ & ? & _). eauto.
      - destruct (meta_inv _ _ _ _ _ _ Hmft) as (n' & ? & _ & _ & ? & _). eauto. }
    rewrite (load_Ok _ _ _ Hfn'). simpl. rewrite Hk'.
    unfold Skiplist.keyof. by rewrite Hfn. }
  cbn [rbind]. exists h6. split.
  { f_equal. f_equal. unfold foot. destruct (footer s) as [ft|]; [|done].
    by destruct (lessThan (keyof h ft) k). }
  split; [done|]. split; [|split].
  - intros j u l rj Hj Hu Hl Hrj.
    destruct (Hold _ _ _ Hl) as [Hl3 Hux].
    destruct (Hin4 j u l rj) as (Hx4 & Hu4 & Hother); [lia|done..|].
    rewrite !Hs6, !Hout5 by lia. split; [done|]. split; [done|].
    intros b Hbx Hbu. rewrite Hs6, Hout5 by lia. rewrite Hother by done.
    by rewrite Hs3, decide_False.
  - intros j u l Hj Hu Hl.
    destruct (Hold _ _ _ Hl) as [Hl3 Hux].
    destruct (Hin5 j u l) as (Hu5 & Hother); [lia|done| |].
    { by rewrite Hout4 by lia. }
    rewrite Hs6. split; [done|].
    intros b Hbu. rewrite Hs6, Hother, Hout4 by (done || lia).
    rewrite Hs3. destruct (decide (b = x)) as [->|]; [|done].
    assert (replicate (S newLevel) (Level None 0) !! j = None) as ->
      by (apply lookup_replicate_None; lia). symmetry.
    unfold slot_at. by rewrite lookup_ge_None_2.
  - intros b j Hj. rewrite Hs6, Hout5, Hout4 by lia.
    rewrite Hs3. destruct (decide (b = x)) as [->|]; [|done].
    assert (replicate (S newLevel) (Level None 0) !! j = None) as ->
      by (apply lookup_replicate_None; lia). symmetry.
    unfold slot_at. by rewrite lookup_ge_None_2.
Qed.

End Link.

(** * Insertion keeps the shape *)

Lemma lookup_insert_mid {A} (l : list A) r x p :
  (r ≤ length l)%nat →
  (take r l ++ x :: drop r l) !! p =
  if decide (p < r)%nat then l !! p
  else if decide (p = r) then Some x else l !! (p - 1)%nat.
Proof.
  intros Hr. destruct (decide (p < r)%nat).
  - rewrite lookup_app_l by (rewrite length_take; lia).
    apply lookup_take_lt. lia.
  - rewrite lookup_app_r by (rewrite length_take; lia).
    rewrite length_take. replace (r `min` length l)%nat with r by lia.
    destruct (decide (p = r)) as [->|].
    + by rewrite Nat.sub_diag.
    + destruct (p - r)%nat as [|m] eqn:Hm; [lia|]. simpl.
      rewrite lookup_drop. f_equal. lia.
Qed.

Lemma insert_mid_perm {A} (l : list A) r x :
  take r l ++ x :: drop r l ≡ₚ x :: l.
Proof.
  rewrite <- Permutation_middle. by rewrite take_drop.
Qed.

Lemma fmap_insert_mid {A B} (f : A → B) (l : list A) r x :
  f <$> (take r l ++ x :: drop r l) = take r (f <$> l) ++ f x :: drop r (f <$> l).
Proof. by rewrite fmap_app, fmap_cons, fmap_take, fmap_drop. Qed.

Section SetShape.

Context {K V : Type} `{EqDecision K}.
Variable knil : K.
Variable lessThan : K → K → bool.

Local Abbreviation heap := (heap K V).
Local Abbreviation node := (node (K := K) (V := V)).
Local Abbreviation meta := (meta (K := K) (V := V)).
Local Abbreviation keyof := (keyof knil).
Local Abbreviation shape := (shape knil lessThan).
Local Abbreviation sorted_keys := (sorted_keys knil lessThan).
Local Abbreviation search_ctx := (search_ctx knil lessThan).

Hypothesis lt_trans : ∀ a b c,
  lessThan a b = true → lessThan b c = true → lessThan a c = true.

Implicit Types (h : heap) (s : SkipList) (ts : list tower).

Lemma sorted_keys_insert h h' (l : list addr) r x k :
  sorted_keys h l → (r ≤ length l)%nat →
  (∀ a, a ∈ l → keyof h' a = keyof h a) → keyof h' x = k →
  (∀ q a, (q < r)%nat → l !! q = Some a → lessThan (keyof h a) k = true) →
  (∀ a, l !! r = Some a → lessThan k (keyof h a) = true) →
  sorted_keys h' (take r l ++ x :: drop r l).
Proof using K V knil lessThan lt_trans.
  intros Hs Hr Hkeys Hx Hlt Hgt p q a b Hpq.
  rewrite !lookup_insert_mid by done.
  assert (∀ q a, (r ≤ q)%nat → l !! q = Some a → lessThan k (keyof h a) = true) as Hgt'.
  { intros q' a' Hq' Ha'. destruct (decide (q' = r)) as [->|]; [by apply Hgt|].
    destruct (lookup_lt_is_Some_2 l r) as [c Hc]; [apply lookup_lt_Some in Ha'; lia|].
    apply (lt_trans _ (keyof h c)); [by apply Hgt|].
    apply (Hs r q'); [lia|done..]. }
  destruct (decide (p < r)%nat).
  - intros Ha. rewrite (Hkeys a) by (by eapply list_elem_of_lookup_2).
    destruct (decide (q < r)%nat).
    + intros Hb. rewrite (Hkeys b) by (by eapply list_elem_of_lookup_2).
      by apply (Hs p q).
    + destruct (decide (q = r)) as [->|].
      * intros [= <-]. rewrite Hx. by apply (Hlt p).
      * intros Hb. rewrite (Hkeys b) by (by eapply list_elem_of_lookup_2).
        apply (Hs p (q - 1)%nat); [lia|done..].
  - destruct (decide (p = r)) as [->|].
    + intros [= <-]. rewrite Hx.
      rewrite decide_False, decide_False by lia.
      intros Hb. rewrite (Hkeys b) by (by eapply list_elem_of_lookup_2).
      apply (Hgt' (q - 1)%nat); [lia|done].
    + intros Ha. rewrite (Hkeys a) by (by eapply list_elem_of_lookup_2).
      rewrite decide_False, decide_False by lia.
      intros Hb. rewrite (Hkeys b) by (by eapply list_elem_of_lookup_2).
      apply (Hs (p - 1)%nat (q - 1)%nat); [lia|done..].
Qed.

Lemma shape_nodup_all h s L ts :
  shape h s L ts → NoDup (((header s, L) :: ts).*1).
Proof. apply shape_nodup. Qed.

Lemma all_addr_inj (all : list tower) p q a ht ht' :
  NoDup (all.*1) → all !! p = Some (a, ht) → all !! q = Some (a, ht') → p = q.
Proof.
  intros Hnd Hp Hq. eapply NoDup_lookup; [done| |].
  - by rewrite list_lookup_fmap, Hp.
  - by rewrite list_lookup_fmap, Hq.
Qed.

Lemma Set_link_shape h s L ts k v newLevel update rank r :
  shape h s L ts → search_ctx h ((header s, L) :: ts) k r →
  (S newLevel ≤ L)%nat →
  (∀ j, (j < L)%nat →
        ∃ pj aj, update !! j = Some (Some aj) ∧
                 rank !! j = Some (wrap32 (Z.of_nat pj)) ∧
                 pred_at ((header s, L) :: ts) j r pj aj) →
  (∀ f ht, ts !! r = Some (f, ht) → lessThan k (keyof h f) = true) →
  (∀ ft, footer s = Some ft → (ft < length h)%nat) →
  ∃ h' u0 hu0,
    let x := length h in
    let bx := if decide (keyof h u0 ≠ knil) then Some u0 else None in
    let foot := match footer s with
                | None => Some x
                | Some ft => if lessThan (keyof h ft) k then Some x else Some ft
                end in
    let s' := mkSkipList (header s) foot (slength s + 1) (MaxLevel s) in
    ((header s, L) :: ts) !! r = Some (u0, hu0) ∧
    Set_link knil lessThan h s k v newLevel update rank = Ok (h', s') ∧
    shape h' s' L (take r ts ++ (x, S newLevel) :: drop r ts) ∧
    (∀ a, meta h' a =
          if decide (a = x) then Some (S newLevel, bx, k, v)
          else if decide (fst <$> ts !! r = Some a)
               then meta_set_back (Some x) <$> meta h a
               else meta h a).
Proof using EqDecision0 K V knil lessThan lt_trans.
  intros Hsh Hctx HH Hupd Hsucc Hfoot.
  set (all := (header s, L) :: ts) in *.
  pose proof (ctx_nodes _ _ _ _ _ _ Hctx) as Hok.
  pose proof (split_bound _ _ _ _ _ _ (ctx_split _ _ _ _ _ _ Hctx)) as Hr.
  pose proof (shape_nodup_all _ _ _ _ Hsh) as Hnd. fold all in Hnd.
  destruct (shape_heights _ _ _ _ _ _ Hsh) as [HL1 Hhts].
  (* the tower before the new node *)
  destruct (Hupd 0%nat) as (p0 & u0 & Hu0 & Hr0 & Hpred0); [lia|].
  pose proof (desc_0 knil lessThan h all k r Hctx _ _ (pred_at_desc _ _ _ _ _ Hpred0)) as ->.
  destruct Hpred0 as (_ & (hu0 & Hp0 & Hhu0) & _).
  pose proof (nodes_ok_slot _ _ _ _ _ 0%nat Hok Hp0 Hhu0) as Hl0.
  assert (forward (want_slot 0 (drop (S r) all)) = fst <$> ts !! r) as Hfw0.
  { rewrite want_slot_eq. cbn [forward]. unfold fwd_at.
    rewrite (next_at_0_drop knil lessThan h all k r Hctx).
    unfold all. rewrite lookup_towers. by destruct (ts !! r) as [[]|]. }
  destruct (Set_link_spec knil lessThan h s k v newLevel update rank L u0
              (want_slot 0 (drop (S r) all)) (wrap32 (Z.of_nat r)))
    as (h' & Hrun & Hmeta & Hlow & Hhigh & Hout); [| done | | done | apply Hl0 | done | | done |].
  { by destruct (Hok 0%nat (header s) L eq_refl). }
  { intros j Hj. destruct (Hupd j Hj) as (pj & aj & Huj & Hrj & (_ & (hj & Hpj & Hhj) & _)).
    exists aj, (want_slot j (drop (S pj) all)), (wrap32 (Z.of_nat pj)).
    split; [done|]. split; [|done]. by eapply nodes_ok_slot. }
  { intros f. rewrite Hfw0. intros Hf.
    destruct (ts !! r) as [[f' hf]|] eqn:Hfr; [|done]. injection Hf as ->.
    eapply (shape_in_heap knil lessThan _ _ _ _ (S r)); [done|]. by rewrite lookup_towers. }
  rewrite Hfw0 in Hmeta.
  exists h', u0, hu0. split; [done|]. split; [done|]. split; [|done].
  (* facts about the old nodes *)
  assert (∀ p a ht, all !! p = Some (a, ht) → a ≠ length h) as Hfresh.
  { intros p a ht Hp. pose proof (shape_in_heap knil lessThan _ _ _ _ _ _ _ Hsh Hp). lia. }
  assert (∀ p a ht, all !! p = Some (a, ht) →
            height h' a = height h a ∧ keyof h' a = keyof h a) as Hsame.
  { intros p a ht Hp. rewrite !meta_height, !(meta_keyof knil), Hmeta.
    rewrite decide_False by (by eapply Hfresh).
    destruct (decide (fst <$> ts !! r = Some a)); [|done].
    by destruct (meta h a) as [[[[] ?] ?]|]. }
  assert (height h' (length h) = Some (S newLevel) ∧ keyof h' (length h) = k) as [Hhx Hkx].
  { by rewrite meta_height, (meta_keyof knil), Hmeta, decide_True. }
  split.
  - (* no address twice *)
    simpl. rewrite fmap_insert_mid. simpl.
    change (header s :: take r ts.*1 ++ length h :: drop r ts.*1)
      with ((header s :: take r ts.*1) ++ length h :: drop r ts.*1).
    apply NoDup_app. split; [|split].
    + eapply (NoDup_app (header s :: take r ts.*1) (drop r ts.*1)).
      change (NoDup (header s :: take r ts.*1 ++ drop r ts.*1)).
      rewrite take_drop. apply Hnd.
    + intros a Ha Hin. apply elem_of_cons in Hin as [->|Hin].
      * apply list_elem_of_lookup in Ha as [p Hp].
        destruct p as [|p]; simpl in Hp.
        -- injection Hp as Hp. by eapply (Hfresh 0%nat (header s) L).
        -- apply lookup_take_Some in Hp as [Hp _].
           rewrite list_lookup_fmap in Hp.
           destruct (ts !! p) as [[a' ht']|] eqn:Hts; [|done].
           simpl in Hp. injection Hp as ->.
           by eapply (Hfresh (S p) (length h) ht').
      * assert (NoDup ((header s :: take r ts.*1) ++ drop r ts.*1)) as Hnd'.
        { change (NoDup (header s :: take r ts.*1 ++ drop r ts.*1)).
          rewrite take_drop. apply Hnd. }
        apply NoDup_app in Hnd' as (_ & Hdisj & _). by apply (Hdisj a).
    + apply NoDup_cons. split.
      * intros Hin. apply list_elem_of_lookup in Hin as [p Hp].
        rewrite lookup_drop, list_lookup_fmap in Hp.
        destruct (ts !! (r + p)%nat) as [[a' ht']|] eqn:Hts; [|done].
        simpl in Hp. injection Hp as Hp.
        by eapply (Hfresh (S (r + p)) a' ht').
      * eapply (NoDup_app (header s :: take r ts.*1) (drop r ts.*1)).
        change (NoDup (header s :: take r ts.*1 ++ drop r ts.*1)).
        rewrite take_drop. apply Hnd.
  - (* the slots *)
    change ((header s, L) :: take r ts ++ (length h, S newLevel) :: drop r ts)
      with (insert_after all r (length h, S newLevel)).
    apply (insert_nodes_ok h h' all r (length h) (S newLevel)); [done..| | | | |].
    + intros j Hj.
      destruct (Hupd j) as (pj & aj & Huj & Hrj & Hpred); [lia|].
      pose proof Hpred as (Hpjr & (hj & Hpj & Hhj) & Hlowj).
      destruct (Hlow j aj (want_slot j (drop (S pj) all)) (wrap32 (Z.of_nat pj)))
        as (-> & _); [done|done|by eapply nodes_ok_slot|done|].
      f_equal.
      pose proof (length_between all pj r Hr Hpjr) as HlenA.
      pose proof (drop_take_split all pj r Hpjr) as Hsplit.
      rewrite <- between_None in Hlowj.
      set (A := take (r - pj) (drop (S pj) all)) in *.
      rewrite Hsplit, !want_slot_eq. cbn [forward span].
      rewrite fwd_at_app_None, dist_at_app_None by done.
      f_equal. rewrite HlenA. wrap_lia.
    + intros p a ht Hp. destruct (Hsame _ _ _ Hp) as [-> _]. by destruct (Hok _ _ _ Hp).
    + intros p a ht j Hp Hj Hpr Hlowp HjH.
      destruct (Hupd j) as (pj & aj & Huj & Hrj & Hpred); [lia|].
      destruct (pred_at_unique all j r p a pj aj) as [<- <-]; [|done|].
      { split; [done|]. split; [by eauto|done]. }
      destruct (Hlow j a (want_slot j (drop (S p) all)) (wrap32 (Z.of_nat p)))
        as (_ & -> & _); [done|done|by eapply nodes_ok_slot|done|].
      do 2 f_equal. wrap_lia.
    + intros p a ht j Hp Hj Hpr Hlowp HjH.
      assert (j < L)%nat as HjL.
      { pose proof (shape_low knil lessThan _ _ _ _ _ _ _ Hsh Hp). lia. }
      destruct (Hupd j) as (pj & aj & Huj & Hrj & Hpred); [lia|].
      destruct (pred_at_unique all j r p a pj aj) as [<- <-]; [|done|].
      { split; [done|]. split; [by eauto|done]. }
      by destruct (Hhigh j a (want_slot j (drop (S p) all)))
        as (-> & _); [lia|done|by eapply nodes_ok_slot|].
    + intros p a ht j Hp Hj Hnot.
      assert (j < L)%nat as HjL.
      { pose proof (shape_low knil lessThan _ _ _ _ _ _ _ Hsh Hp). lia. }
      destruct (Hupd j) as (pj & aj & Huj & Hrj & Hpred); [lia|].
      pose proof Hpred as (Hpjr & (hj & Hpj & Hhj) & Hlowj).
      assert (a ≠ aj) as Hne.
      { intros ->. apply Hnot.
        by rewrite (all_addr_inj all p pj aj ht hj Hnd Hp Hpj). }
      rewrite <- (nodes_ok_slot _ _ _ _ _ j Hok Hp Hj).
      destruct (decide (j < S newLevel)%nat).
      * destruct (Hlow j aj (want_slot j (drop (S pj) all)) (wrap32 (Z.of_nat pj)))
          as (_ & _ & Hother); [done|done|by eapply nodes_ok_slot|done|].
        apply Hother; [by eapply Hfresh|done].
      * destruct (Hhigh j aj (want_slot j (drop (S pj) all)))
          as (_ & Hother); [lia|done|by eapply nodes_ok_slot|].
        by apply Hother.
  - (* the heights *)
    split; [done|]. intros a ht Hin.
    apply elem_of_app in Hin as [Hin|Hin].
    + apply (Hhts a). by eapply subseteq_take.
    + apply elem_of_cons in Hin as [[= -> ->]|Hin]; [lia|].
      apply (Hhts a). by eapply subseteq_drop.
  - (* the order of the keys *)
    simpl. rewrite fmap_insert_mid. simpl.
    apply (sorted_keys_insert h h' (ts.*1) r (length h) k).
    + apply (shape_sorted _ _ _ _ _ _ Hsh).
    + rewrite length_fmap. unfold all in Hr. simpl in Hr. lia.
    + intros a Ha. apply list_elem_of_fmap in Ha as ([a' ht] & -> & Hin).
      apply list_elem_of_lookup in Hin as [p Hp].
      by destruct (Hsame (S p) a' ht).
    + done.
    + intros q a Hq. rewrite list_lookup_fmap. intros Ha.
      destruct (ts !! q) as [[a' ht]|] eqn:Hts; [|done]. injection Ha as ->.
      apply (split_lt _ _ _ _ _ _ (ctx_split _ _ _ _ _ _ Hctx) (S q) a ht); [lia|done].
    + intros a. rewrite list_lookup_fmap. intros Ha.
      destruct (ts !! r) as [[a' ht]|] eqn:Hts; [|done]. injection Ha as ->.
      by eapply Hsucc.
  - (* the length *)
    simpl. rewrite (shape_length _ _ _ _ _ _ Hsh).
    rewrite length_app, length_take. simpl. rewrite length_drop.
    unfold all in Hr. simpl in Hr. lia.
Qed.

End SetShape.

(** * Growing the header *)

Lemma randomLevel_loop_bound budget n r :
  (n ≤ (randomLevel_loop budget n r).1 ≤ n + budget)%nat.
Proof.
  revert n r. induction budget as [|b IH]; intros n r; simpl; [lia|].
  destruct (r 0%nat); simpl; [|lia].
  specialize (IH (S n) (λ m, r (S m))). lia.
Qed.

Lemma grow_pred_at (s : SkipList) L c (ts : list tower) j r p a :
  pred_at ((header s, L) :: ts) j r p a →
  pred_at ((header s, (L + c)%nat) :: ts) j r p a.
Proof.
  intros (Hpr & (ht & Hp & Hj) & Hlow). split; [done|]. split.
  - destruct p as [|p]; simpl in *.
    + injection Hp as <- <-. exists (L + c)%nat. split; [done|lia].
    + by exists ht.
  - intros [|q] a' ht' Hq Hq'; [lia|]. by apply (Hlow (S q) a' ht').
Qed.

Lemma grow_pred_at_new (s : SkipList) L c (ts : list tower) j r :
  (∀ a ht, (a, ht) ∈ ts → (ht ≤ L)%nat) → (L ≤ j < L + c)%nat →
  pred_at ((header s, (L + c)%nat) :: ts) j r 0 (header s).
Proof.
  intros Hhts Hj. split; [lia|]. split.
  - exists (L + c)%nat. split; [done|lia].
  - intros [|q] a' ht' Hq Hq'; [lia|]. simpl in Hq'.
    assert (ht' ≤ L)%nat; [|lia]. apply (Hhts a'). by eapply list_elem_of_lookup_2.
Qed.

Section Grow.

Context {K V : Type} `{EqDecision K}.
Variable knil : K.
Variable lessThan : K → K → bool.

Local Abbreviation heap := (heap K V).
Local Abbreviation node := (node (K := K) (V := V)).
Local Abbreviation meta := (meta (K := K) (V := V)).
Local Abbreviation binfo := (binfo (K := K) (V := V)).
Local Abbreviation keyof := (keyof knil).
Local Abbreviation shape := (shape knil lessThan).
Local Abbreviation back := (back knil).
Local Abbreviation sorted_keys := (sorted_keys knil lessThan).
Local Abbreviation search_ctx := (search_ctx knil lessThan).

Implicit Types (h : heap) (s : SkipList) (ts : list tower) (n : node).

Lemma binfo_meta h a : binfo h a = (λ m, (m.1.1.2, m.1.2, m.2)) <$> meta h a.
Proof. unfold Skiplist.binfo, Skiplist.meta. by destruct (h !! a). Qed.

Lemma binfo_keyof h a : keyof h a = from_option (λ m, m.1.2) knil (binfo h a).
Proof. unfold Skiplist.keyof, Skiplist.binfo. by destruct (h !! a). Qed.

Lemma binfo_Some h a n :
  h !! a = Some n → binfo h a = Some (backward n, key n, value n).
Proof. unfold Skiplist.binfo. by intros ->. Qed.

Lemma binfo_inv h a b k v :
  binfo h a = Some (b, k, v) →
  ∃ n, h !! a = Some n ∧ backward n = b ∧ key n = k ∧ value n = v.
Proof.
  unfold Skiplist.binfo. destruct (h !! a) as [n|]; simpl; [|done].
  intros [= <- <- <-]. by exists n.
Qed.

(** A store that agrees with another on the nodes of an engine holds the
    same engine. *)
Lemma nodes_ok_ext h h' (all : list tower) :
  (∀ p a ht, all !! p = Some (a, ht) →
     height h' a = height h a ∧ ∀ j, slot_at h' a j = slot_at h a j) →
  nodes_ok h all → nodes_ok h' all.
Proof.
  intros Hsame Hok p a ht Hp. destruct (Hsame _ _ _ Hp) as [-> Hs].
  destruct (Hok _ _ _ Hp) as [Hh Hsl]. split; [done|].
  intros j Hj. rewrite Hs. by apply Hsl.
Qed.

Lemma sorted_keys_ext h h' (l : list addr) :
  (∀ a, a ∈ l → keyof h' a = keyof h a) →
  sorted_keys h l → sorted_keys h' l.
Proof.
  intros Hsame Hs p q a b Hpq Hp Hq.
  rewrite !Hsame by (by eapply list_elem_of_lookup_2). by apply (Hs p q).
Qed.

Lemma shape_ext h h' s L ts :
  (∀ a, (a < length h)%nat →
     height h' a = height h a ∧ keyof h' a = keyof h a ∧
     ∀ j, slot_at h' a j = slot_at h a j) →
  shape h s L ts → shape h' s L ts.
Proof.
  intros Hsame Hsh. split.
  - apply (shape_nodup _ _ _ _ _ _ Hsh).
  - eapply nodes_ok_ext; [|apply (shape_nodes _ _ _ _ _ _ Hsh)].
    intros p a ht Hp.
    destruct (Hsame a) as (? & _ & ?); [|done].
    by eapply (shape_in_heap knil lessThan).
  - apply (shape_heights _ _ _ _ _ _ Hsh).
  - eapply sorted_keys_ext; [|apply (shape_sorted _ _ _ _ _ _ Hsh)].
    intros a Ha. apply list_elem_of_fmap in Ha as ([a' ht] & -> & Hin).
    apply list_elem_of_lookup in Hin as [p Hp].
    destruct (Hsame a') as (_ & ? & _); [|done].
    eapply (shape_in_heap knil lessThan _ _ _ _ (S p)); [done|].
    by rewrite lookup_towers.
  - apply (shape_length _ _ _ _ _ _ Hsh).
Qed.

Lemma back_ext h h' s ts :
  (∀ a, (a < length h)%nat → binfo h' a = binfo h a) →
  (∀ a, a ∈ header s :: ts.*1 → (a < length h)%nat) →
  back h s ts → back h' s ts.
Proof.
  intros Hsame Hin Hb. split.
  - destruct (back_header _ _ _ _ Hb) as (hd & Hhd & Hbk & Hk).
    pose proof (Hsame (header s) (Hin _ ltac:(left))) as Hi.
    rewrite (binfo_Some _ _ _ Hhd) in Hi.
    destruct (binfo_inv _ _ _ _ _ Hi) as (n & Hn & ? & ? & _).
    exists n. split; [done|]. split; congruence.
  - intros p a Hp. destruct (back_nodes _ _ _ _ Hb p a Hp) as (n & Hn & Hbk).
    pose proof (Hsame a (Hin _ ltac:(right; by eapply list_elem_of_lookup_2))) as Hi.
    rewrite (binfo_Some _ _ _ Hn) in Hi.
    destruct (binfo_inv _ _ _ _ _ Hi) as (n' & Hn' & ? & _).
    exists n'. split; [done|]. congruence.
  - apply (back_footer _ _ _ _ Hb).
  - intros a Ha. rewrite binfo_keyof, Hsame, <- binfo_keyof.
    + by apply (back_nonnil _ _ _ _ Hb).
    + apply Hin. by right.
Qed.

Lemma shape_addr_lt h s L ts a :
  shape h s L ts → a ∈ header s :: ts.*1 → (a < length h)%nat.
Proof.
  intros Hsh Ha.
  change (header s :: ts.*1) with (((header s, L) :: ts).*1) in Ha.
  apply list_elem_of_fmap in Ha as ([a' ht] & -> & Hin).
  apply list_elem_of_lookup in Hin as [p Hp].
  by eapply (shape_in_heap knil lessThan).
Qed.

(** The header with [c] more levels, each spanning the whole list. *)
Lemma grow_facts h s hd c sp a :
  h !! header s = Some hd →
  let h1 := <[header s := grown hd c sp]> h in
  length h1 = length h ∧
  binfo h1 a = binfo h a ∧
  height h1 a = (if decide (a = header s) then Some (length (levels hd) + c)%nat
                 else height h a) ∧
  ∀ j, slot_at h1 a j =
       if decide (a = header s)
       then (levels hd ++ replicate c (Level None sp)) !! j
       else slot_at h a j.
Proof.
  intros Hhd h1. assert (header s < length h)%nat as Hlt by (by eapply lookup_lt_Some).
  split; [by apply length_insert|].
  unfold h1, Skiplist.binfo, height, slot_at.
  destruct (decide (a = header s)) as [->|Hne].
  - rewrite list_lookup_insert_eq by done. rewrite Hhd. simpl.
    rewrite length_app, length_replicate. done.
  - by rewrite list_lookup_insert_ne.
Qed.

Lemma grow_shape h s L ts hd c :
  shape h s L ts → h !! header s = Some hd →
  shape (<[header s := grown hd c (wrap32 (slength s))]> h) s (L + c) ts.
Proof.
  intros Hsh Hhd.
  destruct (shape_header knil lessThan _ _ _ _ Hsh) as (hd' & Hhd' & HL & HL1).
  rewrite Hhd in Hhd'. injection Hhd' as <-.
  pose proof (shape_nodes _ _ _ _ _ _ Hsh) as Hok.
  destruct (shape_heights _ _ _ _ _ _ Hsh) as [_ Hhts].
  pose proof (shape_nodup _ _ _ _ _ _ Hsh) as Hnd.
  split.
  - done.
  - intros p a ht Hp.
    destruct (grow_facts h s hd c (wrap32 (slength s)) a Hhd) as (_ & _ & Hh & Hs).
    rewrite Hh. destruct p as [|p]; simpl in Hp.
    + injection Hp as <- <-. rewrite decide_True by done.
      split; [by rewrite HL|]. intros j Hj. rewrite Hs, decide_True by done.
      destruct (decide (j < L)%nat) as [HjL|HjL].
      * rewrite lookup_app_l by lia.
        destruct (Hok 0%nat (header s) L eq_refl) as [_ Hsl].
        specialize (Hsl j HjL). unfold slot_at in Hsl. by rewrite Hhd in Hsl.
      * rewrite lookup_app_r by lia.
        rewrite lookup_replicate_2 by lia. f_equal.
        rewrite want_slot_None.
        -- by rewrite (shape_length _ _ _ _ _ _ Hsh).
        -- apply next_at_None. intros q a' ht' Hq.
           assert (1 ≤ ht' ≤ L)%nat; [|lia].
           apply (Hhts a'). by eapply list_elem_of_lookup_2.
    + assert (a ≠ header s) as Hne.
      { intros ->. apply NoDup_cons in Hnd as [Hnin _]. apply Hnin.
        apply list_elem_of_fmap. exists (header s, ht). split; [done|].
        by eapply list_elem_of_lookup_2. }
      rewrite decide_False by done.
      destruct (Hok (S p) a ht Hp) as [Hh' Hsl]. split; [done|].
      intros j Hj. rewrite Hs, decide_False by done. by apply Hsl.
  - split; [lia|]. intros a ht Hin. specialize (Hhts a ht Hin). lia.
  - eapply sorted_keys_ext; [|apply (shape_sorted _ _ _ _ _ _ Hsh)].
    intros a _. rewrite !binfo_keyof.
    by destruct (grow_facts h s hd c (wrap32 (slength s)) a Hhd) as (_ & -> & _).
  - apply (shape_length _ _ _ _ _ _ Hsh).
Qed.

Lemma grow_search_ctx h s L ts hd c k r :
  shape h s L ts → h !! header s = Some hd →
  search_ctx h ((header s, L) :: ts) k r →
  search_ctx (<[header s := grown hd c (wrap32 (slength s))]> h)
             ((header s, (L + c)%nat) :: ts) k r.
Proof.
  intros Hsh Hhd Hctx.
  assert (∀ a, keyof (<[header s := grown hd c (wrap32 (slength s))]> h) a = keyof h a)
    as Hkey.
  { intros a. rewrite !binfo_keyof.
    by destruct (grow_facts h s hd c (wrap32 (slength s)) a Hhd) as (_ & -> & _). }
  split.
  - apply (shape_nodes _ _ _ _ _ _ (grow_shape _ _ _ _ _ c Hsh Hhd)).
  - destruct (ctx_split _ _ _ _ _ _ Hctx) as [Hlt Hge Hb]. split.
    + intros [|q] a ht Hq Hqa; [lia|]. rewrite Hkey. by apply (Hlt (S q) a ht).
    + intros [|q] a ht Hq Hqa; [lia|]. rewrite Hkey. by apply (Hge (S q) a ht).
    + done.
  - intros [|p] a ht Hp.
    + injection Hp as <- <-. destruct (shape_heights _ _ _ _ _ _ Hsh). lia.
    + by apply (ctx_low _ _ _ _ _ _ Hctx (S p) a ht).
  - rewrite length_insert. apply (ctx_fuel _ _ _ _ _ _ Hctx).
  - intros [|q] a ht Hq Hqa; [lia|]. rewrite Hkey.
    by apply (ctx_uniq _ _ _ _ _ _ Hctx (S q) a ht).
Qed.

End Grow.

(** * Insertion keeps the back pointers and the footer *)

Section SetBack.

Context {K V : Type} `{EqDecision K}.
Variable knil : K.
Variable lessThan : K → K → bool.

Local Abbreviation heap := (heap K V).
Local Abbreviation node := (node (K := K) (V := V)).
Local Abbreviation meta := (meta (K := K) (V := V)).
Local Abbreviation binfo := (binfo (K := K) (V := V)).
Local Abbreviation keyof := (keyof knil).
Local Abbreviation shape := (shape knil lessThan).
Local Abbreviation back := (back knil).
Local Abbreviation split_at := (split_at knil lessThan).

Implicit Types (h : heap) (s : SkipList) (ts : list tower) (n : node).

Lemma last_insert_mid {A} (l : list A) r x :
  (r ≤ length l)%nat →
  last (take r l ++ x :: drop r l) = if decide (r = length l) then Some x else last l.
Proof.
  intros Hr. rewrite !last_lookup, lookup_insert_mid by done.
  rewrite length_app, length_take. simpl. rewrite length_drop.
  replace (Init.Nat.pred (r `min` length l + S (length l - r))) with (length l) by lia.
  destruct (decide (r = length l)) as [->|Hne].
  - rewrite decide_False by lia. by rewrite decide_True.
  - rewrite decide_False, decide_False by lia. f_equal. lia.
Qed.

Lemma insert_back h h' s L ts k r u0 hu0 x H (v : V) len' ml :
  shape h s L ts → back h s ts → split_at h ((header s, L) :: ts) k r →
  k ≠ knil → ((header s, L) :: ts) !! r = Some (u0, hu0) →
  x ∉ header s :: ts.*1 →
  let bx := if decide (keyof h u0 ≠ knil) then Some u0 else None in
  let foot := match footer s with
              | None => Some x
              | Some ft => if lessThan (keyof h ft) k then Some x else Some ft
              end in
  (∀ a, binfo h' a =
        if decide (a = x) then Some (bx, k, v)
        else if decide (fst <$> ts !! r = Some a)
             then (λ i, (Some x, i.1.2, i.2)) <$> binfo h a
             else binfo h a) →
  back h' (mkSkipList (header s) foot len' ml) (take r ts ++ (x, H) :: drop r ts).
Proof.
  intros Hsh Hb Hsp Hk Hu0 Hx bx foot Hinfo.
  pose proof (shape_nodup _ _ _ _ _ _ Hsh) as Hnd.
  pose proof (split_bound _ _ _ _ _ _ Hsp) as Hr. simpl in Hr.
  assert (r ≤ length (ts.*1))%nat as Hr' by (rewrite length_fmap; lia).
  assert (∀ p a, ts.*1 !! p = Some a → a ≠ x) as Hfresh.
  { intros p a Hp ->. apply Hx. right. by eapply list_elem_of_lookup_2. }
  assert (∀ p a, ts.*1 !! p = Some a → p ≠ r → fst <$> ts !! r ≠ Some a) as Hnsucc.
  { intros p a Hp Hpr Hs. rewrite <- list_lookup_fmap in Hs.
    apply NoDup_cons in Hnd as [_ Hnd]. by apply Hpr, (NoDup_lookup _ _ _ a Hnd). }
  assert (header s ≠ x) as Hhx by (intros Heq; apply Hx; rewrite <- Heq; left).
  assert (fst <$> ts !! r ≠ Some (header s)) as Hhs.
  { intros Hs. rewrite <- list_lookup_fmap in Hs.
    apply NoDup_cons in Hnd as [Hnin _]. apply Hnin. by eapply list_elem_of_lookup_2. }
  split; simpl.
  - destruct (back_header _ _ _ _ Hb) as (hd & Hhd & Hbk & Hkn).
    pose proof (Hinfo (header s)) as Hi.
    rewrite decide_False, decide_False in Hi by done.
    rewrite (binfo_Some _ _ _ Hhd) in Hi.
    destruct (binfo_inv _ _ _ _ _ Hi) as (n & Hn & ? & ? & _).
    exists n. split; [done|]. split; congruence.
  - intros p a. rewrite fmap_insert_mid. simpl.
    rewrite lookup_insert_mid by done.
    destruct (decide (p < r)%nat) as [Hpr|Hpr].
    + intros Hp. destruct (back_nodes _ _ _ _ Hb p a Hp) as (n & Hn & Hbk).
      pose proof (Hinfo a) as Hi.
      rewrite decide_False, decide_False in Hi
        by (eauto using Hfresh || (eapply Hnsucc; [done|lia])).
      rewrite (binfo_Some _ _ _ Hn) in Hi.
      destruct (binfo_inv _ _ _ _ _ Hi) as (n' & Hn' & Hbk' & _).
      exists n'. split; [done|]. rewrite Hbk', Hbk.
      destruct p as [|p]; [done|].
      rewrite lookup_insert_mid by done. by rewrite decide_True by lia.
    + destruct (decide (p = r)) as [->|Hne].
      * intros [= <-]. pose proof (Hinfo x) as Hi. rewrite decide_True in Hi by done.
        destruct (binfo_inv _ _ _ _ _ Hi) as (n' & Hn' & Hbk' & _).
        exists n'. split; [done|]. rewrite Hbk'. unfold bx.
        destruct r as [|r]; simpl in Hu0.
        -- injection Hu0 as <- <-.
           destruct (back_header _ _ _ _ Hb) as (hd & Hhd & _ & Hkn).
           unfold Skiplist.keyof. rewrite Hhd. simpl.
           by rewrite decide_False by (intros Hc; by apply Hc).
        -- rewrite lookup_insert_mid by done.
           rewrite (decide_True (P := (r < S r)%nat)) by lia.
           rewrite list_lookup_fmap, Hu0. simpl.
           rewrite decide_True; [done|].
           apply (back_nonnil _ _ _ _ Hb).
           apply list_elem_of_fmap. exists (u0, hu0). split; [done|].
           by eapply list_elem_of_lookup_2.
      * intros Hp. destruct p as [|p]; [lia|].
        replace (S p - 1)%nat with p in Hp by lia.
        destruct (back_nodes _ _ _ _ Hb p a Hp) as (n & Hn & Hbk).
        pose proof (Hinfo a) as Hi.
        rewrite decide_False in Hi by eauto using Hfresh.
        rewrite (binfo_Some _ _ _ Hn) in Hi.
        rewrite lookup_insert_mid by done.
        destruct (decide (p = r)) as [->|Hne'].
        -- rewrite decide_True in Hi by (by rewrite <- list_lookup_fmap).
           destruct (binfo_inv _ _ _ _ _ Hi) as (n' & Hn' & Hbk' & _).
           exists n'. split; [done|]. rewrite Hbk'.
           by rewrite decide_False by lia.
        -- rewrite decide_False in Hi by (by eapply Hnsucc).
           destruct (binfo_inv _ _ _ _ _ Hi) as (n' & Hn' & Hbk' & _).
           exists n'. split; [done|]. rewrite Hbk', Hbk.
           rewrite decide_False by lia.
           destruct p as [|p]; [lia|]. f_equal. lia.
  - rewrite fmap_insert_mid. simpl. rewrite last_insert_mid by done.
    unfold foot. rewrite (back_footer _ _ _ _ Hb).
    rewrite length_fmap.
    destruct (last ts.*1) as [ft|] eqn:Hlast.
    + rewrite last_lookup, list_lookup_fmap in Hlast.
      destruct (ts !! Init.Nat.pred (length ts.*1)) as [[ft' hft]|] eqn:Hft;
        [|done].
      injection Hlast as ->. rewrite length_fmap in Hft.
      assert (length ts ≠ 0)%nat as Hlen.
      { intros Hl. rewrite Hl in Hft. by destruct ts. }
      destruct (decide (r = length ts)) as [->|Hne].
      * rewrite (split_lt _ _ _ _ _ _ Hsp (length ts) ft hft); [done|lia|].
        destruct (length ts); [lia|]. done.
      * rewrite (split_ge _ _ _ _ _ _ Hsp (length ts) ft hft); [done|lia|].
        destruct (length ts); [lia|]. done.
    + rewrite last_None in Hlast. apply fmap_nil_inv in Hlast. subst ts.
      simpl in *. by rewrite decide_True by lia.
  - intros a Ha. rewrite fmap_insert_mid in Ha. simpl in Ha.
    rewrite binfo_keyof, Hinfo.
    apply elem_of_app in Ha as [Ha|Ha].
    + apply subseteq_take in Ha. apply list_elem_of_lookup in Ha as [p Hp].
      rewrite decide_False by eauto using Hfresh.
      destruct (decide (fst <$> ts !! r = Some a)).
      * pose proof (back_nonnil _ _ _ _ Hb a ltac:(by eapply list_elem_of_lookup_2)) as Hn.
        rewrite binfo_keyof in Hn. by destruct (binfo h a) as [[[] ?]|].
      * rewrite <- binfo_keyof. apply (back_nonnil _ _ _ _ Hb).
        by eapply list_elem_of_lookup_2.
    + apply elem_of_cons in Ha as [->|Ha].
      * by rewrite decide_True.
      * apply subseteq_drop in Ha. apply list_elem_of_lookup in Ha as [p Hp].
        rewrite decide_False by eauto using Hfresh.
        destruct (decide (fst <$> ts !! r = Some a)).
        -- pose proof (back_nonnil _ _ _ _ Hb a ltac:(by eapply list_elem_of_lookup_2)) as Hn.
           rewrite binfo_keyof in Hn. by destruct (binfo h a) as [[[] ?]|].
        -- rewrite <- binfo_keyof. apply (back_nonnil _ _ _ _ Hb).
           by eapply list_elem_of_lookup_2.
Qed.

End SetBack.

(** * [Set] keeps the invariant *)

Section SetInv.

Context {K V : Type} `{EqDecision K}.
Variable knil : K.
Variable vnil : V.
Variable lessThan : K → K → bool.

Local Abbreviation heap := (heap K V).
Local Abbreviation node := (node (K := K) (V := V)).
Local Abbreviation meta := (meta (K := K) (V := V)).
Local Abbreviation binfo := (binfo (K := K) (V := V)).
Local Abbreviation keyof := (keyof knil).
Local Abbreviation shape := (shape knil lessThan).
Local Abbreviation back := (back knil).
Local Abbreviation Inv := (Inv knil lessThan).
Local Abbreviation search_ctx := (search_ctx knil lessThan).
Local Abbreviation target := (target knil).

Hypothesis lt_trans : ∀ a b c,
  lessThan a b = true → lessThan b c = true → lessThan a c = true.

Implicit Types (h : heap) (s : SkipList) (ts : list tower) (n : node).

Lemma Set_insert_Inv h s L ts rg k v update rank r :
  Inv h s L ts → search_ctx h ((header s, L) :: ts) k r → k ≠ knil →
  length update = L → length rank = L →
  (∀ j, (j < L)%nat →
        ∃ pj aj, update !! j = Some (Some aj) ∧
                 rank !! j = Some (wrap32 (Z.of_nat pj)) ∧
                 pred_at ((header s, L) :: ts) j r pj aj) →
  (∀ f ht, ts !! r = Some (f, ht) → lessThan k (keyof h f) = true) →
  ∃ h' s' rg' H bk,
    Set_insert knil lessThan h s rg k v update rank = Ok (h', s', rg') ∧
    (1 ≤ H)%nat ∧
    Inv h' s' (L `max` H) (take r ts ++ (length h, H) :: drop r ts) ∧
    header s' = header s ∧ MaxLevel s' = MaxLevel s ∧
    length h' = S (length h) ∧
    binfo h' (length h) = Some (bk, k, v) ∧
    (∀ a, (a < length h)%nat →
          (λ i, (i.1.2, i.2)) <$> binfo h' a = (λ i, (i.1.2, i.2)) <$> binfo h a) ∧
    H = S (randomLevel_loop (Z.to_nat (maxInt (Z.of_nat L - 1) (MaxLevel s))) 0 rg).1.
Proof using EqDecision0 K V knil lessThan lt_trans.
  intros (Hsh & Htop & Hb) Hctx Hk Hlu Hlr Hupd Hsucc.
  destruct (shape_header knil lessThan _ _ _ _ Hsh) as (hd & Hhd & HL & HL1).
  assert (height h (header s) = Some L) as HhL.
  { unfold height. rewrite Hhd. simpl. by rewrite HL. }
  unfold Set_insert, randomLevel.
  rewrite (height_effectiveMaxLevel _ _ _ HhL). cbn [rbind].
  pose proof (randomLevel_loop_bound
                (Z.to_nat (maxInt (Z.of_nat L - 1) (MaxLevel s))) 0 rg) as Hbound.
  destruct (randomLevel_loop (Z.to_nat (maxInt (Z.of_nat L - 1) (MaxLevel s))) 0 rg)
    as [newLevel rg'] eqn:Hrl.
  simpl in Hbound. rewrite (height_level_of _ _ _ HhL). cbn [rbind].
  set (c := (S newLevel - L)%nat).
  set (h1 := <[header s := grown hd c (wrap32 (slength s))]> h).
  set (update1 := update ++ replicate c (Some (header s))).
  set (rank1 := rank ++ replicate c 0).
  assert ((if Z.of_nat newLevel >? Z.of_nat L - 1
           then Set_grow (Z.to_nat (Z.of_nat newLevel - (Z.of_nat L - 1)))
                         (Z.to_nat (Z.of_nat L - 1 + 1)) h s update rank
           else Ok (h, update, rank)) = Ok (h1, update1, rank1)) as ->.
  { destruct (Z.gtb_spec (Z.of_nat newLevel) (Z.of_nat L - 1)) as [Hgt|Hle].
    - replace (Z.to_nat (Z.of_nat newLevel - (Z.of_nat L - 1))) with c by lia.
      replace (Z.to_nat (Z.of_nat L - 1 + 1)) with (length (levels hd)) by lia.
      apply Set_grow_spec; [done|lia].
    - replace c with 0%nat by lia. unfold h1, update1, rank1.
      replace c with 0%nat by lia. simpl. rewrite !app_nil_r.
      do 3 f_equal. symmetry. apply list_insert_id. rewrite Hhd.
      unfold grown, set_levels. rewrite app_nil_r. by destruct hd. }
  cbn [rbind].
  pose proof (grow_shape knil lessThan _ _ _ _ _ c Hsh Hhd) as Hsh1. fold h1 in Hsh1.
  pose proof (grow_search_ctx knil lessThan _ _ _ _ _ c _ _ Hsh Hhd Hctx) as Hctx1.
  fold h1 in Hctx1.
  assert (∀ a, binfo h1 a = binfo h a) as Hbi1.
  { intros a. unfold h1.
    by destruct (grow_facts h s hd c (wrap32 (slength s)) a Hhd) as (_ & -> & _). }
  assert (∀ a, keyof h1 a = keyof h a) as Hk1.
  { intros a. by rewrite !(binfo_keyof knil), Hbi1. }
  assert (length h1 = length h) as Hlen1 by apply length_insert.
  destruct (shape_heights _ _ _ _ _ _ Hsh) as [_ Hhts].
  destruct (Set_link_shape knil lessThan lt_trans h1 s (L + c) ts k v newLevel
              update1 rank1 r Hsh1 Hctx1)
    as (h' & u0 & hu0 & Hu0 & Hrun & Hsh' & Hmeta).
  { lia. }
  { intros j Hj. destruct (decide (j < L)%nat) as [HjL|HjL].
    - destruct (Hupd j HjL) as (pj & aj & Huj & Hrj & Hpred).
      exists pj, aj. unfold update1, rank1.
      rewrite !lookup_app_l by lia. split; [done|]. split; [done|].
      by apply grow_pred_at.
    - exists 0%nat, (header s). unfold update1, rank1.
      rewrite !lookup_app_r by lia. rewrite !lookup_replicate_2 by lia.
      split; [done|]. split; [done|].
      apply grow_pred_at_new; [|lia]. intros a ht Hin. specialize (Hhts a ht Hin). lia. }
  { intros f ht Hf. rewrite Hk1. by eapply Hsucc. }
  { intros ft Hft. rewrite Hlen1.
    apply (shape_addr_lt knil lessThan h s L ts); [done|]. right.
    rewrite (back_footer _ _ _ _ Hb) in Hft.
    rewrite last_lookup in Hft. by eapply list_elem_of_lookup_2. }
  rewrite Hlen1 in *. rewrite Hrun. cbn [rbind].
  do 5 eexists. split; [done|]. split; [|split; [|split; [done|split; [done|]]]].
  - instantiate (1 := S newLevel). lia.
  - replace (L `max` S newLevel)%nat with (L + c)%nat by lia.
    split; [done|]. split.
    + (* the top level *)
      destruct (decide (c = 0)%nat) as [Hc|Hc].
      * destruct Htop as [->|[a Ha]]; [left; lia|]. right. exists a.
        replace (L + c)%nat with L by lia.
        rewrite insert_mid_perm. by right.
      * right. exists (length h). replace (L + c)%nat with (S newLevel) by lia.
        rewrite insert_mid_perm. left.
    + (* the back pointers *)
      eapply (insert_back knil lessThan h1 h' s (L + c) ts k r u0 hu0); [done| | |done|done| |].
      * eapply back_ext; [| |done].
        -- intros a _. apply Hbi1.
        -- intros a Ha. by eapply (shape_addr_lt knil lessThan).
      * apply (ctx_split _ _ _ _ _ _ Hctx1).
      * intros Hin. pose proof (shape_addr_lt knil lessThan _ _ _ _ _ Hsh Hin). lia.
      * intros a. rewrite binfo_meta, Hmeta.
        destruct (decide (a = length h)); [done|].
        destruct (decide (fst <$> ts !! r = Some a)); [|by rewrite binfo_meta].
        rewrite binfo_meta. by destruct (meta h1 a) as [[[[] ?] ?]|].
  - split.
    + pose proof (Hmeta (length h)) as Hm. rewrite decide_True in Hm by done.
      apply meta_lt in Hm.
      pose proof (Hmeta (S (length h))) as Hm'. rewrite decide_False in Hm' by lia.
      assert (meta h' (S (length h)) = None) as Hnone.
      { rewrite Hm', (meta_None h1) by lia.
        by destruct (decide (fst <$> ts !! r = Some (S (length h)))). }
      destruct (decide (S (length h) < length h')%nat) as [Hlt|]; [|lia].
      apply (meta_is_Some h') in Hlt. rewrite Hnone in Hlt. by destruct Hlt.
    + split.
      * rewrite binfo_meta, Hmeta, decide_True by done. done.
      * split; [|done].
        intros a Ha. rewrite <- (Hbi1 a).
        rewrite !binfo_meta, Hmeta, decide_False by lia.
        destruct (decide (fst <$> ts !! r = Some a)); [|done].
        by destruct (meta h1 a) as [[[[] ?] ?]|].
Qed.

End SetInv.

Section SetFull.

Context {K V : Type} `{EqDecision K}.
Variable knil : K.
Variable vnil : V.
Variable lessThan : K → K → bool.

Local Abbreviation heap := (heap K V).
Local Abbreviation node := (node (K := K) (V := V)).
Local Abbreviation meta := (meta (K := K) (V := V)).
Local Abbreviation binfo := (binfo (K := K) (V := V)).
Local Abbreviation keyof := (keyof knil).
Local Abbreviation shape := (shape knil lessThan).
Local Abbreviation back := (back knil).
Local Abbreviation Inv := (Inv knil lessThan).
Local Abbreviation search_ctx := (search_ctx knil lessThan).
Local Abbreviation target := (target knil).

Hypothesis lt_irrefl : ∀ a, lessThan a a = false.
Hypothesis lt_trans : ∀ a b c,
  lessThan a b = true → lessThan b c = true → lessThan a c = true.

Implicit Types (h : heap) (s : SkipList) (ts : list tower) (n : node).

Lemma binfo_set_value h a n v c :
  h !! a = Some n →
  binfo (<[a := set_value n v]> h) c =
  if decide (c = a) then Some (backward n, key n, v) else binfo h c.
Proof.
  intros Ha. by rewrite binfo_meta, (meta_set_value _ _ _ _ _ Ha), binfo_meta;
    destruct (decide (c = a)).
Qed.

Lemma set_value_Inv h s L ts f n v :
  Inv h s L ts → h !! f = Some n →
  Inv (<[f := set_value n v]> h) s L ts.
Proof.
  intros (Hsh & Htop & Hb) Hf. split; [|split; [done|]].
  - eapply shape_ext; [|done]. intros a _.
    rewrite !meta_height, !(meta_keyof knil), (meta_set_value _ _ _ _ _ Hf).
    split; [|split].
    + destruct (decide (a = f)) as [->|]; [|done]. by rewrite (meta_Some _ _ _ Hf).
    + destruct (decide (a = f)) as [->|]; [|done]. by rewrite (meta_Some _ _ _ Hf).
    + intros j. by apply slot_at_set_value.
  - destruct Hb as [Hbh Hbn Hbf Hbk]. split; [| |done|].
    + destruct Hbh as (hd & Hhd & Hbk' & Hkn).
      destruct (decide (header s = f)) as [Heq|Hne].
      * rewrite Heq in *. rewrite Hf in Hhd. injection Hhd as <-.
        exists (set_value n v). split; [|done].
        apply list_lookup_insert_eq. by eapply lookup_lt_Some.
      * exists hd. by rewrite list_lookup_insert_ne.
    + intros p a Hp. destruct (Hbn p a Hp) as (n' & Hn' & Hbk').
      destruct (decide (a = f)) as [->|Hne].
      * rewrite Hf in Hn'. injection Hn' as <-.
        exists (set_value n v). split; [|done].
        apply list_lookup_insert_eq. by eapply lookup_lt_Some.
      * exists n'. by rewrite list_lookup_insert_ne.
    + intros a Ha. rewrite (meta_keyof knil), (meta_set_value _ _ _ _ _ Hf).
      specialize (Hbk a Ha). rewrite (meta_keyof knil) in Hbk.
      destruct (decide (a = f)) as [->|]; [|done].
      by rewrite (meta_Some _ _ _ Hf) in Hbk.
Qed.

(** [Set] on a well-formed engine: the key is found and its value
    replaced, or a node is linked in after the keys below it. *)
Lemma SkipList_Set_Inv h s L ts rg k v :
  Inv h s L ts → k ≠ knil →
  (∀ a, a ∈ ts.*1 → keyof h a ≠ k → lessThan (keyof h a) k = false →
        lessThan k (keyof h a) = true) →
  ∃ h' s' rg' L' ts' i f ht bk,
    SkipList_Set knil lessThan h s rg k v = Ok (h', s', rg') ∧
    Inv h' s' L' ts' ∧
    header s' = header s ∧ MaxLevel s' = MaxLevel s ∧
    (length h ≤ length h')%nat ∧
    ts' !! i = Some (f, ht) ∧ binfo h' f = Some (bk, k, v) ∧
    (∀ a, (a < length h)%nat → a ≠ f →
          (λ i, (i.1.2, i.2)) <$> binfo h' a = (λ i, (i.1.2, i.2)) <$> binfo h a) ∧
    ((ts' = ts ∧ s' = s ∧ L' = L ∧ keyof h f = k) ∨
     (f = length h ∧ ts' = take i ts ++ (f, ht) :: drop i ts ∧
      ht = S (randomLevel_loop (Z.to_nat (maxInt (Z.of_nat L - 1) (MaxLevel s)))
                               0 rg).1 ∧
      L' = (L `max` ht)%nat ∧
      (∀ a, a ∈ ts.*1 → keyof h a ≠ k))).
Proof using EqDecision0 K V knil lessThan lt_irrefl lt_trans.
  intros HInv Hk Htri. pose proof HInv as (Hsh & Htop & Hb).
  destruct (shape_search_ctx knil lessThan lt_trans h s L ts k Hsh) as [r Hctx].
  destruct (shape_header knil lessThan _ _ _ _ Hsh) as (hd & Hhd & HL & HL1).
  assert (height h (header s) = Some L) as HhL.
  { unfold height. rewrite Hhd. simpl. by rewrite HL. }
  unfold SkipList_Set. rewrite decide_False by done.
  rewrite (height_level_of _ _ _ HhL), (height_effectiveMaxLevel _ _ _ HhL).
  cbn [rbind].
  pose proof (maxInt_ge_l (Z.of_nat L - 1) (MaxLevel s)) as Heff.
  rewrite !make_Ok by lia. cbn [rbind].
  replace (Z.to_nat (Z.of_nat L - 1 + 1)) with L by lia.
  unfold searchForInsert. rewrite (height_level_of _ _ _ HhL). cbn [rbind].
  replace (Z.to_nat (Z.of_nat L - 1 + 1)) with L by lia.
  destruct (searchForInsert_loop_spec knil lessThan h _ k r Hctx (Z.of_nat L - 1) L
              0%nat (header s) (replicate L None) (replicate L 0))
    as (c & update & rank & -> & Hres).
  { by eapply shape_desc. }
  { by rewrite length_replicate. }
  { by rewrite length_replicate. }
  { lia. }
  { intros j ->. rewrite decide_True by lia. done. }
  cbn [rbind].
  destruct (target h ((header s, L) :: ts) k r) as [f|] eqn:Ht.
  - (* the key is in the list *)
    assert (c = Some f) as ->.
    { destruct Hres as [(f' & -> & Hf')|(-> & _)]; [congruence|].
      by apply (target_Some knil h _ k r). }
    destruct (target_load knil lessThan _ _ _ _ _ _ _ Hsh Ht) as (ht & n & Hr & Hn & Hkn).
    unfold Set_found. rewrite (load_Ok _ _ _ Hn). cbn [rbind].
    rewrite decide_True by done. cbn [rbind].
    exists (<[f := set_value n v]> h), s, rg, L, ts, r, f, ht, (backward n).
    split; [done|]. split; [by apply set_value_Inv|].
    split; [done|]. split; [done|]. split; [by rewrite length_insert|].
    split; [done|]. split.
    { rewrite (binfo_set_value _ _ _ _ _ Hn), decide_True by done. by rewrite Hkn. }
    split.
    { intros a _ Hne. by rewrite (binfo_set_value _ _ _ _ _ Hn), decide_False. }
    left. repeat split. unfold Skiplist.keyof. by rewrite Hn.
  - (* the key is not in the list *)
    destruct Hres as [(f' & -> & Hf')|(-> & Hlu & Hlr & Hupd & _)]; [congruence|].
    rewrite length_replicate in Hlu. rewrite length_replicate in Hlr.
    assert (Set_found h k (fst <$> ((header s, L) :: ts) !! S r) = Ok None) as ->.
    { rewrite lookup_towers. unfold Set_found.
      destruct (ts !! r) as [[f ht]|] eqn:Hr; [|done]. simpl.
      destruct (nodes_ok_load knil _ _ (S r) _ _ (shape_nodes _ _ _ _ _ _ Hsh) Hr)
        as (n & Hn & _ & Hkey).
      rewrite (load_Ok _ _ _ Hn). cbn [rbind].
      by rewrite decide_False by (by eapply (target_None knil lessThan)). }
    cbn [rbind].
    assert (∀ f ht, ts !! r = Some (f, ht) → keyof h f ≠ k) as Hne.
    { intros f ht Hr.
      destruct (nodes_ok_load knil _ _ (S r) _ _ (shape_nodes _ _ _ _ _ _ Hsh) Hr)
        as (n & Hn & _ & Hkey).
      rewrite Hkey. by eapply (target_None knil lessThan). }
    destruct (Set_insert_Inv knil lessThan lt_trans h s L ts rg k v update rank r)
      as (h' & s' & rg' & H & bk & -> & HH & HInv' & Hhs & Hml & Hlen & Hbi & Hkv & HHeq);
      [done..| |].
    { intros f ht Hr. apply Htri.
      - apply list_elem_of_fmap. exists (f, ht). split; [done|].
        by eapply list_elem_of_lookup_2.
      - by eapply Hne.
      - apply (split_ge _ _ _ _ _ _ (ctx_split _ _ _ _ _ _ Hctx) (S r) f ht); [lia|done]. }
    pose proof (split_bound _ _ _ _ _ _ (ctx_split _ _ _ _ _ _ Hctx)) as Hr.
    simpl in Hr.
    exists h', s', rg', (L `max` H)%nat, (take r ts ++ (length h, H) :: drop r ts),
      r, (length h), H, bk.
    split; [done|]. split; [done|]. split; [done|]. split; [done|].
    split; [lia|]. split.
    { rewrite lookup_insert_mid by lia. rewrite decide_False by lia.
      by rewrite decide_True. }
    split; [done|]. split.
    { intros a Ha _. by apply Hkv. }
    right. split; [done|]. split; [done|]. split; [done|]. split; [done|].
    (* no node holds the key *)
    intros a Ha Hka. apply list_elem_of_fmap in Ha as ([a' ht] & -> & Hin).
    apply list_elem_of_lookup in Hin as [p Hp]. simpl in Hka.
    destruct (decide (p < r)%nat) as [Hpr|Hpr].
    + (* below the key *)
      pose proof (split_lt _ _ _ _ _ _ (ctx_split _ _ _ _ _ _ Hctx) (S p) a' ht
                    ltac:(lia) Hp) as Hlt.
      rewrite Hka, lt_irrefl in Hlt. done.
    + destruct (decide (p = r)) as [->|Hne'].
      * by eapply Hne.
      * eapply (ctx_uniq _ _ _ _ _ _ Hctx (S p) a' ht); [lia|done..].
Qed.

End SetFull.

(** * Unlinking a node *)

Section Unlink.

Context {K V : Type} `{EqDecision K}.

Local Abbreviation heap := (heap K V).
Local Abbreviation node := (node (K := K) (V := V)).
Local Abbreviation same_meta := (same_meta (K := K) (V := V)).

Implicit Types (h : heap) (s : SkipList) (update : list (option addr)).

Lemma Delete_unlink_spec count i h c update :
  (∀ j, (i ≤ j < i + count)%nat →
        ∃ u l, update !! j = Some (Some u) ∧ u ≠ c ∧ slot_at h u j = Some l ∧
               (forward l = Some c → is_Some (slot_at h c j))) →
  ∃ h', Delete_unlink count i h c update = Ok h' ∧ same_meta h h' ∧
        (∀ b j, ¬ (i ≤ j < i + count)%nat → slot_at h' b j = slot_at h b j) ∧
        (∀ j u l, (i ≤ j < i + count)%nat →
           update !! j = Some (Some u) → slot_at h u j = Some l →
           slot_at h' u j =
             Some (if decide (forward l = Some c)
                   then match slot_at h c j with
                        | Some cl => Level (forward cl)
                                       (wrap32 (span l + wrap32 (span cl - 1)))
                        | None => l
                        end
                   else Level (forward l) (wrap32 (span l - 1))) ∧
           ∀ b, b ≠ u → slot_at h' b j = slot_at h b j).
Proof.
  revert i h. induction count as [|count IH]; intros i h Hpre; simpl.
  - exists h. split; [done|]. split; [done|]. split; [done|]. intros; lia.
  - destruct (Hpre i) as (u & l & Hu & Huc & Hl & Hcl); [lia|].
    rewrite (index_Ok _ _ _ Hu). cbn [rbind]. unfold deref.
    destruct (slot_at_height _ _ _ _ Hl) as (hu & Hhu & _).
    destruct (height_Some _ _ _ Hhu) as (un & Hun & _).
    rewrite (load_Ok _ _ _ Hun). cbn [rbind].
    rewrite (slot_Ok _ _ _ _ Hl). cbn [rbind].
    assert (∃ h1,
      (if decide (forward l = Some c)
       then do cl <- slot h c i;
            do h0 <- store_span h u i (wrap32 (span l + wrap32 (span cl - 1)));
            do cl0 <- slot h0 c i; store_forward h0 u i (forward cl0)
       else store_span h u i (wrap32 (span l - 1))) = Ok h1 ∧
      same_meta h h1 ∧
      ∀ b j, slot_at h1 b j =
             if decide (b = u ∧ j = i)
             then Some (if decide (forward l = Some c)
                        then match slot_at h c i with
                             | Some cl => Level (forward cl)
                                            (wrap32 (span l + wrap32 (span cl - 1)))
                             | None => l
                             end
                        else Level (forward l) (wrap32 (span l - 1)))
             else slot_at h b j) as (h1 & -> & Hm1 & Hs1).
    { destruct (decide (forward l = Some c)) as [Hfc|Hfc].
      - destruct (Hcl Hfc) as [cl Hc]. rewrite (slot_Ok _ _ _ _ Hc). cbn [rbind].
        destruct (store_span_spec h u i (wrap32 (span l + wrap32 (span cl - 1))) _ Hl)
          as (h0 & -> & Hm0 & Hs0). cbn [rbind].
        assert (slot_at h0 c i = Some cl) as Hc0.
        { rewrite Hs0, decide_False; [done|]. intros [? _]. congruence. }
        rewrite (slot_Ok _ _ _ _ Hc0). cbn [rbind].
        assert (slot_at h0 u i = Some (Level (forward l)
                                         (wrap32 (span l + wrap32 (span cl - 1))))) as Hu0.
        { by rewrite Hs0, decide_True. }
        destruct (store_forward_spec h0 u i (forward cl) _ Hu0) as (h1 & -> & Hm1 & Hs1).
        exists h1. split; [done|]. split; [eauto using same_meta_trans|].
        intros b j. rewrite Hs1, Hc. destruct (decide (b = u ∧ j = i)); [done|].
        by rewrite Hs0, decide_False.
      - destruct (store_span_spec h u i (wrap32 (span l - 1)) _ Hl)
          as (h1 & -> & Hm1 & Hs1).
        exists h1. split; [done|]. split; [done|]. done. }
    cbn [rbind].
    assert (∀ b j, j ≠ i → slot_at h1 b j = slot_at h b j) as Hframe.
    { intros b j Hj. by rewrite Hs1, decide_False by (intros [_ ?]; done). }
    destruct (IH (S i) h1) as (h' & -> & Hm' & Hout & Hin).
    { intros j Hj. destruct (Hpre j) as (u' & l' & ? & ? & ? & ?); [lia|].
      exists u', l'. rewrite !Hframe by lia. done. }
    exists h'. split; [done|]. split.
    { eauto using same_meta_trans. }
    split.
    { intros b j Hj. rewrite Hout by lia. apply Hframe. lia. }
    intros j u' l' Hj Hu' Hl'.
    destruct (decide (j = i)) as [->|Hne].
    + rewrite Hu in Hu'. injection Hu' as <-.
      rewrite Hl in Hl'. injection Hl' as <-.
      rewrite !Hout by lia. split.
      * by rewrite Hs1, decide_True.
      * intros b Hbu. rewrite Hout by lia.
        by rewrite Hs1, decide_False by (intros [? _]; done).
    + destruct (Hin j u' l') as (Hu'' & Hother); [lia|done| |].
      { by rewrite Hframe. }
      rewrite Hframe in Hu'' by done.
      split; [done|].
      intros b Hbu. rewrite Hother by done. by apply Hframe.
Qed.

Lemma Delete_trim_spec count h s hd :
  h !! header s = Some hd → (length (levels hd) < count)%nat →
  ∃ L', Delete_trim count h s = Ok (<[header s := trimmed hd L']> h) ∧
        (L' ≤ length (levels hd))%nat ∧
        (1 ≤ length (levels hd) → 1 ≤ L')%nat ∧
        (∀ j l, (L' ≤ j)%nat → levels hd !! j = Some l → forward l = None) ∧
        (L' ≤ 1 ∨ ∃ l f, levels hd !! (L' - 1)%nat = Some l ∧ forward l = Some f)%nat.
Proof.
  revert h hd. induction count as [|count IH]; intros h hd Hhd Hc; [lia|].
  simpl. unfold level_of. rewrite (load_Ok _ _ _ Hhd). cbn [rbind].
  assert (header s < length h)%nat as Hlt by (by eapply lookup_lt_Some).
  assert (<[header s := trimmed hd (length (levels hd))]> h = h) as Hid.
  { apply list_insert_id. rewrite Hhd. unfold trimmed, set_levels.
    rewrite take_ge by lia. by destruct hd. }
  destruct (Z.gtb_spec (Z.of_nat (length (levels hd)) - 1) 0) as [Hgt|Hle].
  - set (top := Z.to_nat (Z.of_nat (length (levels hd)) - 1)).
    destruct (lookup_lt_is_Some_2 (levels hd) top) as [l Hl]; [lia|].
    unfold slot, load. rewrite Hhd. cbn [rbind]. rewrite Hl. cbn [rbind].
    destruct (forward l) as [f|] eqn:Hf.
    + exists (length (levels hd)). rewrite Hid. split; [done|]. split; [lia|].
      split; [lia|]. split.
      * intros j l' Hj Hl'. apply lookup_lt_Some in Hl'. lia.
      * right. exists l, f. split; [|done].
        by replace (length (levels hd) - 1)%nat with top by lia.
    + cbn [rbind].
      change (set_levels hd (take top (levels hd))) with (trimmed hd top).
      destruct (IH (<[header s := trimmed hd top]> h) (trimmed hd top))
        as (L' & -> & HL' & HL1 & Hnone & Htop).
      { by apply list_lookup_insert_eq. }
      { unfold trimmed. simpl. rewrite length_take. lia. }
      assert (length (levels (trimmed hd top)) = top) as Hlen.
      { unfold trimmed. simpl. rewrite length_take. lia. }
      rewrite Hlen in *.
      exists L'. split.
      { rewrite list_insert_insert_eq. do 2 f_equal.
        unfold trimmed, set_levels. simpl. f_equal.
        rewrite take_take. f_equal. lia. }
      split; [lia|]. split; [lia|]. split.
      * intros j l' Hj Hl'. destruct (decide (j < top)%nat).
        -- apply (Hnone j l'); [done|]. unfold trimmed. simpl.
           by rewrite lookup_take_lt.
        -- assert (j = top) as -> by (apply lookup_lt_Some in Hl'; lia).
           congruence.
      * destruct Htop as [?|(l' & f & Hl' & Hf')]; [by left|].
        destruct (decide (L' ≤ 1)%nat); [by left|]. right. exists l', f.
        split; [|done]. unfold trimmed in Hl'. simpl in Hl'.
        by rewrite lookup_take_lt in Hl' by lia.
  - exists (length (levels hd)). rewrite Hid. split; [done|]. split; [lia|].
    split; [lia|]. split.
    + intros j l' Hj Hl'. apply lookup_lt_Some in Hl'. lia.
    + left. lia.
Qed.

End Unlink.

(** * Removal keeps the shape *)

Lemma lookup_remove_mid {A} (l : list A) r p :
  (take r l ++ drop (S r) l) !! p =
  if decide (p < r)%nat then l !! p else l !! S p.
Proof.
  destruct (decide (r ≤ length l)%nat) as [Hr|Hr].
  - destruct (decide (p < r)%nat).
    + rewrite lookup_app_l by (rewrite length_take; lia).
      apply lookup_take_lt. lia.
    + rewrite lookup_app_r by (rewrite length_take; lia).
      rewrite length_take. replace (r `min` length l)%nat with r by lia.
      rewrite lookup_drop. f_equal. lia.
  - rewrite take_ge, drop_ge, app_nil_r by lia.
    destruct (decide (p < r)%nat); [done|].
    rewrite !lookup_ge_None_2; [done|lia..].
Qed.

Lemma fmap_remove_mid {A B} (f : A → B) (l : list A) r :
  f <$> (take r l ++ drop (S r) l) = take r (f <$> l) ++ drop (S r) (f <$> l).
Proof. by rewrite fmap_app, fmap_take, fmap_drop. Qed.

Lemma remove_mid_sub {A} (l : list A) r x :
  x ∈ take r l ++ drop (S r) l → x ∈ l.
Proof.
  intros Hin. apply elem_of_app in Hin as [Hin|Hin].
  - by eapply subseteq_take.
  - by eapply subseteq_drop.
Qed.

Section RemoveNodes.

Context {K V : Type}.
Local Abbreviation heap := (heap K V).

Lemma remove_nodes_ok (h h' : heap) (all : list tower) r c hc :
  nodes_ok h all → all !! S r = Some (c, hc) →
  (∀ p a ht, all !! p = Some (a, ht) → p ≠ S r → height h' a = Some ht) →
  (∀ p a ht j, all !! p = Some (a, ht) → (j < ht)%nat →
     (p ≤ r)%nat → low_between all j p r →
     slot_at h' a j = Some (unlinked hc j (want_slot j (drop (S p) all))
                                     (want_slot j (drop (S (S r)) all)))) →
  (∀ p a ht j, all !! p = Some (a, ht) → (j < ht)%nat → p ≠ S r →
     ¬ ((p ≤ r)%nat ∧ low_between all j p r) →
     slot_at h' a j = Some (want_slot j (drop (S p) all))) →
  nodes_ok h' (remove_after all r).
Proof.
  intros Hok Hc Hht Hun Hsame p a ht.
  assert (S r < length all)%nat as Hr by (by eapply lookup_lt_Some).
  rewrite lookup_remove_after by lia.
  destruct (decide (p ≤ r)%nat) as [Hp|Hp].
  - intros Hpa. split; [eapply Hht; [done|lia]|]. intros j Hj.
    rewrite drop_remove_after_le by (done || lia).
    pose proof (between_None all j p r) as Hbetween.
    pose proof (length_between all p r ltac:(lia) Hp) as HlenA.
    pose proof (drop_take_split all p r Hp) as Hsplit.
    rewrite (drop_S all (c, hc) (S r) Hc) in Hsplit.
    set (A := take (r - p) (drop (S p) all)) in *.
    set (C := drop (S (S r)) all) in *.
    destruct (low_between_dec all j p r) as [Hlow|Hlow].
    + pose proof Hlow as HA. rewrite <- Hbetween in HA.
      rewrite (Hun p a ht j) by done. f_equal.
      rewrite Hsplit. unfold unlinked. rewrite !want_slot_eq.
      rewrite !fwd_at_app_None, !dist_at_app_None by done.
      rewrite fwd_at_cons, dist_at_cons. cbn [forward span].
      destruct (decide (j < hc)%nat); f_equal; wrap_lia.
    + rewrite (Hsame p a ht j) by (done || lia || tauto). f_equal.
      rewrite Hsplit. apply want_slot_app_Some. by rewrite Hbetween.
  - intros Hpa. split; [eapply Hht; [done|lia]|]. intros j Hj.
    rewrite drop_remove_after_gt by lia.
    apply (Hsame (S p) a ht j); [done|done|lia|lia].
Qed.

Lemma trim_nodes_ok (h h' : heap) hdr L L' (ts : list tower) :
  nodes_ok h ((hdr, L) :: ts) → (L' ≤ L)%nat → hdr ∉ ts.*1 →
  height h' hdr = Some L' →
  (∀ j, (j < L')%nat → slot_at h' hdr j = slot_at h hdr j) →
  (∀ a, a ≠ hdr → height h' a = height h a ∧ ∀ j, slot_at h' a j = slot_at h a j) →
  nodes_ok h' ((hdr, L') :: ts).
Proof.
  intros Hok HL Hnin Hh Hs Hother [|p] a ht Hp; simpl in Hp.
  - injection Hp as <- <-. split; [done|]. intros j Hj. rewrite Hs by done.
    apply (Hok 0%nat hdr L eq_refl). lia.
  - assert (a ≠ hdr) as Hne.
    { intros ->. apply Hnin. apply list_elem_of_fmap. exists (hdr, ht).
      split; [done|]. by eapply list_elem_of_lookup_2. }
    destruct (Hother a Hne) as [-> Hsl]. destruct (Hok (S p) a ht Hp) as [Hha Hsa].
    split; [done|]. intros j Hj. rewrite Hsl. by apply Hsa.
Qed.

End RemoveNodes.

Section DeleteRemove.

Context {K V : Type} `{EqDecision K}.
Variable knil : K.
Variable vnil : V.
Variable lessThan : K → K → bool.

Local Abbreviation heap := (heap K V).
Local Abbreviation node := (node (K := K) (V := V)).
Local Abbreviation meta := (meta (K := K) (V := V)).
Local Abbreviation binfo := (binfo (K := K) (V := V)).
Local Abbreviation same_meta := (same_meta (K := K) (V := V)).
Local Abbreviation keyof := (keyof knil).
Local Abbreviation shape := (shape knil lessThan).
Local Abbreviation back := (back knil).
Local Abbreviation Inv := (Inv knil lessThan).
Local Abbreviation search_ctx := (search_ctx knil lessThan).

Implicit Types (h : heap) (s : SkipList) (ts : list tower) (n : node).

Lemma next_slot h a n l : h !! a = Some n → slot_at h a 0 = Some l → next n = forward l.
Proof.
  intros Hn. unfold slot_at, next. rewrite Hn. simpl.
  destruct (levels n); simpl; [done|]. by intros [= ->].
Qed.

Lemma binfo_trimmed h a hd L' b :
  h !! a = Some hd → binfo (<[a := trimmed hd L']> h) b = binfo h b.
Proof.
  intros Ha. unfold Skiplist.binfo. destruct (decide (b = a)) as [->|Hne].
  - rewrite list_lookup_insert_eq by (by eapply lookup_lt_Some). by rewrite Ha.
  - by rewrite list_lookup_insert_ne.
Qed.

Lemma height_trimmed h a hd L' b :
  h !! a = Some hd → (L' ≤ length (levels hd))%nat →
  height (<[a := trimmed hd L']> h) b = if decide (b = a) then Some L' else height h b.
Proof.
  intros Ha HL. unfold height. destruct (decide (b = a)) as [->|Hne].
  - rewrite list_lookup_insert_eq by (by eapply lookup_lt_Some). simpl.
    rewrite length_take. f_equal. lia.
  - by rewrite list_lookup_insert_ne.
Qed.

Lemma slot_at_trimmed h a hd L' b j :
  h !! a = Some hd →
  slot_at (<[a := trimmed hd L']> h) b j =
  if decide (b = a) then (if decide (j < L')%nat then slot_at h a j else None)
  else slot_at h b j.
Proof.
  intros Ha. unfold slot_at. destruct (decide (b = a)) as [->|Hne].
  - rewrite list_lookup_insert_eq by (by eapply lookup_lt_Some). simpl.
    rewrite Ha. simpl. destruct (decide (j < L')%nat).
    + by rewrite lookup_take_lt.
    + apply lookup_take_ge. lia.
  - by rewrite list_lookup_insert_ne.
Qed.

(** What [Delete] does once it has found the node, told slot by slot:
    [h2] is the store before the empty levels of the header are cut. *)
Lemma Delete_remove_spec h s L c cn update :
  height h (header s) = Some L → h !! c = Some cn →
  (∀ nx, next cn = Some nx → (nx < length h)%nat) →
  (∀ j, (j < L)%nat →
        ∃ u l, update !! j = Some (Some u) ∧ u ≠ c ∧ slot_at h u j = Some l ∧
               (forward l = Some c → is_Some (slot_at h c j))) →
  let foot := if decide (footer s = Some c) then backward cn else footer s in
  ∃ h2 hd2 L',
    Delete_remove h s c cn update
      = Ok (<[header s := trimmed hd2 L']> h2,
            mkSkipList (header s) foot (slength s - 1) (MaxLevel s),
            (value cn, true)) ∧
    h2 !! header s = Some hd2 ∧ length (levels hd2) = L ∧
    (L' ≤ L)%nat ∧ (1 ≤ L → 1 ≤ L')%nat ∧
    (∀ j l, (L' ≤ j)%nat → levels hd2 !! j = Some l → forward l = None) ∧
    (L' ≤ 1 ∨ ∃ l f, levels hd2 !! (L' - 1)%nat = Some l ∧ forward l = Some f)%nat ∧
    length h2 = length h ∧
    (∀ a, height h2 a = height h a) ∧
    (∀ a, binfo h2 a = if decide (next cn = Some a)
                       then (λ i, (backward cn, i.1.2, i.2)) <$> binfo h a
                       else binfo h a) ∧
    (∀ j u l, (j < L)%nat → update !! j = Some (Some u) → slot_at h u j = Some l →
       slot_at h2 u j =
         Some (if decide (forward l = Some c)
               then match slot_at h c j with
                    | Some cl => Level (forward cl) (wrap32 (span l + wrap32 (span cl - 1)))
                    | None => l
                    end
               else Level (forward l) (wrap32 (span l - 1))) ∧
       ∀ b, b ≠ u → slot_at h2 b j = slot_at h b j) ∧
    (∀ b j, (L ≤ j)%nat → slot_at h2 b j = slot_at h b j).
Proof.
  intros HL Hc Hnx Hupd foot.
  unfold Delete_remove.
  set (s1 := if decide (footer s = Some c)
             then mkSkipList (header s) (backward cn) (slength s) (MaxLevel s) else s).
  assert (header s1 = header s) as Hhs1
    by (unfold s1; by destruct (decide (footer s = Some c))).
  assert (footer s1 = foot ∧ slength s1 = slength s ∧ MaxLevel s1 = MaxLevel s)
    as (Hf1 & Hl1 & Hm1).
  { unfold s1, foot. by destruct (decide (footer s = Some c)). }
  (* the back pointer of the successor *)
  assert (∃ h1,
    match next cn with
    | Some nx => do nn <- load h nx; Ok (<[nx := set_backward nn (backward cn)]> h)
    | None => Ok h
    end = Ok h1 ∧ length h1 = length h ∧
    (∀ b j, slot_at h1 b j = slot_at h b j) ∧
    (∀ a, meta h1 a = if decide (next cn = Some a)
                      then meta_set_back (backward cn) <$> meta h a else meta h a))
    as (h1 & -> & Hlen1 & Hs1 & Hmeta1).
  { destruct (next cn) as [nx|] eqn:Hnext.
    - pose proof (Hnx nx eq_refl) as Hlt.
      destruct (lookup_meta h nx Hlt) as [nn Hnn].
      rewrite (load_Ok _ _ _ Hnn). cbn [rbind].
      eexists; split; [done|]. split; [by rewrite length_insert|]. split.
      + intros b j. by apply slot_at_set_backward.
      + intros a. rewrite (meta_set_backward _ _ _ _ _ Hnn).
        destruct (decide (a = nx)) as [->|Hne].
        * by rewrite decide_True.
        * by rewrite decide_False by congruence.
    - exists h. split; [done|]. split; [done|]. split; [done|].
      intros a. by rewrite decide_False. }
  cbn [rbind].
  assert (∀ a, height h1 a = height h a) as Hh1.
  { intros a. rewrite !meta_height, Hmeta1.
    destruct (decide (next cn = Some a)); [|done].
    by destruct (meta h a) as [[[[] ?] ?]|]. }
  assert (height h1 (header s1) = Some L) as HL1 by (by rewrite Hhs1, Hh1).
  rewrite (height_level_of _ _ _ HL1). cbn [rbind].
  replace (Z.to_nat (Z.of_nat L - 1 + 1)) with L by lia.
  (* the forward pointers *)
  destruct (Delete_unlink_spec L 0%nat h1 c update) as (h2 & -> & Hm2 & Hout2 & Hin2).
  { intros j Hj. destruct (Hupd j) as (u & l & Hu & Huc & Hl & Hcl); [lia|].
    exists u, l. rewrite !Hs1. done. }
  cbn [rbind].
  assert (height h2 (header s1) = Some L) as HL2
    by (by rewrite (same_meta_height _ _ _ Hm2)).
  destruct (height_Some _ _ _ HL2) as (hd2 & Hhd2 & Hlen2).
  rewrite (load_Ok _ _ _ Hhd2). cbn [rbind].
  (* the empty levels of the header *)
  destruct (Delete_trim_spec (S (length (levels hd2))) h2 s1 hd2 Hhd2 ltac:(lia))
    as (L' & -> & HL' & HL'1 & Hnone & Htop).
  cbn [rbind]. rewrite Hhs1 in Hhd2 |- *. rewrite Hlen2 in HL', HL'1.
  assert (∀ a, binfo h2 a = if decide (next cn = Some a)
                            then (λ i, (backward cn, i.1.2, i.2)) <$> binfo h a
                            else binfo h a) as Hbi2.
  { intros a. rewrite !binfo_meta, Hm2, Hmeta1.
    destruct (decide (next cn = Some a)); [|done].
    by destruct (meta h a) as [[[[] ?] ?]|]. }
  assert (∃ cn3, <[header s := trimmed hd2 L']> h2 !! c = Some cn3 ∧ value cn3 = value cn)
    as (cn3 & Hcn3 & Hv3).
  { pose proof (binfo_trimmed _ _ _ L' c Hhd2) as Hb. rewrite Hbi2 in Hb.
    rewrite (binfo_Some _ _ _ Hc) in Hb.
    destruct (decide (next cn = Some c)); simpl in Hb;
      destruct (binfo_inv _ _ _ _ _ Hb) as (n' & ? & _ & _ & ?); eauto. }
  rewrite (load_Ok _ _ _ Hcn3). cbn [rbind]. rewrite Hv3, Hf1, Hl1, Hm1.
  exists h2, hd2, L'. split; [done|]. split; [done|]. split; [done|].
  split; [done|]. split; [done|]. split; [done|]. split; [done|].
  split; [by rewrite (same_meta_length _ _ Hm2)|].
  split; [intros a; by rewrite (same_meta_height _ _ _ Hm2)|].
  split; [done|]. split.
  - intros j u l Hj Hu Hl.
    destruct (Hin2 j u l) as [Hu2 Hother]; [lia|done|by rewrite Hs1|].
    rewrite Hs1 in Hu2. split; [done|].
    intros b Hb. by rewrite Hother, Hs1.
  - intros b j Hj. rewrite Hout2 by lia. apply Hs1.
Qed.

End DeleteRemove.

Lemma fwd_at_Some j (l : list tower) b :
  fwd_at j l = Some b → ∃ q ht, l !! q = Some (b, ht) ∧ (j < ht)%nat.
Proof.
  unfold fwd_at. destruct (next_at j l) as [[b' d]|] eqn:Hn; simpl; [|done].
  intros [= ->]. destruct (next_at_Some _ _ _ _ Hn) as (d' & ht & _ & Hl & Hj & _).
  eauto.
Qed.

Lemma fwd_at_None j (l : list tower) : fwd_at j l = None ↔ next_at j l = None.
Proof. unfold fwd_at. by rewrite fmap_None. Qed.

Lemma last_remove_mid {A} (l : list A) r :
  (r < length l)%nat →
  last (take r l ++ drop (S r) l) =
  if decide (S r = length l) then (match r with O => None | S r' => l !! r' end)
  else last l.
Proof.
  intros Hr. rewrite !last_lookup, lookup_remove_mid.
  rewrite length_app, length_take, length_drop.
  replace (Init.Nat.pred (r `min` length l + (length l - S r))) with (length l - 2)%nat
    by lia.
  destruct (decide (S r = length l)) as [Heq|Hne].
  - destruct r as [|r].
    + rewrite decide_False by lia. apply lookup_ge_None_2. lia.
    + rewrite decide_True by lia. f_equal. lia.
  - rewrite decide_False by lia. f_equal. lia.
Qed.

Section DeleteInv.

Context {K V : Type} `{EqDecision K}.
Variable knil : K.
Variable vnil : V.
Variable lessThan : K → K → bool.

Local Abbreviation heap := (heap K V).
Local Abbreviation node := (node (K := K) (V := V)).
Local Abbreviation meta := (meta (K := K) (V := V)).
Local Abbreviation binfo := (binfo (K := K) (V := V)).
Local Abbreviation keyof := (keyof knil).
Local Abbreviation shape := (shape knil lessThan).
Local Abbreviation back := (back knil).
Local Abbreviation Inv := (Inv knil lessThan).
Local Abbreviation search_ctx := (search_ctx knil lessThan).
Local Abbreviation sorted_keys := (sorted_keys knil lessThan).

Implicit Types (h : heap) (s : SkipList) (ts : list tower) (n : node).

Lemma sorted_keys_remove h h' (l : list addr) r :
  sorted_keys h l → (∀ a, a ∈ l → keyof h' a = keyof h a) →
  sorted_keys h' (take r l ++ drop (S r) l).
Proof.
  intros Hs Hkeys p q a b Hpq. rewrite !lookup_remove_mid.
  intros Ha Hb.
  assert (a ∈ l ∧ b ∈ l) as [Hal Hbl].
  { split.
    - destruct (decide (p < r)%nat); by eapply list_elem_of_lookup_2.
    - destruct (decide (q < r)%nat); by eapply list_elem_of_lookup_2. }
  rewrite !Hkeys by done.
  destruct (decide (p < r)%nat), (decide (q < r)%nat).
  - by apply (Hs p q).
  - apply (Hs p (S q)); [lia|done..].
  - lia.
  - apply (Hs (S p) (S q)); [lia|done..].
Qed.

Lemma remove_back h h' s s' ts r c hc cn :
  back h s ts → NoDup (header s :: ts.*1) →
  ts !! r = Some (c, hc) → h !! c = Some cn →
  header s' = header s →
  footer s' = (if decide (footer s = Some c) then backward cn else footer s) →
  (∀ a, binfo h' a = if decide (ts.*1 !! S r = Some a)
                     then (λ i, (backward cn, i.1.2, i.2)) <$> binfo h a
                     else binfo h a) →
  back h' s' (take r ts ++ drop (S r) ts).
Proof.
  intros [Hbh Hbn Hbf Hbk] Hnd Hc Hcn Hhd Hft Hbi.
  apply NoDup_cons in Hnd as [Hhnin Hnd].
  assert (ts.*1 !! r = Some c) as Hc1 by (by rewrite list_lookup_fmap, Hc).
  assert (r < length ts)%nat as Hr by (by eapply lookup_lt_Some).
  destruct (Hbn r c Hc1) as (cn' & Hcn' & Hbc). rewrite Hcn in Hcn'.
  injection Hcn' as <-.
  assert (∀ a, keyof h' a = keyof h a) as Hk.
  { intros a. rewrite !(binfo_keyof knil), Hbi.
    destruct (decide (ts.*1 !! S r = Some a)); [|done].
    by destruct (binfo h a) as [[[] ?]|]. }
  split.
  - destruct Hbh as (hd & Hhd' & Hbk' & Hkey). rewrite Hhd.
    pose proof (Hbi (header s)) as Hbi'. rewrite decide_False in Hbi'.
    + rewrite (binfo_Some _ _ _ Hhd'), Hbk', Hkey in Hbi'.
      apply binfo_inv in Hbi' as (n & Hn & Hb' & Hk' & _). by exists n.
    + intros Heq. apply Hhnin. by eapply list_elem_of_lookup_2.
  - intros p a. rewrite fmap_remove_mid, lookup_remove_mid. intros Ha.
    assert (∃ q, ts.*1 !! q = Some a ∧ q = if decide (p < r)%nat then p else S p)
      as (q & Hq & Hqp) by (destruct (decide (p < r)%nat); eauto).
    destruct (Hbn q a Hq) as (n & Hn & Hbn').
    pose proof (Hbi a) as Hbi'. rewrite (binfo_Some _ _ _ Hn) in Hbi'.
    destruct (decide (ts.*1 !! S r = Some a)) as [Hnx|Hnx].
    + assert (q = S r) as -> by (by eapply NoDup_lookup).
      simpl in Hbi'. apply binfo_inv in Hbi' as (n' & Hn' & Hb' & _).
      exists n'. split; [done|]. rewrite Hb', Hbc.
      destruct (decide (p < r)%nat); [lia|]. assert (p = r) as -> by lia.
      destruct r as [|r']; [done|]. rewrite lookup_remove_mid.
      by rewrite decide_True by lia.
    + apply binfo_inv in Hbi' as (n' & Hn' & Hb' & _).
      exists n'. split; [done|]. rewrite Hb', Hbn'.
      destruct (decide (p < r)%nat).
      * subst q. destruct p as [|p']; [done|]. rewrite lookup_remove_mid.
        by rewrite decide_True by lia.
      * subst q. assert (p ≠ r) by (by intros ->).
        destruct p as [|p']; [lia|]. rewrite lookup_remove_mid.
        by rewrite decide_False by lia.
  - rewrite Hft, fmap_remove_mid, last_remove_mid by (by rewrite length_fmap).
    rewrite length_fmap, Hbf, last_lookup, length_fmap.
    destruct (decide (S r = length ts)) as [Heq|Hne].
    + rewrite <- Heq. simpl. rewrite Hc1, decide_True by done. exact Hbc.
    + rewrite decide_False; [done|]. intros Hl.
      assert (Init.Nat.pred (length ts) = r); [|lia].
      by eapply NoDup_lookup.
  - intros a Ha. rewrite Hk. apply Hbk. rewrite fmap_remove_mid in Ha.
    by eapply remove_mid_sub.
Qed.

Lemma Delete_remove_Inv h s L ts k r c hc cn update :
  Inv h s L ts → search_ctx h ((header s, L) :: ts) k r →
  ts !! r = Some (c, hc) → h !! c = Some cn →
  (∀ j, (j < L)%nat →
        ∃ pj aj, update !! j = Some (Some aj) ∧
                 pred_at ((header s, L) :: ts) j r pj aj) →
  ∃ h' s' L',
    Delete_remove h s c cn update = Ok (h', s', (value cn, true)) ∧
    Inv h' s' L' (take r ts ++ drop (S r) ts) ∧
    header s' = header s ∧ MaxLevel s' = MaxLevel s ∧ length h' = length h ∧
    (∀ a, (λ i, (i.1.2, i.2)) <$> binfo h' a = (λ i, (i.1.2, i.2)) <$> binfo h a).
Proof.
  intros (Hsh & Htop & Hb) Hctx Hc Hcn Hupd.
  set (all := (header s, L) :: ts) in *.
  pose proof (ctx_nodes _ _ _ _ _ _ Hctx) as Hok.
  pose proof (shape_nodup _ _ _ _ _ _ Hsh) as Hnd.
  change (header s :: ts.*1) with (all.*1) in Hnd.
  destruct (shape_heights _ _ _ _ _ _ Hsh) as [HL1 Hhts].
  assert (all !! S r = Some (c, hc)) as Hc' by done.
  assert (S r < length all)%nat as Hr by (by eapply lookup_lt_Some).
  assert (1 ≤ hc ≤ L)%nat as Hhc by (apply (Hhts c); by eapply list_elem_of_lookup_2).
  assert (height h (header s) = Some L) as HhL
    by (by destruct (Hok 0%nat (header s) L eq_refl)).
  assert (∀ j, (j < hc)%nat →
            slot_at h c j = Some (want_slot j (drop (S (S r)) all))) as Hcs.
  { intros j Hj. by eapply nodes_ok_slot. }
  assert (next cn = fst <$> ts !! S r) as Hnext.
  { rewrite (next_slot _ _ _ _ Hcn (Hcs 0%nat ltac:(lia))).
    rewrite want_slot_eq. cbn [forward]. unfold fwd_at.
    rewrite (next_at_0_drop knil lessThan h all k r Hctx).
    unfold all. rewrite lookup_towers. by destruct (ts !! S r) as [[]|]. }
  assert (∀ p a ht j, all !! p = Some (a, ht) → (p ≤ r)%nat → low_between all j p r →
            forward (want_slot j (drop (S p) all)) = Some c ↔ (j < hc)%nat) as Hfwc.
  { intros p a ht j Hp Hpr Hlow.
    pose proof (drop_take_split all p r Hpr) as Hsplit.
    rewrite (drop_S all (c, hc) (S r) Hc') in Hsplit.
    rewrite <- between_None in Hlow.
    set (A := take (r - p) (drop (S p) all)) in *.
    rewrite Hsplit, want_slot_eq. cbn [forward].
    rewrite fwd_at_app_None, fwd_at_cons by done.
    destruct (decide (j < hc)%nat); [done|]. split; [|lia].
    intros Hf. apply fwd_at_Some in Hf as (q & hq & Hq & _).
    rewrite lookup_drop in Hq.
    pose proof (all_addr_inj all _ _ _ _ _ Hnd Hq Hc'). lia. }
  destruct (Delete_remove_spec h s L c cn update HhL Hcn)
    as (h2 & hd2 & L' & Hrun & Hhd2 & Hlen2 & HL' & HL'1 & Hnone & Htop' & Hlenh &
        Hh2 & Hbi2 & Hs2 & Hout2).
  { intros nx. rewrite Hnext. intros Hnx.
    destruct (ts !! S r) as [[nx' hnx]|] eqn:Hsr; [|done]. injection Hnx as ->.
    eapply (shape_in_heap knil lessThan _ _ _ _ (S (S r))); [done|].
    by rewrite lookup_towers. }
  { intros j Hj. destruct (Hupd j Hj) as (pj & aj & Huj & Hpred).
    pose proof Hpred as (Hpjr & (hj & Hpj & Hhj) & Hlowj).
    exists aj, (want_slot j (drop (S pj) all)). split; [done|]. split.
    { intros ->. pose proof (all_addr_inj all _ _ _ _ _ Hnd Hpj Hc'). lia. }
    split; [by eapply nodes_ok_slot|].
    intros Hf. rewrite (Hfwc pj aj hj j) in Hf by done. rewrite Hcs by done. eauto. }
  set (h3 := <[header s := trimmed hd2 L']> h2) in *.
  set (foot := if decide (footer s = Some c) then backward cn else footer s) in *.
  exists h3, (mkSkipList (header s) foot (slength s - 1) (MaxLevel s)), L'.
  split; [done|].
  (* the store before the header is cut has the shape of the shorter list *)
  assert (nodes_ok h2 (remove_after all r)) as Hok2.
  { apply (remove_nodes_ok h h2 all r c hc); [done|done| | |].
    - intros p a ht Hp _. rewrite Hh2. by destruct (Hok _ _ _ Hp).
    - intros p a ht j Hp Hj Hpr Hlow.
      assert (j < L)%nat as HjL.
      { pose proof (shape_low knil lessThan _ _ _ _ _ _ _ Hsh Hp). lia. }
      destruct (Hupd j HjL) as (pj & aj & Huj & Hpred).
      destruct (pred_at_unique all j r p a pj aj) as [<- <-]; [|done|].
      { split; [done|]. split; [by eauto|done]. }
      destruct (Hs2 j a (want_slot j (drop (S p) all))) as [-> _];
        [done|done|by eapply nodes_ok_slot|].
      f_equal. unfold unlinked.
      destruct (decide (j < hc)%nat) as [Hjc|Hjc].
      + rewrite decide_True by (by rewrite (Hfwc p a ht j)).
        by rewrite Hcs.
      + rewrite decide_False; [done|]. by rewrite (Hfwc p a ht j).
    - intros p a ht j Hp Hj Hpc Hnot.
      assert (j < L)%nat as HjL.
      { pose proof (shape_low knil lessThan _ _ _ _ _ _ _ Hsh Hp). lia. }
      destruct (Hupd j HjL) as (pj & aj & Huj & Hpred).
      pose proof Hpred as (Hpjr & (hj & Hpj & Hhj) & Hlowj).
      assert (a ≠ aj) as Hne.
      { intros ->. apply Hnot.
        by rewrite (all_addr_inj all p pj aj ht hj Hnd Hp Hpj). }
      destruct (Hs2 j aj (want_slot j (drop (S pj) all))) as [_ Hother];
        [done|done|by eapply nodes_ok_slot|].
      rewrite Hother by done. by eapply nodes_ok_slot. }
  assert (remove_after all r = (header s, L) :: (take r ts ++ drop (S r) ts)) as Hrem
    by done.
  rewrite Hrem in Hok2.
  set (ts' := take r ts ++ drop (S r) ts) in *.
  assert (∀ a ht, (a, ht) ∈ ts' → (a, ht) ∈ ts) as Hsub
    by (intros a ht; apply remove_mid_sub).
  assert (header s ∉ ts'.*1) as Hhnin.
  { intros Hin. apply NoDup_cons in Hnd as [Hnin _]. apply Hnin.
    apply list_elem_of_fmap in Hin as ([a ht] & -> & Hin).
    apply list_elem_of_fmap. exists (a, ht). split; [done|]. by apply Hsub. }
  assert (∀ a ht, (a, ht) ∈ ts' → (ht ≤ L')%nat) as Hht'.
  { intros a ht Hin. destruct (decide (L' = L)) as [->|HneL].
    { by apply (Hhts a), Hsub. }
    destruct (lookup_lt_is_Some_2 (levels hd2) L') as [l Hl]; [lia|].
    pose proof (Hnone L' l ltac:(lia) Hl) as Hfl.
    destruct (Hok2 0%nat (header s) L eq_refl) as [_ Hsl].
    specialize (Hsl L' ltac:(lia)). unfold slot_at in Hsl. rewrite Hhd2 in Hsl.
    simpl in Hsl. rewrite Hl in Hsl. injection Hsl as ->.
    rewrite want_slot_eq in Hfl. cbn [forward] in Hfl.
    rewrite fwd_at_None, next_at_None in Hfl.
    apply list_elem_of_lookup in Hin as [q Hq]. by apply (Hfl q a ht). }
  assert (∀ a, binfo h3 a = binfo h2 a) as Hbi3
    by (intros a; by apply binfo_trimmed).
  assert (∀ a, keyof h3 a = keyof h a) as Hk3.
  { intros a. rewrite !(binfo_keyof knil), Hbi3, Hbi2.
    destruct (decide (next cn = Some a)); [|done].
    by destruct (binfo h a) as [[[] ?]|]. }
  split; [|split; [done|split; [done|split]]].
  - split; [|split].
    + (* the shape *)
      split.
      * simpl. apply NoDup_cons. split; [done|].
        unfold ts'. rewrite fmap_remove_mid.
        apply NoDup_cons in Hnd as [_ Hnd].
        rewrite <- delete_take_drop. eapply sublist_NoDup; [exact Hnd|].
        apply sublist_delete.
      * apply (trim_nodes_ok h2 h3 (header s) L L' ts'); [done|done|done| | |].
        -- unfold h3. by rewrite (height_trimmed _ _ _ _ _ Hhd2), decide_True by lia.
        -- intros j Hj. unfold h3.
           by rewrite (slot_at_trimmed _ _ _ _ _ _ Hhd2), decide_True, decide_True.
        -- intros a Ha. unfold h3. rewrite (height_trimmed _ _ _ _ _ Hhd2) by lia.
           rewrite decide_False by done. split; [done|]. intros j.
           by rewrite (slot_at_trimmed _ _ _ _ _ _ Hhd2), decide_False.
      * split; [lia|]. intros a ht Hin. split; [|by eapply Hht'].
        by apply (Hhts a), Hsub.
      * simpl. unfold ts'. rewrite fmap_remove_mid.
        apply (sorted_keys_remove h); [apply (shape_sorted _ _ _ _ _ _ Hsh)|done].
      * simpl. rewrite (shape_length _ _ _ _ _ _ Hsh). unfold ts'.
        rewrite length_app, length_take, length_drop. simpl in Hr. lia.
    + (* the top level *)
      destruct Htop' as [?|(l & f & Hl & Hf)]; [left; lia|].
      destruct (decide (L' ≤ 1)%nat); [left; lia|]. right.
      destruct (Hok2 0%nat (header s) L eq_refl) as [_ Hsl].
      specialize (Hsl (L' - 1)%nat ltac:(lia)). unfold slot_at in Hsl. rewrite Hhd2 in Hsl.
      simpl in Hsl. rewrite Hl in Hsl. injection Hsl as ->.
      rewrite want_slot_eq in Hf. cbn [forward] in Hf.
      apply fwd_at_Some in Hf as (q & hq & Hq & Hlt).
      exists f. assert (hq = L') as <-.
      { assert (hq ≤ L')%nat; [|lia]. apply (Hht' f). by eapply list_elem_of_lookup_2. }
      by eapply list_elem_of_lookup_2.
    + (* the back pointers *)
      apply (remove_back h h3 s _ ts r c hc cn); [done|done|done|done|done|done|].
      intros a. rewrite Hbi3, Hbi2, Hnext, list_lookup_fmap.
      destruct (ts !! S r) as [[nx hnx]|]; simpl; [|done].
      by destruct (decide (Some nx = Some a)).
  - unfold h3. by rewrite length_insert.
  - intros a. rewrite Hbi3, Hbi2. destruct (decide (next cn = Some a)); [|done].
    by destruct (binfo h a) as [[[] ?]|].
Qed.

End DeleteInv.

Section DeleteFull.

Context {K V : Type} `{EqDecision K}.
Variable knil : K.
Variable vnil : V.
Variable lessThan : K → K → bool.
Hypothesis lt_trans : ∀ a b c, lessThan a b = true → lessThan b c = true →
                               lessThan a c = true.

Local Abbreviation heap := (heap K V).
Local Abbreviation node := (node (K := K) (V := V)).
Local Abbreviation binfo := (binfo (K := K) (V := V)).
Local Abbreviation keyof := (keyof knil).
Local Abbreviation shape := (shape knil lessThan).
Local Abbreviation Inv := (Inv knil lessThan).
Local Abbreviation search_ctx := (search_ctx knil lessThan).
Local Abbreviation Delete := (Delete knil vnil lessThan).
Local Abbreviation target := (target knil).

Implicit Types (h : heap) (s : SkipList) (ts : list tower) (n : node).

(** The slice of predecessors has no room when the list is as high as
    its maximum level. *)
Lemma Delete_cap h s L ts k :
  shape h s L ts → k ≠ knil → MaxLevel s < Z.of_nat L →
  Delete h s k = Panic "makeslice: cap out of range".
Proof.
  intros Hsh Hk HM.
  destruct (shape_header knil lessThan _ _ _ _ Hsh) as (hd & Hhd & HL & HL1).
  assert (height h (header s) = Some L) as HhL.
  { unfold height. rewrite Hhd. simpl. by rewrite HL. }
  unfold Delete, Skiplist.Delete. rewrite decide_False by done.
  rewrite (height_level_of _ _ _ HhL), (height_effectiveMaxLevel _ _ _ HhL).
  cbn [rbind]. unfold make, maxInt.
  destruct (Z.ltb_spec (Z.of_nat L - 1 + 1) 0); [lia|].
  destruct (Z.gtb_spec (Z.of_nat L - 1) (MaxLevel s)).
  - destruct (Z.ltb_spec (Z.of_nat L - 1) (Z.of_nat L - 1 + 1)); [done|lia].
  - destruct (Z.ltb_spec (MaxLevel s) (Z.of_nat L - 1 + 1)); [done|lia].
Qed.

Lemma Delete_nil h s : Delete h s knil = Panic "goskiplist: nil keys are not supported".
Proof. unfold Delete, Skiplist.Delete. by rewrite decide_True. Qed.

(** [Delete] on a well-formed engine with room for the slice: the node
    after the keys below [k] is unlinked if it holds [k], and nothing
    changes otherwise. *)
Lemma Delete_Inv h s L ts k r :
  Inv h s L ts → k ≠ knil → Z.of_nat L ≤ MaxLevel s →
  search_ctx h ((header s, L) :: ts) k r →
  match target h ((header s, L) :: ts) k r with
  | None => Delete h s k = Ok (h, s, (vnil, false))
  | Some c =>
      ∃ hc cn h' s' L',
        ts !! r = Some (c, hc) ∧ h !! c = Some cn ∧ key cn = k ∧
        Delete h s k = Ok (h', s', (value cn, true)) ∧
        Inv h' s' L' (take r ts ++ drop (S r) ts) ∧
        header s' = header s ∧ MaxLevel s' = MaxLevel s ∧ length h' = length h ∧
        (∀ a, (λ i, (i.1.2, i.2)) <$> binfo h' a = (λ i, (i.1.2, i.2)) <$> binfo h a)
  end.
Proof.
  intros HInv Hk HM Hctx. pose proof HInv as (Hsh & Htop & Hb).
  destruct (shape_header knil lessThan _ _ _ _ Hsh) as (hd & Hhd & HL & HL1).
  assert (height h (header s) = Some L) as HhL.
  { unfold height. rewrite Hhd. simpl. by rewrite HL. }
  unfold Delete, Skiplist.Delete. rewrite decide_False by done.
  rewrite (height_level_of _ _ _ HhL), (height_effectiveMaxLevel _ _ _ HhL).
  cbn [rbind].
  assert (maxInt (Z.of_nat L - 1) (MaxLevel s) = MaxLevel s) as ->.
  { unfold maxInt. destruct (Z.gtb_spec (Z.of_nat L - 1) (MaxLevel s)); [lia|done]. }
  rewrite make_Ok by lia. cbn [rbind].
  replace (Z.to_nat (Z.of_nat L - 1 + 1)) with L by lia.
  unfold searchForDelete. rewrite (load_Ok _ _ _ Hhd). cbn [rbind]. rewrite HL.
  replace (Z.to_nat (Z.of_nat L - 1 + 1)) with L by lia.
  destruct (searchForDelete_loop_spec knil lessThan h _ k r Hctx L 0%nat (header s)
              (replicate L None))
    as (update & -> & Hlen & Hupd & _).
  { by eapply shape_desc. }
  { by rewrite length_replicate. }
  cbn [rbind]. rewrite lookup_towers.
  destruct (target h ((header s, L) :: ts) k r) as [f|] eqn:Ht.
  - destruct (target_load knil lessThan _ _ _ _ _ _ _ Hsh Ht) as (ht & n & Hr & Hn & Hkn).
    rewrite Hr. cbn [fmap option_fmap option_map fst].
    unfold Delete_found. rewrite (load_Ok _ _ _ Hn). cbn [rbind].
    rewrite (decide_False (P := key n ≠ k)) by (intros Hne; by apply Hne).
    destruct (Delete_remove_Inv knil lessThan h s L ts k r f ht n update)
      as (h' & s' & L' & Hrun & HInv' & Hhs & Hml & Hlen' & Hkv); [done..|].
    exists ht, n, h', s', L'. repeat (split; [done|]). done.
  - unfold Delete_found. destruct (ts !! r) as [[f ht]|] eqn:Hr; [|done].
    cbn [fmap option_fmap option_map fst].
    destruct (nodes_ok_load knil _ _ (S r) _ _ (shape_nodes _ _ _ _ _ _ Hsh) Hr)
      as (n & Hn & _ & Hkey).
    rewrite (load_Ok _ _ _ Hn). cbn [rbind].
    by rewrite decide_True by (by eapply (target_None knil lessThan)).
Qed.

End DeleteFull.

Section FillLink.

Context {K V : Type} `{EqDecision K}.
Variable knil : K.
Variable lessThan : K → K → bool.

Local Abbreviation heap := (heap K V).
Local Abbreviation node := (node (K := K) (V := V)).
Local Abbreviation meta := (meta (K := K) (V := V)).
Local Abbreviation keyof := (keyof knil).

Implicit Types (h : heap) (s : SkipList) (n : node).

(** One round of [FillBySortedSlice] once the header is high enough,
    told slot by slot. *)
Lemma Fill_link_spec h s k v newLevel update L u0 :
  height h (header s) = Some L → (S newLevel ≤ L)%nat →
  (∀ j, (j < L)%nat →
        ∃ u l, update !! j = Some (Some u) ∧ slot_at h u j = Some l) →
  update !! 0%nat = Some (Some u0) →
  let x := length h in
  let bx := if decide (u0 = header s) then None else Some u0 in
  (u0 ≠ header s → lessThan (keyof h u0) k = false →
   Fill_link lessThan h s (k, v) newLevel update
     = Panic "goskiplist: fill by unsorted slice") ∧
  (u0 = header s ∨ lessThan (keyof h u0) k = true →
   ∃ h' update',
    Fill_link lessThan h s (k, v) newLevel update
      = Ok (h', mkSkipList (header s) (Some x) (slength s + 1) (MaxLevel s), update') ∧
    (∀ a, meta h' a = if decide (a = x) then Some (S newLevel, bx, k, v) else meta h a) ∧
    length update' = length update ∧
    (∀ j, update' !! j = if decide (j < S newLevel)%nat then Some (Some x)
                         else update !! j) ∧
    (∀ j u l, (j < S newLevel)%nat →
       update !! j = Some (Some u) → slot_at h u j = Some l →
       slot_at h' x j = Some (Level None 0) ∧
       slot_at h' u j = Some (Level (Some x) (wrap32 (span l + 1))) ∧
       ∀ b, b ≠ x → b ≠ u → slot_at h' b j = slot_at h b j) ∧
    (∀ j u l, (S newLevel ≤ j < L)%nat →
       update !! j = Some (Some u) → slot_at h u j = Some l →
       slot_at h' u j = Some (bump l) ∧
       ∀ b, b ≠ u → slot_at h' b j = slot_at h b j) ∧
    (∀ b j, (L ≤ j)%nat → slot_at h' b j = slot_at h b j)).
Proof.
  intros HL HH Hupd Hu0 x bx.
  destruct (Hupd 0%nat ltac:(lia)) as (u0' & l0 & Hu0' & Hl0).
  rewrite Hu0 in Hu0'. injection Hu0' as <-.
  pose proof (slot_at_lt _ _ _ _ Hl0) as Hu0lt.
  destruct (lookup_meta h u0 Hu0lt) as [pn Hpn].
  assert (keyof h u0 = key pn) as Hkey0 by (unfold Skiplist.keyof; by rewrite Hpn).
  set (N0 := Node (replicate (S newLevel) (Level None 0)) None k v).
  set (Nx := Node (replicate (S newLevel) (Level None 0)) bx k v).
  set (h3 := h ++ [Nx]).
  assert (Fill_link lessThan h s (k, v) newLevel update =
          do h1 <- (if decide (u0 = header s) then Ok h3
                    else if lessThan (key pn) k then Ok h3
                         else Panic "goskiplist: fill by unsorted slice");
          do (h2, update) <- Fill_splice (S newLevel) 0%nat h1 x update;
          do lv <- level_of h2 s;
          do h4 <- bump_spans (Z.to_nat (lv - Z.of_nat newLevel)) (S newLevel) h2 update;
          Ok (h4, mkSkipList (header s) (Some x) (slength s + 1) (MaxLevel s), update))
    as Hrun.
  { unfold Fill_link, alloc. fold x.
    rewrite (height_effectiveMaxLevel _ _ _ HL). cbn [rbind fst snd].
    rewrite make_Ok by (pose proof (maxInt_ge_l (Z.of_nat L - 1) (MaxLevel s)); lia).
    cbn [rbind]. replace (Z.to_nat (Z.of_nat newLevel + 1)) with (S newLevel) by lia.
    fold N0. rewrite (index_Ok _ _ _ Hu0). cbn [rbind].
    f_equal. unfold h3, Nx, bx.
    destruct (decide (u0 = header s)) as [->|Hne].
    - by rewrite decide_False by (intros Hn; by apply Hn).
    - rewrite decide_True by congruence.
      unfold load, x. rewrite lookup_app_r, Nat.sub_diag by lia.
      change ([N0] !! 0%nat) with (Some N0). cbn [rbind].
      rewrite insert_app_r_alt, Nat.sub_diag by lia.
      unfold deref. cbn [rbind list_insert insert].
      unfold load. rewrite lookup_app_l by done. rewrite Hpn. cbn [rbind].
      rewrite lookup_app_r, Nat.sub_diag by lia. simpl.
      by destruct (lessThan (key pn) k). }
  rewrite Hrun. clear Hrun. split.
  { intros Hne Hlt. rewrite decide_False by done. rewrite <- Hkey0, Hlt. done. }
  intros Hgo.
  assert ((if decide (u0 = header s) then Ok h3
           else if lessThan (key pn) k then Ok h3
                else Panic "goskiplist: fill by unsorted slice") = Ok h3) as ->.
  { destruct (decide (u0 = header s)); [done|]. rewrite <- Hkey0.
    destruct Hgo as [?| ->]; done. }
  cbn [rbind].
  assert (∀ b j, slot_at h3 b j =
                 if decide (b = x) then replicate (S newLevel) (Level None 0) !! j
                 else slot_at h b j) as Hs3.
  { intros b j. unfold h3. by rewrite slot_at_alloc. }
  assert (∀ a, meta h3 a = if decide (a = x) then Some (S newLevel, bx, k, v)
                           else meta h a) as Hm3.
  { intros a. unfold h3. rewrite meta_alloc. simpl. by rewrite length_replicate. }
  assert (∀ u j l, slot_at h u j = Some l → slot_at h3 u j = Some l ∧ u ≠ x) as Hold.
  { intros u j l Hl. pose proof (slot_at_lt _ _ _ _ Hl).
    split; [|unfold x; lia]. rewrite Hs3, decide_False; [done|unfold x; lia]. }
  destruct (Fill_splice_spec (S newLevel) 0%nat h3 x update)
    as (h4 & update' & -> & Hm4 & Hlen4 & Hupd4 & Hout4 & Hin4).
  { intros j Hj. destruct (Hupd j) as (u & l & Hu & Hl); [lia|].
    destruct (Hold _ _ _ Hl) as [Hl3 Hux]. by exists u, l. }
  cbn [rbind].
  assert (height h3 (header s) = Some L) as HL3.
  { rewrite meta_height, Hm3, decide_False, <- meta_height; [done|].
    destruct (height_Some _ _ _ HL) as (hd & Hhd & _).
    apply lookup_lt_Some in Hhd. unfold x. lia. }
  rewrite (same_meta_level_of _ _ _ Hm4), (height_level_of _ _ _ HL3). cbn [rbind].
  replace (Z.to_nat (Z.of_nat L - 1 - Z.of_nat newLevel)) with (L - S newLevel)%nat by lia.
  destruct (bump_spans_spec (L - S newLevel) (S newLevel) h4 update')
    as (h5 & -> & Hm5 & Hout5 & Hin5).
  { intros j Hj. destruct (Hupd j) as (u & l & Hu & Hl); [lia|].
    destruct (Hold _ _ _ Hl) as [Hl3 Hux].
    exists u, l. rewrite Hupd4, decide_False by lia. split; [done|].
    by rewrite Hout4 by lia. }
  cbn [rbind]. exists h5, update'. split; [done|].
  assert (same_meta h3 h5) as Hm35 by eauto using same_meta_trans.
  split; [by intros a; rewrite Hm35, Hm3|]. split; [done|]. split.
  { intros j. rewrite Hupd4. destruct (decide (j < S newLevel)%nat).
    - by rewrite decide_True by lia.
    - by rewrite decide_False by lia. }
  split; [|split].
  - intros j u l Hj Hu Hl.
    destruct (Hold _ _ _ Hl) as [Hl3 Hux].
    destruct (Hin4 j u l) as (Hu4 & Hother); [lia|done..|].
    rewrite !Hout5 by lia. split; [|split; [done|]].
    + rewrite Hother by done. rewrite Hs3, decide_True by done.
      apply lookup_replicate_2. lia.
    + intros b Hbx Hbu. rewrite Hout5 by lia. rewrite Hother by done.
      by rewrite Hs3, decide_False.
  - intros j u l Hj Hu Hl.
    destruct (Hold _ _ _ Hl) as [Hl3 Hux].
    destruct (Hin5 j u l) as (Hu5 & Hother); [lia| | |].
    { rewrite Hupd4. by rewrite decide_False by lia. }
    { by rewrite Hout4 by lia. }
    split; [done|].
    intros b Hbu. rewrite Hother, Hout4 by (done || lia).
    rewrite Hs3. destruct (decide (b = x)) as [->|]; [|done].
    assert (replicate (S newLevel) (Level None 0) !! j = None) as ->
      by (apply lookup_replicate_None; lia). symmetry.
    unfold slot_at. by rewrite lookup_ge_None_2.
  - intros b j Hj. rewrite Hout5, Hout4 by lia.
    rewrite Hs3. destruct (decide (b = x)) as [->|]; [|done].
    assert (replicate (S newLevel) (Level None 0) !! j = None) as ->
      by (apply lookup_replicate_None; lia). symmetry.
    unfold slot_at. by rewrite lookup_ge_None_2.
Qed.

End FillLink.

Lemma pred_at_last (all : list tower) r p a :
  (∀ q b ht, all !! q = Some (b, ht) → (1 ≤ ht)%nat) → (r < length all)%nat →
  pred_at all 0 r p a → p = r.
Proof.
  intros Hlow Hr (Hpr & _ & Hbetween).
  destruct (decide (p = r)) as [|Hne]; [done|].
  destruct (lookup_lt_is_Some_2 all r Hr) as [[b hb] Hb].
  pose proof (Hlow _ _ _ Hb). pose proof (Hbetween r b hb ltac:(lia) Hb). lia.
Qed.

Lemma want_slot_nil j : want_slot j [] = Level None 0.
Proof. done. Qed.

Section FillShape.

Context {K V : Type} `{EqDecision K}.
Variable knil : K.
Variable lessThan : K → K → bool.
Hypothesis lt_trans : ∀ a b c, lessThan a b = true → lessThan b c = true →
                               lessThan a c = true.

Local Abbreviation heap := (heap K V).
Local Abbreviation node := (node (K := K) (V := V)).
Local Abbreviation meta := (meta (K := K) (V := V)).
Local Abbreviation keyof := (keyof knil).
Local Abbreviation shape := (shape knil lessThan).
Local Abbreviation search_ctx := (search_ctx knil lessThan).
Local Abbreviation sorted_keys := (sorted_keys knil lessThan).

Implicit Types (h : heap) (s : SkipList) (ts : list tower) (n : node).

(** The keys of a sorted list are below [k] once the last one is. *)
Lemma sorted_below h (l : list addr) k :
  sorted_keys h l → (∀ a, last l = Some a → lessThan (keyof h a) k = true) →
  ∀ a, a ∈ l → lessThan (keyof h a) k = true.
Proof using lt_trans.
  intros Hs Hlast a Ha. apply list_elem_of_lookup in Ha as [p Hp].
  pose proof (lookup_lt_Some _ _ _ Hp) as Hlt.
  destruct (lookup_lt_is_Some_2 l (Init.Nat.pred (length l))) as [b Hb]; [lia|].
  pose proof (Hlast b ltac:(by rewrite last_lookup)) as Hbk.
  destruct (decide (p = Init.Nat.pred (length l))) as [->|Hne]; [congruence|].
  eapply lt_trans; [|exact Hbk]. apply (Hs p (Init.Nat.pred (length l))); [lia|done..].
Qed.

Lemma shape_end_ctx h s L ts k :
  shape h s L ts → (∀ a, a ∈ ts.*1 → lessThan (keyof h a) k = true) →
  search_ctx h ((header s, L) :: ts) k (length ts).
Proof.
  intros Hsh Hbelow. split.
  - apply (shape_nodes _ _ _ _ _ _ Hsh).
  - split.
    + intros [|q] a ht Hq; [lia|]. rewrite lookup_towers. intros Hqa.
      apply Hbelow. apply list_elem_of_fmap. exists (a, ht). split; [done|].
      by eapply list_elem_of_lookup_2.
    + intros q a ht Hq Hqa. apply lookup_lt_Some in Hqa. simpl in Hqa. lia.
    + simpl. lia.
  - intros p a ht Hp. by destruct (shape_low _ _ _ _ _ _ _ _ _ Hsh Hp).
  - by eapply shape_fuel.
  - intros q a ht Hq Hqa. apply lookup_lt_Some in Hqa. simpl in Hqa. lia.
Qed.

(** One round of [FillBySortedSlice] on a header that is high enough. *)
Lemma Fill_link_shape h s L ts k v newLevel update :
  shape h s L ts → (S newLevel ≤ L)%nat →
  (∀ j, (j < L)%nat →
        ∃ pj aj, update !! j = Some (Some aj) ∧
                 pred_at ((header s, L) :: ts) j (length ts) pj aj) →
  ∃ u0 hu0,
    let x := length h in
    let bx := if decide (u0 = header s) then None else Some u0 in
    let s' := mkSkipList (header s) (Some x) (slength s + 1) (MaxLevel s) in
    ((header s, L) :: ts) !! length ts = Some (u0, hu0) ∧
    (u0 ≠ header s → lessThan (keyof h u0) k = false →
     Fill_link lessThan h s (k, v) newLevel update
       = Panic "goskiplist: fill by unsorted slice") ∧
    (u0 = header s ∨ lessThan (keyof h u0) k = true →
     ∃ h' update',
       Fill_link lessThan h s (k, v) newLevel update = Ok (h', s', update') ∧
       shape h' s' L (ts ++ [(x, S newLevel)]) ∧
       (∀ a, meta h' a = if decide (a = x) then Some (S newLevel, bx, k, v)
                         else meta h a) ∧
       length update' = length update ∧
       (∀ j, update' !! j = if decide (j < S newLevel)%nat then Some (Some x)
                            else update !! j)).
Proof using EqDecision0 K V knil lessThan lt_trans.
  intros Hsh HH Hupd.
  set (all := (header s, L) :: ts) in *. set (r := length ts) in *.
  pose proof (shape_nodes _ _ _ _ _ _ Hsh) as Hok. fold all in Hok.
  assert (r < length all)%nat as Hr by (unfold all, r; simpl; lia).
  assert (S r = length all) as HSr by (unfold all, r; simpl; lia).
  pose proof (shape_nodup_all _ _ _ _ _ _ Hsh) as Hnd. fold all in Hnd.
  destruct (shape_heights _ _ _ _ _ _ Hsh) as [HL1 Hhts].
  assert (∀ q b ht, all !! q = Some (b, ht) → (1 ≤ ht)%nat) as Hlow1.
  { intros q b ht Hq. by destruct (shape_low _ _ _ _ _ _ _ _ _ Hsh Hq). }
  destruct (Hupd 0%nat) as (p0 & u0 & Hu0 & Hpred0); [lia|].
  pose proof (pred_at_last all r p0 u0 Hlow1 Hr Hpred0) as ->.
  destruct Hpred0 as (_ & (hu0 & Hp0 & Hhu0) & _).
  exists u0, hu0. intros x bx s'. split; [done|].
  destruct (Fill_link_spec knil lessThan h s k v newLevel update L u0)
    as (Hpanic & Hgo); [| done | | done |].
  { by destruct (Hok 0%nat (header s) L eq_refl). }
  { intros j Hj. destruct (Hupd j Hj) as (pj & aj & Huj & (_ & (hj & Hpj & Hhj) & _)).
    exists aj, (want_slot j (drop (S pj) all)). split; [done|]. by eapply nodes_ok_slot. }
  split; [done|]. intros Hcan.
  destruct (Hgo Hcan) as (h' & update' & Hrun & Hmeta & Hlen & Hupd' & Hlo & Hhigh & Hout).
  exists h', update'. split; [done|]. split; [|done].
  clear Hpanic Hgo Hrun. subst s' bx x.
  (* the keys before the new one are below it *)
  assert (∀ a, a ∈ ts.*1 → lessThan (keyof h a) k = true) as Hbelow.
  { apply sorted_below; [apply (shape_sorted _ _ _ _ _ _ Hsh)|].
    intros a Ha. rewrite last_lookup, length_fmap in Ha. fold r in Ha.
    destruct r as [|r'] eqn:Hreq.
    { by rewrite (nil_length_inv ts) in Ha. }
    simpl in Ha. rewrite list_lookup_fmap in Ha.
    unfold all in Hp0. rewrite lookup_towers in Hp0. rewrite Hp0 in Ha.
    injection Ha as <-. destruct Hcan as [->|]; [|done].
    pose proof (all_addr_inj all 0 (S r') (header s) L hu0 Hnd eq_refl) as Hinj.
    unfold all in Hinj. rewrite lookup_towers in Hinj. specialize (Hinj Hp0). lia. }
  assert (∀ p a ht, all !! p = Some (a, ht) → a ≠ length h) as Hfresh.
  { intros p a ht Hp. pose proof (shape_in_heap knil lessThan _ _ _ _ _ _ _ Hsh Hp). lia. }
  assert (∀ p a ht, all !! p = Some (a, ht) →
            height h' a = height h a ∧ keyof h' a = keyof h a) as Hsame.
  { intros p a ht Hp. rewrite !meta_height, !(meta_keyof knil), Hmeta.
    by rewrite decide_False by (by eapply Hfresh). }
  assert (height h' (length h) = Some (S newLevel) ∧ keyof h' (length h) = k) as [Hhx Hkx].
  { by rewrite meta_height, (meta_keyof knil), Hmeta, decide_True. }
  assert (drop (S r) all = []) as Hend by (apply drop_ge; lia).
  split.
  - (* no address twice *)
    simpl. rewrite fmap_app. simpl.
    rewrite app_comm_cons. apply NoDup_app. split; [apply Hnd|]. split; [|apply NoDup_singleton].
    intros a Ha Hin. apply list_elem_of_singleton in Hin as ->.
    change (header s :: ts.*1) with (all.*1) in Ha.
    apply list_elem_of_fmap in Ha as ([a ht] & Heq & Hin). simpl in Heq.
    apply list_elem_of_lookup in Hin as [p Hp]. subst a.
    by eapply Hfresh.
  - (* the slots *)
    cbn [header].
    assert ((header s, L) :: ts ++ [(length h, S newLevel)]
            = insert_after all r (length h, S newLevel)) as ->.
    { unfold insert_after. rewrite Hend, take_ge by lia. done. }
    apply (insert_nodes_ok h h' all r (length h) (S newLevel)); [done..| | | | |].
    + intros j Hj. rewrite Hend, want_slot_nil.
      destruct (Hupd j) as (pj & aj & Huj & Hpred); [lia|].
      pose proof Hpred as (Hpjr & (hj & Hpj & Hhj) & Hlowj).
      by destruct (Hlo j aj (want_slot j (drop (S pj) all)))
        as (-> & _); [done|done|by eapply nodes_ok_slot|].
    + intros p a ht Hp. destruct (Hsame _ _ _ Hp) as [-> _]. by destruct (Hok _ _ _ Hp).
    + intros p a ht j Hp Hj Hpr Hlowp HjH.
      destruct (Hupd j) as (pj & aj & Huj & Hpred); [lia|].
      destruct (pred_at_unique all j r p a pj aj) as [<- <-]; [|done|].
      { split; [done|]. split; [by eauto|done]. }
      destruct (Hlo j a (want_slot j (drop (S p) all)))
        as (_ & -> & _); [done|done|by eapply nodes_ok_slot|].
      do 2 f_equal.
      pose proof (length_between all p r Hr Hpr) as HlenA.
      pose proof (drop_take_split all p r Hpr) as Hsplit.
      rewrite <- between_None in Hlowp.
      set (A := take (r - p) (drop (S p) all)) in *.
      rewrite Hsplit, Hend, want_slot_eq. cbn [span].
      rewrite dist_at_app_None by done. rewrite HlenA. change (dist_at j []) with 0%nat. wrap_lia.
    + intros p a ht j Hp Hj Hpr Hlowp HjH.
      assert (j < L)%nat as HjL.
      { pose proof (shape_low knil lessThan _ _ _ _ _ _ _ Hsh Hp). lia. }
      destruct (Hupd j) as (pj & aj & Huj & Hpred); [lia|].
      destruct (pred_at_unique all j r p a pj aj) as [<- <-]; [|done|].
      { split; [done|]. split; [by eauto|done]. }
      by destruct (Hhigh j a (want_slot j (drop (S p) all)))
        as (-> & _); [lia|done|by eapply nodes_ok_slot|].
    + intros p a ht j Hp Hj Hnot.
      assert (j < L)%nat as HjL.
      { pose proof (shape_low knil lessThan _ _ _ _ _ _ _ Hsh Hp). lia. }
      destruct (Hupd j) as (pj & aj & Huj & Hpred); [lia|].
      pose proof Hpred as (Hpjr & (hj & Hpj & Hhj) & Hlowj).
      assert (a ≠ aj) as Hne.
      { intros ->. apply Hnot.
        by rewrite (all_addr_inj all p pj aj ht hj Hnd Hp Hpj). }
      rewrite <- (nodes_ok_slot _ _ _ _ _ j Hok Hp Hj).
      destruct (decide (j < S newLevel)%nat).
      * destruct (Hlo j aj (want_slot j (drop (S pj) all)))
          as (_ & _ & Hother); [done|done|by eapply nodes_ok_slot|].
        apply Hother; [by eapply Hfresh|done].
      * destruct (Hhigh j aj (want_slot j (drop (S pj) all)))
          as (_ & Hother); [lia|done|by eapply nodes_ok_slot|].
        by apply Hother.
  - (* the heights *)
    split; [done|]. intros a ht Hin.
    apply elem_of_app in Hin as [Hin|Hin]; [by apply (Hhts a)|].
    apply list_elem_of_singleton in Hin as [= -> ->]. lia.
  - (* the order of the keys *)
    simpl. rewrite fmap_app. simpl.
    pose proof (sorted_keys_insert knil lessThan lt_trans h h' (ts.*1) (length (ts.*1))
                  (length h) k) as Hins.
    rewrite take_ge, drop_ge in Hins by lia. apply Hins.
    + apply (shape_sorted _ _ _ _ _ _ Hsh).
    + done.
    + intros a Ha. apply list_elem_of_fmap in Ha as ([a' ht] & -> & Hin).
      apply list_elem_of_lookup in Hin as [p Hp].
      by destruct (Hsame (S p) a' ht).
    + done.
    + intros q a Hq Ha. apply Hbelow. by eapply list_elem_of_lookup_2.
    + intros a Ha. apply lookup_lt_Some in Ha. lia.
  - (* the length *)
    simpl. rewrite (shape_length _ _ _ _ _ _ Hsh), length_app. simpl. lia.
Qed.

End FillShape.

Section FillRound.

Context {K V : Type} `{EqDecision K}.
Variable knil : K.
Variable lessThan : K → K → bool.
Hypothesis lt_trans : ∀ a b c, lessThan a b = true → lessThan b c = true →
                               lessThan a c = true.

Local Abbreviation heap := (heap K V).
Local Abbreviation node := (node (K := K) (V := V)).
Local Abbreviation meta := (meta (K := K) (V := V)).
Local Abbreviation binfo := (binfo (K := K) (V := V)).
Local Abbreviation keyof := (keyof knil).
Local Abbreviation shape := (shape knil lessThan).
Local Abbreviation wf := (wf knil lessThan).
Local Abbreviation back := (back knil).
Local Abbreviation Inv := (Inv knil lessThan).

Implicit Types (h : heap) (s : SkipList) (ts : list tower) (n : node).

Lemma Inv_wf h s L ts : Inv h s L ts → wf h s L ts.
Proof.
  intros (Hsh & Htop & [Hbh Hbn Hbf Hbk]). split; [done|]. split; [done|].
  split; [|done]. destruct Hbh as (hd & ? & ? & _). eauto.
Qed.

Lemma wf_Inv h s L ts :
  wf h s L ts → keyof h (header s) = knil → (∀ a, a ∈ ts.*1 → keyof h a ≠ knil) →
  Inv h s L ts.
Proof.
  intros (Hsh & Htop & (Hbh & Hbn & Hbf)) Hkh Hnon. split; [done|]. split; [done|].
  split; [|done..]. destruct Hbh as (hd & Hhd & Hbk). exists hd.
  unfold Skiplist.keyof in Hkh. by rewrite Hhd in Hkh.
Qed.

(** One round of [FillBySortedSlice]. *)
Lemma Fill_round_spec h s L ts rg pos k v update :
  wf h s L ts → tails s L ts update → pos = slength s →
  ∃ newLevel rg',
    randomLevel_loop (Z.to_nat (maxInt (Z.of_nat L - 1) (MaxLevel s))) 0 rg
      = (newLevel, rg') ∧
    let H := S newLevel in
    let x := length h in
    (∀ a, last (ts.*1) = Some a → lessThan (keyof h a) k = false →
       Fill_round lessThan h s rg pos (k, v) update
         = Panic "goskiplist: fill by unsorted slice") ∧
    ((∀ a, last (ts.*1) = Some a → lessThan (keyof h a) k = true) →
     ∃ h' s' update',
       Fill_round lessThan h s rg pos (k, v) update = Ok (h', s', rg', update') ∧
       wf h' s' (L `max` H) (ts ++ [(x, H)]) ∧
       tails s' (L `max` H) (ts ++ [(x, H)]) update' ∧
       header s' = header s ∧ MaxLevel s' = MaxLevel s ∧
       length h' = S (length h) ∧
       (∀ a, binfo h' a = if decide (a = x) then Some (last (ts.*1), k, v)
                          else binfo h a)).
Proof using EqDecision0 K V knil lessThan lt_trans.
  intros (Hsh & Htop & Hlinks) Htails ->. destruct Hlinks as (Hlh & Hln & Hlf).
  destruct Htails as [Hlu Hupd].
  destruct (shape_header knil lessThan _ _ _ _ Hsh) as (hd & Hhd & HL & HL1).
  assert (height h (header s) = Some L) as HhL.
  { unfold height. rewrite Hhd. simpl. by rewrite HL. }
  unfold Fill_round, randomLevel.
  rewrite (height_effectiveMaxLevel _ _ _ HhL). cbn [rbind].
  destruct (randomLevel_loop (Z.to_nat (maxInt (Z.of_nat L - 1) (MaxLevel s))) 0 rg)
    as [newLevel rg'] eqn:Hrl.
  exists newLevel, rg'. split; [done|]. cbv zeta.
  set (H := S newLevel). set (x := length h).
  rewrite (height_level_of _ _ _ HhL). cbn [rbind].
  set (c := (S newLevel - L)%nat).
  set (h1 := <[header s := grown hd c (wrap32 (slength s))]> h).
  set (update1 := update ++ replicate c (Some (header s))).
  assert ((if Z.of_nat newLevel >? Z.of_nat L - 1
           then Fill_grow (Z.to_nat (Z.of_nat newLevel - (Z.of_nat L - 1)))
                          (Z.to_nat (Z.of_nat L - 1 + 1)) h s (slength s) update
           else Ok (h, update)) = Ok (h1, update1)) as ->.
  { destruct (Z.gtb_spec (Z.of_nat newLevel) (Z.of_nat L - 1)) as [Hgt|Hle].
    - replace (Z.to_nat (Z.of_nat newLevel - (Z.of_nat L - 1))) with c by lia.
      replace (Z.to_nat (Z.of_nat L - 1 + 1)) with (length (levels hd)) by lia.
      apply Fill_grow_spec; [done|lia].
    - replace c with 0%nat by lia. unfold h1, update1.
      replace c with 0%nat by lia. simpl. rewrite !app_nil_r.
      do 2 f_equal. symmetry. apply list_insert_id. rewrite Hhd.
      unfold grown, set_levels. rewrite app_nil_r. by destruct hd. }
  cbn [rbind].
  pose proof (grow_shape knil lessThan _ _ _ _ _ c Hsh Hhd) as Hsh1. fold h1 in Hsh1.
  assert (∀ a, binfo h1 a = binfo h a) as Hbi1.
  { intros a. unfold h1.
    by destruct (grow_facts h s hd c (wrap32 (slength s)) a Hhd) as (_ & -> & _). }
  assert (∀ a, keyof h1 a = keyof h a) as Hk1.
  { intros a. by rewrite !(binfo_keyof knil), Hbi1. }
  assert (length h1 = length h) as Hlen1 by apply length_insert.
  destruct (shape_heights _ _ _ _ _ _ Hsh) as [_ Hhts].
  assert (∀ j, (j < L + c)%nat →
            ∃ pj aj, update1 !! j = Some (Some aj) ∧
                     pred_at ((header s, (L + c)%nat) :: ts) j (length ts) pj aj) as Hupd1.
  { intros j Hj. destruct (decide (j < L)%nat) as [HjL|HjL].
    - destruct (Hupd j HjL) as (pj & aj & Huj & Hpred).
      exists pj, aj. unfold update1.
      rewrite !lookup_app_l by lia. split; [done|]. by apply grow_pred_at.
    - exists 0%nat, (header s). unfold update1.
      rewrite !lookup_app_r by lia. rewrite !lookup_replicate_2 by lia.
      split; [done|].
      apply grow_pred_at_new; [|lia]. intros a ht Hin. specialize (Hhts a ht Hin). lia. }
  destruct (Fill_link_shape knil lessThan lt_trans h1 s (L + c) ts k v newLevel
              update1 Hsh1 ltac:(lia) Hupd1)
    as (u0 & hu0 & Hu0 & Hpanic & Hgo).
  (* the tower before the new node is the last one *)
  pose proof (shape_nodup_all _ _ _ _ _ _ Hsh) as Hnd.
  assert ((if decide (u0 = header s) then None else Some u0) = last (ts.*1)) as Hbx.
  { rewrite last_lookup, length_fmap. destruct ts as [|t ts'] using rev_ind.
    - simpl in Hu0. injection Hu0 as <- _. by rewrite decide_True.
    - rewrite length_app in *. simpl in *. clear IHts'.
      replace (length ts' + 1)%nat with (S (length ts')) in * by lia.
      simpl in Hu0. simpl. rewrite list_lookup_fmap, Hu0. simpl.
      rewrite decide_False; [done|]. intros ->.
      pose proof (all_addr_inj ((header s, L) :: ts' ++ [t]) 0 (S (length ts'))
                    (header s) L hu0 Hnd eq_refl) as Hinj.
      rewrite lookup_towers in Hinj. specialize (Hinj Hu0). lia. }
  split.
  { intros a Ha Hlt. rewrite <- Hbx in Ha.
    destruct (decide (u0 = header s)) as [|Hne]; [done|]. injection Ha as ->.
    rewrite Hpanic; [done|done|by rewrite Hk1]. }
  intros Hasc.
  destruct Hgo as (h' & update' & Hrun & Hsh' & Hmeta & Hlen' & Hupd').
  { destruct (decide (u0 = header s)) as [|Hne]; [by left|right].
    rewrite Hk1. by apply Hasc. }
  rewrite Hlen1 in *. rewrite Hrun. cbn [rbind].
  fold x in Hsh', Hmeta, Hupd'. rewrite Hbx in Hmeta.
  assert (∀ a, binfo h' a = if decide (a = x) then Some (last (ts.*1), k, v)
                            else binfo h a) as Hbi'.
  { intros a. rewrite binfo_meta, Hmeta. destruct (decide (a = x)); [done|].
    by rewrite <- binfo_meta. }
  assert (∀ a, a ∈ header s :: ts.*1 → a ≠ x) as Hfresh.
  { intros a Ha. pose proof (shape_addr_lt knil lessThan _ _ _ _ _ Hsh Ha). unfold x. lia. }
  do 3 eexists. split; [done|].
  replace (L `max` H)%nat with (L + c)%nat by (unfold H; lia).
  split; [|split; [|split; [done|split; [done|split; [|done]]]]].
  - split; [done|]. split.
    + (* the top level *)
      destruct (decide (c = 0)%nat) as [Hc|Hc].
      * destruct Htop as [->|[a Ha]]; [left; lia|]. right. exists a.
        replace (L + c)%nat with L by lia. apply elem_of_app. by left.
      * right. exists x. replace (L + c)%nat with H by (unfold H; lia).
        apply elem_of_app. right. by apply list_elem_of_singleton.
    + (* the back pointers *)
      split; [|split].
      * destruct Hlh as (hd' & Hhd' & Hbk). cbn [header].
        pose proof (Hbi' (header s)) as Hb. rewrite decide_False in Hb
          by (apply Hfresh; left).
        rewrite (binfo_Some _ _ _ Hhd'), Hbk in Hb.
        apply binfo_inv in Hb as (n & Hn & Hb' & _). eauto.
      * intros p a. rewrite fmap_app. simpl. intros Ha.
        destruct (decide (p < length (ts.*1))%nat) as [Hp|Hp].
        -- rewrite lookup_app_l in Ha by done.
           destruct (Hln p a Ha) as (n & Hn & Hbn).
           pose proof (Hbi' a) as Hb. rewrite decide_False in Hb.
           2:{ apply Hfresh. right. by eapply list_elem_of_lookup_2. }
           rewrite (binfo_Some _ _ _ Hn) in Hb.
           apply binfo_inv in Hb as (n' & Hn' & Hb' & _). exists n'. split; [done|].
           rewrite Hb', Hbn. destruct p as [|p']; [done|].
           by rewrite lookup_app_l by lia.
        -- pose proof (lookup_lt_Some _ _ _ Ha) as Hlt.
           rewrite length_app in Hlt. simpl in Hlt.
           assert (p = length (ts.*1)) as -> by lia.
           rewrite lookup_app_r, Nat.sub_diag in Ha by lia. injection Ha as <-.
           pose proof (Hbi' x) as Hb. rewrite decide_True in Hb by done.
           apply binfo_inv in Hb as (n' & Hn' & Hb' & _). exists n'. split; [done|].
           rewrite Hb', last_lookup.
           destruct (length (ts.*1)) as [|m] eqn:Hm.
           ++ simpl. by rewrite (nil_length_inv _ Hm).
           ++ simpl. by rewrite lookup_app_l by lia.
      * cbn [footer]. rewrite fmap_app. simpl. by rewrite last_snoc.
  - (* the last towers *)
    split; [by rewrite Hlen'; unfold update1; rewrite length_app, length_replicate, Hlu|].
    intros j Hj. cbn [header]. rewrite Hupd', length_app. simpl.
    replace (length ts + 1)%nat with (S (length ts)) by lia.
    destruct (decide (j < S newLevel)%nat) as [HjH|HjH].
    + exists (S (length ts)), x. split; [done|]. split; [done|]. split.
      * exists H. split; [|unfold H; lia].
        rewrite lookup_towers, lookup_app_r, Nat.sub_diag by lia. done.
      * intros q a ht Hq. lia.
    + destruct (Hupd1 j Hj) as (pj & aj & Huj & (Hpj & (hj & Hlj & Hhj) & Hlow)).
      exists pj, aj. split; [done|]. split; [lia|]. split.
      * exists hj. split; [|done]. destruct pj as [|pj]; [done|].
        rewrite lookup_towers in *. rewrite lookup_app_l; [done|].
        by eapply lookup_lt_Some.
      * intros q a ht Hq Hqa. destruct (decide (q ≤ length ts)%nat) as [Hle|Hgt].
        -- apply (Hlow q a ht); [lia|]. destruct q as [|q]; [done|].
           rewrite lookup_towers in *. rewrite lookup_app_l in Hqa by lia. done.
        -- assert (q = S (length ts)) as -> by lia.
           rewrite lookup_towers, lookup_app_r, Nat.sub_diag in Hqa by lia.
           injection Hqa as <- <-. lia.
  - (* the store has grown by one node *)
    pose proof (Hmeta x) as Hm. rewrite decide_True in Hm by done.
    apply meta_lt in Hm.
    pose proof (Hmeta (S x)) as Hm'. rewrite decide_False in Hm' by lia.
    assert (meta h' (S x) = None) as Hnone.
    { rewrite Hm', (meta_None h1) by (unfold x; lia). done. }
    destruct (decide (S x < length h')%nat) as [Hlt|]; [|unfold x in *; lia].
    apply (meta_is_Some h') in Hlt. rewrite Hnone in Hlt. by destruct Hlt.
Qed.

End FillRound.

Section FillLoop.

Context {K V : Type} `{EqDecision K}.
Variable knil : K.
Variable lessThan : K → K → bool.
Hypothesis lt_trans : ∀ a b c, lessThan a b = true → lessThan b c = true →
                               lessThan a c = true.

Local Abbreviation heap := (heap K V).
Local Abbreviation node := (node (K := K) (V := V)).
Local Abbreviation binfo := (binfo (K := K) (V := V)).
Local Abbreviation keyof := (keyof knil).
Local Abbreviation shape := (shape knil lessThan).
Local Abbreviation wf := (wf knil lessThan).
Local Abbreviation ascending := (ascending lessThan).

Implicit Types (h : heap) (s : SkipList) (ts : list tower) (n : node).

Lemma ascending_tail e (elements : list (K * V)) :
  ascending (e :: elements) → ascending elements.
Proof. intros Ha i e1 e2 H1 H2. by apply (Ha (S i)). Qed.

(** The rounds of [FillBySortedSlice] over an ascending slice. *)
Lemma Fill_loop_spec (elements : list (K * V)) h s L ts rg pos update :
  wf h s L ts → tails s L ts update → pos = slength s →
  (∀ a e, last (ts.*1) = Some a → head elements = Some e →
          lessThan (keyof h a) e.1 = true) →
  ascending elements →
  ∃ h' s' rg' L' ts',
    Fill_loop lessThan elements pos h s rg update = Ok (h', s', rg') ∧
    wf h' s' L' (ts ++ ts') ∧
    header s' = header s ∧ MaxLevel s' = MaxLevel s ∧
    (L' ≤ L `max` (Z.to_nat (MaxLevel s) + 1))%nat ∧
    ts'.*1 = seq (length h) (length elements) ∧
    length h' = (length h + length elements)%nat ∧
    (∀ a, (a < length h)%nat → binfo h' a = binfo h a) ∧
    (∀ i e, elements !! i = Some e →
            ∃ b, binfo h' (length h + i) = Some (b, e.1, e.2)).
Proof using EqDecision0 K V knil lessThan lt_trans.
  revert h s L ts rg pos update.
  induction elements as [|[k v] elements IH]; intros h s L ts rg pos update
    Hwf Htails Hpos Hjoin Hasc.
  - exists h, s, rg, L, []. simpl. rewrite app_nil_r, Nat.add_0_r.
    split; [done|]. split; [done|]. split; [done|]. split; [done|].
    split; [lia|]. done.
  - destruct (Fill_round_spec knil lessThan lt_trans h s L ts rg pos k v update
                Hwf Htails Hpos) as (newLevel & rg1 & Hrl & _ & Hgo).
    destruct Hgo as (h1 & s1 & update1 & Hrun & Hwf1 & Htails1 & Hhd1 & HM1 & Hlen1 & Hbi1).
    { intros a Ha. by apply (Hjoin a (k, v)). }
    pose proof (randomLevel_loop_bound
                  (Z.to_nat (maxInt (Z.of_nat L - 1) (MaxLevel s))) 0 rg) as Hbound.
    rewrite Hrl in Hbound. simpl in Hbound.
    set (H := S newLevel) in *. set (x := length h) in *.
    assert (slength s1 = pos + 1) as Hpos1.
    { destruct Hwf as (Hsh & _). destruct Hwf1 as (Hsh1 & _).
      rewrite (shape_length _ _ _ _ _ _ Hsh1), Hpos, (shape_length _ _ _ _ _ _ Hsh).
      rewrite length_app. simpl. lia. }
    assert (keyof h1 x = k) as Hkx.
    { by rewrite (binfo_keyof knil), Hbi1, decide_True. }
    destruct (IH h1 s1 (L `max` H)%nat (ts ++ [(x, H)]) rg1 (pos + 1) update1)
      as (h' & s' & rg' & L' & ts' & Hrun' & Hwf' & Hhd' & HM' & HL' & Hts' & Hlen' &
          Hold & Hnew); [done|done|done| |by eapply ascending_tail|].
    { intros a e. rewrite fmap_app. simpl. rewrite last_snoc. intros [= <-] He.
      rewrite Hkx. apply (Hasc 0%nat (k, v) e); [done|].
      simpl. by rewrite <- head_lookup. }
    exists h', s', rg', L', ((x, H) :: ts').
    split. { simpl. rewrite Hrun. cbn [rbind]. exact Hrun'. }
    split. { by rewrite <- app_assoc in Hwf'. }
    split; [congruence|]. split; [congruence|]. split.
    { rewrite HM1 in HL'. unfold maxInt in Hbound.
      destruct (Z.gtb_spec (Z.of_nat L - 1) (MaxLevel s)); unfold H in *; lia. }
    split. { rewrite fmap_cons, Hts', Hlen1. done. }
    split. { rewrite Hlen', Hlen1. simpl. lia. }
    split.
    { intros a Ha. rewrite Hold by lia. rewrite Hbi1, decide_False; [done|unfold x; lia]. }
    intros i e Hi. destruct i as [|i]; simpl in Hi.
    + injection Hi as <-. rewrite Nat.add_0_r. fold x.
      rewrite Hold by lia. rewrite Hbi1, decide_True by done. eauto.
    + destruct (Hnew i e Hi) as [b Hb]. exists b. rewrite <- Hb. f_equal. lia.
Qed.

(** A pair of neighbours out of order stops the fill. *)
Lemma Fill_loop_panic (elements : list (K * V)) h s L ts rg pos update :
  wf h s L ts → tails s L ts update → pos = slength s →
  (∃ a e, last (ts.*1) = Some a ∧ head elements = Some e ∧
          lessThan (keyof h a) e.1 = false) ∨
  (∃ i e1 e2, elements !! i = Some e1 ∧ elements !! S i = Some e2 ∧
              lessThan e1.1 e2.1 = false) →
  Fill_loop lessThan elements pos h s rg update
    = Panic "goskiplist: fill by unsorted slice".
Proof using EqDecision0 K V knil lessThan lt_trans.
  revert h s L ts rg pos update.
  induction elements as [|[k v] elements IH]; intros h s L ts rg pos update
    Hwf Htails Hpos Hbad.
  { destruct Hbad as [(a & e & _ & He & _)|(i & e1 & e2 & He & _)]; done. }
  destruct (Fill_round_spec knil lessThan lt_trans h s L ts rg pos k v update
              Hwf Htails Hpos) as (newLevel & rg1 & Hrl & Hpanic & Hgo).
  assert ((∃ a, last (ts.*1) = Some a ∧ lessThan (keyof h a) k = false) ∨
          (∀ a, last (ts.*1) = Some a → lessThan (keyof h a) k = true)) as [Hstop|Hok].
  { destruct (last (ts.*1)) as [a|]; [|by right].
    destruct (lessThan (keyof h a) k) eqn:Hlt.
    - right. by intros ? [= <-].
    - left. eauto. }
  { destruct Hstop as (a & Ha & Hlt). simpl. by rewrite (Hpanic a Ha Hlt). }
  destruct (Hgo Hok) as (h1 & s1 & update1 & Hrun & Hwf1 & Htails1 & Hhd1 & HM1 & Hlen1 & Hbi1).
  simpl. rewrite Hrun. cbn [rbind].
  set (H := S newLevel) in *. set (x := length h) in *.
  assert (slength s1 = pos + 1) as Hpos1.
  { destruct Hwf as (Hsh & _). destruct Hwf1 as (Hsh1 & _).
    rewrite (shape_length _ _ _ _ _ _ Hsh1), Hpos, (shape_length _ _ _ _ _ _ Hsh).
    rewrite length_app. simpl. lia. }
  assert (keyof h1 x = k) as Hkx.
  { by rewrite (binfo_keyof knil), Hbi1, decide_True. }
  apply (IH h1 s1 (L `max` H)%nat (ts ++ [(x, H)]) rg1 (pos + 1) update1); [done..|].
  destruct Hbad as [(a & e & Ha & He & Hlt)|(i & e1 & e2 & H1 & H2 & Hlt)].
  { injection He as <-. simpl in Hlt. rewrite (Hok a Ha) in Hlt. done. }
  destruct i as [|i].
  - left. exists x, e2. rewrite fmap_app. simpl. rewrite last_snoc.
    split; [done|]. split; [by rewrite head_lookup|].
    injection H1 as <-. by rewrite Hkx.
  - right. by exists i, e1, e2.
Qed.

End FillLoop.

Section FillFull.

Context {K V : Type} `{EqDecision K}.
Variable knil : K.
Variable vnil : V.
Variable lessThan : K → K → bool.
Hypothesis lt_trans : ∀ a b c, lessThan a b = true → lessThan b c = true →
                               lessThan a c = true.

Local Abbreviation heap := (heap K V).
Local Abbreviation node := (node (K := K) (V := V)).
Local Abbreviation binfo := (binfo (K := K) (V := V)).
Local Abbreviation keyof := (keyof knil).
Local Abbreviation shape := (shape knil lessThan).
Local Abbreviation wf := (wf knil lessThan).
Local Abbreviation Inv := (Inv knil lessThan).
Local Abbreviation ascending := (ascending lessThan).
Local Abbreviation FillBySortedSlice := (FillBySortedSlice lessThan).

Implicit Types (h : heap) (s : SkipList) (ts : list tower) (n : node).

Lemma Fill_nonempty h s rg elements :
  Len s ≠ 0 →
  FillBySortedSlice h s rg elements = Panic "goskiplist: can only fill empty skiplist".
Proof. intros Hn. unfold FillBySortedSlice, Skiplist.FillBySortedSlice. by rewrite decide_True. Qed.

(** An empty well-formed engine has a header of one level. *)
Lemma wf_empty h s L ts : wf h s L ts → Len s = 0 → ts = [] ∧ L = 1%nat.
Proof.
  intros (Hsh & Htop & _) Hlen. unfold Len in Hlen.
  rewrite (shape_length _ _ _ _ _ _ Hsh) in Hlen.
  assert (ts = []) as -> by (apply nil_length_inv; lia). split; [done|].
  destruct Htop as [|[a Ha]]; [done|]. by apply elem_of_nil in Ha.
Qed.

Lemma Fill_start h s L :
  wf h s L [] →
  ∃ update, tails s L [] update ∧
    ∀ rg elements,
      FillBySortedSlice h s rg elements =
      do (h, s, r) <- Fill_loop lessThan elements 0 h s rg update; Ok (h, s, r, true).
Proof.
  intros Hwf. pose proof Hwf as (Hsh & _).
  destruct (wf_empty _ _ _ _ Hwf) as [_ ->].
  { unfold Len. by rewrite (shape_length _ _ _ _ _ _ Hsh). }
  destruct (shape_header knil lessThan _ _ _ _ Hsh) as (hd & Hhd & HL & _).
  assert (height h (header s) = Some 1%nat) as HhL.
  { unfold height. rewrite Hhd. simpl. by rewrite HL. }
  exists [Some (header s)]. split.
  - split; [done|]. intros j Hj. exists 0%nat, (header s).
    assert (j = 0)%nat as -> by lia. split; [done|]. split; [done|]. split.
    + exists 1%nat. split; [done|lia].
    + intros q a ht Hq. simpl in Hq. lia.
  - intros rg elements. unfold FillBySortedSlice, Skiplist.FillBySortedSlice.
    rewrite decide_False.
    2:{ intros Hn. apply Hn. unfold Len. by rewrite (shape_length _ _ _ _ _ _ Hsh). }
    rewrite (height_level_of _ _ _ HhL), (height_effectiveMaxLevel _ _ _ HhL).
    cbn [rbind].
    pose proof (maxInt_ge_l (Z.of_nat 1 - 1) (MaxLevel s)) as Heff.
    rewrite make_Ok by lia. cbn [rbind]. done.
Qed.

(** [FillBySortedSlice] on an empty engine and an ascending slice. *)
Lemma Fill_spec h s L ts rg (elements : list (K * V)) :
  wf h s L ts → Len s = 0 → ascending elements →
  ∃ h' s' rg' L' ts',
    FillBySortedSlice h s rg elements = Ok (h', s', rg', true) ∧
    wf h' s' L' ts' ∧
    header s' = header s ∧ MaxLevel s' = MaxLevel s ∧
    (L' ≤ 1 `max` (Z.to_nat (MaxLevel s) + 1))%nat ∧
    ts'.*1 = seq (length h) (length elements) ∧
    length h' = (length h + length elements)%nat ∧
    (∀ a, (a < length h)%nat → binfo h' a = binfo h a) ∧
    (∀ i e, elements !! i = Some e →
            ∃ b, binfo h' (length h + i) = Some (b, e.1, e.2)).
Proof using EqDecision0 K V knil lessThan lt_trans.
  intros Hwf Hlen Hasc. destruct (wf_empty _ _ _ _ Hwf Hlen) as [-> ->].
  destruct (Fill_start _ _ _ Hwf) as (update & Htails & ->).
  destruct (Fill_loop_spec knil lessThan lt_trans elements h s 1 [] rg 0 update)
    as (h' & s' & rg' & L' & ts' & -> & Hrest); [done|done| |done|done|].
  { destruct Hwf as (Hsh & _). by rewrite (shape_length _ _ _ _ _ _ Hsh). }
  cbn [rbind]. by exists h', s', rg', L', ts'.
Qed.

(** [FillBySortedSlice] on an empty engine and a slice out of order. *)
Lemma Fill_unsorted h s L ts rg (elements : list (K * V)) i e1 e2 :
  wf h s L ts → Len s = 0 →
  elements !! i = Some e1 → elements !! S i = Some e2 → lessThan e1.1 e2.1 = false →
  FillBySortedSlice h s rg elements = Panic "goskiplist: fill by unsorted slice".
Proof using EqDecision0 K V knil lessThan lt_trans.
  intros Hwf Hlen H1 H2 Hlt. destruct (wf_empty _ _ _ _ Hwf Hlen) as [-> ->].
  destruct (Fill_start _ _ _ Hwf) as (update & Htails & ->).
  rewrite (Fill_loop_panic knil lessThan lt_trans elements h s 1 [] rg 0 update);
    [done|done|done| |].
  { destruct Hwf as (Hsh & _). by rewrite (shape_length _ _ _ _ _ _ Hsh). }
  right. by exists i, e1, e2.
Qed.

(** A fresh header makes an empty engine. *)
Lemma empty_Inv h ml :
  Inv (h ++ [empty_header knil vnil]) (mkSkipList (length h) None 0 ml) 1 [].
Proof.
  assert ((h ++ [empty_header knil vnil]) !! length h = Some (empty_header knil vnil)) as Hhd.
  { by rewrite lookup_app_r, Nat.sub_diag by lia. }
  split; [|split].
  - split.
    + simpl. apply NoDup_singleton.
    + intros [|p] a ht Hp; [|done]. injection Hp as <- <-. cbn [header].
      unfold height, slot_at. rewrite Hhd. split; [done|].
      intros j Hj. assert (j = 0)%nat as -> by lia. done.
    + split; [done|]. intros a ht Ha. by apply elem_of_nil in Ha.
    + intros p q a b _ Hp. done.
    + done.
  - by left.
  - split.
    + exists (empty_header knil vnil). done.
    + intros p a Hp. done.
    + done.
    + intros a Ha. by apply elem_of_nil in Ha.
Qed.

Lemma NewCustomMap_Inv h :
  Inv (NewCustomMap knil vnil h).1 (NewCustomMap knil vnil h).2 1 [].
Proof. apply empty_Inv. Qed.

Lemma Clear_Inv h s :
  Inv (Clear knil vnil h s).1 (Clear knil vnil h s).2 1 [].
Proof. apply empty_Inv. Qed.

End FillFull.

Section Reachable.

Context {K V : Type} `{EqDecision K}.
Variable knil : K.
Variable vnil : V.
Variable lessThan : K → K → bool.
Hypothesis lt_irrefl : ∀ a, lessThan a a = false.
Hypothesis lt_trans : ∀ a b c, lessThan a b = true → lessThan b c = true →
                               lessThan a c = true.
Hypothesis lt_total : ∀ a b, a ≠ knil → b ≠ knil → a ≠ b →
                             lessThan a b = false → lessThan b a = true.

Local Abbreviation heap := (heap K V).
Local Abbreviation node := (node (K := K) (V := V)).
Local Abbreviation binfo := (binfo (K := K) (V := V)).
Local Abbreviation keyof := (keyof knil).
Local Abbreviation shape := (shape knil lessThan).
Local Abbreviation wf := (wf knil lessThan).
Local Abbreviation Inv := (Inv knil lessThan).
Local Abbreviation ascending := (ascending lessThan).
Local Abbreviation reachable := (reachable knil vnil lessThan).

Implicit Types (h : heap) (s : SkipList) (ts : list tower) (n : node).

Lemma Inv_ext h h' s L ts :
  (∀ a, (a < length h)%nat →
     height h' a = height h a ∧ binfo h' a = binfo h a ∧
     ∀ j, slot_at h' a j = slot_at h a j) →
  Inv h s L ts → Inv h' s L ts.
Proof.
  intros Hsame (Hsh & Htop & Hb). split; [|split; [done|]].
  - eapply shape_ext; [|done]. intros a Ha.
    destruct (Hsame a Ha) as (Hh & Hbi & Hsl). split; [done|]. split; [|done].
    by rewrite !(binfo_keyof knil), Hbi.
  - eapply back_ext; [| |done].
    + intros a Ha. by destruct (Hsame a Ha) as (_ & ? & _).
    + intros a Ha. by eapply (shape_addr_lt knil lessThan).
Qed.

Lemma Inv_alloc h s L ts n : Inv h s L ts → Inv (h ++ [n]) s L ts.
Proof.
  apply Inv_ext. intros a Ha.
  unfold height, Skiplist.binfo, slot_at. by rewrite lookup_app_l by done.
Qed.

Lemma Inv_maxlevel h s L ts m :
  Inv h s L ts → Inv h (mkSkipList (header s) (footer s) (slength s) m) L ts.
Proof.
  intros ([Hnd Hok Hht Hso Hlen] & Htop & [Hbh Hbn Hbf Hbk]).
  split; [by split|split; [done|by split]].
Qed.

(** A slice is ascending or has two neighbours out of order. *)
Lemma ascending_dec (elements : list (K * V)) :
  ascending elements ∨
  ∃ i e1 e2, elements !! i = Some e1 ∧ elements !! S i = Some e2 ∧
             lessThan e1.1 e2.1 = false.
Proof.
  induction elements as [|e1 [|e2 elements] IH].
  - left. intros i ? ? Hi. done.
  - left. intros [|i] ? ? Hi Hi'; done.
  - destruct (lessThan e1.1 e2.1) eqn:Hlt.
    + destruct IH as [IH|(i & a & b & Ha & Hb & Hab)].
      * left. intros [|i] a b Ha Hb.
        -- simpl in Ha, Hb. by injection Ha as <-; injection Hb as <-.
        -- by apply (IH i).
      * right. by exists (S i), a, b.
    + right. by exists 0%nat, e1, e2.
Qed.

(** Every engine a program can build is well formed. *)
Lemma reachable_Inv h s : reachable h s → ∃ L ts, Inv h s L ts.
Proof using EqDecision0 K V knil vnil lessThan lt_irrefl lt_trans lt_total.
  induction 1 as [h|h s rg k v h' s' rg' _ (L & ts & HInv) Hrun
                 |h s k h' s' res _ (L & ts & HInv) Hrun
                 |h s rg elements h' s' rg' ok _ (L & ts & HInv) Hkeys Hrun
                 |h s _ (L & ts & HInv)|h s m _ (L & ts & HInv)
                 |h s n _ (L & ts & HInv)].
  - exists 1%nat, []. apply NewCustomMap_Inv.
  - destruct (decide (k = knil)) as [->|Hk].
    { unfold SkipList_Set in Hrun. by rewrite decide_True in Hrun. }
    destruct (SkipList_Set_Inv knil lessThan lt_irrefl lt_trans h s L ts rg k v HInv Hk)
      as (h1 & s1 & rg1 & L1 & ts1 & i & f & ht & bk & Hrun1 & HInv1 & _).
    { intros a Ha Hne. apply lt_total; [|done..].
      destruct HInv as (_ & _ & Hb). by apply (back_nonnil _ _ _ _ Hb). }
    rewrite Hrun in Hrun1. injection Hrun1 as <- <- <-. eauto.
  - destruct (decide (k = knil)) as [->|Hk].
    { by rewrite Delete_nil in Hrun. }
    pose proof HInv as (Hsh & _).
    destruct (decide (MaxLevel s < Z.of_nat L)) as [HM|HM].
    { by rewrite (Delete_cap knil vnil lessThan h s L ts k Hsh Hk HM) in Hrun. }
    destruct (shape_search_ctx knil lessThan lt_trans h s L ts k Hsh) as [r Hctx].
    pose proof (Delete_Inv knil vnil lessThan h s L ts k r HInv Hk ltac:(lia) Hctx) as HD.
    destruct (target knil h ((header s, L) :: ts) k r) as [c|].
    + destruct HD as (hc & cn & h1 & s1 & L1 & _ & _ & _ & Hrun1 & HInv1 & _).
      rewrite Hrun in Hrun1. injection Hrun1 as <- <- _. eauto.
    + rewrite Hrun in HD. injection HD as <- <- _. eauto.
  - destruct (decide (Len s = 0)) as [Hlen|Hlen].
    2:{ by rewrite (Fill_nonempty lessThan h s rg elements Hlen) in Hrun. }
    pose proof (Inv_wf knil lessThan _ _ _ _ HInv) as Hwf.
    destruct (ascending_dec elements) as [Hasc|(i & e1 & e2 & H1 & H2 & Hlt)].
    2:{ by rewrite (Fill_unsorted knil lessThan lt_trans h s L ts rg elements i e1 e2)
          in Hrun. }
    destruct (Fill_spec knil lessThan lt_trans h s L ts rg elements Hwf Hlen Hasc)
      as (h1 & s1 & rg1 & L1 & ts1 & Hrun1 & Hwf1 & Hhd1 & _ & _ & Hts1 & Hlen1 & Hold & Hnew).
    rewrite Hrun in Hrun1. injection Hrun1 as <- <- <- _.
    exists L1, ts1. apply (wf_Inv knil lessThan); [done| |].
    + destruct HInv as (Hsh & _ & [(hd & Hhd & _ & Hkey) _ _ _]).
      rewrite (binfo_keyof knil), Hhd1, Hold.
      * by rewrite (binfo_Some _ _ _ Hhd).
      * by eapply lookup_lt_Some.
    + intros a Ha. rewrite Hts1 in Ha. apply elem_of_seq in Ha.
      destruct (lookup_lt_is_Some_2 elements (a - length h)) as [e He]; [lia|].
      destruct (Hnew _ _ He) as [b Hb].
      replace (length h + (a - length h))%nat with a in Hb by lia.
      rewrite (binfo_keyof knil), Hb. simpl. apply Hkeys.
      by eapply list_elem_of_lookup_2.
  - exists 1%nat, []. apply Clear_Inv.
  - exists L, ts. by apply Inv_maxlevel.
  - exists L, ts. by apply Inv_alloc.
Qed.

End Reachable.

(** * The level-0 chain of a well-formed store *)

Section Chain.

Context {K V : Type} `{EqDecision K}.

Local Abbreviation heap := (heap K V).
Local Abbreviation node := (node (K := K) (V := V)).

Variable h : heap.
Variable all : list tower.
Hypothesis Hok : nodes_ok h all.
Hypothesis Hlow : ∀ p a ht, all !! p = Some (a, ht) → (1 ≤ ht)%nat.

Lemma steps_None m : steps h m None = None.
Proof. by destruct m. Qed.

Lemma tower_node p a ht :
  all !! p = Some (a, ht) →
  ∃ n, h !! a = Some n ∧ length (levels n) = ht ∧ next n = fst <$> all !! S p.
Proof using Hok Hlow.
  intros Hp. destruct (Hok _ _ _ Hp) as [Hh Hsl].
  destruct (height_Some _ _ _ Hh) as (n & Hn & Hlen).
  exists n. split; [done|]. split; [done|].
  pose proof (Hlow _ _ _ Hp) as Hht.
  rewrite (next_slot _ _ _ _ Hn (Hsl 0%nat ltac:(lia))).
  rewrite want_slot_eq. cbn [forward]. unfold fwd_at. rewrite next_at_0.
  - rewrite head_lookup, lookup_drop, Nat.add_0_r. by destruct (all !! S p) as [[]|].
  - intros q b hb. rewrite lookup_drop. apply Hlow.
Qed.

Lemma steps_tower m p a ht :
  all !! p = Some (a, ht) → steps h m (Some a) = fst <$> all !! (p + m)%nat.
Proof using Hok Hlow.
  revert p a ht. induction m as [|m IH]; intros p a ht Hp.
  - simpl. by rewrite Nat.add_0_r, Hp.
  - destruct (tower_node _ _ _ Hp) as (n & Hn & _ & Hnext).
    simpl. rewrite Hn, Hnext.
    replace (p + S m)%nat with (S p + m)%nat by lia.
    destruct (all !! S p) as [[b hb]|] eqn:Hb; simpl.
    + by apply (IH (S p) b hb).
    + rewrite steps_None. symmetry. rewrite fmap_None.
      apply lookup_ge_None_2. apply lookup_ge_None_1 in Hb. lia.
Qed.

Lemma chain_towers fuel p a ht :
  all !! p = Some (a, ht) → (length all - p ≤ fuel)%nat →
  chain fuel h (Some a) = drop p (all.*1).
Proof using Hok Hlow.
  revert p a ht. induction fuel as [|fuel IH]; intros p a ht Hp Hfuel.
  - apply lookup_lt_Some in Hp. lia.
  - destruct (tower_node _ _ _ Hp) as (n & Hn & _ & Hnext).
    simpl. rewrite Hn. simpl. rewrite Hnext.
    rewrite (drop_S (all.*1) a p) by (by rewrite list_lookup_fmap, Hp).
    f_equal. destruct (all !! S p) as [[b hb]|] eqn:Hb; simpl.
    + apply (IH (S p) b hb); [done|lia].
    + rewrite drop_ge; [by destruct fuel|].
      rewrite length_fmap. by apply lookup_ge_None_1.
Qed.

(** Spans below [2^32] are the distances themselves. *)
Hypothesis Hsmall : Z.of_nat (length all) ≤ 4294967296.

Lemma span_ok_tower p a ht j :
  all !! p = Some (a, ht) → (j < ht)%nat →
  span_ok h a (want_slot j (drop (S p) all)).
Proof using Hok Hlow Hsmall.
  intros Hp Hj. pose proof (lookup_lt_Some _ _ _ Hp) as Hplt.
  unfold span_ok, want_slot.
  destruct (next_at j (drop (S p) all)) as [[b d]|] eqn:Hn; cbn [forward span fst snd].
  - destruct (next_at_Some _ _ _ _ Hn) as (d' & hb & -> & Hb & _).
    rewrite lookup_drop in Hb. pose proof (lookup_lt_Some _ _ _ Hb).
    rewrite wrap32_small by lia. rewrite Nat2Z.id.
    rewrite (steps_tower _ _ _ _ Hp).
    replace (p + S d')%nat with (S p + d')%nat by lia. by rewrite Hb.
  - rewrite length_drop. rewrite wrap32_small by lia. rewrite Nat2Z.id.
    rewrite (steps_tower _ _ _ _ Hp).
    replace (p + (length all - S p))%nat with (length all - 1)%nat by lia.
    destruct (lookup_lt_is_Some_2 all (length all - 1)) as [[b hb] Hb]; [lia|].
    rewrite Hb. simpl.
    destruct (tower_node _ _ _ Hb) as (n & Hn' & _ & Hnext).
    exists b, n. split; [done|]. split; [done|]. rewrite Hnext.
    rewrite lookup_ge_None_2; [done|lia].
Qed.

Lemma span_sum_tower fuel j p a ht :
  all !! p = Some (a, ht) → (j < ht)%nat → (length all - p ≤ fuel)%nat →
  span_sum fuel h j a = Some (Z.of_nat (length all - S p)).
Proof using Hok Hlow Hsmall.
  revert p a ht. induction fuel as [|fuel IH]; intros p a ht Hp Hj Hfuel.
  - apply lookup_lt_Some in Hp. lia.
  - pose proof (lookup_lt_Some _ _ _ Hp) as Hplt.
    simpl. rewrite (nodes_ok_slot _ _ _ _ _ _ Hok Hp Hj). unfold want_slot.
    destruct (next_at j (drop (S p) all)) as [[b d]|] eqn:Hn; cbn [forward span fst snd].
    + destruct (next_at_Some _ _ _ _ Hn) as (d' & hb & -> & Hb & Hjb & _).
      rewrite lookup_drop in Hb. pose proof (lookup_lt_Some _ _ _ Hb).
      rewrite (IH (S p + d')%nat b hb) by (done || lia). simpl.
      rewrite wrap32_small by lia. f_equal. lia.
    + rewrite length_drop. rewrite wrap32_small by lia. done.
Qed.

End Chain.

Section Bridges.

Context {K V : Type} `{EqDecision K}.
Variable knil : K.
Variable lessThan : K → K → bool.

Local Abbreviation heap := (heap K V).
Local Abbreviation shape := (shape knil lessThan).

Implicit Types (h : heap) (s : SkipList) (ts : list tower).

Lemma shape_low1 h s L ts :
  shape h s L ts → ∀ p a ht, ((header s, L) :: ts) !! p = Some (a, ht) → (1 ≤ ht)%nat.
Proof. intros Hsh p a ht Hp. by destruct (shape_low _ _ _ _ _ _ _ _ _ Hsh Hp). Qed.

(** The live nodes are the header and the towers. *)
Lemma shape_live h s L ts a :
  shape h s L ts → live h s a ↔ a ∈ header s :: ts.*1.
Proof.
  intros Hsh. pose proof (shape_nodes _ _ _ _ _ _ Hsh) as Hok.
  set (all := (header s, L) :: ts) in *. split.
  - intros [m Hm].
    rewrite (steps_tower h all Hok (shape_low1 _ _ _ _ Hsh) m 0 (header s) L eq_refl)
      in Hm.
    destruct (all !! (0 + m)%nat) as [[b hb]|] eqn:Hb; [|done]. injection Hm as ->.
    change (header s :: ts.*1) with (all.*1).
    apply list_elem_of_fmap. exists (a, hb). split; [done|].
    by eapply list_elem_of_lookup_2.
  - change (header s :: ts.*1) with (all.*1). intros Ha.
    apply list_elem_of_fmap in Ha as ([a' ht] & -> & Hin).
    apply list_elem_of_lookup in Hin as [p Hp]. exists p.
    rewrite (steps_tower h all Hok (shape_low1 _ _ _ _ Hsh) p 0 (header s) L eq_refl).
    simpl. by rewrite Hp.
Qed.

(** The span invariant of a well-formed engine shorter than [2^32]. *)
Lemma shape_span_invariant h s L ts :
  shape h s L ts → slength s < 4294967296 → span_invariant h s.
Proof.
  intros Hsh Hlen. pose proof (shape_nodes _ _ _ _ _ _ Hsh) as Hok.
  set (all := (header s, L) :: ts) in *.
  assert (Z.of_nat (length all) ≤ 4294967296) as Hsmall.
  { unfold all. simpl. rewrite (shape_length _ _ _ _ _ _ Hsh) in Hlen. lia. }
  split.
  - intros a i l Hlive Hl. apply (shape_live _ _ _ _ _ Hsh) in Hlive.
    change (header s :: ts.*1) with (all.*1) in Hlive.
    apply list_elem_of_fmap in Hlive as ([a' ht] & -> & Hin).
    apply list_elem_of_lookup in Hin as [p Hp]. simpl in Hl.
    destruct (Hok _ _ _ Hp) as [Hh Hsl].
    assert (i < ht)%nat as Hi.
    { destruct (slot_at_height _ _ _ _ Hl) as (ht' & Hh' & Hi).
      rewrite Hh in Hh'. by injection Hh' as <-. }
    rewrite (Hsl i Hi) in Hl. injection Hl as <-.
    by apply (span_ok_tower h all Hok (shape_low1 _ _ _ _ Hsh) Hsmall p a' ht).
  - intros i l Hl.
    destruct (Hok 0%nat (header s) L eq_refl) as [Hh Hsl].
    assert (i < L)%nat as Hi.
    { destruct (slot_at_height _ _ _ _ Hl) as (ht' & Hh' & Hi).
      rewrite Hh in Hh'. by injection Hh' as <-. }
    rewrite (span_sum_tower h all Hok (shape_low1 _ _ _ _ Hsh) Hsmall (fuel_of h) i 0
               (header s) L eq_refl Hi).
    + f_equal. rewrite (shape_length _ _ _ _ _ _ Hsh). unfold all. simpl. lia.
    + pose proof (shape_fuel _ _ _ _ _ _ Hsh) as Hfuel. fold all in Hfuel.
      unfold fuel_of. lia.
Qed.

End Bridges.

(** * Selection by rank *)

Section Select.

Context {K V : Type} `{EqDecision K}.

Local Abbreviation heap := (heap K V).
Local Abbreviation node := (node (K := K) (V := V)).
Local Abbreviation iter := (iter (K := K) (V := V)).

Variable h : heap.
Variable all : list tower.
Hypothesis Hok : nodes_ok h all.
Hypothesis Hlow : ∀ p a ht, all !! p = Some (a, ht) → (1 ≤ ht)%nat.
Hypothesis Hsmall : Z.of_nat (length all) ≤ 4294967296.

Local Abbreviation selected := (selected h all).

Lemma advance_span_spec r j fuel p a ht :
  all !! p = Some (a, ht) → (j < ht)%nat → (p ≤ r)%nat →
  (length all - p ≤ fuel)%nat →
  ∃ p' a', advance_span fuel h j (Z.of_nat r + 1) a (Z.of_nat p)
             = Ok (a', Z.of_nat p') ∧
           (p ≤ p')%nat ∧ pred_at all j r p' a'.
Proof using Hok Hsmall.
  revert p a ht. induction fuel as [|fuel IH]; intros p a ht Hp Hj Hpr Hfuel.
  { apply lookup_lt_Some in Hp. lia. }
  pose proof (lookup_lt_Some _ _ _ Hp) as Hplt.
  simpl. rewrite (slot_Ok _ _ _ _ (nodes_ok_slot _ _ _ _ _ _ Hok Hp Hj)). simpl.
  destruct (next_at j (drop (S p) all)) as [[b d]|] eqn:Hnext.
  - rewrite (want_slot_Some _ _ _ _ Hnext). simpl.
    destruct (next_at_Some _ _ _ _ Hnext) as (d' & hb & -> & Hb & Hjb & Hlow').
    rewrite lookup_drop in Hb. pose proof (lookup_lt_Some _ _ _ Hb) as Hblt.
    rewrite (wrap32_small (Z.of_nat (S d'))) by lia.
    rewrite (wrap32_small (Z.of_nat p + Z.of_nat (S d'))) by lia.
    destruct (Z.ltb_spec (Z.of_nat p + Z.of_nat (S d')) (Z.of_nat r + 1)) as [Hlt|Hge].
    + destruct (IH (S p + d')%nat b hb) as (p' & a' & Heq & Hpp & Hpred);
        [done|done|lia|lia|].
      exists p', a'. split; [|split; [lia|done]].
      rewrite <- Heq. f_equal. lia.
    + exists p, a. split; [done|]. split; [lia|].
      split; [done|]. split; [by eauto|].
      intros q a0 h0 Hq Hq0. apply (Hlow' (q - S p)%nat a0 h0); [lia|].
      rewrite lookup_drop. by replace (S p + (q - S p))%nat with q by lia.
  - rewrite (want_slot_None _ _ Hnext). simpl.
    exists p, a. split; [done|]. split; [lia|].
    split; [done|]. split; [by eauto|].
    intros q a0 h0 Hq Hq0. rewrite next_at_None in Hnext.
    apply (Hnext (q - S p)%nat a0 h0).
    rewrite lookup_drop. by replace (S p + (q - S p))%nat with q by lia.
Qed.

Hypothesis Hfuel : (length all ≤ length h)%nat.

Lemma GetElemByRank_loop_spec r n p a :
  desc all n r p a →
  GetElemByRank_loop h (Z.of_nat r + 1) n a (Z.of_nat p) =
  Ok (if decide (n = 0%nat) then None else selected r).
Proof using Hok Hlow Hsmall Hfuel.
  revert p a. induction n as [|j IH]; intros p a Hd; [done|].
  destruct Hd as (Hpr & (ht & Hp & Hj) & Hbetween).
  pose proof (lookup_lt_Some _ _ _ Hp) as Hplt.
  destruct (advance_span_spec r j (fuel_of h) p a ht Hp ltac:(lia) Hpr)
    as (p' & a' & Hadv & Hpp & Hpred); [unfold fuel_of; lia|].
  cbn [GetElemByRank_loop]. rewrite Hadv. cbn [rbind].
  pose proof Hpred as (Hpr' & (ht' & Hp' & Hj') & Hbetween').
  pose proof (lookup_lt_Some _ _ _ Hp') as Hplt'.
  rewrite (slot_Ok _ _ _ _ (nodes_ok_slot _ _ _ _ _ _ Hok Hp' Hj')). cbn [rbind].
  assert (desc all j r p' a') as Hd'.
  { split; [done|]. split; [|done]. exists ht'. split; [done|lia]. }
  destruct (next_at j (drop (S p') all)) as [[b d]|] eqn:Hnext.
  - rewrite (want_slot_Some _ _ _ _ Hnext). cbn [forward span].
    destruct (next_at_Some _ _ _ _ Hnext) as (d' & hb & -> & Hb & Hjb & Hlow').
    rewrite lookup_drop in Hb. pose proof (lookup_lt_Some _ _ _ Hb) as Hblt.
    rewrite (wrap32_small (Z.of_nat (S d'))) by lia.
    rewrite (wrap32_small (Z.of_nat p' + Z.of_nat (S d'))) by lia.
    assert (r < S p' + d')%nat as Hrq.
    { destruct (decide (r < S p' + d')%nat); [done|].
      assert (hb ≤ j)%nat by (apply (Hbetween' (S p' + d')%nat b hb); [lia|done]). lia. }
    destruct (Z.eqb_spec (Z.of_nat p' + Z.of_nat (S d')) (Z.of_nat r + 1)) as [Heq|Hne].
    + assert (S p' + d' = S r)%nat as Hq by lia. rewrite Hq in Hb.
      destruct (tower_node h all Hok Hlow _ _ _ Hb) as (fn & Hfn & _).
      rewrite (load_Ok _ _ _ Hfn). cbn [rbind]. unfold Skiplist.selected. by rewrite Hb, Hfn.
    + rewrite (IH p' a' Hd'). destruct (decide (j = 0%nat)) as [->|]; [|done].
      exfalso.
      destruct (decide (p' = r)) as [->|Hpr'']; [|].
      * rewrite next_at_0 in Hnext.
        2:{ intros q c hc. rewrite lookup_drop. apply Hlow. }
        rewrite head_lookup, lookup_drop, Nat.add_0_r in Hnext.
        destruct (all !! S r) as [[]|]; simpl in Hnext; [|done].
        injection Hnext as _ Hd0. lia.
      * destruct (lookup_lt_is_Some_2 all (S p')) as [[c hc] Hc]; [lia|].
        pose proof (Hlow _ _ _ Hc). pose proof (Hbetween' (S p') c hc ltac:(lia) Hc). lia.
  - rewrite (want_slot_None _ _ Hnext). cbn [forward].
    rewrite (IH p' a' Hd'). destruct (decide (j = 0%nat)) as [->|]; [|done].
    unfold Skiplist.selected. rewrite next_at_0 in Hnext.
    2:{ intros q c hc. rewrite lookup_drop. apply Hlow. }
    rewrite head_lookup, lookup_drop, Nat.add_0_r in Hnext.
    destruct (all !! S p') as [[]|] eqn:Hsp; simpl in Hnext; [done|].
    rewrite (lookup_ge_None_2 all (S r)); [done|].
    apply lookup_ge_None_1 in Hsp. lia.
Qed.

(** Rank 0 selects nothing. *)
Lemma GetElemByRank_loop_zero n a ht :
  all !! 0%nat = Some (a, ht) → (n ≤ ht)%nat →
  GetElemByRank_loop h 0 n a 0 = Ok None.
Proof using Hok Hsmall Hfuel.
  intros Hp. induction n as [|j IH]; intros Hn; [done|].
  cbn [GetElemByRank_loop]. unfold fuel_of. cbn [advance_span].
  rewrite (slot_Ok _ _ _ _ (nodes_ok_slot _ _ _ _ _ j Hok Hp ltac:(lia))). cbn [rbind].
  pose proof (lookup_lt_Some _ _ _ Hp) as Hplt.
  destruct (next_at j (drop 1 all)) as [[b d]|] eqn:Hnext.
  - rewrite (want_slot_Some _ _ _ _ Hnext). cbn [forward span].
    destruct (next_at_Some _ _ _ _ Hnext) as (d' & hb & -> & Hb & Hjb & Hlow').
    rewrite lookup_drop in Hb. pose proof (lookup_lt_Some _ _ _ Hb) as Hblt.
    rewrite (wrap32_small (Z.of_nat (S d'))) by lia.
    rewrite (wrap32_small (0 + Z.of_nat (S d'))) by lia.
    destruct (Z.ltb_spec (0 + Z.of_nat (S d')) 0); [lia|]. cbn [rbind].
    rewrite (slot_Ok _ _ _ _ (nodes_ok_slot _ _ _ _ _ j Hok Hp ltac:(lia))). cbn [rbind].
    rewrite (want_slot_Some _ _ _ _ Hnext). cbn [forward span].
    rewrite (wrap32_small (Z.of_nat (S d'))) by lia.
    rewrite (wrap32_small (0 + Z.of_nat (S d'))) by lia.
    destruct (Z.eqb_spec (0 + Z.of_nat (S d')) 0); [lia|]. apply IH. lia.
  - rewrite (want_slot_None _ _ Hnext). cbn [forward rbind].
    rewrite (slot_Ok _ _ _ _ (nodes_ok_slot _ _ _ _ _ j Hok Hp ltac:(lia))). cbn [rbind].
    rewrite (want_slot_None _ _ Hnext). cbn [forward]. apply IH. lia.
Qed.

End Select.

Section SelectFull.

Context {K V : Type} `{EqDecision K}.
Variable knil : K.
Variable lessThan : K → K → bool.

Local Abbreviation heap := (heap K V).
Local Abbreviation shape := (shape knil lessThan).

Implicit Types (h : heap) (s : SkipList) (ts : list tower).

(** [GetElemByRank] on a well-formed engine shorter than [2^32]. *)
Lemma GetElemByRank_spec h s L ts rank :
  shape h s L ts → slength s < 4294967296 → 0 ≤ rank →
  GetElemByRank h s rank =
  Ok (if decide (rank = 0) then None
      else match ts !! (Z.to_nat rank - 1)%nat with
           | Some (f, _) => iter_at f <$> h !! f
           | None => None
           end).
Proof.
  intros Hsh Hlen Hrank. pose proof (shape_nodes _ _ _ _ _ _ Hsh) as Hok.
  set (all := (header s, L) :: ts) in *.
  assert (Z.of_nat (length all) ≤ 4294967296) as Hsmall.
  { unfold all. simpl. rewrite (shape_length _ _ _ _ _ _ Hsh) in Hlen. lia. }
  destruct (shape_header knil lessThan _ _ _ _ Hsh) as (hd & Hhd & HL & HL1).
  unfold GetElemByRank, level_of. rewrite (load_Ok _ _ _ Hhd). cbn [rbind]. rewrite HL.
  replace (Z.to_nat (Z.of_nat L - 1 + 1)) with L by lia.
  destruct (decide (rank = 0)) as [->|Hne].
  - by apply (GetElemByRank_loop_zero h all Hok Hsmall (shape_fuel _ _ _ _ _ _ Hsh) L (header s) L).
  - replace rank with (Z.of_nat (Z.to_nat rank - 1) + 1) at 1 by lia.
    pose proof (GetElemByRank_loop_spec h all Hok (shape_low1 _ _ _ _ _ _ Hsh) Hsmall
                  (shape_fuel _ _ _ _ _ _ Hsh) (Z.to_nat rank - 1) L 0 (header s)) as Hs.
    change (Z.of_nat 0) with 0 in Hs. rewrite Hs.
    + by rewrite decide_False by lia.
    + split; [lia|]. split; [by eauto|].
      intros q a ht Hq Hqa. by destruct (shape_low _ _ _ _ _ _ _ _ _ Hsh Hqa).
Qed.

End SelectFull.

(** * Cursors *)

Section Cursors.

Context {K V : Type} `{EqDecision K}.
Variable knil : K.
Variable lessThan : K → K → bool.

Local Abbreviation heap := (heap K V).
Local Abbreviation node := (node (K := K) (V := V)).
Local Abbreviation iter := (iter (K := K) (V := V)).
Local Abbreviation keyof := (keyof knil).
Local Abbreviation shape := (shape knil lessThan).
Local Abbreviation wf := (wf knil lessThan).

Implicit Types (h : heap) (s : SkipList) (ts : list tower) (n : node).

(** The node of a tower with its two neighbours. *)
Lemma wf_node h s L ts p a :
  wf h s L ts → ts.*1 !! p = Some a →
  ∃ n, h !! a = Some n ∧ keyof h a = key n ∧
       next n = ts.*1 !! S p ∧
       backward n = match p with O => None | S p' => ts.*1 !! p' end.
Proof.
  intros (Hsh & _ & (_ & Hln & _)) Hp.
  destruct (Hln p a Hp) as (n & Hn & Hb). exists n. split; [done|].
  split; [by unfold Skiplist.keyof; rewrite Hn|]. split; [|done].
  rewrite list_lookup_fmap in Hp.
  destruct (ts !! p) as [[a' ht]|] eqn:Hts; [|done]. injection Hp as ->.
  destruct (tower_node h ((header s, L) :: ts) (shape_nodes _ _ _ _ _ _ Hsh)
              (shape_low1 _ _ _ _ _ _ Hsh) (S p) a ht Hts) as (n' & Hn' & _ & Hnext).
  rewrite Hn in Hn'. injection Hn' as <-. rewrite Hnext, lookup_towers.
  by rewrite list_lookup_fmap.
Qed.

Lemma iter_Next_spec h s L ts p a n :
  wf h s L ts → ts.*1 !! p = Some a → h !! a = Some n →
  iter_Next h (iter_at a n) =
  Ok (match ts.*1 !! S p with
      | Some b => (from_option (iter_at b) (iter_at a n) (h !! b), true)
      | None => (iter_at a n, false)
      end).
Proof.
  intros Hwf Hp Hn. destruct (wf_node _ _ _ _ _ _ Hwf Hp) as (n' & Hn' & _ & Hnext & _).
  rewrite Hn in Hn'. injection Hn' as <-.
  unfold iter_Next, deref, hasNext. cbn [current iter_at]. rewrite (load_Ok _ _ _ Hn).
  cbn [rbind]. rewrite Hnext.
  destruct (ts.*1 !! S p) as [b|] eqn:Hb.
  - rewrite bool_decide_true by done. cbn [negb].
    destruct (wf_node _ _ _ _ _ _ Hwf Hb) as (nb & Hnb & _).
    by rewrite (load_Ok _ _ _ Hnb), Hnb.
  - by rewrite bool_decide_false by (intros Hx; by apply Hx).
Qed.

Lemma iter_Previous_spec h s L ts p a n :
  wf h s L ts → ts.*1 !! p = Some a → h !! a = Some n →
  iter_Previous h (iter_at a n) =
  Ok (match p with
      | S p' => (from_option (λ b, from_option (iter_at b) (iter_at a n) (h !! b))
                             (iter_at a n) (ts.*1 !! p'), true)
      | O => (iter_at a n, false)
      end).
Proof.
  intros Hwf Hp Hn. destruct (wf_node _ _ _ _ _ _ Hwf Hp) as (n' & Hn' & _ & _ & Hback).
  rewrite Hn in Hn'. injection Hn' as <-.
  unfold iter_Previous, deref, hasPrevious, previous. cbn [current iter_at].
  rewrite (load_Ok _ _ _ Hn). cbn [rbind]. rewrite Hback.
  destruct p as [|p'].
  - by rewrite bool_decide_false by (intros Hx; by apply Hx).
  - destruct (lookup_lt_is_Some_2 (ts.*1) p') as [b Hb].
    { apply lookup_lt_Some in Hp. lia. }
    rewrite Hb. rewrite bool_decide_true by done. cbn [negb from_option].
    destruct (wf_node _ _ _ _ _ _ Hwf Hb) as (nb & Hnb & _).
    rewrite (load_Ok _ _ _ Hnb). cbn [rbind]. by rewrite Hnb.
Qed.

(** [m] times [Next] from position [p]. *)
Lemma moves_Next h s L ts m p a n :
  wf h s L ts → ts.*1 !! p = Some a → h !! a = Some n →
  (p + m < length ts)%nat →
  ∃ b nb, ts.*1 !! (p + m)%nat = Some b ∧ h !! b = Some nb ∧
    moves iter_Next m h (iter_at a n) =
    Some (keyof h <$> take m (drop (S p) (ts.*1)), iter_at b nb).
Proof.
  intros Hwf. revert p a n. induction m as [|m IH]; intros p a n Hp Hn Hlen.
  - exists a, n. rewrite Nat.add_0_r. split; [done|]. split; [done|]. done.
  - destruct (lookup_lt_is_Some_2 (ts.*1) (S p)) as [b Hb].
    { rewrite length_fmap. lia. }
    destruct (wf_node _ _ _ _ _ _ Hwf Hb) as (nb & Hnb & Hkb & _).
    destruct (IH (S p) b nb Hb Hnb ltac:(lia)) as (c & nc & Hc & Hnc & Hmoves).
    exists c, nc. replace (p + S m)%nat with (S p + m)%nat by lia.
    split; [done|]. split; [done|].
    cbn [moves]. rewrite (iter_Next_spec _ _ _ _ _ _ _ Hwf Hp Hn), Hb, Hnb.
    cbn [from_option]. rewrite Hmoves. cbn [fmap option_fmap option_map fst snd].
    f_equal. f_equal. rewrite (drop_S _ b (S p)) by done.
    cbn [take fmap list_fmap]. f_equal. by rewrite Hkb.
Qed.

(** [m] times [Previous] from position [p]. *)
Lemma moves_Previous h s L ts m p a n :
  wf h s L ts → ts.*1 !! p = Some a → h !! a = Some n → (m ≤ p)%nat →
  ∃ b nb, ts.*1 !! (p - m)%nat = Some b ∧ h !! b = Some nb ∧
    moves iter_Previous m h (iter_at a n) =
    Some (keyof h <$> reverse (take m (drop (p - m) (ts.*1))), iter_at b nb).
Proof.
  intros Hwf. revert p a n. induction m as [|m IH]; intros p a n Hp Hn Hlen.
  - exists a, n. rewrite Nat.sub_0_r. split; [done|]. split; [done|]. done.
  - destruct p as [|p]; [lia|].
    destruct (lookup_lt_is_Some_2 (ts.*1) p) as [b Hb].
    { apply lookup_lt_Some in Hp. lia. }
    destruct (wf_node _ _ _ _ _ _ Hwf Hb) as (nb & Hnb & Hkb & _).
    destruct (IH p b nb Hb Hnb ltac:(lia)) as (c & nc & Hc & Hnc & Hmoves).
    exists c, nc. replace (S p - S m)%nat with (p - m)%nat by lia.
    split; [done|]. split; [done|].
    cbn [moves]. rewrite (iter_Previous_spec _ _ _ _ _ _ _ Hwf Hp Hn), Hb.
    cbn [from_option]. rewrite Hnb. cbn [from_option].
    rewrite Hmoves. cbn [fmap option_fmap option_map fst snd].
    f_equal. f_equal.
    replace (S m) with (m + 1)%nat by lia.
    rewrite <- take_take_drop, reverse_app, drop_drop.
    replace (p - m + m)%nat with p by lia.
    rewrite (drop_S _ b p) by done. cbn [take]. rewrite take_0.
    rewrite fmap_app. cbn [reverse rev_append fmap list_fmap app].
    f_equal. by rewrite Hkb.
Qed.

Lemma SeekToFirst_spec h s L ts :
  wf h s L ts → slength s ≠ 0 →
  ∃ a n, ts.*1 !! 0%nat = Some a ∧ h !! a = Some n ∧
         SeekToFirst h s = Ok (Some (iter_at a n)).
Proof.
  intros Hwf Hlen. pose proof Hwf as (Hsh & _).
  destruct ts as [|[a ht] ts'].
  { rewrite (shape_length _ _ _ _ _ _ Hsh) in Hlen. done. }
  destruct (wf_node _ _ _ _ 0 a Hwf eq_refl) as (n & Hn & _).
  exists a, n. split; [done|]. split; [done|].
  unfold SeekToFirst. rewrite decide_False by done.
  destruct (tower_node h _ (shape_nodes _ _ _ _ _ _ Hsh)
              (shape_low1 _ _ _ _ _ _ Hsh) 0 (header s) L eq_refl) as (hd & Hhd & _ & Hnext).
  rewrite (load_Ok _ _ _ Hhd). cbn [rbind]. rewrite Hnext. simpl.
  unfold deref. by rewrite (load_Ok _ _ _ Hn).
Qed.

End Cursors.

(** * Range cursors *)

Section Ranges.

Context {K V : Type} `{EqDecision K}.
Variable knil : K.
Variable vnil : V.
Variable lessThan : K → K → bool.

Local Abbreviation heap := (heap K V).
Local Abbreviation node := (node (K := K) (V := V)).
Local Abbreviation iter := (iter (K := K) (V := V)).
Local Abbreviation keyof := (keyof knil).
Local Abbreviation valueof := (valueof vnil).
Local Abbreviation shape := (shape knil lessThan).
Local Abbreviation wf := (wf knil lessThan).
Local Abbreviation Inv := (Inv knil lessThan).
Local Abbreviation search_ctx := (search_ctx knil lessThan).
Local Abbreviation below := (below knil lessThan).
Local Abbreviation Range := (Range knil vnil lessThan).

Implicit Types (h : heap) (s : SkipList) (ts : list tower) (n : node).

Lemma rangeIterator_Next_spec h s L ts p a n from to :
  wf h s L ts → ts.*1 !! p = Some a → h !! a = Some n →
  rangeIterator_Next lessThan h (mkRangeIterator (iter_at a n) to from) =
  Ok (match ts.*1 !! S p with
      | Some b =>
          if lessThan (keyof h b) to
          then (mkRangeIterator (from_option (iter_at b) (iter_at a n) (h !! b)) to from,
                true)
          else (mkRangeIterator (iter_at a n) to from, false)
      | None => (mkRangeIterator (iter_at a n) to from, false)
      end).
Proof.
  intros Hwf Hp Hn. destruct (wf_node knil lessThan _ _ _ _ _ _ Hwf Hp)
    as (n' & Hn' & _ & Hnext & _).
  rewrite Hn in Hn'. injection Hn' as <-.
  unfold rangeIterator_Next, deref, hasNext.
  cbn [riter current iter_at upperLimit lowerLimit].
  rewrite (load_Ok _ _ _ Hn). cbn [rbind]. rewrite Hnext.
  destruct (ts.*1 !! S p) as [b|] eqn:Hb.
  - rewrite bool_decide_true by done. cbn [negb].
    destruct (wf_node knil lessThan _ _ _ _ _ _ Hwf Hb) as (nb & Hnb & Hkb & _).
    rewrite (load_Ok _ _ _ Hnb). cbn [rbind]. rewrite Hkb, Hnb.
    by destruct (lessThan (key nb) to).
  - by rewrite bool_decide_false by (intros Hx; by apply Hx).
Qed.

(** Nodes of other owners do not change what the list shows. *)
Lemma below_alloc h s L ts N to l :
  shape h s L ts → l ⊆ ts.*1 →
  valueof (h ++ [N]) <$> below (h ++ [N]) to l = valueof h <$> below h to l.
Proof.
  intros Hsh.
  assert (∀ a, a ∈ ts.*1 → keyof (h ++ [N]) a = keyof h a ∧
                            valueof (h ++ [N]) a = valueof h a) as Hsame.
  { intros a Ha. unfold Skiplist.keyof, Skiplist.valueof.
    rewrite lookup_app_l; [done|].
    apply (shape_addr_lt knil lessThan _ _ _ _ _ Hsh). by right. }
  induction l as [|a l IH]; intros Hsub; [done|]. cbn [Skiplist.below].
  destruct (Hsame a) as [-> Hv]; [apply Hsub; left|].
  destruct (lessThan (keyof h a) to); [|done]. cbn [fmap list_fmap].
  rewrite Hv, IH; [done|]. intros b Hb. apply Hsub. by right.
Qed.

(** The cursor of [Range] and its first moves. *)
Lemma Range_spec h s L ts from to r :
  Inv h s L ts → search_ctx h ((header s, L) :: ts) from r →
  let start := ts.*1 !! r in
  let N := Node [Level start 0] start knil vnil in
  let it := mkRangeIterator (mkIter (Some (length h)) knil vnil) to from in
  Range h s from to = Ok (h ++ [N], it) ∧
  Inv (h ++ [N]) s L ts ∧
  match start with
  | Some f =>
      ∃ nf, h !! f = Some nf ∧ lessThan (key nf) from = false ∧
        rangeIterator_Next lessThan (h ++ [N]) it =
          Ok (if lessThan (key nf) to
              then (mkRangeIterator (iter_at f nf) to from, true)
              else (it, false)) ∧
        rangeIterator_Previous lessThan (h ++ [N]) it =
          Ok (mkRangeIterator (iter_at f nf) to from, true)
  | None =>
      rangeIterator_Next lessThan (h ++ [N]) it = Ok (it, false) ∧
      rangeIterator_Previous lessThan (h ++ [N]) it = Ok (it, false)
  end.
Proof.
  intros HInv Hctx start N it. pose proof HInv as (Hsh & _).
  pose proof (Inv_alloc knil lessThan _ _ _ _ N HInv) as HInv'.
  pose proof (Inv_wf knil lessThan _ _ _ _ HInv') as Hwf'.
  assert ((h ++ [N]) !! length h = Some N) as HN.
  { by rewrite lookup_app_r, Nat.sub_diag by lia. }
  assert (∀ a n, h !! a = Some n → (h ++ [N]) !! a = Some n) as Hold.
  { intros a n Ha. rewrite lookup_app_l; [done|]. by eapply lookup_lt_Some. }
  assert (∀ a, a ∈ ts.*1 → keyof (h ++ [N]) a = keyof h a ∧
                            valueof (h ++ [N]) a = valueof h a) as Hsame.
  { intros a Ha. unfold Skiplist.keyof, Skiplist.valueof.
    rewrite lookup_app_l; [done|].
    apply (shape_addr_lt knil lessThan _ _ _ _ _ Hsh). by right. }
  split.
  { unfold Range, Skiplist.Range.
    rewrite (getLowerBound_spec knil lessThan _ _ _ _ _ _ Hsh Hctx). cbn [rbind alloc].
    unfold it, N, start. by rewrite list_lookup_fmap. }
  split; [done|]. unfold it. clear it.
  unfold rangeIterator_Next, rangeIterator_Previous, deref, hasNext, hasPrevious,
    previous, next.
  cbn [riter current upperLimit lowerLimit].
  rewrite (load_Ok _ _ _ HN). cbn [rbind levels backward forward N].
  destruct start as [f|] eqn:Hstart.
  - unfold start in Hstart.
    destruct (wf_node knil lessThan _ _ _ _ _ _ Hwf' Hstart) as (nf & Hnf & Hkf & _).
    assert (h !! f = Some nf) as Hnf0.
    { rewrite lookup_app_l in Hnf; [done|].
      apply (shape_addr_lt knil lessThan _ _ _ _ _ Hsh). right.
      by eapply list_elem_of_lookup_2. }
    assert (lessThan (key nf) from = false) as Hge.
    { rewrite <- Hkf. destruct (Hsame f) as [-> _]; [by eapply list_elem_of_lookup_2|].
      rewrite list_lookup_fmap in Hstart.
      destruct (ts !! r) as [[f' hf]|] eqn:Hr; [|done]. injection Hstart as ->.
      apply (split_ge _ _ _ _ _ _ (ctx_split _ _ _ _ _ _ Hctx) (S r) f hf); [lia|done]. }
    exists nf. split; [done|]. split; [done|].
    rewrite !bool_decide_true by done. cbn [negb].
    rewrite (load_Ok _ _ _ Hnf). cbn [rbind]. rewrite Hge.
    by destruct (lessThan (key nf) to).
  - by rewrite !bool_decide_false by (intros Hx; by apply Hx).
Qed.

End Ranges.

Section Collect.

Context {AK : Type}.
Variable aknil : AK.
Variable lessThan : option addr → option addr → bool.

Local Abbreviation heap := (heap (option addr) AK).
Local Abbreviation keyof := (keyof (K := option addr) (V := AK) None).
Local Abbreviation valueof := (valueof (K := option addr) aknil).
Local Abbreviation wf := (wf (K := option addr) (V := AK) None lessThan).
Local Abbreviation Inv := (Inv (K := option addr) (V := AK) None lessThan).
Local Abbreviation search_ctx := (search_ctx (K := option addr) (V := AK) None lessThan).
Local Abbreviation below := (below (K := option addr) (V := AK) None lessThan).

Implicit Types (h : heap) (s : SkipList) (ts : list tower).

(** The loop of [RangeByScore] from a node of the list. *)
Lemma collect_spec h s L ts from to fuel p a n keys :
  wf h s L ts → ts.*1 !! p = Some a → h !! a = Some n →
  (length ts - p ≤ fuel)%nat →
  collect fuel lessThan h (mkRangeIterator (iter_at a n) to from) keys =
  Ok (keys ++ (valueof h <$> below h to (drop (S p) (ts.*1)))).
Proof.
  intros Hwf. revert p a n keys.
  induction fuel as [|fuel IH]; intros p a n keys Hp Hn Hfuel.
  { apply lookup_lt_Some in Hp. rewrite length_fmap in Hp. lia. }
  cbn [collect]. rewrite (rangeIterator_Next_spec None lessThan _ _ _ _ _ _ _ from to Hwf Hp Hn).
  cbn [rbind].
  destruct (ts.*1 !! S p) as [b|] eqn:Hb.
  - rewrite (drop_S _ b (S p)) by done. cbn [Skiplist.below].
    destruct (lessThan (keyof h b) to) eqn:Hlt.
    + destruct (wf_node None lessThan _ _ _ _ _ _ Hwf Hb) as (nb & Hnb & _).
      rewrite Hnb. cbn [from_option].
      rewrite (IH (S p) b nb) by (done || lia).
      rewrite <- app_assoc. cbn [riter Value ivalue iter_at fmap list_fmap app].
      do 3 f_equal.
      unfold Skiplist.valueof. by rewrite Hnb.
    + by rewrite app_nil_r.
  - rewrite drop_ge; [by rewrite app_nil_r|].
    by apply lookup_ge_None_1.
Qed.


(** The loop of [RangeByScore] from the cursor of [Range]. *)
Lemma collect_Range h s L ts from to r h' it :
  Inv h s L ts → search_ctx h ((header s, L) :: ts) from r →
  Range None aknil lessThan h s from to = Ok (h', it) →
  collect (fuel_of h') lessThan h' it [] =
  Ok (valueof h <$> below h to (drop r (ts.*1))).
Proof.
  intros HInv Hctx Hrun. pose proof HInv as (Hsh & _).
  destruct (Range_spec None aknil lessThan h s L ts from to r HInv Hctx)
    as (Hrun' & HInv' & Hmoves).
  rewrite Hrun in Hrun'. injection Hrun' as -> ->.
  pose proof (Inv_wf None lessThan _ _ _ _ HInv') as Hwf'.
  pose proof (shape_fuel _ _ _ _ _ _ Hsh) as Hfuel. simpl in Hfuel.
  unfold fuel_of. set (fuel := length (h ++ _)).
  assert (fuel = S (length h)) as Hfuel'.
  { unfold fuel. rewrite length_app. simpl. lia. }
  clearbody fuel. cbn [collect].
  destruct (ts.*1 !! r) as [f|] eqn:Hstart.
  - destruct Hmoves as (nf & Hnf & Hge & -> & _). cbn [rbind].
    rewrite (drop_S _ f r) by done. cbn [Skiplist.below].
    assert (keyof h f = key nf) as -> by (unfold Skiplist.keyof; by rewrite Hnf).
    destruct (lessThan (key nf) to); [|done].
    rewrite (collect_spec _ _ _ _ from to fuel r f nf _ Hwf' Hstart).
    + cbn [riter Value ivalue iter_at app fmap list_fmap]. f_equal. f_equal.
      * unfold Skiplist.valueof. by rewrite Hnf.
      * apply (below_alloc None aknil lessThan _ _ _ _ _ _ _ Hsh). apply subseteq_drop.
    + rewrite lookup_app_l; [done|]. by eapply lookup_lt_Some.
    + lia.
  - destruct Hmoves as (-> & _). cbn [rbind].
    rewrite drop_ge; [done|]. by apply lookup_ge_None_1.
Qed.

End Collect.

(** * Keys that are in the list and keys that are not *)

Section Membership.

Context {K V : Type} `{EqDecision K}.
Variable knil : K.
Variable vnil : V.
Variable lessThan : K → K → bool.
Hypothesis lt_irrefl : ∀ a, lessThan a a = false.
Hypothesis lt_trans : ∀ a b c, lessThan a b = true → lessThan b c = true →
                               lessThan a c = true.

Local Abbreviation heap := (heap K V).
Local Abbreviation node := (node (K := K) (V := V)).
Local Abbreviation keyof := (keyof knil).
Local Abbreviation shape := (shape knil lessThan).
Local Abbreviation Inv := (Inv knil lessThan).
Local Abbreviation search_ctx := (search_ctx knil lessThan).
Local Abbreviation target := (target knil).

Implicit Types (h : heap) (s : SkipList) (ts : list tower) (n : node).

(** The search for the key of a tower stops in front of it. *)
Lemma live_ctx h s L ts i a ht :
  shape h s L ts → ts !! i = Some (a, ht) →
  search_ctx h ((header s, L) :: ts) (keyof h a) i ∧
  target h ((header s, L) :: ts) (keyof h a) i = Some a.
Proof using lt_irrefl lt_trans.
  intros Hsh Hi. pose proof (shape_sorted _ _ _ _ _ _ Hsh) as Hsorted.
  assert (ts.*1 !! i = Some a) as Hi1 by (by rewrite list_lookup_fmap, Hi).
  split.
  - split.
    + apply (shape_nodes _ _ _ _ _ _ Hsh).
    + split.
      * intros [|q] b hb Hq; [lia|]. rewrite lookup_towers. intros Hb.
        apply (Hsorted q i); [lia| |done]. by rewrite list_lookup_fmap, Hb.
      * intros [|q] b hb Hq; [lia|]. rewrite lookup_towers. intros Hb.
        destruct (decide (q = i)) as [->|Hne].
        -- rewrite Hi in Hb. injection Hb as <- <-. apply lt_irrefl.
        -- destruct (lessThan (keyof h b) (keyof h a)) eqn:Hlt; [|done].
           rewrite <- (lt_irrefl (keyof h a)). symmetry.
           apply (lt_trans _ (keyof h b)); [|done].
           apply (Hsorted i q); [lia|done|]. by rewrite list_lookup_fmap, Hb.
      * simpl. apply lookup_lt_Some in Hi. lia.
    + intros p b hb Hp. by destruct (shape_low _ _ _ _ _ _ _ _ _ Hsh Hp).
    + by eapply shape_fuel.
    + intros [|q] b hb Hq; [lia|]. rewrite lookup_towers. intros Hb Heq.
      assert (lessThan (keyof h a) (keyof h b) = true) as Hlt.
      { apply (Hsorted i q); [lia|done|]. by rewrite list_lookup_fmap, Hb. }
      rewrite Heq, lt_irrefl in Hlt. done.
  - unfold Skiplist.target. rewrite lookup_towers, Hi. by rewrite decide_True.
Qed.

(** A key that no tower holds has no target. *)
Lemma absent_target h s L ts k r :
  (∀ a, a ∈ ts.*1 → keyof h a ≠ k) →
  target h ((header s, L) :: ts) k r = None.
Proof.
  intros Habs. unfold Skiplist.target. rewrite lookup_towers.
  destruct (ts !! r) as [[f hf]|] eqn:Hr; [|done].
  rewrite decide_False; [done|]. apply Habs.
  apply list_elem_of_fmap. exists (f, hf). split; [done|]. by eapply list_elem_of_lookup_2.
Qed.

Lemma Get_present h s L ts i a ht n :
  shape h s L ts → ts !! i = Some (a, ht) → h !! a = Some n →
  Get vnil lessThan h s (key n) = Ok (value n, true).
Proof using lt_irrefl lt_trans.
  intros Hsh Hi Hn. destruct (live_ctx _ _ _ _ _ _ _ Hsh Hi) as [Hctx Ht].
  assert (keyof h a = key n) as Hk by (unfold Skiplist.keyof; by rewrite Hn).
  rewrite Hk in Hctx, Ht.
  rewrite (Get_spec knil vnil lessThan _ _ _ _ _ _ Hsh Hctx), Ht. by rewrite Hn.
Qed.

Lemma Rank_present h s L ts i a ht n :
  shape h s L ts → ts !! i = Some (a, ht) → h !! a = Some n →
  Rank lessThan h s (key n) = Ok (wrap32 (Z.of_nat (S i))).
Proof using lt_irrefl lt_trans.
  intros Hsh Hi Hn. destruct (live_ctx _ _ _ _ _ _ _ Hsh Hi) as [Hctx Ht].
  assert (keyof h a = key n) as Hk by (unfold Skiplist.keyof; by rewrite Hn).
  rewrite Hk in Hctx, Ht.
  by rewrite (Rank_spec knil lessThan _ _ _ _ _ _ Hsh Hctx), Ht.
Qed.

Lemma Get_absent h s L ts k :
  shape h s L ts → (∀ a, a ∈ ts.*1 → keyof h a ≠ k) →
  Get vnil lessThan h s k = Ok (vnil, false).
Proof using lt_trans.
  intros Hsh Habs.
  destruct (shape_search_ctx knil lessThan lt_trans h s L ts k Hsh) as [r Hctx].
  by rewrite (Get_spec knil vnil lessThan _ _ _ _ _ _ Hsh Hctx),
    (absent_target _ _ _ _ _ _ Habs).
Qed.

Lemma Rank_absent h s L ts k :
  shape h s L ts → (∀ a, a ∈ ts.*1 → keyof h a ≠ k) →
  Rank lessThan h s k = Ok 0.
Proof using lt_trans.
  intros Hsh Habs.
  destruct (shape_search_ctx knil lessThan lt_trans h s L ts k Hsh) as [r Hctx].
  by rewrite (Rank_spec knil lessThan _ _ _ _ _ _ Hsh Hctx),
    (absent_target _ _ _ _ _ _ Habs).
Qed.

Lemma Delete_absent h s L ts k :
  Inv h s L ts → k ≠ knil → Z.of_nat L ≤ MaxLevel s →
  (∀ a, a ∈ ts.*1 → keyof h a ≠ k) →
  Delete knil vnil lessThan h s k = Ok (h, s, (vnil, false)).
Proof using lt_trans.
  intros HInv Hk HM Habs. pose proof HInv as (Hsh & _).
  destruct (shape_search_ctx knil lessThan lt_trans h s L ts k Hsh) as [r Hctx].
  pose proof (Delete_Inv knil vnil lessThan h s L ts k r HInv Hk HM Hctx) as HD.
  by rewrite (absent_target _ _ _ _ _ _ Habs) in HD.
Qed.

End Membership.

(** * Integer keys *)

Lemma int_less_irrefl a : int_less a a = false.
Proof. destruct a as [x|]; simpl; [|done]. apply Z.ltb_irrefl. Qed.

Lemma int_less_trans a b c :
  int_less a b = true → int_less b c = true → int_less a c = true.
Proof.
  destruct a as [x|], b as [y|], c as [z|]; simpl; try done.
  rewrite !Z.ltb_lt. lia.
Qed.

Lemma int_less_total (a b : option Z) :
  a ≠ None → b ≠ None → a ≠ b → int_less a b = false → int_less b a = true.
Proof.
  destruct a as [x|], b as [y|]; simpl; try done.
  intros _ _ Hne. rewrite Z.ltb_ge, Z.ltb_lt. intros Hle.
  assert (x ≠ y) by congruence. lia.
Qed.

Lemma int_set_reachable less k v st h' s' r' :
  (∀ h s r, st = Ok (h, s, r) → reachable None None less h s) →
  int_set less k v st = Ok (h', s', r') → reachable None None less h' s'.
Proof.
  unfold int_set. destruct st as [[[h s] r]| |]; simpl; [|done..].
  intros Hr Hset. eapply reach_set; [by apply (Hr h s r)|exact Hset].
Qed.

Lemma int_new_reachable less h s r :
  Ok int_new = Ok (h, s, r) → reachable None None less h s.
Proof. intros [= <- <- <-]. apply (reach_new None None less []). Qed.

Lemma demo_reachable : reachable None None int_less (store demo) (engine demo).
Proof.
  assert (∀ h s r, demo = Ok (h, s, r) → reachable None None int_less h s) as Hd.
  { intros h s r. unfold demo. intros Hrun.
    repeat (eapply int_set_reachable; [|eassumption]; clear; intros h s r Hrun).
    by eapply int_new_reachable. }
  eapply Hd. vm_compute. reflexivity.
Qed.

(** * The claims about the engine *)

Section Claims.

Context {K V : Type} `{EqDecision K}.
Variable knil : K.
Variable vnil : V.
Variable lessThan : K → K → bool.
Hypothesis lt_irrefl : ∀ a, lessThan a a = false.
Hypothesis lt_trans : ∀ a b c, lessThan a b = true → lessThan b c = true →
                               lessThan a c = true.
Hypothesis lt_total : ∀ a b, a ≠ knil → b ≠ knil → a ≠ b →
                             lessThan a b = false → lessThan b a = true.

Local Abbreviation heap := (heap K V).
Local Abbreviation node := (node (K := K) (V := V)).
Local Abbreviation keyof := (keyof knil).
Local Abbreviation valueof := (valueof vnil).
Local Abbreviation shape := (shape knil lessThan).
Local Abbreviation wf := (wf knil lessThan).
Local Abbreviation Inv := (Inv knil lessThan).
Local Abbreviation reachable := (reachable knil vnil lessThan).
Local Abbreviation ascending := (ascending lessThan).

Implicit Types (h : heap) (s : SkipList) (ts : list tower) (n : node).

(** C1, as amended: in every engine reachable from the empty engine by
    [Set], [Delete], [FillBySortedSlice] and [Clear] that holds fewer
    than [2^32] nodes, following the forward pointer of any slot of any
    live node is the same as taking [span] steps along level 0 (to the
    last node when the pointer is nil), and the spans along the forward
    chain of any level of the header sum to the length. *)
Theorem C1_span_invariant h s :
  reachable h s → slength s < 4294967296 → span_invariant h s.
Proof using EqDecision0 K V knil vnil lessThan lt_irrefl lt_trans lt_total.
  intros Hreach Hlen.
  destruct (reachable_Inv knil vnil lessThan lt_irrefl lt_trans lt_total h s Hreach)
    as (L & ts & Hsh & _).
  by apply (shape_span_invariant knil lessThan h s L ts).
Qed.

(** C8: [FillBySortedSlice] panics on an engine that is not empty, and
    panics when two neighbours of the slice do not ascend; on an empty
    engine and an ascending slice it completes, the level-0 chain after
    the header holds the elements of the slice in order, the length is
    the length of the slice and the footer is the last node. *)
Theorem C8_fill_by_sorted_slice h s rg (elements : list (K * V)) :
  reachable h s →
  (Len s ≠ 0 →
   FillBySortedSlice lessThan h s rg elements
     = Panic "goskiplist: can only fill empty skiplist") ∧
  (Len s = 0 →
   ∀ i e1 e2, elements !! i = Some e1 → elements !! S i = Some e2 →
              lessThan e1.1 e2.1 = false →
   FillBySortedSlice lessThan h s rg elements
     = Panic "goskiplist: fill by unsorted slice") ∧
  (Len s = 0 → ascending elements →
   ∃ h' s' rg' l,
     FillBySortedSlice lessThan h s rg elements = Ok (h', s', rg', true) ∧
     chain (fuel_of h') h' (Some (header s')) = header s' :: l ∧
     (λ a, (keyof h' a, valueof h' a)) <$> l = elements ∧
     Len s' = Z.of_nat (length elements) ∧
     footer s' = last l).
Proof using EqDecision0 K V knil vnil lessThan lt_irrefl lt_trans lt_total.
  intros Hreach.
  destruct (reachable_Inv knil vnil lessThan lt_irrefl lt_trans lt_total h s Hreach)
    as (L & ts & HInv).
  pose proof (Inv_wf knil lessThan _ _ _ _ HInv) as Hwf.
  split; [apply Fill_nonempty|]. split.
  { intros Hlen i e1 e2. by apply (Fill_unsorted knil lessThan lt_trans h s L ts). }
  intros Hlen Hasc.
  destruct (Fill_spec knil lessThan lt_trans h s L ts rg elements Hwf Hlen Hasc)
    as (h' & s' & rg' & L' & ts' & Hrun & Hwf' & Hhd & _ & _ & Hts' & Hlen' & Hold & Hnew).
  exists h', s', rg', (ts'.*1). split; [done|].
  destruct Hwf' as (Hsh' & _ & (_ & _ & Hfoot)).
  split; [|split; [|split; [|done]]].
  - rewrite (chain_towers h' ((header s', L') :: ts') (shape_nodes _ _ _ _ _ _ Hsh')
               (shape_low1 _ _ _ _ _ _ Hsh') (fuel_of h') 0 (header s') L' eq_refl).
    + done.
    + pose proof (shape_fuel _ _ _ _ _ _ Hsh'). unfold fuel_of. lia.
  - rewrite Hts'. apply list_eq. intros i.
    rewrite list_lookup_fmap.
    destruct (decide (i < length elements)%nat) as [Hi|Hi].
    + rewrite lookup_seq_lt by done. simpl.
      destruct (lookup_lt_is_Some_2 elements i Hi) as [[k v] He].
      destruct (Hnew _ _ He) as [b Hb]. rewrite He.
      apply binfo_inv in Hb as (n & Hn & _ & Hk & Hv).
      unfold Skiplist.keyof, Skiplist.valueof. rewrite Hn. simpl in *. by rewrite Hk, Hv.
    + rewrite lookup_seq_ge by lia. simpl. symmetry. apply lookup_ge_None_2. lia.
  - unfold Len. rewrite (shape_length _ _ _ _ _ _ Hsh').
    f_equal. rewrite <- (length_fmap fst ts'), Hts'. apply length_seq.
Qed.

(** C9: on an engine of length [n > 0], [SeekToFirst] followed by
    [n - 1] calls of [Next] and then [n - 1] calls of [Previous] succeeds
    at every step and ends on the first key, and the keys seen on the way
    back are the keys seen on the way out in reverse order. *)
Theorem C9_bidirectional h s :
  reachable h s → 0 < slength s →
  let n := Z.to_nat (slength s) in
  ∃ it0 fwd it1 bwd it2,
    SeekToFirst h s = Ok (Some it0) ∧
    moves iter_Next (n - 1) h it0 = Some (fwd, it1) ∧
    moves iter_Previous (n - 1) h it1 = Some (bwd, it2) ∧
    Key it2 = Key it0 ∧
    Key it1 :: bwd = reverse (Key it0 :: fwd).
Proof using EqDecision0 K V knil vnil lessThan lt_irrefl lt_trans lt_total.
  intros Hreach Hlen n.
  destruct (reachable_Inv knil vnil lessThan lt_irrefl lt_trans lt_total h s Hreach)
    as (L & ts & HInv).
  pose proof (Inv_wf knil lessThan _ _ _ _ HInv) as Hwf. pose proof Hwf as (Hsh & _).
  assert (n = length ts) as Hn.
  { unfold n. rewrite (shape_length _ _ _ _ _ _ Hsh). lia. }
  assert (0 < length ts)%nat as Hpos.
  { rewrite (shape_length _ _ _ _ _ _ Hsh) in Hlen. lia. }
  destruct (SeekToFirst_spec knil lessThan h s L ts Hwf ltac:(lia))
    as (a0 & n0 & Ha0 & Hn0 & Hseek).
  destruct (moves_Next knil lessThan h s L ts (n - 1) 0 a0 n0 Hwf Ha0 Hn0 ltac:(lia))
    as (a1 & n1 & Ha1 & Hn1 & Hfwd).
  destruct (moves_Previous knil lessThan h s L ts (n - 1) (n - 1) a1 n1 Hwf Ha1 Hn1
              ltac:(lia)) as (a2 & n2 & Ha2 & Hn2 & Hbwd).
  rewrite Nat.sub_diag in Ha2. rewrite Ha0 in Ha2. injection Ha2 as <-.
  rewrite Hn0 in Hn2. injection Hn2 as <-.
  do 5 eexists. split; [done|]. split; [done|]. split; [done|]. split; [done|].
  rewrite Nat.sub_diag, drop_0.
  assert (∀ a m, h !! a = Some m → Key (iter_at a m) = keyof h a) as Hkey.
  { intros a m Hm. unfold Skiplist.keyof. by rewrite Hm. }
  rewrite (Hkey _ _ Hn0), (Hkey _ _ Hn1).
  assert (length (ts.*1) = n) as Hlen1 by (by rewrite length_fmap).
  replace (keyof h a0 :: (keyof h <$> take (n - 1) (drop 1 ts.*1)))
    with (keyof h <$> ts.*1).
  2:{ destruct (ts.*1) as [|b l] eqn:Hl; [done|]. simpl in Ha0. injection Ha0 as ->.
      simpl. rewrite drop_0, take_ge; [done|]. simpl in Hlen1. lia. }
  rewrite <- fmap_reverse, <- fmap_cons. f_equal.
  rewrite <- (take_drop (n - 1) (ts.*1)) at 2.
  rewrite reverse_app. f_equal.
  rewrite (drop_S _ a1 (n - 1)) by done. rewrite drop_ge by lia. done.
Qed.

(** C10, as amended: on a reachable engine that holds fewer than [2^32]
    nodes, [GetElemByRank r] is null exactly when [r] is 0 or exceeds the
    length, and for [1 <= r <= length] the cursor stands on the node
    that [r] steps along level 0 lead to, with its key and value. *)
Theorem C10_select h s r :
  reachable h s → slength s < 4294967296 → 0 ≤ r →
  ∃ res, GetElemByRank h s r = Ok res ∧
    (res = None ↔ r = 0 ∨ slength s < r) ∧
    (1 ≤ r ≤ slength s →
     ∃ a n, res = Some (iter_at a n) ∧ h !! a = Some n ∧
            steps h (Z.to_nat r) (Some (header s)) = Some a).
Proof using EqDecision0 K V knil vnil lessThan lt_irrefl lt_trans lt_total.
  intros Hreach Hlen Hr.
  destruct (reachable_Inv knil vnil lessThan lt_irrefl lt_trans lt_total h s Hreach)
    as (L & ts & Hsh & _).
  rewrite (GetElemByRank_spec knil lessThan h s L ts r Hsh Hlen Hr).
  eexists. split; [done|].
  pose proof (shape_length _ _ _ _ _ _ Hsh) as Hl.
  destruct (decide (r = 0)) as [->|Hne].
  { split; [by split; [left|]|]. lia. }
  destruct (ts !! (Z.to_nat r - 1)%nat) as [[f hf]|] eqn:Hf.
  - pose proof (lookup_lt_Some _ _ _ Hf) as Hlt.
    destruct (tower_node h ((header s, L) :: ts) (shape_nodes _ _ _ _ _ _ Hsh)
                (shape_low1 _ _ _ _ _ _ Hsh) (S (Z.to_nat r - 1)) f hf Hf)
      as (n & Hn & _).
    rewrite Hn. simpl. split.
    + split; [done|]. intros [?|?]; lia.
    + intros _. exists f, n. split; [done|]. split; [done|].
      rewrite (steps_tower h ((header s, L) :: ts) (shape_nodes _ _ _ _ _ _ Hsh)
                 (shape_low1 _ _ _ _ _ _ Hsh) (Z.to_nat r) 0 (header s) L eq_refl).
      replace (0 + Z.to_nat r)%nat with (S (Z.to_nat r - 1)) by lia.
      by rewrite lookup_towers, Hf.
  - apply lookup_ge_None_1 in Hf. split.
    + split; [intros _; right; lia|done].
    + lia.
Qed.

(** C2, as amended: on a reachable engine that holds fewer than [2^32]
    nodes, (a) selecting the rank of the key of a live node gives a
    cursor that shows this key, and (b) the rank of the key that the
    cursor of rank [r] shows is [r], for [1 <= r <= length]. *)
Theorem C2_rank_select h s :
  reachable h s → slength s < 4294967296 →
  (∀ a n, live h s a → a ≠ header s → h !! a = Some n →
     ∃ rk it, Rank lessThan h s (key n) = Ok rk ∧
              GetElemByRank h s rk = Ok (Some it) ∧ Key it = key n) ∧
  (∀ r, 1 ≤ r ≤ slength s →
     ∃ it, GetElemByRank h s r = Ok (Some it) ∧
           Rank lessThan h s (Key it) = Ok r).
Proof using EqDecision0 K V knil vnil lessThan lt_irrefl lt_trans lt_total.
  intros Hreach Hlen.
  destruct (reachable_Inv knil vnil lessThan lt_irrefl lt_trans lt_total h s Hreach)
    as (L & ts & Hsh & _).
  pose proof (shape_length _ _ _ _ _ _ Hsh) as Hl.
  split.
  - intros a n Hlive Hne Hn.
    apply (shape_live knil lessThan _ _ _ _ _ Hsh) in Hlive.
    apply elem_of_cons in Hlive as [?|Hin]; [done|].
    apply list_elem_of_fmap in Hin as ([a' ht] & -> & Hin).
    apply list_elem_of_lookup in Hin as [i Hi]. simpl in *.
    pose proof (lookup_lt_Some _ _ _ Hi) as Hlt.
    exists (wrap32 (Z.of_nat (S i))), (iter_at a' n).
    split; [by apply (Rank_present knil lessThan lt_irrefl lt_trans h s L ts i a' ht)|].
    rewrite wrap32_small by lia.
    rewrite (GetElemByRank_spec knil lessThan h s L ts _ Hsh Hlen) by lia.
    rewrite decide_False by lia.
    replace (Z.to_nat (Z.of_nat (S i)) - 1)%nat with i by lia.
    by rewrite Hi, Hn.
  - intros r Hr.
    rewrite (GetElemByRank_spec knil lessThan h s L ts _ Hsh Hlen) by lia.
    rewrite decide_False by lia.
    destruct (lookup_lt_is_Some_2 ts (Z.to_nat r - 1)) as [[f hf] Hf]; [lia|].
    rewrite Hf.
    destruct (tower_node h ((header s, L) :: ts) (shape_nodes _ _ _ _ _ _ Hsh)
                (shape_low1 _ _ _ _ _ _ Hsh) (S (Z.to_nat r - 1)) f hf Hf)
      as (n & Hn & _).
    rewrite Hn. simpl. eexists. split; [done|].
    cbn [Key ikey iter_at].
    rewrite (Rank_present knil lessThan lt_irrefl lt_trans h s L ts _ f hf n Hsh Hf Hn).
    f_equal. rewrite wrap32_small; lia.
Qed.

End Claims.

(** The claims at the keys 10, 20 and 30. *)

Lemma C1_witness :
  slength (engine demo) < 4294967296 ∧ span_invariant (store demo) (engine demo).
Proof.
  split; [by vm_compute|].
  apply (C1_span_invariant None None int_less int_less_irrefl int_less_trans
           int_less_total (store demo) (engine demo) demo_reachable).
  by vm_compute.
Defined.

Lemma C9_witness :
  0 < slength (engine demo) ∧
  ∃ it0 fwd it1 bwd it2,
    SeekToFirst (store demo) (engine demo) = Ok (Some it0) ∧
    moves iter_Next 2 (store demo) it0 = Some (fwd, it1) ∧
    moves iter_Previous 2 (store demo) it1 = Some (bwd, it2) ∧
    Key it2 = Key it0 ∧
    Key it1 :: bwd = reverse (Key it0 :: fwd).
Proof.
  split; [by vm_compute|].
  apply (C9_bidirectional None None int_less int_less_irrefl int_less_trans
           int_less_total (store demo) (engine demo) demo_reachable).
  by vm_compute.
Defined.

Lemma C10_witness :
  ∃ res, GetElemByRank (store demo) (engine demo) 2 = Ok res ∧
    (res = None ↔ 2 = 0 ∨ slength (engine demo) < 2) ∧
    (1 ≤ 2 ≤ slength (engine demo) →
     ∃ a n, res = Some (iter_at a n) ∧ store demo !! a = Some n ∧
            steps (store demo) (Z.to_nat 2) (Some (header (engine demo))) = Some a).
Proof.
  apply (C10_select None None int_less int_less_irrefl int_less_trans
           int_less_total (store demo) (engine demo) 2 demo_reachable).
  - by vm_compute.
  - lia.
Defined.

Lemma C2_witness :
  (∀ a n, live (store demo) (engine demo) a → a ≠ header (engine demo) →
     store demo !! a = Some n →
     ∃ rk it, Rank int_less (store demo) (engine demo) (key n) = Ok rk ∧
              GetElemByRank (store demo) (engine demo) rk = Ok (Some it) ∧
              Key it = key n) ∧
  (∀ r, 1 ≤ r ≤ slength (engine demo) →
     ∃ it, GetElemByRank (store demo) (engine demo) r = Ok (Some it) ∧
           Rank int_less (store demo) (engine demo) (Key it) = Ok r).
Proof.
  apply (C2_rank_select None None int_less int_less_irrefl int_less_trans
           int_less_total (store demo) (engine demo) demo_reachable).
  by vm_compute.
Defined.

Lemma C8_witness :
  let elements := [(Some 1, Some 10); (Some 2, Some 20); (Some 3, Some 30)] in
  ∃ h' s' rg' l,
    FillBySortedSlice int_less int_new.1.1 int_new.1.2 coin elements
      = Ok (h', s', rg', true) ∧
    chain (fuel_of h') h' (Some (header s')) = header s' :: l ∧
    (λ a, (keyof None h' a, valueof None h' a)) <$> l = elements ∧
    Len s' = Z.of_nat (length elements) ∧
    footer s' = last l.
Proof.
  intros elements.
  apply (C8_fill_by_sorted_slice None None int_less int_less_irrefl int_less_trans
           int_less_total int_new.1.1 int_new.1.2 coin elements).
  - apply (reach_new None None int_less []).
  - done.
  - intros [|[|[|i]]] e1 e2; simpl; try done; by intros [= <-] [= <-].
Defined.

Lemma half_less_irrefl a : half_less a a = false.
Proof. destruct a as [x|]; simpl; [|done]. apply Z.ltb_irrefl. Qed.

Lemma half_less_trans a b c :
  half_less a b = true → half_less b c = true → half_less a c = true.
Proof.
  destruct a as [x|], b as [y|], c as [z|]; simpl; try done.
  rewrite !Z.ltb_lt. lia.
Qed.

Section RangeClaim.

Context {K V : Type} `{EqDecision K}.
Variable knil : K.
Variable vnil : V.
Variable lessThan : K → K → bool.
Hypothesis lt_irrefl : ∀ a, lessThan a a = false.
Hypothesis lt_trans : ∀ a b c, lessThan a b = true → lessThan b c = true →
                               lessThan a c = true.
Hypothesis lt_total : ∀ a b, a ≠ knil → b ≠ knil → a ≠ b →
                             lessThan a b = false → lessThan b a = true.

Local Abbreviation heap := (heap K V).
Local Abbreviation node := (node (K := K) (V := V)).
Local Abbreviation keyof := (keyof knil).
Local Abbreviation shape := (shape knil lessThan).
Local Abbreviation Inv := (Inv knil lessThan).
Local Abbreviation reachable := (reachable knil vnil lessThan).

Implicit Types (h : heap) (s : SkipList) (ts : list tower) (n : node).

(** C5, as amended: the cursor of [Range from to] stands on a new node
    whose level-0 forward pointer and whose back pointer are both the
    first node with a key not below [from].  When this node exists and
    its key is below [to], the first [Next] and equally a [Previous] on
    the fresh cursor move to it and answer true; when no such node
    exists, both answer false and the cursor stays. *)
Theorem C5_range_cursor h s from to :
  reachable h s →
  ∃ start N it i,
    Range knil vnil lessThan h s from to = Ok (h ++ [N], it) ∧
    current (riter it) = Some (length h) ∧
    next N = start ∧ previous N = start ∧
    steps h (S i) (Some (header s)) = start ∧
    (∀ j a, (1 ≤ j ≤ i)%nat → steps h j (Some (header s)) = Some a →
            lessThan (keyof h a) from = true) ∧
    match start with
    | Some f =>
        ∃ nf, h !! f = Some nf ∧ lessThan (key nf) from = false ∧
          (lessThan (key nf) to = true →
           rangeIterator_Next lessThan (h ++ [N]) it
             = Ok (mkRangeIterator (iter_at f nf) to from, true) ∧
           rangeIterator_Previous lessThan (h ++ [N]) it
             = Ok (mkRangeIterator (iter_at f nf) to from, true))
    | None =>
        rangeIterator_Next lessThan (h ++ [N]) it = Ok (it, false) ∧
        rangeIterator_Previous lessThan (h ++ [N]) it = Ok (it, false)
    end.
Proof using EqDecision0 K V knil vnil lessThan lt_irrefl lt_trans lt_total.
  intros Hreach.
  destruct (reachable_Inv knil vnil lessThan lt_irrefl lt_trans lt_total h s Hreach)
    as (L & ts & HInv).
  pose proof HInv as (Hsh & _).
  destruct (shape_search_ctx knil lessThan lt_trans h s L ts from Hsh) as [r Hctx].
  destruct (Range_spec knil vnil lessThan h s L ts from to r HInv Hctx)
    as (Hrun & _ & Hmoves).
  pose proof (steps_tower h ((header s, L) :: ts) (shape_nodes _ _ _ _ _ _ Hsh)
                (shape_low1 _ _ _ _ _ _ Hsh)) as Hsteps.
  do 3 eexists. exists r. split; [exact Hrun|]. split; [done|]. split; [done|].
  split; [done|]. split.
  { rewrite (Hsteps (S r) 0%nat (header s) L eq_refl). simpl.
    by rewrite list_lookup_fmap. }
  split.
  { intros j a Hj. rewrite (Hsteps j 0%nat (header s) L eq_refl). simpl.
    destruct (((header s, L) :: ts) !! j) as [[a' ht]|] eqn:Ha; [|done].
    intros [= <-].
    apply (split_lt _ _ _ _ _ _ (ctx_split _ _ _ _ _ _ Hctx) j a' ht); [lia|done]. }
  destruct (ts.*1 !! r) as [f|]; [|done].
  destruct Hmoves as (nf & Hnf & Hge & Hnext & Hprev).
  exists nf. split; [done|]. split; [done|]. intros Hlt.
  rewrite Hlt in Hnext. done.
Qed.

(** C7, engine part, as amended: a key that no live node holds is
    reported absent by [Get] and by [Rank]; when it is not nil and the
    header has no more levels than [MaxLevel], [Delete] reports it absent
    and leaves the store and the engine as they are. *)
Lemma absence_engine h s k :
  reachable h s →
  (∀ a n, live h s a → a ≠ header s → h !! a = Some n → key n ≠ k) →
  Get vnil lessThan h s k = Ok (vnil, false) ∧
  Rank lessThan h s k = Ok 0 ∧
  (k ≠ knil → ∀ lv, level_of h s = Ok lv → lv < MaxLevel s →
   Delete knil vnil lessThan h s k = Ok (h, s, (vnil, false))).
Proof using EqDecision0 K V knil vnil lessThan lt_irrefl lt_trans lt_total.
  intros Hreach Habs.
  destruct (reachable_Inv knil vnil lessThan lt_irrefl lt_trans lt_total h s Hreach)
    as (L & ts & HInv).
  pose proof HInv as (Hsh & _).
  assert (∀ a, a ∈ ts.*1 → keyof h a ≠ k) as Habs'.
  { intros a Ha.
    assert (a ≠ header s) as Hne.
    { intros ->. pose proof (shape_nodup _ _ _ _ _ _ Hsh) as Hnd.
      by apply NoDup_cons in Hnd as [Hnin _]. }
    pose proof (shape_addr_lt knil lessThan _ _ _ _ a Hsh ltac:(by right)) as Hlt.
    destruct (lookup_lt_is_Some_2 h a Hlt) as [n Hn].
    unfold Skiplist.keyof. rewrite Hn. simpl.
    apply (Habs a n); [|done..].
    apply (shape_live knil lessThan _ _ _ _ _ Hsh). by right. }
  split; [by apply (Get_absent knil vnil lessThan lt_trans h s L ts)|].
  split; [by apply (Rank_absent knil lessThan lt_trans h s L ts)|].
  intros Hk lv Hlv HM.
  apply (Delete_absent knil vnil lessThan lt_trans h s L ts); [done..| |done].
  rewrite (shape_level_of knil lessThan _ _ _ _ Hsh) in Hlv. injection Hlv as <-. lia.
Qed.

(** No live node of a reachable engine holds the nil key. *)
Lemma reachable_nonnil h s a n :
  reachable h s → live h s a → a ≠ header s → h !! a = Some n → key n ≠ knil.
Proof using EqDecision0 K V knil vnil lessThan lt_irrefl lt_trans lt_total.
  intros Hreach Hlive Hne Hn.
  destruct (reachable_Inv knil vnil lessThan lt_irrefl lt_trans lt_total h s Hreach)
    as (L & ts & Hsh & _ & Hb).
  apply (shape_live knil lessThan _ _ _ _ _ Hsh) in Hlive.
  apply elem_of_cons in Hlive as [Heq|Hin]; [by destruct Hne|].
  pose proof (back_nonnil _ _ _ _ Hb a Hin) as Hk.
  unfold Skiplist.keyof in Hk. by rewrite Hn in Hk.
Qed.

End RangeClaim.

Section HostEquality.

Context {K V : Type} `{EqDecision K}.
Variable knil : K.
Variable vnil : V.
Variable lessThan : K → K → bool.
Hypothesis lt_irrefl : ∀ a, lessThan a a = false.
Hypothesis lt_trans : ∀ a b c, lessThan a b = true → lessThan b c = true →
                               lessThan a c = true.

Local Abbreviation heap := (heap K V).
Local Abbreviation keyof := (keyof knil).
Local Abbreviation Inv := (Inv knil lessThan).

Implicit Types (h : heap) (s : SkipList) (ts : list tower).

(** C3, as amended: keys are matched by the equality of the host, [==]:
    after [Set b v] on a well-formed engine that holds no key the
    comparator cannot tell from [b], [Get a] for a key [a] that the
    comparator cannot tell from [b] returns [(v, true)] when [a == b] and
    [(nil, false)] otherwise. *)
Theorem C3_host_equality h s L ts rg a b v :
  Inv h s L ts → b ≠ knil →
  lessThan a b = false → lessThan b a = false →
  (∀ c, c ∈ ts.*1 →
        lessThan (keyof h c) b = true ∨ lessThan b (keyof h c) = true) →
  ∃ h' s' rg',
    SkipList_Set knil lessThan h s rg b v = Ok (h', s', rg') ∧
    Get vnil lessThan h' s' a
      = Ok (if decide (a = b) then (v, true) else (vnil, false)).
Proof using EqDecision0 K V knil vnil lessThan lt_irrefl lt_trans.
  intros HInv Hb Hab Hba Hnone.
  destruct (SkipList_Set_Inv knil lessThan lt_irrefl lt_trans h s L ts rg b v HInv Hb)
    as (h' & s' & rg' & L' & ts' & i & f & ht & bk & Hrun & HInv' & _ & _ & Hlen &
        Hf & Hbf & Hkv & Hcase).
  { intros c Hc Hne Hlt. destruct (Hnone c Hc) as [Hx|Hx]; [congruence|done]. }
  exists h', s', rg'. split; [done|]. pose proof HInv' as (Hsh' & _).
  apply binfo_inv in Hbf as (nf & Hnf & _ & Hkf & Hvf).
  destruct (decide (a = b)) as [->|Hne].
  - rewrite <- Hkf, <- Hvf.
    by apply (Get_present knil vnil lessThan lt_irrefl lt_trans h' s' L' ts' i f ht nf).
  - apply (Get_absent knil vnil lessThan lt_trans h' s' L' ts'); [done|].
    intros c Hc Hkc.
    destruct (decide (c = f)) as [->|Hcf].
    { unfold Skiplist.keyof in Hkc. rewrite Hnf in Hkc. simpl in Hkc. congruence. }
    destruct HInv as (Hsh & _).
    assert (c ∈ ts.*1) as Hc0.
    { destruct Hcase as [(-> & _)|(_ & -> & _)]; [done|].
      rewrite fmap_app, fmap_cons in Hc. simpl in Hc.
      apply elem_of_app in Hc as [Hc|Hc].
      - apply list_elem_of_fmap in Hc as (t & -> & Ht).
        apply list_elem_of_fmap. exists t. split; [done|]. by eapply subseteq_take.
      - apply elem_of_cons in Hc as [?|Hc]; [done|].
        apply list_elem_of_fmap in Hc as (t & -> & Ht).
        apply list_elem_of_fmap. exists t. split; [done|]. by eapply subseteq_drop. }
    pose proof (shape_addr_lt knil lessThan _ _ _ _ c Hsh ltac:(by right)) as Hclt.
    assert (keyof h c = a) as Hkc0.
    { rewrite <- Hkc, !(binfo_keyof knil).
      pose proof (Hkv c Hclt Hcf) as Hb'.
      destruct (binfo h' c) as [[[? ?] ?]|], (binfo h c) as [[[? ?] ?]|];
        simpl in *; congruence. }
    destruct (Hnone c Hc0) as [Hx|Hx]; rewrite Hkc0 in Hx; congruence.
Qed.

End HostEquality.

(** C3 as it is stated fails where the comparator cannot tell two keys
    apart: after [Set 2 7] under the order of the halves, [Get 3] finds
    nothing. *)
Lemma C3_counterexample :
  half_less (Some 3) (Some 2) = false ∧ half_less (Some 2) (Some 3) = false ∧
  ∃ h s r,
    SkipList_Set None half_less int_new.1.1 int_new.1.2 coin (Some 2) (Some 7)
      = Ok (h, s, r) ∧
    Get None half_less h s (Some 3) = Ok (None, false).
Proof.
  split; [done|]. split; [done|]. do 3 eexists. split.
  - vm_compute. reflexivity.
  - vm_compute. reflexivity.
Qed.

Lemma C3_witness :
  ∃ h' s' rg',
    SkipList_Set None half_less int_new.1.1 int_new.1.2 coin (Some 2) (Some 7)
      = Ok (h', s', rg') ∧
    Get None half_less h' s' (Some 3)
      = Ok (if decide (Some 3 = Some 2) then (Some 7, true) else (None, false)).
Proof.
  apply (C3_host_equality None None half_less half_less_irrefl half_less_trans
           int_new.1.1 int_new.1.2 1 [] coin (Some 3) (Some 2) (Some 7)).
  - apply NewCustomMap_Inv.
  - done.
  - by vm_compute.
  - by vm_compute.
  - intros c Hc. by apply elem_of_nil in Hc.
Defined.

(** C5 as it is stated fails: on the keys 10, 20 and 30, [Previous] on
    the fresh cursor of [Range 15 40] answers true and shows the key 20. *)
Lemma C5_counterexample :
  ∃ h' it it',
    Range None None int_less (store demo) (engine demo) (Some 15) (Some 40)
      = Ok (h', it) ∧
    rangeIterator_Previous int_less h' it = Ok (it', true) ∧
    Key (riter it') = Some 20.
Proof.
  do 3 eexists. split; [vm_compute; reflexivity|]. split; [vm_compute; reflexivity|].
  reflexivity.
Qed.

Lemma C5_witness :
  ∃ start N it i,
    Range None None int_less (store demo) (engine demo) (Some 15) (Some 40)
      = Ok (store demo ++ [N], it) ∧
    current (riter it) = Some (length (store demo)) ∧
    next N = start ∧ previous N = start ∧
    steps (store demo) (S i) (Some (header (engine demo))) = start ∧
    (∀ j a, (1 ≤ j ≤ i)%nat →
            steps (store demo) j (Some (header (engine demo))) = Some a →
            int_less (keyof None (store demo) a) (Some 15) = true) ∧
    match start with
    | Some f =>
        ∃ nf, store demo !! f = Some nf ∧ int_less (key nf) (Some 15) = false ∧
          (int_less (key nf) (Some 40) = true →
           rangeIterator_Next int_less (store demo ++ [N]) it
             = Ok (mkRangeIterator (iter_at f nf) (Some 40) (Some 15), true) ∧
           rangeIterator_Previous int_less (store demo ++ [N]) it
             = Ok (mkRangeIterator (iter_at f nf) (Some 40) (Some 15), true))
    | None =>
        rangeIterator_Next int_less (store demo ++ [N]) it = Ok (it, false) ∧
        rangeIterator_Previous int_less (store demo ++ [N]) it = Ok (it, false)
    end.
Proof.
  apply (C5_range_cursor None None int_less int_less_irrefl int_less_trans
           int_less_total (store demo) (engine demo) (Some 15) (Some 40)
           demo_reachable).
Defined.

(** * The sorted set *)

Lemma filter_none {A} (W : A → Prop) `{∀ x, Decision (W x)} (l : list A) :
  (∀ x, x ∈ l → ¬ W x) → filter W l = [].
Proof.
  induction l as [|x l IH]; intros Hall; [done|].
  rewrite filter_cons_False by (apply Hall; left). apply IH.
  intros y Hy. apply Hall. by right.
Qed.

Section Window.

Context {K V : Type} `{EqDecision K}.
Variable knil : K.
Variable lessThan : K → K → bool.

Local Abbreviation heap := (heap K V).
Local Abbreviation keyof := (keyof knil).
Local Abbreviation below := (below knil lessThan).
Local Abbreviation Inv := (Inv knil lessThan).

(** The run of keys below [to] that starts at position [r] is what a
    filter keeps, when the filter rejects the positions before [r] and
    agrees with the test afterwards. *)
Lemma below_window (h : heap) to (W : addr → Prop) `{∀ x, Decision (W x)}
  (l : list addr) r :
  (∀ q a, (q < r)%nat → l !! q = Some a → ¬ W a) →
  (∀ q a, (r ≤ q)%nat → l !! q = Some a → (W a ↔ lessThan (keyof h a) to = true)) →
  (∀ p q a b, (r ≤ p < q)%nat → l !! p = Some a → l !! q = Some b →
              lessThan (keyof h a) to = false → lessThan (keyof h b) to = false) →
  below h to (drop r l) = filter W l.
Proof.
  revert r. induction l as [|a l IH]; intros r Hlo Hhi Hdown.
  { by rewrite drop_nil. }
  destruct r as [|r].
  - rewrite drop_0. cbn [Skiplist.below].
    destruct (lessThan (keyof h a) to) eqn:Ha.
    + rewrite filter_cons_True by (by apply (Hhi 0%nat a)).
      f_equal. rewrite <- (IH 0%nat); [by rewrite drop_0|..].
      * intros q b Hq. lia.
      * intros q b _ Hb. by apply (Hhi (S q) b); [lia|].
      * intros p q b d Hpq Hb Hd. by apply (Hdown (S p) (S q)); [lia|..].
    + symmetry. apply filter_none. intros b Hb.
      apply elem_of_cons in Hb as [->|Hb].
      * rewrite (Hhi 0%nat a) by (done || lia). by rewrite Ha.
      * apply list_elem_of_lookup in Hb as [q Hq].
        rewrite (Hhi (S q) b) by (done || lia).
        by rewrite (Hdown 0%nat (S q) a b) by (done || lia).
  - rewrite filter_cons_False by (by apply (Hlo 0%nat a); [lia|]).
    simpl. apply IH.
    + intros q b Hq Hb. by apply (Hlo (S q) b); [lia|].
    + intros q b Hq Hb. by apply (Hhi (S q) b); [lia|].
    + intros p q b d Hpq Hb Hd. by apply (Hdown (S p) (S q)); [lia|..].
Qed.

(** Only the order of the keys in the list matters to an engine. *)
Lemma Inv_less_ext (less' : K → K → bool) (h : heap) s L ts :
  Inv h s L ts →
  (∀ a b, a ∈ ts.*1 → b ∈ ts.*1 →
          less' (keyof h a) (keyof h b) = lessThan (keyof h a) (keyof h b)) →
  Skiplist.Inv knil less' h s L ts.
Proof.
  intros ([Hnd Hok Hht Hso Hlen] & Htop & Hb) Hext.
  split; [|split; [done|done]]. split; [done..| |done].
  intros p q a b Hpq Ha Hb'. rewrite Hext by (by eapply list_elem_of_lookup_2).
  by apply (Hso p q).
Qed.

End Window.

Section ZTheory.

Context {AK Sc : Type} `{Countable AK} `{EqDecision Sc}.
Variable aknil : AK.
Variable scoreLessThan : Sc → Sc → bool.

Local Abbreviation zless := (zless scoreLessThan).
Local Abbreviation zworld := (zworld (AK := AK) (Sc := Sc)).
Local Abbreviation ZSet := (ZSet (AK := AK)).

Implicit Types (w : zworld) (z : ZSet).

Lemma Update_absent w z ak sc :
  key2Score z !! ak = None → Update aknil scoreLessThan w z ak sc = Ok (w, z, false).
Proof. unfold Update. by intros ->. Qed.

Lemma Remove_absent w z ak :
  key2Score z !! ak = None → Remove aknil scoreLessThan w z ak = Ok (w, z, false).
Proof. unfold Remove. by intros ->. Qed.

Lemma Score_absent w z ak :
  key2Score z !! ak = None → Score w z ak = Panic "nil pointer dereference".
Proof. unfold Score. by intros ->. Qed.

Lemma Score_present w z ak c zs :
  key2Score z !! ak = Some c → zcells w !! c = Some zs →
  Score w z ak = Ok (score zs).
Proof. unfold Score. intros -> Hc. simpl. by rewrite Hc. Qed.

Lemma zless_valid c a b za zb :
  c !! a = Some za → c !! b = Some zb →
  zless c (Some a) (Some b) =
  if scoreLessThan (score za) (score zb) then true
  else if decide (score za = score zb) then bool_decide (counter za < counter zb)
       else false.
Proof. intros Ha Hb. unfold Skiplist.zless. simpl. by rewrite Ha, Hb. Qed.

Hypothesis sc_irrefl : ∀ a, scoreLessThan a a = false.
Hypothesis sc_trans : ∀ a b c, scoreLessThan a b = true → scoreLessThan b c = true →
                               scoreLessThan a c = true.

Lemma zless_irrefl c a : zless c a a = false.
Proof using sc_irrefl.
  unfold Skiplist.zless. destruct (a ≫= (c !!.)) as [zs|]; [|done].
  rewrite sc_irrefl, decide_True by done. apply bool_decide_eq_false. lia.
Qed.

Lemma zless_trans c a b d :
  zless c a b = true → zless c b d = true → zless c a d = true.
Proof using sc_irrefl sc_trans.
  unfold Skiplist.zless.
  destruct (a ≫= (c !!.)) as [za|]; [|done].
  destruct (b ≫= (c !!.)) as [zb|]; [|done].
  destruct (d ≫= (c !!.)) as [zd|]; [|done].
  destruct (scoreLessThan (score za) (score zb)) eqn:Hab.
  - intros _. destruct (scoreLessThan (score zb) (score zd)) eqn:Hbd.
    + intros _. by rewrite (sc_trans _ _ _ Hab Hbd).
    + destruct (decide (score zb = score zd)) as [Heq|]; [|done].
      intros _. by rewrite <- Heq, Hab.
  - destruct (decide (score za = score zb)) as [Heq|]; [|done].
    rewrite bool_decide_eq_true. intros Hc. rewrite Heq.
    destruct (scoreLessThan (score zb) (score zd)); [done|].
    destruct (decide (score zb = score zd)); [|done].
    rewrite !bool_decide_eq_true. lia.
Qed.

Hypothesis sc_total : ∀ a b, a ≠ b → scoreLessThan a b = false →
                             scoreLessThan b a = true.

(** [RangeByScore] on a well-formed set whose counters are below
    [MaxInt64]. *)
Lemma RangeByScore_spec w z l from to :
  zset_ok aknil scoreLessThan w z l →
  (∀ a zs, a ∈ l → cell_of w a = Some zs → counter zs < MaxInt64) →
  ∃ w', RangeByScore aknil scoreLessThan w z from to =
          Ok (w', valueof aknil (zheap w) <$>
                  filter (λ a, within scoreLessThan from to (cell_of w a) = true) l).
Proof using EqDecision0 EqDecision1 H sc_irrefl sc_trans sc_total.
  intros (L & ts & HInv & -> & Hcells & Hmap) Hmax.
  set (h := zheap w) in *. set (s := sl z) in *. set (c := zcells w) in *.
  set (c2 := (c ++ [mkScore from 0]) ++ [mkScore to MaxInt64]).
  set (lo := length c). set (hi := length (c ++ [mkScore from 0])).
  assert (c2 !! lo = Some (mkScore from 0)) as Hlo.
  { unfold c2, lo. rewrite lookup_app_l by (rewrite length_app; simpl; lia).
    by rewrite lookup_app_r, Nat.sub_diag by lia. }
  assert (c2 !! hi = Some (mkScore to MaxInt64)) as Hhi.
  { unfold c2, hi. by rewrite lookup_app_r, Nat.sub_diag by lia. }
  assert (∀ a zs, c !! a = Some zs → c2 !! a = Some zs) as Hold.
  { intros a zs Ha. pose proof (lookup_lt_Some _ _ _ Ha).
    unfold c2. rewrite lookup_app_l by (rewrite length_app; simpl; lia).
    by rewrite lookup_app_l by lia. }
  assert (∀ a, a ∈ ts.*1 →
            ∃ ca zs, keyof None h a = Some ca ∧ c !! ca = Some zs ∧
                     cell_of w a = Some zs ∧ 0 ≤ counter zs < MaxInt64) as Hlive.
  { intros a Ha. destruct (Hcells a Ha) as (zs & Hzs & Hpos).
    pose proof (Hmax a zs Ha Hzs) as Hlt.
    unfold cell_of in Hzs. fold h c in Hzs.
    destruct (keyof None h a) as [ca|] eqn:Hk; [|done]. simpl in Hzs.
    exists ca, zs. repeat split; [done| |lia..].
    unfold cell_of. fold h c. by rewrite Hk. }
  (* the engine under the comparator of the longer store of cells *)
  assert (Inv None (zless c2) h s L ts) as HInv2.
  { apply (Inv_less_ext None (zless c)); [done|]. intros a b Ha Hb.
    destruct (Hlive a Ha) as (ca & za & -> & Hca & _).
    destruct (Hlive b Hb) as (cb & zb & -> & Hcb & _).
    rewrite (zless_valid c2 ca cb za zb) by auto.
    by rewrite (zless_valid c ca cb za zb). }
  pose proof HInv2 as (Hsh2 & _).
  destruct (shape_search_ctx None (zless c2) (zless_trans c2) h s L ts (Some lo) Hsh2)
    as [r Hctx].
  destruct (Range_spec None aknil (zless c2) h s L ts (Some lo) (Some hi) r HInv2 Hctx)
    as (Hrun & _).
  unfold RangeByScore. fold h s c lo. fold hi. fold c2. rewrite Hrun. cbn [rbind].
  rewrite (collect_Range aknil (zless c2) h s L ts (Some lo) (Some hi) r _ _
             HInv2 Hctx Hrun).
  cbn [rbind]. eexists. f_equal. f_equal. f_equal.
  apply below_window.
  - intros q a Hq Ha.
    assert (a ∈ ts.*1) as Hin by (by eapply list_elem_of_lookup_2).
    destruct (Hlive a Hin) as (ca & za & Hk & Hca & Hcell & Hcnt).
    rewrite list_lookup_fmap in Ha.
    destruct (ts !! q) as [[a' ht]|] eqn:Hts; [|done]. injection Ha as ->.
    pose proof (split_lt _ _ _ _ _ _ (ctx_split _ _ _ _ _ _ Hctx) (S q) a ht
                  ltac:(lia) Hts) as Hlt.
    rewrite Hk, (zless_valid c2 ca lo za _ (Hold _ _ Hca) Hlo) in Hlt.
    cbn [score counter] in Hlt. rewrite Hcell. cbn [within].
    destruct (scoreLessThan (score za) from); [done|].
    destruct (decide (score za = from)); [|done].
    apply bool_decide_eq_true in Hlt. lia.
  - intros q a Hq Ha.
    assert (a ∈ ts.*1) as Hin by (by eapply list_elem_of_lookup_2).
    destruct (Hlive a Hin) as (ca & za & Hk & Hca & Hcell & Hcnt).
    rewrite list_lookup_fmap in Ha.
    destruct (ts !! q) as [[a' ht]|] eqn:Hts; [|done]. injection Ha as ->.
    pose proof (split_ge _ _ _ _ _ _ (ctx_split _ _ _ _ _ _ Hctx) (S q) a ht
                  ltac:(lia) Hts) as Hge.
    rewrite Hk, (zless_valid c2 ca lo za _ (Hold _ _ Hca) Hlo) in Hge.
    cbn [score counter] in Hge.
    rewrite Hk, (zless_valid c2 ca hi za _ (Hold _ _ Hca) Hhi).
    cbn [score counter]. rewrite Hcell. cbn [within].
    destruct (scoreLessThan (score za) from); [done|]. cbn [negb andb].
    destruct (scoreLessThan (score za) to) eqn:Hto.
    + split; [done|]. intros _.
      destruct (scoreLessThan to (score za)) eqn:Hback; [|done].
      pose proof (sc_trans _ _ _ Hto Hback) as Hx. by rewrite sc_irrefl in Hx.
    + destruct (decide (score za = to)) as [<-|Hne].
      * rewrite sc_irrefl. rewrite bool_decide_eq_true. split; [lia|done].
      * rewrite (sc_total (score za) to) by done. done.
  - intros p q a b Hpq Ha Hb Hfa.
    destruct (zless c2 (keyof None h b) (Some hi)) eqn:Hfb; [|done].
    rewrite <- Hfa. symmetry. apply (zless_trans c2 _ (keyof None h b)); [|done].
    apply (shape_sorted _ _ _ _ _ _ Hsh2 p q); [lia|done..].
Qed.

End ZTheory.

(** * The claims about the sorted set *)

Section ZClaims.

Context {AK Sc : Type} `{Countable AK} `{EqDecision Sc}.
Variable aknil : AK.
Variable scoreLessThan : Sc → Sc → bool.
Hypothesis sc_irrefl : ∀ a, scoreLessThan a a = false.
Hypothesis sc_trans : ∀ a b c, scoreLessThan a b = true → scoreLessThan b c = true →
                               scoreLessThan a c = true.
Hypothesis sc_total : ∀ a b, a ≠ b → scoreLessThan a b = false →
                             scoreLessThan b a = true.

Local Abbreviation zworld := (zworld (AK := AK) (Sc := Sc)).
Local Abbreviation ZSet := (ZSet (AK := AK)).
Local Abbreviation within := (within scoreLessThan).

Implicit Types (w : zworld) (z : ZSet).


End ZClaims.


(** C4: [Score] of an application key that the set does not hold
    dereferences the nil pointer that the map lookup gave. *)
Theorem C4_score_of_absent_key :
  key2Score znew.2 !! Some 7 = None ∧
  Score znew.1 znew.2 (Some 7) = Panic "nil pointer dereference".
Proof. split; by vm_compute. Qed.



(** * The sorted set after [Add 7 50] *)

Lemma ltb_trans (a b c : Z) : (a <? b) = true → (b <? c) = true → (a <? c) = true.
Proof. rewrite !Z.ltb_lt. lia. Qed.

Lemma ltb_total (a b : Z) : a ≠ b → (a <? b) = false → (b <? a) = true.
Proof. rewrite Z.ltb_ge, Z.ltb_lt. lia. Qed.

Lemma zdemo_ok : zset_ok None Z.ltb (zworld_of zdemo) (zset_of zdemo) [1%nat].
Proof.
  set (cells := [mkScore 50 1]).
  destruct (SkipList_Set_Inv (K := option addr) (V := option Z) None
              (zless Z.ltb cells) (zless_irrefl Z.ltb Z.ltb_irrefl cells)
              (zless_trans Z.ltb Z.ltb_irrefl ltb_trans cells)
              (zheap znew.1) (sl znew.2) 1 [] coin (Some 0%nat) (Some 7))
    as (h' & s' & rg' & L' & ts' & i & f & ht & bk & Hrun & HInv' & _ & _ & _ &
        Hf & Hbf & _ & Hcase).
  { apply (NewCustomMap_Inv None None (zless Z.ltb cells) []). }
  { done. }
  { intros a Ha. by apply elem_of_nil in Ha. }
  assert (SkipList_Set None (zless Z.ltb cells) (zheap znew.1) (sl znew.2) coin
            (Some 0%nat) (Some 7)
          = Ok (zheap (zworld_of zdemo), sl (zset_of zdemo), zrng (zworld_of zdemo)))
    as Hrun' by (vm_compute; reflexivity).
  rewrite Hrun' in Hrun. injection Hrun as <- <- <-.
  destruct Hcase as [(-> & _)|(-> & -> & _)].
  { by rewrite lookup_nil in Hf. }
  rewrite take_nil, drop_nil in *. simpl in HInv'.
  exists L', [(1%nat, ht)]. split; [exact HInv'|]. split; [done|]. split.
  - intros a Ha. apply list_elem_of_singleton in Ha as ->.
    exists (mkScore 50 1). split; [by vm_compute|]. simpl. lia.
  - assert (key2Score (zset_of zdemo) = {[Some 7 := 0%nat]}) as ->
      by (vm_compute; reflexivity).
    intros ak c. rewrite lookup_singleton_Some. split.
    + intros [<- <-]. exists 1%nat. split; [by apply list_elem_of_singleton|].
      split; by vm_compute.
    + intros (a & Ha & Hk & Hv). apply list_elem_of_singleton in Ha as ->.
      vm_compute in Hk, Hv. by injection Hk as <-.
Qed.


(** * Spans that wrap around

    An engine of [2^32] nodes whose last node alone reaches level 1: the
    span of the header at level 1 counts [2^32] steps in 32 bits. *)

Section Wrapped.

Context {K V : Type} `{EqDecision K}.
Variable knil : K.
Variable lessThan : K → K → bool.

Local Abbreviation heap := (heap K V).
Local Abbreviation shape := (shape knil lessThan).

Variables (h : heap) (s : SkipList) (lows : list tower) (x : addr).
Hypothesis Hsh : shape h s 2 (lows ++ [(x, 2%nat)]).
Hypothesis Hlow : ∀ a ht, (a, ht) ∈ lows → ht = 1%nat.
Hypothesis Hlen : Z.of_nat (length lows) = 4294967295.

Lemma wrapped_next : next_at 1 (lows ++ [(x, 2%nat)]) = Some (x, S (length lows)).
Proof using Hlow.
  rewrite next_at_app.
  assert (next_at 1 lows = None) as ->.
  { apply next_at_None. intros q a ht Hq.
    apply list_elem_of_lookup_2 in Hq. rewrite (Hlow _ _ Hq). lia. }
  simpl. do 2 f_equal. lia.
Qed.

Lemma wrapped_header_slot : slot_at h (header s) 1 = Some (Level (Some x) 0).
Proof using Hsh Hlow Hlen.
  rewrite (nodes_ok_slot h _ 0 (header s) 2 1 (shape_nodes _ _ _ _ _ _ Hsh) eq_refl)
    by lia.
  cbn [drop]. rewrite drop_0. unfold want_slot. rewrite wrapped_next. cbn [fst snd]. do 2 f_equal.
  rewrite Nat2Z.inj_succ, Hlen. done.
Qed.

Lemma wrapped_last_slot j : (j < 2)%nat → slot_at h x j = Some (Level None 0).
Proof using Hsh.
  intros Hj.
  rewrite (nodes_ok_slot h _ (S (length lows)) x 2 j (shape_nodes _ _ _ _ _ _ Hsh)).
  - cbn [drop]. rewrite drop_ge; [done|]. rewrite length_app. simpl. lia.
  - rewrite lookup_towers. by rewrite lookup_app_r, Nat.sub_diag by lia.
  - done.
Qed.

Lemma wrapped_distinct : header s ≠ x.
Proof using Hsh.
  pose proof (shape_nodup _ _ _ _ _ _ Hsh) as Hnd.
  apply NoDup_cons in Hnd as [Hnot _]. intros Heq. apply Hnot.
  rewrite fmap_app. apply elem_of_app. right. simpl. rewrite Heq. apply list_elem_of_here.
Qed.

Lemma wrapped_length : slength s = 4294967296.
Proof using Hsh Hlen.
  rewrite (shape_length _ _ _ _ _ _ Hsh), length_app. simpl. lia.
Qed.

(** The span of the header at level 1 is 0, and no step leads from the
    header to the last node. *)
Lemma wrapped_span : ¬ span_invariant h s.
Proof using Hsh Hlow Hlen.
  intros [Hspan _].
  specialize (Hspan (header s) 1%nat _ (ex_intro _ 0%nat eq_refl) wrapped_header_slot).
  unfold span_ok in Hspan. simpl in Hspan. injection Hspan as Heq.
  by apply wrapped_distinct.
Qed.

(** Rank 0 selects the last node. *)
Lemma wrapped_select_zero :
  ∃ n, h !! x = Some n ∧ GetElemByRank h s 0 = Ok (Some (iter_at x n)).
Proof using Hsh Hlow Hlen.
  destruct (slot_at_height _ _ _ _ (wrapped_last_slot 0 ltac:(lia))) as (ht & Hht & _).
  destruct (height_Some _ _ _ Hht) as (n & Hn & _).
  exists n. split; [done|].
  unfold GetElemByRank. rewrite (shape_level_of knil lessThan _ _ _ _ Hsh).
  cbn [rbind]. change (Z.to_nat (Z.of_nat 2 - 1 + 1)) with 2%nat.
  cbn [GetElemByRank_loop]. unfold fuel_of. cbn [advance_span].
  rewrite (slot_Ok _ _ _ _ wrapped_header_slot). cbn [rbind forward span].
  change (wrap32 (0 + 0) <? 0) with false. cbn [rbind].
  rewrite (slot_Ok _ _ _ _ wrapped_header_slot). cbn [rbind forward span].
  change (wrap32 (0 + 0) =? 0) with true. cbn [rbind].
  by rewrite (load_Ok _ _ _ Hn).
Qed.

(** Rank 1 selects nothing. *)
Lemma wrapped_select_one : GetElemByRank h s 1 = Ok None.
Proof using Hsh Hlow Hlen.
  pose proof (shape_fuel knil lessThan _ _ _ _ Hsh) as Hfuel. simpl in Hfuel.
  unfold GetElemByRank. rewrite (shape_level_of knil lessThan _ _ _ _ Hsh).
  cbn [rbind]. change (Z.to_nat (Z.of_nat 2 - 1 + 1)) with 2%nat.
  cbn [GetElemByRank_loop]. unfold fuel_of.
  destruct (length h) as [|m]; [lia|]. cbn [advance_span].
  rewrite (slot_Ok _ _ _ _ wrapped_header_slot). cbn [rbind forward span].
  change (wrap32 (0 + 0) <? 1) with true. cbn [rbind].
  rewrite (slot_Ok _ _ _ _ (wrapped_last_slot 1 ltac:(lia))). cbn [rbind forward span].
  rewrite (slot_Ok _ _ _ _ (wrapped_last_slot 1 ltac:(lia))). cbn [rbind forward span].
  rewrite (slot_Ok _ _ _ _ (wrapped_last_slot 0 ltac:(lia))). cbn [rbind forward span].
  by rewrite (slot_Ok _ _ _ _ (wrapped_last_slot 0 ltac:(lia))).
Qed.

End Wrapped.

(** ** Building such an engine

    [FillBySortedSlice] of the keys [0 .. n-1] into a new engine with
    [MaxLevel = 0], then [MaxLevel = 1] and [Set] of the key [n] with a
    random source that answers yes. *)

Lemma run_of_lookup n i :
  (i < n)%nat → run_of n !! i = Some (Some (Z.of_nat i), None).
Proof.
  intros Hi. unfold run_of. by rewrite list_lookup_fmap, lookup_seq_lt.
Qed.

Lemma run_of_lookup_inv n i e :
  run_of n !! i = Some e → e = (Some (Z.of_nat i), None) ∧ (i < n)%nat.
Proof.
  intros He. pose proof (lookup_lt_Some _ _ _ He) as Hi.
  unfold run_of in Hi. rewrite length_fmap, length_seq in Hi.
  rewrite run_of_lookup in He by done. by injection He as <-.
Qed.

Lemma run_of_ascending n : ascending int_less (run_of n).
Proof.
  intros i e1 e2 H1 H2.
  apply run_of_lookup_inv in H1 as [-> _]. apply run_of_lookup_inv in H2 as [-> _].
  simpl. apply Z.ltb_lt. lia.
Qed.

Lemma run_of_nonnil n e : e ∈ run_of n → e.1 ≠ None.
Proof.
  intros He. apply list_elem_of_lookup in He as [i Hi].
  by apply run_of_lookup_inv in Hi as [-> _].
Qed.

Lemma filled_engine n :
  ∃ h1 s1 r1 ts1,
    FillBySortedSlice int_less int_new.1.1 (with_MaxLevel int_new.1.2 0) coin (run_of n)
      = Ok (h1, s1, r1, true) ∧
    reachable None None int_less h1 s1 ∧
    Inv None int_less h1 s1 1 ts1 ∧ MaxLevel s1 = 0 ∧ length ts1 = n ∧
    (∀ a, a ∈ ts1.*1 → ∃ i, (i < n)%nat ∧ keyof None h1 a = Some (Z.of_nat i)).
Proof.
  pose proof (Inv_maxlevel None int_less _ _ _ _ 0
                (NewCustomMap_Inv (@None Z) (@None Z) int_less [])) as HInv0.
  destruct (Fill_spec None int_less int_less_trans _ _ _ _ coin (run_of n)
              (Inv_wf None int_less _ _ _ _ HInv0) eq_refl (run_of_ascending n))
    as (h1 & s1 & r1 & L1 & ts1 & Hrun & Hwf & Hhd & HM & HL & Hts & Hlen & Hold & Hnew).
  exists h1, s1, r1, ts1. split; [exact Hrun|].
  assert (length (run_of n) = n) as Hn.
  { unfold run_of. by rewrite length_fmap, length_seq. }
  rewrite Hn in Hts.
  assert (∀ a, a ∈ ts1.*1 → ∃ i, (i < n)%nat ∧ keyof None h1 a = Some (Z.of_nat i))
    as Hkeys.
  { intros a Ha. rewrite Hts in Ha. apply elem_of_seq in Ha as [Hlo Hhi].
    exists (a - 1)%nat. simpl in Hlo, Hhi. split; [lia|].
    destruct (Hnew (a - 1)%nat _ (run_of_lookup n (a - 1) ltac:(lia))) as [b Hb].
    simpl in Hb. replace (S (a - 1)) with a in Hb by lia.
    rewrite (binfo_keyof None h1 a), Hb. done. }
  split.
  { eapply reach_fill; [|apply run_of_nonnil|exact Hrun].
    apply reach_maxlevel. apply (reach_new None None int_less []). }
  assert (L1 = 1%nat) as ->.
  { destruct Hwf as (Hsh & _). destruct (shape_heights _ _ _ _ _ _ Hsh) as [H1 _].
    simpl in HL. lia. }
  split; [|split; [exact HM|split]].
  - apply wf_Inv; [done| |].
    + rewrite Hhd. rewrite (binfo_keyof None h1), Hold; [done|]. simpl. lia.
    + intros a Ha. destruct (Hkeys a Ha) as (i & _ & ->). done.
  - by rewrite <- (length_fmap fst ts1), Hts, length_seq.
  - exact Hkeys.
Qed.

Lemma appended_engine n :
  ∃ h1 s1 r1 h2 s2 r2 lows x,
    FillBySortedSlice int_less int_new.1.1 (with_MaxLevel int_new.1.2 0) coin (run_of n)
      = Ok (h1, s1, r1, true) ∧
    SkipList_Set None int_less h1 (with_MaxLevel s1 1) yes (Some (Z.of_nat n)) None
      = Ok (h2, s2, r2) ∧
    reachable None None int_less h2 s2 ∧
    shape None int_less h2 s2 2 (lows ++ [(x, 2%nat)]) ∧
    (∀ a ht, (a, ht) ∈ lows → ht = 1%nat) ∧
    length lows = n.
Proof.
  destruct (filled_engine n) as (h1 & s1 & r1 & ts1 & Hfill & Hreach & HInv & HM & Hlen & Hkeys).
  pose proof (Inv_maxlevel None int_less _ _ _ _ 1 HInv) as HInv1.
  destruct (SkipList_Set_Inv None int_less int_less_irrefl int_less_trans
              h1 (with_MaxLevel s1 1) 1 ts1 yes (Some (Z.of_nat n)) None HInv1)
    as (h2 & s2 & r2 & L2 & ts2 & i & f & ht & bk & Hset & HInv2 & _ & _ & _ & Hf & Hbf
        & Hkv & Hcase); [done| |].
  { intros a Ha _ Hge. destruct (Hkeys a Ha) as (j & Hj & Hk). rewrite Hk in Hge.
    simpl in Hge. apply Z.ltb_ge in Hge. lia. }
  exists h1, s1, r1, h2, s2, r2, ts1, f.
  split; [exact Hfill|]. split; [exact Hset|].
  split. { eapply reach_set; [|exact Hset]. by apply reach_maxlevel. }
  destruct Hcase as [(-> & _ & _ & Hkf)|(-> & -> & Hht & -> & _)].
  { apply (list_elem_of_lookup_2 ts1) in Hf.
    destruct (Hkeys f) as (j & Hj & Hk).
    { apply list_elem_of_fmap. by exists (f, ht). }
    rewrite Hkf in Hk. injection Hk as Hk. lia. }
  assert (ht = 2%nat) as -> by (by rewrite Hht).
  destruct HInv2 as (Hsh2 & _). destruct HInv as (Hsh1 & _).
  assert (length ts1 ≤ i)%nat as Hi.
  { destruct (decide (length ts1 ≤ i)%nat) as [|Hlt]; [done|]. exfalso.
    destruct (lookup_lt_is_Some_2 ts1 i ltac:(lia)) as [[b hb] Hb].
    assert (length (take i ts1) = i) as Hti by (rewrite length_take; lia).
    pose proof (shape_sorted _ _ _ _ _ _ Hsh2 i (S i) (length h1) b ltac:(lia)) as Hso.
    rewrite fmap_app, fmap_cons in Hso.
    rewrite !lookup_app_r in Hso by (rewrite length_fmap; lia).
    rewrite length_fmap, Hti, Nat.sub_diag in Hso.
    replace (S i - i)%nat with 1%nat in Hso by lia. simpl in Hso.
    rewrite (drop_S _ _ _ Hb) in Hso.
    specialize (Hso eq_refl eq_refl).
    pose proof (shape_in_heap None int_less _ _ _ _ (S i) b hb Hsh1 Hb) as Hbh.
    destruct (Hkeys b) as (j & Hj & Hk).
    { apply list_elem_of_fmap. exists (b, hb). split; [done|].
      by apply (list_elem_of_lookup_2 _ i). }
    rewrite (binfo_keyof None h2 (length h1)), Hbf in Hso.
    rewrite (binfo_keyof None h2 b) in Hso.
    rewrite (binfo_keyof None h1 b) in Hk.
    specialize (Hkv b Hbh ltac:(lia)).
    destruct (binfo h2 b) as [[[? ?] ?]|], (binfo h1 b) as [[[? ?] ?]|];
      simpl in *; try done.
    injection Hkv as -> _. rewrite Hk in Hso. simpl in Hso. apply Z.ltb_lt in Hso. lia. }
  rewrite take_ge, drop_ge in Hsh2 by done.
  split; [exact Hsh2|]. split; [|done].
  intros a ht Ha. destruct (shape_heights _ _ _ _ _ _ Hsh1) as [_ Hh].
  specialize (Hh a ht Ha). lia.
Qed.

Lemma huge_eq : Z.of_nat huge = 4294967295.
Proof. unfold huge. apply Z2Nat.id. lia. Qed.

(** The run that builds the engine of [2^32] nodes. *)
Lemma wrapped_engine :
  ∃ h1 s1 r1 h2 s2 r2 lows x,
    FillBySortedSlice int_less int_new.1.1 (with_MaxLevel int_new.1.2 0) coin
      (run_of huge) = Ok (h1, s1, r1, true) ∧
    SkipList_Set None int_less h1 (with_MaxLevel s1 1) yes (Some 4294967295) None
      = Ok (h2, s2, r2) ∧
    reachable None None int_less h2 s2 ∧
    shape None int_less h2 s2 2 (lows ++ [(x, 2%nat)]) ∧
    (∀ a ht, (a, ht) ∈ lows → ht = 1%nat) ∧
    Z.of_nat (length lows) = 4294967295.
Proof.
  destruct (appended_engine huge)
    as (h1 & s1 & r1 & h2 & s2 & r2 & lows & x & Hfill & Hset & Hreach & Hsh & Hlow & Hlen).
  exists h1, s1, r1, h2, s2, r2, lows, x.
  split; [exact Hfill|]. split; [rewrite huge_eq in Hset; exact Hset|].
  split; [exact Hreach|]. split; [exact Hsh|]. split; [exact Hlow|].
  rewrite Hlen. exact huge_eq.
Qed.

(** C1 fails when the engine holds [2^32] nodes: after
    [FillBySortedSlice] of the keys [0 .. 2^32-2] with [MaxLevel = 0] and
    [Set] of the key [2^32-1] with [MaxLevel = 1] and a tower of two
    levels, the span of the header at level 1 has wrapped around to 0,
    while its forward pointer leads to the last node. *)
Lemma C1_counterexample :
  ∃ h1 s1 r1 h2 s2 r2,
    FillBySortedSlice int_less int_new.1.1 (with_MaxLevel int_new.1.2 0) coin
      (run_of huge) = Ok (h1, s1, r1, true) ∧
    SkipList_Set None int_less h1 (with_MaxLevel s1 1) yes (Some 4294967295) None
      = Ok (h2, s2, r2) ∧
    reachable None None int_less h2 s2 ∧
    ¬ span_invariant h2 s2.
Proof.
  destruct wrapped_engine
    as (h1 & s1 & r1 & h2 & s2 & r2 & lows & x & Hfill & Hset & Hreach & Hsh & Hlow & Hlen).
  exists h1, s1, r1, h2, s2, r2.
  split; [exact Hfill|]. split; [exact Hset|]. split; [exact Hreach|].
  exact (wrapped_span None int_less h2 s2 lows x Hsh Hlow Hlen).
Qed.

(** C10 fails on the same engine: [GetElemByRank 0] returns a cursor, on
    the last node. *)
Lemma C10_counterexample :
  ∃ h1 s1 r1 h2 s2 r2 it,
    FillBySortedSlice int_less int_new.1.1 (with_MaxLevel int_new.1.2 0) coin
      (run_of huge) = Ok (h1, s1, r1, true) ∧
    SkipList_Set None int_less h1 (with_MaxLevel s1 1) yes (Some 4294967295) None
      = Ok (h2, s2, r2) ∧
    reachable None None int_less h2 s2 ∧
    GetElemByRank h2 s2 0 = Ok (Some it).
Proof.
  destruct wrapped_engine
    as (h1 & s1 & r1 & h2 & s2 & r2 & lows & x & Hfill & Hset & Hreach & Hsh & Hlow & Hlen).
  destruct (wrapped_select_zero None int_less h2 s2 lows x Hsh Hlow Hlen)
    as (n & Hn & Hget).
  exists h1, s1, r1, h2, s2, r2, (iter_at x n).
  split; [exact Hfill|]. split; [exact Hset|]. split; [exact Hreach|].
  exact Hget.
Qed.

(** C2 fails on the same engine: rank 1 lies between 1 and the length,
    and [GetElemByRank 1] returns no cursor, so that there is no key to
    take the rank of. *)
Lemma C2_counterexample :
  ∃ h1 s1 r1 h2 s2 r2,
    FillBySortedSlice int_less int_new.1.1 (with_MaxLevel int_new.1.2 0) coin
      (run_of huge) = Ok (h1, s1, r1, true) ∧
    SkipList_Set None int_less h1 (with_MaxLevel s1 1) yes (Some 4294967295) None
      = Ok (h2, s2, r2) ∧
    reachable None None int_less h2 s2 ∧
    1 ≤ 1 ≤ slength s2 ∧ GetElemByRank h2 s2 1 = Ok None.
Proof.
  destruct wrapped_engine
    as (h1 & s1 & r1 & h2 & s2 & r2 & lows & x & Hfill & Hset & Hreach & Hsh & Hlow & Hlen).
  exists h1, s1, r1, h2, s2, r2.
  split; [exact Hfill|]. split; [exact Hset|]. split; [exact Hreach|].
  split.
  - rewrite (wrapped_length None int_less h2 s2 lows x Hsh Hlen). lia.
  - exact (wrapped_select_one None int_less h2 s2 lows x Hsh Hlow Hlen).
Qed.

(** * What the engine holds

    The operations seen through [entries], the keys and values of the
    level-0 chain. *)

Section Entries.

Context {K V : Type} `{EqDecision K}.
Variable knil : K.
Variable vnil : V.
Variable lessThan : K → K → bool.

Local Abbreviation heap := (heap K V).
Local Abbreviation node := (node (K := K) (V := V)).
Local Abbreviation keyof := (keyof knil).
Local Abbreviation valueof := (valueof vnil).
Local Abbreviation shape := (shape knil lessThan).
Local Abbreviation Inv := (Inv knil lessThan).
Local Abbreviation entries := (entries knil vnil).
Local Abbreviation entry_of := (entry_of knil vnil).

Implicit Types (h : heap) (s : SkipList) (ts : list tower) (n : node).

Lemma entries_towers h s L ts :
  shape h s L ts → entries h s = entry_of h <$> ts.*1.
Proof.
  intros Hsh. unfold Skiplist.entries.
  rewrite (chain_towers h ((header s, L) :: ts) (shape_nodes _ _ _ _ _ _ Hsh)
             (shape_low1 _ _ _ _ _ _ Hsh) (fuel_of h) 0 (header s) L eq_refl).
  - done.
  - pose proof (shape_fuel _ _ _ _ _ _ Hsh). unfold fuel_of. lia.
Qed.

Lemma entry_of_node h a n : h !! a = Some n → entry_of h a = (key n, value n).
Proof. unfold Skiplist.entry_of, Skiplist.keyof, Skiplist.valueof. by intros ->. Qed.

Lemma entries_lookup h s L ts i e :
  shape h s L ts → entries h s !! i = Some e →
  ∃ a ht n, ts !! i = Some (a, ht) ∧ h !! a = Some n ∧ e = (key n, value n).
Proof.
  intros Hsh. rewrite (entries_towers _ _ _ _ Hsh), !list_lookup_fmap.
  destruct (ts !! i) as [[a ht]|] eqn:Hi; [|done]. simpl. intros [= <-].
  destruct (tower_node h ((header s, L) :: ts) (shape_nodes _ _ _ _ _ _ Hsh)
              (shape_low1 _ _ _ _ _ _ Hsh) (S i) a ht Hi) as (n & Hn & _).
  exists a, ht, n. split; [done|]. split; [done|]. by apply entry_of_node.
Qed.

Lemma entries_keys h s L ts :
  shape h s L ts → (entries h s).*1 = keyof h <$> ts.*1.
Proof.
  intros Hsh. rewrite (entries_towers _ _ _ _ Hsh). apply list_eq. intros i.
  rewrite !list_lookup_fmap. by destruct (ts !! i).
Qed.

Lemma entries_length h s L ts : shape h s L ts → length (entries h s) = length ts.
Proof. intros Hsh. by rewrite (entries_towers _ _ _ _ Hsh), !length_fmap. Qed.

Lemma entries_ascending h s L ts :
  shape h s L ts → ascending lessThan (entries h s).
Proof.
  intros Hsh i e1 e2.
  rewrite (entries_towers _ _ _ _ Hsh), !(list_lookup_fmap (entry_of h)).
  destruct (ts.*1 !! i) as [a|] eqn:Ha; [|done].
  destruct (ts.*1 !! S i) as [b|] eqn:Hb; [|done].
  simpl. intros [= <-] [= <-]. simpl.
  apply (shape_sorted _ _ _ _ _ _ Hsh i (S i)); [lia|done..].
Qed.

Lemma entry_of_binfo h a :
  entry_of h a = from_option (λ i, (i.1.2, i.2)) (knil, vnil) (binfo h a).
Proof.
  unfold Skiplist.entry_of, Skiplist.keyof, Skiplist.valueof, Skiplist.binfo.
  by destruct (h !! a).
Qed.

Lemma entry_of_same h h' a :
  (λ i, (i.1.2, i.2)) <$> binfo h' a = (λ i, (i.1.2, i.2)) <$> binfo h a →
  entry_of h' a = entry_of h a.
Proof.
  intros Heq. rewrite !entry_of_binfo.
  destruct (binfo h' a) as [[[? ?] ?]|], (binfo h a) as [[[? ?] ?]|]; simpl in *;
    by simplify_eq.
Qed.

Lemma tower_in_heap h s L ts a :
  shape h s L ts → a ∈ ts.*1 → (a < length h)%nat ∧ a ≠ header s.
Proof.
  intros Hsh Ha. pose proof (shape_nodup _ _ _ _ _ _ Hsh) as Hnd.
  apply NoDup_cons in Hnd as [Hnot _]. split; [|by intros ->].
  apply list_elem_of_fmap in Ha as ([a' ht] & -> & Ha).
  apply list_elem_of_lookup in Ha as [i Hi].
  by apply (shape_in_heap knil lessThan h s L ts (S i) a' ht).
Qed.

(** What [Set] does to the entries. *)
Lemma Set_entries h s L ts rg k v :
  Inv h s L ts → k ≠ knil →
  (∀ a, a ∈ ts.*1 → keyof h a ≠ k → lessThan (keyof h a) k = false →
        lessThan k (keyof h a) = true) →
  (∀ a, lessThan a a = false) →
  (∀ a b c, lessThan a b = true → lessThan b c = true → lessThan a c = true) →
  ∃ h' s' rg' L' ts' i,
    SkipList_Set knil lessThan h s rg k v = Ok (h', s', rg') ∧
    Inv h' s' L' ts' ∧ MaxLevel s' = MaxLevel s ∧
    entries h' s' !! i = Some (k, v) ∧
    (((∃ v0, entries h s !! i = Some (k, v0)) ∧
      entries h' s' = (<[i := (k, v)]> (entries h s)))
     ∨ ((k ∉ (entries h s).*1) ∧
        entries h' s' = take i (entries h s) ++ (k, v) :: drop i (entries h s))).
Proof.
  intros HInv Hk Htri lt_irrefl lt_trans. pose proof HInv as (Hsh & _).
  destruct (SkipList_Set_Inv knil lessThan lt_irrefl lt_trans h s L ts rg k v HInv Hk Htri)
    as (h' & s' & rg' & L' & ts' & i & f & ht & bk & Hset & HInv' & _ & HM & _ & Hf & Hbf
        & Hkv & Hcase).
  exists h', s', rg', L', ts', i. split; [done|]. split; [done|]. split; [done|].
  pose proof HInv' as (Hsh' & _).
  assert (entry_of h' f = (k, v)) as Hef by (by rewrite entry_of_binfo, Hbf).
  assert (∀ a, a ∈ ts.*1 → a ≠ f → entry_of h' a = entry_of h a) as Hsame.
  { intros a Ha Hne. apply entry_of_same, Hkv; [|done].
    by apply (tower_in_heap h s L ts). }
  rewrite (entries_towers _ _ _ _ Hsh), (entries_towers _ _ _ _ Hsh').
  split. { by rewrite !list_lookup_fmap, Hf; simpl; rewrite Hef. }
  destruct Hcase as [(-> & _ & _ & Hkf)|(-> & -> & _ & _ & Hnone)].
  - left. split.
    { exists (valueof h f). rewrite !list_lookup_fmap, Hf. simpl.
      unfold Skiplist.entry_of. by rewrite Hkf. }
    apply list_eq. intros j.
    destruct (decide (j = i)) as [->|Hji].
    + rewrite list_lookup_insert_eq.
      * by rewrite !list_lookup_fmap, Hf; simpl; rewrite Hef.
      * rewrite !length_fmap. by eapply lookup_lt_Some.
    + rewrite list_lookup_insert_ne by done. rewrite !list_lookup_fmap.
      destruct (ts !! j) as [[a ha]|] eqn:Hj; [|done]. simpl. f_equal.
      apply Hsame.
      * apply list_elem_of_fmap. exists (a, ha). split; [done|].
        by eapply list_elem_of_lookup_2.
      * intros ->. pose proof (shape_nodup _ _ _ _ _ _ Hsh) as Hnd.
        apply NoDup_cons in Hnd as [_ Hnd].
        apply Hji. eapply (NoDup_lookup _ j i f Hnd); rewrite list_lookup_fmap;
          [by rewrite Hj|by rewrite Hf].
  - right. split.
    { rewrite <- (entries_towers _ _ _ _ Hsh), (entries_keys _ _ _ _ Hsh).
      intros Hin. apply list_elem_of_fmap in Hin as (a & -> & Ha). by apply (Hnone a). }
    assert (entry_of h' <$> ts.*1 = entry_of h <$> ts.*1) as Hall.
    { apply list_fmap_ext. intros j a Hj. apply Hsame.
      - by eapply list_elem_of_lookup_2.
      - destruct (tower_in_heap h s L ts a Hsh); [by eapply list_elem_of_lookup_2|lia]. }
    rewrite !fmap_app, !fmap_cons. cbn [fst].
    rewrite Hef, !fmap_take, !fmap_drop, Hall. done.
Qed.

End Entries.

Section EntriesOrder.

Context {K V : Type} `{EqDecision K}.
Variable knil : K.
Variable vnil : V.
Variable lessThan : K → K → bool.
Hypothesis lt_irrefl : ∀ a, lessThan a a = false.
Hypothesis lt_trans : ∀ a b c, lessThan a b = true → lessThan b c = true →
                               lessThan a c = true.

Local Abbreviation heap := (heap K V).
Local Abbreviation node := (node (K := K) (V := V)).
Local Abbreviation keyof := (keyof knil).
Local Abbreviation shape := (shape knil lessThan).
Local Abbreviation Inv := (Inv knil lessThan).
Local Abbreviation entries := (entries knil vnil).
Local Abbreviation entry_of := (entry_of knil vnil).

Implicit Types (h : heap) (s : SkipList) (ts : list tower) (n : node).

(** What [Delete] does to the entries. *)
Lemma Delete_entries h s L ts k i v :
  Inv h s L ts → k ≠ knil → Z.of_nat L ≤ MaxLevel s →
  entries h s !! i = Some (k, v) →
  ∃ h' s' L',
    Delete knil vnil lessThan h s k = Ok (h', s', (v, true)) ∧
    Inv h' s' L' (take i ts ++ drop (S i) ts) ∧ MaxLevel s' = MaxLevel s ∧
    entries h' s' = take i (entries h s) ++ drop (S i) (entries h s).
Proof using EqDecision0 K V knil vnil lessThan lt_irrefl lt_trans.
  intros HInv Hk HM Hi. pose proof HInv as (Hsh & _).
  destruct (entries_lookup knil vnil lessThan h s L ts i _ Hsh Hi)
    as (a & ht & n & Ha & Hn & [= -> ->]).
  destruct (live_ctx knil lessThan lt_irrefl lt_trans h s L ts i a ht Hsh Ha)
    as [Hctx Htgt].
  assert (keyof h a = key n) as Hka by (unfold Skiplist.keyof; by rewrite Hn).
  rewrite Hka in Hctx, Htgt.
  pose proof (Delete_Inv knil vnil lessThan h s L ts (key n) i HInv Hk HM Hctx) as HD.
  rewrite Htgt in HD.
  destruct HD as (hc & cn & h' & s' & L' & _ & Hcn & _ & Hdel & HInv' & _ & HM' & _ & Hkv).
  rewrite Hn in Hcn. injection Hcn as <-.
  exists h', s', L'. split; [done|]. split; [done|]. split; [done|].
  pose proof HInv' as (Hsh' & _).
  rewrite (entries_towers knil vnil lessThan _ _ _ _ Hsh),
    (entries_towers knil vnil lessThan _ _ _ _ Hsh').
  rewrite !fmap_app, !fmap_take, !fmap_drop. f_equal; f_equal.
  all: apply list_fmap_ext; intros j b _; apply entry_of_same, Hkv.
Qed.

(** [Get] finds the entry of its key. *)
Lemma Get_entry h s L ts i k v :
  shape h s L ts → entries h s !! i = Some (k, v) →
  Get vnil lessThan h s k = Ok (v, true).
Proof using EqDecision0 K V knil vnil lessThan lt_irrefl lt_trans.
  intros Hsh Hi.
  destruct (entries_lookup knil vnil lessThan h s L ts i _ Hsh Hi)
    as (a & ht & n & Ha & Hn & [= -> ->]).
  by apply (Get_present knil vnil lessThan lt_irrefl lt_trans h s L ts i a ht).
Qed.

Lemma Get_no_entry h s L ts k :
  shape h s L ts → k ∉ (entries h s).*1 →
  Get vnil lessThan h s k = Ok (vnil, false).
Proof using EqDecision0 K V knil vnil lessThan lt_trans.
  intros Hsh Hk. apply (Get_absent knil vnil lessThan lt_trans h s L ts); [done|].
  intros a Ha Heq. apply Hk. rewrite (entries_keys knil vnil lessThan _ _ _ _ Hsh).
  apply list_elem_of_fmap. by exists a.
Qed.

(** The keys of the entries are pairwise different. *)
Lemma entries_NoDup h s L ts : shape h s L ts → NoDup (entries h s).*1.
Proof using EqDecision0 K V knil vnil lessThan lt_irrefl lt_trans.
  intros Hsh. rewrite (entries_keys knil vnil lessThan _ _ _ _ Hsh).
  apply NoDup_alt. intros p q x Hp Hq.
  rewrite list_lookup_fmap in Hp, Hq.
  destruct (ts.*1 !! p) as [a|] eqn:Ha; [|done].
  destruct (ts.*1 !! q) as [b|] eqn:Hb; [|done].
  simpl in Hp, Hq. injection Hp as Hp. injection Hq as Hq.
  destruct (Nat.lt_trichotomy p q) as [Hlt|[->|Hlt]]; [|done|].
  - pose proof (shape_sorted _ _ _ _ _ _ Hsh p q a b Hlt Ha Hb) as Hso.
    rewrite Hp, Hq, lt_irrefl in Hso. done.
  - pose proof (shape_sorted _ _ _ _ _ _ Hsh q p b a Hlt Hb Ha) as Hso.
    rewrite Hp, Hq, lt_irrefl in Hso. done.
Qed.

(** [Get] depends on the entries alone. *)
Lemma Get_by_entries h s L ts h2 s2 L2 ts2 k :
  shape h s L ts → shape h2 s2 L2 ts2 →
  (∀ v, (k, v) ∈ entries h s ↔ (k, v) ∈ entries h2 s2) →
  Get vnil lessThan h s k = Get vnil lessThan h2 s2 k.
Proof using EqDecision0 K V knil vnil lessThan lt_irrefl lt_trans.
  intros Hsh Hsh2 Hiff.
  destruct (decide (k ∈ (entries h s).*1)) as [Hin|Hout].
  - apply list_elem_of_fmap in Hin as ([k0 v] & -> & Hin). simpl in *.
    pose proof (proj1 (Hiff v) Hin) as Hin2.
    apply list_elem_of_lookup in Hin as [i Hi].
    apply list_elem_of_lookup in Hin2 as [j Hj].
    by rewrite (Get_entry h s L ts i k0 v), (Get_entry h2 s2 L2 ts2 j k0 v).
  - rewrite (Get_no_entry h s L ts), (Get_no_entry h2 s2 L2 ts2); [done..| |done|done].
    intros Hin2. apply Hout.
    apply list_elem_of_fmap in Hin2 as ([k0 v] & -> & Hin2). simpl in *.
    apply list_elem_of_fmap. exists (k0, v). split; [done|]. by apply Hiff.
Qed.

End EntriesOrder.

(** Lists that differ in one entry. *)
Lemma elem_of_insert_other {A B : Type} (l : list (A * B)) i k v k' v' :
  k' ≠ k →
  (k', v') ∈ take i l ++ (k, v) :: drop i l ↔ (k', v') ∈ l.
Proof.
  intros Hne. rewrite <- (take_drop i l) at 3.
  rewrite !elem_of_app, elem_of_cons. split; intros Hin.
  - destruct Hin as [?|[?|?]]; [by left|simplify_eq|by right].
  - destruct Hin as [?|?]; [by left|by right; right].
Qed.

Lemma elem_of_replace_other {A B : Type} (l : list (A * B)) i k v v0 k' v' :
  l !! i = Some (k, v0) → k' ≠ k →
  (k', v') ∈ <[i := (k, v)]> l ↔ (k', v') ∈ l.
Proof.
  intros Hi Hne. rewrite <- (take_drop_middle l i (k, v0) Hi) at 2.
  rewrite insert_take_drop by (by eapply lookup_lt_Some).
  rewrite !elem_of_app, !elem_of_cons. split; intros Hin.
  - destruct Hin as [?|[?|?]]; [by left|simplify_eq|by right; right].
  - destruct Hin as [?|[?|?]]; [by left|simplify_eq|by right; right].
Qed.

Lemma elem_of_remove_other {A B : Type} (l : list (A * B)) i k v k' v' :
  l !! i = Some (k, v) → k' ≠ k →
  (k', v') ∈ take i l ++ drop (S i) l ↔ (k', v') ∈ l.
Proof.
  intros Hi Hne. rewrite <- (take_drop_middle l i (k, v) Hi) at 3.
  rewrite !elem_of_app, !elem_of_cons. split; intros Hin.
  - destruct Hin as [?|?]; [by left|by right; right].
  - destruct Hin as [?|[?|?]]; [by left|simplify_eq|by right].
Qed.

Lemma not_elem_of_remove {A B : Type} (l : list (A * B)) i k v :
  l !! i = Some (k, v) → NoDup l.*1 → k ∉ (take i l ++ drop (S i) l).*1.
Proof.
  intros Hi Hnd. rewrite <- (take_drop_middle l i (k, v) Hi) in Hnd.
  rewrite fmap_app, fmap_cons in Hnd. apply NoDup_app in Hnd as (_ & Hdis & Hnd).
  apply NoDup_cons in Hnd as [Hnot _].
  rewrite fmap_app. intros Hin. apply elem_of_app in Hin as [Hin|Hin]; [|done].
  apply (Hdis _ Hin). apply list_elem_of_here.
Qed.

(** * The engine as an ordered map *)

Section OrderedMap.

Context {K V : Type} `{EqDecision K}.
Variable knil : K.
Variable vnil : V.
Variable lessThan : K → K → bool.
Hypothesis lt_irrefl : ∀ a, lessThan a a = false.
Hypothesis lt_trans : ∀ a b c, lessThan a b = true → lessThan b c = true →
                               lessThan a c = true.
Hypothesis lt_total : ∀ a b, a ≠ knil → b ≠ knil → a ≠ b →
                             lessThan a b = false → lessThan b a = true.

Local Abbreviation heap := (heap K V).
Local Abbreviation keyof := (keyof knil).
Local Abbreviation shape := (shape knil lessThan).
Local Abbreviation Inv := (Inv knil lessThan).
Local Abbreviation reachable := (reachable knil vnil lessThan).
Local Abbreviation entries := (entries knil vnil).
Local Abbreviation ascending := (ascending lessThan).

Implicit Types (h : heap) (s : SkipList) (ts : list tower).

Lemma Inv_trichotomy h s L ts k :
  Inv h s L ts → k ≠ knil →
  ∀ a, a ∈ ts.*1 → keyof h a ≠ k → lessThan (keyof h a) k = false →
       lessThan k (keyof h a) = true.
Proof using K V knil lessThan lt_total.
  intros (_ & _ & Hb) Hk a Ha Hne. apply lt_total; [|done..].
  by apply (back_nonnil _ _ _ _ Hb).
Qed.

(** X1: the entries of a reachable engine ascend strictly, hold
    no key twice and no nil key, and [Len] is their number. *)
Theorem entries_sorted h s :
  reachable h s →
  ascending (entries h s) ∧ NoDup (entries h s).*1 ∧
  (∀ k, k ∈ (entries h s).*1 → k ≠ knil) ∧
  Len s = Z.of_nat (length (entries h s)).
Proof using EqDecision0 K V knil vnil lessThan lt_irrefl lt_trans lt_total.
  intros Hreach.
  destruct (reachable_Inv knil vnil lessThan lt_irrefl lt_trans lt_total h s Hreach)
    as (L & ts & Hsh & _ & Hb).
  split; [by apply (entries_ascending knil vnil lessThan h s L ts)|].
  split; [by apply (entries_NoDup knil vnil lessThan lt_irrefl lt_trans h s L ts)|].
  split.
  - intros k. rewrite (entries_keys knil vnil lessThan _ _ _ _ Hsh).
    intros Hin. apply list_elem_of_fmap in Hin as (a & -> & Ha).
    by apply (back_nonnil _ _ _ _ Hb).
  - unfold Len. rewrite (shape_length _ _ _ _ _ _ Hsh).
    by rewrite (entries_length knil vnil lessThan h s L ts).
Qed.

(** X2: [Get] returns the value of the entry with its key and
    true. *)
Theorem Get_entry_value h s i k v :
  reachable h s → entries h s !! i = Some (k, v) →
  Get vnil lessThan h s k = Ok (v, true).
Proof using EqDecision0 K V knil vnil lessThan lt_irrefl lt_trans lt_total.
  intros Hreach Hi.
  destruct (reachable_Inv knil vnil lessThan lt_irrefl lt_trans lt_total h s Hreach)
    as (L & ts & Hsh & _).
  by apply (Get_entry knil vnil lessThan lt_irrefl lt_trans h s L ts i).
Qed.

Lemma Set_entries_frame h s rg k v :
  reachable h s → k ≠ knil →
  ∃ h' s' rg' i,
    SkipList_Set knil lessThan h s rg k v = Ok (h', s', rg') ∧
    MaxLevel s' = MaxLevel s ∧
    (((∃ v0, entries h s !! i = Some (k, v0)) ∧
      entries h' s' = (<[i := (k, v)]> (entries h s)) ∧ Len s' = Len s)
     ∨ ((k ∉ (entries h s).*1) ∧
        entries h' s' = take i (entries h s) ++ (k, v) :: drop i (entries h s) ∧
        Len s' = Len s + 1)).
Proof using EqDecision0 K V knil vnil lessThan lt_irrefl lt_trans lt_total.
  intros Hreach Hk.
  destruct (reachable_Inv knil vnil lessThan lt_irrefl lt_trans lt_total h s Hreach)
    as (L & ts & HInv).
  destruct (Set_entries knil vnil lessThan h s L ts rg k v HInv Hk
              (Inv_trichotomy h s L ts k HInv Hk) lt_irrefl lt_trans)
    as (h' & s' & rg' & L' & ts' & i & Hset & HInv' & HM & Hi & Hcase).
  exists h', s', rg', i. split; [done|]. split; [done|].
  destruct HInv as (Hsh & _), HInv' as (Hsh' & _).
  pose proof (entries_length knil vnil lessThan _ _ _ _ Hsh) as Hl.
  pose proof (entries_length knil vnil lessThan _ _ _ _ Hsh') as Hl'.
  unfold Len. rewrite (shape_length _ _ _ _ _ _ Hsh), (shape_length _ _ _ _ _ _ Hsh').
  rewrite <- Hl, <- Hl'.
  destruct Hcase as [[Hold Heq]|[Hnew Heq]]; rewrite Heq in Hi |- *.
  - left. split; [done|]. split; [done|]. by rewrite length_insert.
  - right. split; [done|]. split; [done|].
    pose proof (lookup_lt_Some _ _ _ Hi) as Hlt.
    rewrite length_app in Hlt |- *. simpl in *. rewrite length_take, length_drop in *.
    lia.
Qed.

(** X3: [Set k v] with a key that is not nil returns; it replaces
    the value of the entry of [k], keeping the length, or puts the entry
    [(k, v)] in when there is none, adding one to the length; the other
    entries stay, in their order, and [MaxLevel] stays. *)
Theorem Set_entries_effect h s rg k v :
  reachable h s → k ≠ knil →
  ∃ h' s' rg' i,
    SkipList_Set knil lessThan h s rg k v = Ok (h', s', rg') ∧
    MaxLevel s' = MaxLevel s ∧
    (((∃ v0, entries h s !! i = Some (k, v0)) ∧
      entries h' s' = (<[i := (k, v)]> (entries h s)) ∧ Len s' = Len s)
     ∨ ((k ∉ (entries h s).*1) ∧
        entries h' s' = take i (entries h s) ++ (k, v) :: drop i (entries h s) ∧
        Len s' = Len s + 1)).
Proof using EqDecision0 K V knil vnil lessThan lt_irrefl lt_trans lt_total.
  apply Set_entries_frame.
Qed.

Lemma Set_Get_frame h s rg k v :
  reachable h s → k ≠ knil →
  ∃ h' s' rg',
    SkipList_Set knil lessThan h s rg k v = Ok (h', s', rg') ∧
    ∀ k', Get vnil lessThan h' s' k' =
          if decide (k' = k) then Ok (v, true) else Get vnil lessThan h s k'.
Proof using EqDecision0 K V knil vnil lessThan lt_irrefl lt_trans lt_total.
  intros Hreach Hk.
  destruct (reachable_Inv knil vnil lessThan lt_irrefl lt_trans lt_total h s Hreach)
    as (L & ts & HInv).
  destruct (Set_entries knil vnil lessThan h s L ts rg k v HInv Hk
              (Inv_trichotomy h s L ts k HInv Hk) lt_irrefl lt_trans)
    as (h' & s' & rg' & L' & ts' & i & Hset & HInv' & HM & Hi & Hcase).
  exists h', s', rg'. split; [done|]. intros k'.
  destruct HInv as (Hsh & _), HInv' as (Hsh' & _).
  destruct (decide (k' = k)) as [->|Hne].
  { by apply (Get_entry knil vnil lessThan lt_irrefl lt_trans h' s' L' ts' i). }
  apply (Get_by_entries knil vnil lessThan lt_irrefl lt_trans h' s' L' ts' h s L ts);
    [done|done|].
  intros v'. destruct Hcase as [[[v0 Hold] ->]|[Hnew ->]].
  - by apply (elem_of_replace_other _ i k v v0).
  - by apply elem_of_insert_other.
Qed.

(** X4: after [Set k v], [Get k] returns [(v, true)] and [Get]
    of any other key returns what it returned before. *)
Theorem Set_then_Get h s rg k v :
  reachable h s → k ≠ knil →
  ∃ h' s' rg',
    SkipList_Set knil lessThan h s rg k v = Ok (h', s', rg') ∧
    ∀ k', Get vnil lessThan h' s' k' =
          if decide (k' = k) then Ok (v, true) else Get vnil lessThan h s k'.
Proof using EqDecision0 K V knil vnil lessThan lt_irrefl lt_trans lt_total.
  apply Set_Get_frame.
Qed.

Lemma level_of_shape h s L ts lv :
  shape h s L ts → level_of h s = Ok lv → lv = Z.of_nat L - 1.
Proof.
  intros Hsh. rewrite (shape_level_of knil lessThan _ _ _ _ Hsh). by intros [= <-].
Qed.

Lemma Delete_entries_frame h s k i v lv :
  reachable h s → k ≠ knil → level_of h s = Ok lv → lv < MaxLevel s →
  entries h s !! i = Some (k, v) →
  ∃ h' s',
    Delete knil vnil lessThan h s k = Ok (h', s', (v, true)) ∧
    MaxLevel s' = MaxLevel s ∧
    entries h' s' = take i (entries h s) ++ drop (S i) (entries h s) ∧
    Len s' = Len s - 1.
Proof using EqDecision0 K V knil vnil lessThan lt_irrefl lt_trans lt_total.
  intros Hreach Hk Hlv HM Hi.
  destruct (reachable_Inv knil vnil lessThan lt_irrefl lt_trans lt_total h s Hreach)
    as (L & ts & HInv).
  pose proof HInv as (Hsh & _).
  rewrite (level_of_shape h s L ts lv Hsh Hlv) in HM.
  destruct (Delete_entries knil vnil lessThan lt_irrefl lt_trans h s L ts k i v HInv Hk
              ltac:(lia) Hi) as (h' & s' & L' & Hdel & (Hsh' & _) & HM' & Heq).
  exists h', s'. split; [done|]. split; [done|]. split; [done|].
  unfold Len. rewrite (shape_length _ _ _ _ _ _ Hsh), (shape_length _ _ _ _ _ _ Hsh').
  pose proof (lookup_lt_Some _ _ _ Hi) as Hlt.
  rewrite (entries_length knil vnil lessThan _ _ _ _ Hsh) in Hlt.
  rewrite length_app, length_take, length_drop. lia.
Qed.

(** X5: on an engine lower than [MaxLevel], [Delete] of the
    key of an entry returns its value and true, takes this entry out and
    leaves the others in their order; the length goes down by one. *)
Theorem Delete_entries_effect h s k i v lv :
  reachable h s → k ≠ knil → level_of h s = Ok lv → lv < MaxLevel s →
  entries h s !! i = Some (k, v) →
  ∃ h' s',
    Delete knil vnil lessThan h s k = Ok (h', s', (v, true)) ∧
    MaxLevel s' = MaxLevel s ∧
    entries h' s' = take i (entries h s) ++ drop (S i) (entries h s) ∧
    Len s' = Len s - 1.
Proof using EqDecision0 K V knil vnil lessThan lt_irrefl lt_trans lt_total.
  apply Delete_entries_frame.
Qed.

Lemma Delete_Get_frame h s k lv :
  reachable h s → k ≠ knil → level_of h s = Ok lv → lv < MaxLevel s →
  ∃ h' s' res,
    Delete knil vnil lessThan h s k = Ok (h', s', res) ∧
    Get vnil lessThan h s k = Ok res ∧
    ∀ k', Get vnil lessThan h' s' k' =
          if decide (k' = k) then Ok (vnil, false) else Get vnil lessThan h s k'.
Proof using EqDecision0 K V knil vnil lessThan lt_irrefl lt_trans lt_total.
  intros Hreach Hk Hlv HM.
  destruct (reachable_Inv knil vnil lessThan lt_irrefl lt_trans lt_total h s Hreach)
    as (L & ts & HInv).
  pose proof HInv as (Hsh & _).
  rewrite (level_of_shape h s L ts lv Hsh Hlv) in HM.
  destruct (decide (k ∈ (entries h s).*1)) as [Hin|Hout].
  - apply list_elem_of_fmap in Hin as ([k0 v] & -> & Hin). simpl in *.
    apply list_elem_of_lookup in Hin as [i Hi].
    destruct (Delete_entries knil vnil lessThan lt_irrefl lt_trans h s L ts k0 i v HInv Hk
                ltac:(lia) Hi) as (h' & s' & L' & Hdel & (Hsh' & _) & HM' & Heq).
    exists h', s', (v, true). split; [done|].
    split; [by apply (Get_entry knil vnil lessThan lt_irrefl lt_trans h s L ts i)|].
    intros k'. destruct (decide (k' = k0)) as [->|Hne].
    + eapply (Get_no_entry knil vnil lessThan lt_trans); [exact Hsh'|].
      rewrite Heq. apply (not_elem_of_remove _ i k0 v Hi).
      by apply (entries_NoDup knil vnil lessThan lt_irrefl lt_trans h s L ts).
    + eapply (Get_by_entries knil vnil lessThan lt_irrefl lt_trans);
        [exact Hsh'|exact Hsh|].
      intros v'. rewrite Heq. by apply (elem_of_remove_other _ i k0 v).
  - assert (∀ a, a ∈ ts.*1 → keyof h a ≠ k) as Hnone.
    { intros a Ha Heq. apply Hout.
      rewrite (entries_keys knil vnil lessThan _ _ _ _ Hsh).
      apply list_elem_of_fmap. by exists a. }
    exists h, s, (vnil, false).
    split; [by apply (Delete_absent knil vnil lessThan lt_trans h s L ts k HInv Hk
                        ltac:(lia))|].
    split; [by apply (Get_no_entry knil vnil lessThan lt_trans h s L ts)|].
    intros k'. destruct (decide (k' = k)) as [->|Hne]; [|done].
    by apply (Get_no_entry knil vnil lessThan lt_trans h s L ts).
Qed.

(** X6: on an engine lower than [MaxLevel], [Delete k]
    returns what [Get k] returns; afterwards [Get k] finds nothing and
    [Get] of any other key returns what it returned before. *)
Theorem Delete_then_Get h s k lv :
  reachable h s → k ≠ knil → level_of h s = Ok lv → lv < MaxLevel s →
  ∃ h' s' res,
    Delete knil vnil lessThan h s k = Ok (h', s', res) ∧
    Get vnil lessThan h s k = Ok res ∧
    ∀ k', Get vnil lessThan h' s' k' =
          if decide (k' = k) then Ok (vnil, false) else Get vnil lessThan h s k'.
Proof using EqDecision0 K V knil vnil lessThan lt_irrefl lt_trans lt_total.
  apply Delete_Get_frame.
Qed.

(** X7: once the level of the list has reached [MaxLevel],
    [Delete] of any key that is not nil panics while it allocates its
    update slice, [make([]*node, s.level()+1, s.effectiveMaxLevel())]. *)
Theorem Delete_at_MaxLevel h s k lv :
  reachable h s → k ≠ knil → level_of h s = Ok lv → MaxLevel s ≤ lv →
  Delete knil vnil lessThan h s k = Panic "makeslice: cap out of range".
Proof using EqDecision0 K V knil vnil lessThan lt_irrefl lt_trans lt_total.
  intros Hreach Hk Hlv HM.
  destruct (reachable_Inv knil vnil lessThan lt_irrefl lt_trans lt_total h s Hreach)
    as (L & ts & Hsh & _).
  rewrite (level_of_shape h s L ts lv Hsh Hlv) in HM.
  apply (Delete_cap knil vnil lessThan h s L ts k Hsh Hk). lia.
Qed.

(** X8: on an engine of fewer than [2^32] nodes, [Rank] of the
    key of the entry at index [i] is [i + 1]. *)
Theorem Rank_is_position h s i k v :
  reachable h s → slength s < 4294967296 → entries h s !! i = Some (k, v) →
  Rank lessThan h s k = Ok (Z.of_nat i + 1).
Proof using EqDecision0 K V knil vnil lessThan lt_irrefl lt_trans lt_total.
  intros Hreach Hlen Hi.
  destruct (reachable_Inv knil vnil lessThan lt_irrefl lt_trans lt_total h s Hreach)
    as (L & ts & Hsh & _).
  destruct (entries_lookup knil vnil lessThan h s L ts i _ Hsh Hi)
    as (a & ht & n & Ha & Hn & [= -> ->]).
  rewrite (Rank_present knil lessThan lt_irrefl lt_trans h s L ts i a ht n Hsh Ha Hn).
  pose proof (lookup_lt_Some _ _ _ Ha) as Hlt.
  rewrite (shape_length _ _ _ _ _ _ Hsh) in Hlen.
  f_equal. rewrite wrap32_small; lia.
Qed.

Lemma randomLevel_loop_le budget n r :
  (n ≤ (randomLevel_loop budget n r).1 ≤ n + budget)%nat.
Proof.
  revert n r. induction budget as [|b IH]; intros n r; simpl; [lia|].
  destruct (r 0%nat); simpl; [|lia]. specialize (IH (S n) (λ m, r (S m))). lia.
Qed.

(** X9: [Set] never lowers the level of the list and never
    raises it above the greater of the level and [MaxLevel]. *)
Theorem Set_level_bound h s rg k v lv :
  reachable h s → k ≠ knil → level_of h s = Ok lv →
  ∃ h' s' rg' lv',
    SkipList_Set knil lessThan h s rg k v = Ok (h', s', rg') ∧
    level_of h' s' = Ok lv' ∧ lv ≤ lv' ≤ maxInt lv (MaxLevel s).
Proof using EqDecision0 K V knil vnil lessThan lt_irrefl lt_trans lt_total.
  intros Hreach Hk Hlv.
  destruct (reachable_Inv knil vnil lessThan lt_irrefl lt_trans lt_total h s Hreach)
    as (L & ts & HInv).
  pose proof HInv as (Hsh & _).
  rewrite (level_of_shape h s L ts lv Hsh Hlv).
  destruct (SkipList_Set_Inv knil lessThan lt_irrefl lt_trans h s L ts rg k v HInv Hk
              (Inv_trichotomy h s L ts k HInv Hk))
    as (h' & s' & rg' & L' & ts' & i & f & ht & bk & Hset & (Hsh' & _) & _ & _ & _ & _ & _
        & _ & Hcase).
  exists h', s', rg', (Z.of_nat L' - 1). split; [done|].
  split; [by apply (shape_level_of knil lessThan _ _ _ _ Hsh')|].
  pose proof (maxInt_ge_l (Z.of_nat L - 1) (MaxLevel s)) as Hge.
  destruct (shape_heights _ _ _ _ _ _ Hsh) as [HL _].
  destruct Hcase as [(_ & _ & -> & _)|(_ & _ & Hht & -> & _)]; [lia|].
  pose proof (randomLevel_loop_le (Z.to_nat (maxInt (Z.of_nat L - 1) (MaxLevel s)))
                0 rg) as Hrl.
  lia.
Qed.

End OrderedMap.

(** The ordered map at the keys 10, 20 and 30. *)

Lemma entries_sorted_witness :
  ascending int_less (entries None None (store demo) (engine demo)) ∧
  NoDup (entries None None (store demo) (engine demo)).*1 ∧
  (∀ k, k ∈ (entries None None (store demo) (engine demo)).*1 → k ≠ None) ∧
  Len (engine demo) = Z.of_nat (length (entries None None (store demo) (engine demo))).
Proof.
  apply (entries_sorted None None int_less int_less_irrefl int_less_trans
           int_less_total (store demo) (engine demo) demo_reachable).
Defined.

Lemma Get_entry_value_witness :
  Get None int_less (store demo) (engine demo) (Some 20) = Ok (Some 200, true).
Proof.
  apply (Get_entry_value None None int_less int_less_irrefl int_less_trans
           int_less_total (store demo) (engine demo) 1 (Some 20) (Some 200)
           demo_reachable).
  by vm_compute.
Defined.

Lemma Set_entries_effect_witness :
  ∃ h' s' rg' i,
    SkipList_Set None int_less (store demo) (engine demo) coin (Some 25) (Some 250)
      = Ok (h', s', rg') ∧
    MaxLevel s' = MaxLevel (engine demo) ∧
    (((∃ v0, entries None None (store demo) (engine demo) !! i = Some (Some 25, v0)) ∧
      entries None None h' s'
        = (<[i := (Some 25, Some 250)]> (entries None None (store demo) (engine demo))) ∧
      Len s' = Len (engine demo))
     ∨ ((Some 25 ∉ (entries None None (store demo) (engine demo)).*1) ∧
        entries None None h' s'
          = take i (entries None None (store demo) (engine demo))
            ++ (Some 25, Some 250) :: drop i (entries None None (store demo) (engine demo)) ∧
        Len s' = Len (engine demo) + 1)).
Proof.
  apply (Set_entries_effect None None int_less int_less_irrefl int_less_trans
           int_less_total (store demo) (engine demo) coin (Some 25) (Some 250)
           demo_reachable).
  discriminate.
Defined.

Lemma Set_then_Get_witness :
  ∃ h' s' rg',
    SkipList_Set None int_less (store demo) (engine demo) coin (Some 25) (Some 250)
      = Ok (h', s', rg') ∧
    ∀ k', Get None int_less h' s' k' =
          if decide (k' = Some 25) then Ok (Some 250, true)
          else Get None int_less (store demo) (engine demo) k'.
Proof.
  apply (Set_then_Get None None int_less int_less_irrefl int_less_trans
           int_less_total (store demo) (engine demo) coin (Some 25) (Some 250)
           demo_reachable).
  discriminate.
Defined.

Lemma Delete_entries_effect_witness :
  ∃ h' s',
    Delete None None int_less (store demo) (engine demo) (Some 20)
      = Ok (h', s', (Some 200, true)) ∧
    MaxLevel s' = MaxLevel (engine demo) ∧
    entries None None h' s'
      = take 1 (entries None None (store demo) (engine demo))
        ++ drop 2 (entries None None (store demo) (engine demo)) ∧
    Len s' = Len (engine demo) - 1.
Proof.
  apply (Delete_entries_effect None None int_less int_less_irrefl int_less_trans
           int_less_total (store demo) (engine demo) (Some 20) 1 (Some 200) 1
           demo_reachable).
  - discriminate.
  - by vm_compute.
  - by vm_compute.
  - by vm_compute.
Defined.

Lemma Delete_then_Get_witness :
  ∃ h' s' res,
    Delete None None int_less (store demo) (engine demo) (Some 20) = Ok (h', s', res) ∧
    Get None int_less (store demo) (engine demo) (Some 20) = Ok res ∧
    ∀ k', Get None int_less h' s' k' =
          if decide (k' = Some 20) then Ok (None, false)
          else Get None int_less (store demo) (engine demo) k'.
Proof.
  apply (Delete_then_Get None None int_less int_less_irrefl int_less_trans
           int_less_total (store demo) (engine demo) (Some 20) 1 demo_reachable).
  - discriminate.
  - by vm_compute.
  - by vm_compute.
Defined.

Lemma Delete_at_MaxLevel_witness :
  Delete None None int_less (store demo) (with_MaxLevel (engine demo) 1) (Some 20)
    = Panic "makeslice: cap out of range".
Proof.
  apply (Delete_at_MaxLevel None None int_less int_less_irrefl int_less_trans
           int_less_total (store demo) (with_MaxLevel (engine demo) 1) (Some 20) 1).
  - apply reach_maxlevel. exact demo_reachable.
  - discriminate.
  - by vm_compute.
  - by vm_compute.
Defined.

Lemma Rank_is_position_witness :
  Rank int_less (store demo) (engine demo) (Some 30) = Ok (Z.of_nat 2 + 1).
Proof.
  apply (Rank_is_position None None int_less int_less_irrefl int_less_trans
           int_less_total (store demo) (engine demo) 2 (Some 30) (Some 300)
           demo_reachable).
  - by vm_compute.
  - by vm_compute.
Defined.

Lemma Set_level_bound_witness :
  ∃ h' s' rg' lv',
    SkipList_Set None int_less (store demo) (engine demo) coin (Some 25) (Some 250)
      = Ok (h', s', rg') ∧
    level_of h' s' = Ok lv' ∧ 1 ≤ lv' ≤ maxInt 1 (MaxLevel (engine demo)).
Proof.
  apply (Set_level_bound None None int_less int_less_irrefl int_less_trans
           int_less_total (store demo) (engine demo) coin (Some 25) (Some 250) 1
           demo_reachable).
  - discriminate.
  - by vm_compute.
Defined.

(** * Seeking *)

Section Seeking.

Context {K V : Type} `{EqDecision K}.
Variable knil : K.
Variable vnil : V.
Variable lessThan : K → K → bool.

Local Abbreviation heap := (heap K V).
Local Abbreviation node := (node (K := K) (V := V)).
Local Abbreviation iter := (iter (K := K) (V := V)).
Local Abbreviation keyof := (keyof knil).
Local Abbreviation shape := (shape knil lessThan).
Local Abbreviation wf := (wf knil lessThan).
Local Abbreviation Inv := (Inv knil lessThan).
Local Abbreviation search_ctx := (search_ctx knil lessThan).
Local Abbreviation entries := (entries knil vnil).
Local Abbreviation lower_bound := (lower_bound lessThan).

Implicit Types (h : heap) (s : SkipList) (ts : list tower) (n : node) (it : iter).

(** The search from any tower that does not lie after position [r]. *)
Lemma getLowerBound_from h all k r p a ht :
  search_ctx h all k r → all !! p = Some (a, ht) → (p ≤ r)%nat →
  getLowerBound lessThan h a k = Ok (fst <$> all !! S r).
Proof.
  intros Hctx Hp Hpr.
  destruct (nodes_ok_load knil h all p a ht (ctx_nodes _ _ _ _ _ _ Hctx) Hp)
    as (n & Hn & Hlen & _).
  pose proof (ctx_low _ _ _ _ _ _ Hctx _ _ _ Hp) as Hht.
  unfold getLowerBound. rewrite (load_Ok _ _ _ Hn). cbn [rbind]. rewrite Hlen.
  replace (Z.to_nat (Z.of_nat ht - 1 + 1)) with ht by lia.
  destruct ht as [|j]; [lia|]. simpl.
  destruct (advance_spec knil lessThan h all k r j (fuel_of h) p a (S j)
              (ctx_nodes _ _ _ _ _ _ Hctx) (ctx_split _ _ _ _ _ _ Hctx) Hp
              ltac:(lia) Hpr) as (p' & a' & -> & _ & Hpred).
  { pose proof (ctx_r_lt knil lessThan h all k r Hctx). unfold fuel_of. lia. }
  simpl.
  destruct (forward_matches_spec knil lessThan h all k r Hctx j p' a' Hpred)
    as (m & -> & Hm & _).
  simpl. destruct m as [f|].
  - destruct (Hm f eq_refl) as [Ht _]. by rewrite (target_Some _ _ _ _ _ _ Ht).
  - eapply (getLowerBound_loop_spec knil lessThan h all k r Hctx). by apply pred_at_desc.
Qed.

Lemma entries_split h s L ts k r :
  shape h s L ts → search_ctx h ((header s, L) :: ts) k r →
  lower_bound (entries h s) k r.
Proof.
  intros Hsh Hctx. pose proof (ctx_split _ _ _ _ _ _ Hctx) as [Hlt Hge _].
  rewrite (entries_towers knil vnil lessThan _ _ _ _ Hsh).
  split; intros j e Hj; rewrite !list_lookup_fmap;
    destruct (ts !! j) as [[a ht]|] eqn:Ha; simpl; try done; intros [= <-]; simpl.
  - apply (Hlt (S j) a ht); [lia|done].
  - apply (Hge (S j) a ht); [lia|done].
Qed.

(** The cursor on a tower. *)
Lemma cursor_tower h s L ts m :
  shape h s L ts →
  cursor h s (S m) = match ts !! m with
                     | Some (a, _) => iter_at a <$> h !! a
                     | None => None
                     end.
Proof.
  intros Hsh. unfold cursor.
  rewrite (steps_tower h ((header s, L) :: ts) (shape_nodes _ _ _ _ _ _ Hsh)
             (shape_low1 _ _ _ _ _ _ Hsh) (S m) 0 (header s) L eq_refl).
  simpl. by destruct (ts !! m) as [[a ht]|].
Qed.

Lemma cursor_entry h s L ts m :
  shape h s L ts →
  (λ it, (Key it, Value it)) <$> cursor h s (S m) = entries h s !! m.
Proof.
  intros Hsh. rewrite (cursor_tower _ _ _ _ _ Hsh).
  rewrite (entries_towers knil vnil lessThan _ _ _ _ Hsh), !list_lookup_fmap.
  destruct (ts !! m) as [[a ht]|] eqn:Ha; [|done]. simpl.
  destruct (tower_node h ((header s, L) :: ts) (shape_nodes _ _ _ _ _ _ Hsh)
              (shape_low1 _ _ _ _ _ _ Hsh) (S m) a ht Ha) as (n & Hn & _).
  rewrite Hn. simpl. f_equal. symmetry. by apply entry_of_node.
Qed.

Lemma lower_bound_found h s L ts k r :
  shape h s L ts → search_ctx h ((header s, L) :: ts) k r →
  getLowerBound lessThan h (header s) k = Ok (fst <$> ts !! r) ∧
  ∀ a, fst <$> ts !! r = Some a →
       ∃ n, h !! a = Some n ∧ cursor h s (S r) = Some (iter_at a n) ∧
            entries h s !! r = Some (key n, value n).
Proof.
  intros Hsh Hctx. split; [by apply (getLowerBound_spec knil lessThan h s L ts)|].
  intros a Ha. destruct (ts !! r) as [[a' ht]|] eqn:Hr; [|done].
  simpl in Ha. injection Ha as ->.
  destruct (tower_node h ((header s, L) :: ts) (shape_nodes _ _ _ _ _ _ Hsh)
              (shape_low1 _ _ _ _ _ _ Hsh) (S r) a ht Hr) as (n & Hn & _).
  exists n. split; [done|].
  pose proof (cursor_entry h s L ts r Hsh) as Hce.
  rewrite (cursor_tower _ _ _ _ _ Hsh), Hr, Hn in Hce |- *. simpl in *.
  split; [done|]. by rewrite <- Hce.
Qed.

End Seeking.

Section SeekTheorems.

Context {K V : Type} `{EqDecision K}.
Variable knil : K.
Variable vnil : V.
Variable lessThan : K → K → bool.
Hypothesis lt_irrefl : ∀ a, lessThan a a = false.
Hypothesis lt_trans : ∀ a b c, lessThan a b = true → lessThan b c = true →
                               lessThan a c = true.
Hypothesis lt_total : ∀ a b, a ≠ knil → b ≠ knil → a ≠ b →
                             lessThan a b = false → lessThan b a = true.

Local Abbreviation heap := (heap K V).
Local Abbreviation node := (node (K := K) (V := V)).
Local Abbreviation iter := (iter (K := K) (V := V)).
Local Abbreviation keyof := (keyof knil).
Local Abbreviation shape := (shape knil lessThan).
Local Abbreviation Inv := (Inv knil lessThan).
Local Abbreviation reachable := (reachable knil vnil lessThan).
Local Abbreviation entries := (entries knil vnil).
Local Abbreviation lower_bound := (lower_bound lessThan).

Implicit Types (h : heap) (s : SkipList) (ts : list tower) (n : node) (it : iter).

(** X10: [GetGreaterOrEqual min] returns the first entry whose
    key is not below [min], with true, and [(nil, nil, false)] when all
    keys are below [min]. *)
Theorem GetGreaterOrEqual_spec h s min :
  reachable h s →
  ∃ r, lower_bound (entries h s) min r ∧
       GetGreaterOrEqual knil vnil lessThan h s min =
       Ok (match entries h s !! r with
           | Some (k, v) => (k, v, true)
           | None => (knil, vnil, false)
           end).
Proof using EqDecision0 K V knil vnil lessThan lt_irrefl lt_trans lt_total.
  intros Hreach.
  destruct (reachable_Inv knil vnil lessThan lt_irrefl lt_trans lt_total h s Hreach)
    as (L & ts & Hsh & _).
  destruct (shape_search_ctx knil lessThan lt_trans h s L ts min Hsh) as [r Hctx].
  exists r. split; [by apply (entries_split knil vnil lessThan h s L ts)|].
  destruct (lower_bound_found knil vnil lessThan h s L ts min r Hsh Hctx) as [Hlb Hat].
  unfold GetGreaterOrEqual. rewrite Hlb. cbn [rbind].
  destruct (fst <$> ts !! r) as [a|] eqn:Ha.
  - destruct (Hat a eq_refl) as (n & Hn & _ & ->). by rewrite (load_Ok _ _ _ Hn).
  - rewrite (entries_towers knil vnil lessThan _ _ _ _ Hsh), !list_lookup_fmap.
    by destruct (ts !! r).
Qed.

(** X11: [Seek k] returns the cursor on the first node whose key
    is not below [k], showing the key and the value of its entry, and
    the nil cursor when all keys are below [k]. *)
Theorem Seek_spec h s k :
  reachable h s →
  ∃ r, lower_bound (entries h s) k r ∧
       SkipList_Seek lessThan h s k = Ok (cursor h s (S r)) ∧
       (λ it, (Key it, Value it)) <$> cursor h s (S r) = entries h s !! r.
Proof using EqDecision0 K V knil vnil lessThan lt_irrefl lt_trans lt_total.
  intros Hreach.
  destruct (reachable_Inv knil vnil lessThan lt_irrefl lt_trans lt_total h s Hreach)
    as (L & ts & Hsh & _).
  destruct (shape_search_ctx knil lessThan lt_trans h s L ts k Hsh) as [r Hctx].
  exists r. split; [by apply (entries_split knil vnil lessThan h s L ts)|].
  split; [|by apply (cursor_entry knil vnil lessThan h s L ts)].
  destruct (lower_bound_found knil vnil lessThan h s L ts k r Hsh Hctx) as [Hlb Hat].
  unfold SkipList_Seek. rewrite Hlb. cbn [rbind].
  destruct (fst <$> ts !! r) as [a|] eqn:Ha.
  - destruct (Hat a eq_refl) as (n & Hn & -> & _). by rewrite (load_Ok _ _ _ Hn).
  - rewrite (cursor_tower knil lessThan _ _ _ _ _ Hsh). by destruct (ts !! r).
Qed.

(** X12: [SeekToLast] returns the nil cursor on an empty
    engine and otherwise the cursor on the last node, which shows the
    last entry. *)
Theorem SeekToLast_spec h s :
  reachable h s →
  SeekToLast h s
    = Ok (if decide (Len s = 0) then None else cursor h s (Z.to_nat (Len s))) ∧
  (Len s ≠ 0 →
   (λ it, (Key it, Value it)) <$> cursor h s (Z.to_nat (Len s)) = last (entries h s)).
Proof using EqDecision0 K V knil vnil lessThan lt_irrefl lt_trans lt_total.
  intros Hreach.
  destruct (reachable_Inv knil vnil lessThan lt_irrefl lt_trans lt_total h s Hreach)
    as (L & ts & Hsh & _ & Hb).
  pose proof (back_footer _ _ _ _ Hb) as Hfoot.
  unfold Len, SeekToLast. rewrite (shape_length _ _ _ _ _ _ Hsh), Hfoot.
  destruct (decide (length ts = 0)%nat) as [Hz|Hnz].
  { apply nil_length_inv in Hz as ->. simpl. by split. }
  rewrite decide_False by lia. rewrite Nat2Z.id.
  assert (length ts = S (length ts - 1)) as Hlen by lia.
  destruct (lookup_lt_is_Some_2 ts (length ts - 1)) as [[a ht] Ha]; [lia|].
  destruct (tower_node h ((header s, L) :: ts) (shape_nodes _ _ _ _ _ _ Hsh)
              (shape_low1 _ _ _ _ _ _ Hsh) (S (length ts - 1)) a ht Ha) as (n & Hn & _).
  split.
  - rewrite Hlen at 1. rewrite (cursor_tower knil lessThan _ _ _ _ _ Hsh), Ha, Hn.
    rewrite last_lookup, length_fmap, list_lookup_fmap.
    replace (Nat.pred (length ts)) with (length ts - 1)%nat by lia.
    rewrite Ha. simpl. by rewrite (load_Ok _ _ _ Hn).
  - intros _. rewrite Hlen at 1.
    rewrite (cursor_entry knil vnil lessThan h s L ts _ Hsh).
    rewrite last_lookup, (entries_length knil vnil lessThan _ _ _ _ Hsh).
    by replace (Nat.pred (length ts)) with (length ts - 1)%nat by lia.
Qed.

(** Where [iter.Seek] starts its search: not after the lower bound. *)
Lemma seek_reset h s L ts k r p0 c0 ht0 cn0 :
  Inv h s L ts → search_ctx knil lessThan h ((header s, L) :: ts) k r → k ≠ knil →
  ((header s, L) :: ts) !! p0 = Some (c0, ht0) → h !! c0 = Some cn0 →
  ∃ p1 ht1,
    ((header s, L) :: ts) !!  p1
      = Some (if bool_decide (key cn0 ≠ knil) && lessThan k (key cn0)
              then header s else c0, ht1) ∧
    (p1 ≤ S r)%nat.
Proof using EqDecision0 K V knil lessThan lt_trans lt_total.
  intros (Hsh & _ & Hb) Hctx Hk Hp0 Hcn0.
  destruct (bool_decide (key cn0 ≠ knil) && lessThan k (key cn0)) eqn:Hcond.
  { exists 0%nat, L. split; [done|lia]. }
  exists p0, ht0. split; [done|].
  destruct p0 as [|j]; [lia|]. rewrite lookup_towers in Hp0.
  destruct (decide (S j ≤ S r)%nat) as [|Hgt]; [done|]. exfalso.
  assert (keyof h c0 = key cn0) as Hkey by (unfold Skiplist.keyof; by rewrite Hcn0).
  assert (keyof h c0 ≠ knil) as Hnn.
  { apply (back_nonnil _ _ _ _ Hb). apply list_elem_of_fmap. exists (c0, ht0).
    split; [done|]. by eapply list_elem_of_lookup_2. }
  rewrite Hkey in Hnn. rewrite bool_decide_true in Hcond by done. simpl in Hcond.
  destruct (lookup_lt_is_Some_2 ts r) as [[b hb] Hb'].
  { pose proof (lookup_lt_Some _ _ _ Hp0). lia. }
  pose proof (split_ge _ _ _ _ _ _ (ctx_split _ _ _ _ _ _ Hctx) (S r) b hb
                ltac:(lia) Hb') as Hbk.
  pose proof (shape_sorted _ _ _ _ _ _ Hsh r j b c0 ltac:(lia)) as Hso.
  rewrite !list_lookup_fmap, Hb', Hp0 in Hso. specialize (Hso eq_refl eq_refl).
  rewrite Hkey in Hso.
  assert (keyof h b ≠ knil) as Hbn.
  { apply (back_nonnil _ _ _ _ Hb). apply list_elem_of_fmap. exists (b, hb).
    split; [done|]. by eapply list_elem_of_lookup_2. }
  destruct (decide (keyof h b = k)) as [Heq|Hne].
  { rewrite Heq in Hso. by rewrite Hso in Hcond. }
  pose proof (lt_total _ _ Hbn Hk Hne Hbk) as Hkb.
  by rewrite (lt_trans _ _ _ Hkb Hso) in Hcond.
Qed.

Lemma seek_back h s L ts r p1 c1 ht1 cn1 :
  Inv h s L ts →
  ((header s, L) :: ts) !! p1 = Some (c1, ht1) → h !! c1 = Some cn1 → (p1 ≤ S r)%nat →
  ∃ p2 ht2,
    ((header s, L) :: ts) !! p2
      = Some (match backward cn1 with None => header s | Some b => b end, ht2) ∧
    (p2 ≤ r)%nat.
Proof.
  intros (Hsh & _ & Hb) Hp1 Hcn1 Hle.
  destruct p1 as [|j].
  { injection Hp1 as <- <-. destruct (back_header _ _ _ _ Hb) as (hd & Hhd & Hbk & _).
    rewrite Hhd in Hcn1. injection Hcn1 as <-. rewrite Hbk.
    exists 0%nat, L. split; [done|lia]. }
  rewrite lookup_towers in Hp1.
  destruct (back_nodes _ _ _ _ Hb j c1) as (n & Hn & Hbk).
  { by rewrite list_lookup_fmap, Hp1. }
  rewrite Hn in Hcn1. injection Hcn1 as <-. rewrite Hbk.
  destruct j as [|j']; [exists 0%nat, L; split; [done|lia]|].
  destruct (lookup_lt_is_Some_2 ts j') as [[b hb] Hb'].
  { pose proof (lookup_lt_Some _ _ _ Hp1). lia. }
  rewrite list_lookup_fmap, Hb'. simpl.
  exists (S j'), hb. split; [done|lia].
Qed.

Lemma iter_Seek_found h s it k :
  reachable h s → k ≠ knil → (∀ a, current it = Some a → live h s a) →
  ∃ r, lower_bound (entries h s) k r ∧
       iter_Seek knil lessThan h s it k =
       Ok (match cursor h s (S r) with
           | Some it' => (it', true)
           | None => (it, false)
           end).
Proof using EqDecision0 K V knil vnil lessThan lt_irrefl lt_trans lt_total.
  intros Hreach Hk Hlive.
  destruct (reachable_Inv knil vnil lessThan lt_irrefl lt_trans lt_total h s Hreach)
    as (L & ts & HInv).
  pose proof HInv as (Hsh & _).
  destruct (shape_search_ctx knil lessThan lt_trans h s L ts k Hsh) as [r Hctx].
  exists r. split; [by apply (entries_split knil vnil lessThan h s L ts)|].
  pose proof (shape_nodes _ _ _ _ _ _ Hsh) as Hok.
  assert (∃ p0 ht0, ((header s, L) :: ts) !! p0
            = Some (match current it with None => header s | Some a => a end, ht0))
    as (p0 & ht0 & Hp0).
  { destruct (current it) as [a|]; [|by exists 0%nat, L].
    specialize (Hlive a eq_refl).
    apply (shape_live knil lessThan _ _ _ _ _ Hsh) in Hlive.
    apply elem_of_cons in Hlive as [->|Hin]; [by exists 0%nat, L|].
    apply list_elem_of_fmap in Hin as ([a' ht] & -> & Hin).
    apply list_elem_of_lookup in Hin as [j Hj]. by exists (S j), ht. }
  unfold iter_Seek. cbv zeta.
  destruct (nodes_ok_load knil h _ p0 _ ht0 Hok Hp0) as (cn0 & Hcn0 & _).
  rewrite (load_Ok _ _ _ Hcn0). cbn [rbind].
  destruct (seek_reset h s L ts k r p0 _ ht0 cn0 HInv Hctx Hk Hp0 Hcn0)
    as (p1 & ht1 & Hp1 & Hle1).
  destruct (nodes_ok_load knil h _ p1 _ ht1 Hok Hp1) as (cn1 & Hcn1 & _).
  rewrite (load_Ok _ _ _ Hcn1). cbn [rbind].
  destruct (seek_back h s L ts r p1 _ ht1 cn1 HInv Hp1 Hcn1 Hle1)
    as (p2 & ht2 & Hp2 & Hle2).
  rewrite (getLowerBound_from knil lessThan h _ k r p2 _ ht2 Hctx Hp2 Hle2).
  cbn [rbind]. rewrite lookup_towers.
  destruct (lower_bound_found knil vnil lessThan h s L ts k r Hsh Hctx) as [_ Hat].
  destruct (fst <$> ts !! r) as [a|] eqn:Ha.
  - destruct (Hat a eq_refl) as (n & Hn & -> & _). by rewrite (load_Ok _ _ _ Hn).
  - rewrite (cursor_tower knil lessThan _ _ _ _ _ Hsh). by destruct (ts !! r).
Qed.


(** X14: [Seek k] on a range cursor that stands on a node of
    the list returns false without moving when [k] is below the lower
    limit or not below the upper limit; otherwise it moves to the first
    node whose key is not below [k], whatever that key is, and returns
    true, or returns false when there is no such node. *)
Theorem rangeIterator_Seek_spec h s ri k :
  reachable h s → k ≠ knil → (∀ a, current (riter ri) = Some a → live h s a) →
  ∃ r, lower_bound (entries h s) k r ∧
       rangeIterator_Seek knil lessThan h s ri k =
       Ok (if lessThan k (lowerLimit ri) || negb (lessThan k (upperLimit ri))
           then (ri, false)
           else match cursor h s (S r) with
                | Some it' => (mkRangeIterator it' (upperLimit ri) (lowerLimit ri), true)
                | None => (ri, false)
                end).
Proof using EqDecision0 K V knil vnil lessThan lt_irrefl lt_trans lt_total.
  intros Hreach Hk Hlive.
  destruct (iter_Seek_found h s (riter ri) k Hreach Hk Hlive) as (r & Hlb & Hseek).
  exists r. split; [done|]. unfold rangeIterator_Seek.
  destruct (lessThan k (lowerLimit ri)); [done|].
  destruct (lessThan k (upperLimit ri)); [|done]. simpl.
  rewrite Hseek. cbn [rbind]. destruct (cursor h s (S r)); [done|]. by destruct ri.
Qed.

(** X15: the loop [for i := s.Iterator(); i.Next(); {}] sees
    the keys of all entries in their order: as many calls of [Next] as
    there are entries succeed and show these keys, and the next call
    returns false. *)
Theorem Iterator_visits_all h s :
  reachable h s →
  ∃ it, moves iter_Next (length (entries h s)) h (Iterator knil vnil s)
          = Some ((entries h s).*1, it) ∧
        iter_Next h it = Ok (it, false).
Proof using EqDecision0 K V knil vnil lessThan lt_irrefl lt_trans lt_total.
  intros Hreach.
  destruct (reachable_Inv knil vnil lessThan lt_irrefl lt_trans lt_total h s Hreach)
    as (L & ts & HInv).
  pose proof (Inv_wf knil lessThan _ _ _ _ HInv) as Hwf. pose proof HInv as (Hsh & _).
  rewrite (entries_length knil vnil lessThan _ _ _ _ Hsh),
    (entries_keys knil vnil lessThan _ _ _ _ Hsh).
  destruct (tower_node h ((header s, L) :: ts) (shape_nodes _ _ _ _ _ _ Hsh)
              (shape_low1 _ _ _ _ _ _ Hsh) 0 (header s) L eq_refl) as (hd & Hhd & _ & Hnext).
  rewrite lookup_towers in Hnext.
  assert (iter_Next h (Iterator knil vnil s) =
          match ts !! 0%nat with
          | Some (a, _) => do n <- load h a; Ok (iter_at a n, true)
          | None => Ok (Iterator knil vnil s, false)
          end) as Hfirst.
  { unfold iter_Next, Iterator. cbn [current deref]. rewrite (load_Ok _ _ _ Hhd).
    cbn [rbind]. unfold hasNext. rewrite Hnext.
    destruct (ts !! 0%nat) as [[a ht]|]; simpl; [|done].
    by destruct (load h a). }
  destruct ts as [|[a0 h0] ts'] eqn:Hts.
  { simpl. exists (Iterator knil vnil s). by rewrite Hfirst. }
  rewrite <- Hts in *. assert (ts !! 0%nat = Some (a0, h0)) as H0 by (by rewrite Hts).
  rewrite H0 in Hfirst.
  destruct (tower_node h ((header s, L) :: ts) (shape_nodes _ _ _ _ _ _ Hsh)
              (shape_low1 _ _ _ _ _ _ Hsh) 1 a0 h0 H0) as (n0 & Hn0 & _).
  rewrite (load_Ok _ _ _ Hn0) in Hfirst. cbn [rbind] in Hfirst.
  assert (length ts = S (length ts')) as Hlen by (by rewrite Hts).
  assert (ts.*1 !! 0%nat = Some a0) as Ha0 by (by rewrite list_lookup_fmap, H0).
  destruct (moves_Next knil lessThan h s L ts (length ts') 0 a0 n0 Hwf Ha0 Hn0 ltac:(lia))
    as (b & nb & Hb & Hnb & Hmoves).
  exists (iter_at b nb). split.
  - rewrite Hlen. cbn [moves]. rewrite Hfirst, Hmoves. cbn [fmap option_fmap option_map].
    f_equal. f_equal. cbn [Key ikey iter_at fst].
    rewrite take_ge by (rewrite length_drop, length_fmap; lia).
    rewrite Hts. simpl. rewrite drop_0. f_equal.
    unfold Skiplist.keyof. by rewrite Hn0.
  - rewrite (iter_Next_spec knil lessThan h s L ts _ b nb Hwf Hb Hnb).
    rewrite (lookup_ge_None_2 (ts.*1)); [done|]. rewrite length_fmap. simpl. lia.
Qed.

End SeekTheorems.

(** * The type [Set], and empty engines *)

Section OrderedSet.

Context {K V : Type} `{EqDecision K}.
Variable knil : K.
Variable vnil : V.
Variable lessThan : K → K → bool.
Hypothesis lt_irrefl : ∀ a, lessThan a a = false.
Hypothesis lt_trans : ∀ a b c, lessThan a b = true → lessThan b c = true →
                               lessThan a c = true.
Hypothesis lt_total : ∀ a b, a ≠ knil → b ≠ knil → a ≠ b →
                             lessThan a b = false → lessThan b a = true.

Local Abbreviation heap := (heap K V).
Local Abbreviation keyof := (keyof knil).
Local Abbreviation shape := (shape knil lessThan).
Local Abbreviation Inv := (Inv knil lessThan).
Local Abbreviation reachable := (reachable knil vnil lessThan).
Local Abbreviation entries := (entries knil vnil).
Local Abbreviation Set_Contains := (Set_Contains vnil lessThan).

Implicit Types (h : heap) (s : SkipList) (ts : list tower).

(** X16: [Add k] with an element that is not nil returns; the
    set then contains [k], contains any other element exactly if it did
    before, and has grown by one exactly if it did not contain [k]. *)
Theorem Set_Add_spec h s rg k :
  reachable h s → k ≠ knil →
  ∃ h' s' rg' b,
    Set_Add knil vnil lessThan h s rg k = Ok (h', s', rg') ∧
    Set_Contains h s k = Ok b ∧
    Set_Len s' = Set_Len s + (if b then 0 else 1) ∧
    ∀ k', Set_Contains h' s' k' =
          if decide (k' = k) then Ok true else Set_Contains h s k'.
Proof using EqDecision0 K V knil vnil lessThan lt_irrefl lt_trans lt_total.
  intros Hreach Hk. unfold Set_Add, Skiplist.Set_Contains, Set_Len.
  destruct (Set_entries_frame knil vnil lessThan lt_irrefl lt_trans lt_total h s rg k vnil
              Hreach Hk) as (h' & s' & rg' & i & Hset & _ & Hcase).
  destruct (Set_Get_frame knil vnil lessThan lt_irrefl lt_trans lt_total h s rg k vnil
              Hreach Hk) as (h2 & s2 & rg2 & Hset2 & Hframe).
  rewrite Hset in Hset2. injection Hset2 as <- <- <-.
  destruct (reachable_Inv knil vnil lessThan lt_irrefl lt_trans lt_total h s Hreach)
    as (L & ts & Hsh & _).
  assert (∀ k', (do res <- Get vnil lessThan h' s' k'; Ok res.2) =
                if decide (k' = k) then Ok true
                else do res <- Get vnil lessThan h s k'; Ok res.2) as Hc.
  { intros k'. rewrite Hframe. by destruct (decide (k' = k)). }
  destruct Hcase as [([v0 Hold] & _ & Hlen)|(Hnew & _ & Hlen)].
  - exists h', s', rg', true. split; [done|].
    rewrite (Get_entry knil vnil lessThan lt_irrefl lt_trans h s L ts i k v0 Hsh Hold).
    split; [done|]. split; [lia|done].
  - exists h', s', rg', false. split; [done|].
    rewrite (Get_no_entry knil vnil lessThan lt_trans h s L ts k Hsh Hnew).
    split; [done|]. split; [lia|done].
Qed.

(** X17: on a set lower than [MaxLevel], [Remove k] returns
    whether the set contained [k]; afterwards the set does not contain
    [k], contains any other element exactly if it did before, and has
    shrunk by one exactly if it contained [k]. *)
Theorem Set_Remove_spec h s k lv :
  reachable h s → k ≠ knil → level_of h s = Ok lv → lv < MaxLevel s →
  ∃ h' s' b,
    Set_Remove knil vnil lessThan h s k = Ok (h', s', b) ∧
    Set_Contains h s k = Ok b ∧
    Set_Len s' = Set_Len s - (if b then 1 else 0) ∧
    ∀ k', Set_Contains h' s' k' =
          if decide (k' = k) then Ok false else Set_Contains h s k'.
Proof using EqDecision0 K V knil vnil lessThan lt_irrefl lt_trans lt_total.
  intros Hreach Hk Hlv HM. unfold Set_Remove, Skiplist.Set_Contains, Set_Len.
  destruct (Delete_Get_frame knil vnil lessThan lt_irrefl lt_trans lt_total h s k lv
              Hreach Hk Hlv HM) as (h' & s' & res & Hdel & Hget & Hframe).
  exists h', s', res.2. rewrite Hdel, Hget. cbn [rbind]. split; [done|]. split; [done|].
  split.
  2:{ intros k'. rewrite Hframe. by destruct (decide (k' = k)). }
  destruct (reachable_Inv knil vnil lessThan lt_irrefl lt_trans lt_total h s Hreach)
    as (L & ts & HInv).
  pose proof HInv as (Hsh & _).
  destruct (decide (k ∈ (entries h s).*1)) as [Hin|Hout].
  - apply list_elem_of_fmap in Hin as ([k0 v] & -> & Hin). simpl in *.
    apply list_elem_of_lookup in Hin as [i Hi].
    destruct (Delete_entries_frame knil vnil lessThan lt_irrefl lt_trans lt_total h s k0 i v
                lv Hreach Hk Hlv HM Hi) as (h2 & s2 & Hdel2 & _ & _ & Hlen).
    rewrite Hdel in Hdel2. injection Hdel2 as <- <- ->. simpl. done.
  - rewrite (Get_no_entry knil vnil lessThan lt_trans h s L ts k Hsh Hout) in Hget.
    injection Hget as <-. simpl.
    rewrite (Delete_absent knil vnil lessThan lt_trans h s L ts k HInv Hk) in Hdel.
    + injection Hdel as <- <-. lia.
    + rewrite (level_of_shape knil lessThan h s L ts lv Hsh Hlv) in HM. lia.
    + intros a Ha Heq. apply Hout.
      rewrite (entries_keys knil vnil lessThan _ _ _ _ Hsh).
      apply list_elem_of_fmap. by exists a.
Qed.

(** X18: [Clear] and [NewCustomMap] give an engine without
    entries, of length 0 and level 0, in which [Get] finds nothing and
    [SeekToFirst] and [SeekToLast] return the nil cursor; [Clear] keeps
    [MaxLevel], and a new engine has the default, 32. *)
Theorem empty_engines h s :
  let c := Clear knil vnil h s in
  let m := NewCustomMap knil vnil h in
  (entries c.1 c.2 = [] ∧ Len c.2 = 0 ∧ level_of c.1 c.2 = Ok 0 ∧
   MaxLevel c.2 = MaxLevel s ∧
   (∀ k, Get vnil lessThan c.1 c.2 k = Ok (vnil, false)) ∧
   SeekToFirst c.1 c.2 = Ok None ∧ SeekToLast c.1 c.2 = Ok None) ∧
  (entries m.1 m.2 = [] ∧ Len m.2 = 0 ∧ level_of m.1 m.2 = Ok 0 ∧
   MaxLevel m.2 = 32 ∧
   (∀ k, Get vnil lessThan m.1 m.2 k = Ok (vnil, false)) ∧
   SeekToFirst m.1 m.2 = Ok None ∧ SeekToLast m.1 m.2 = Ok None).
Proof using EqDecision0 K V knil vnil lessThan lt_trans.
  intros c m.
  pose proof (Clear_Inv knil vnil lessThan h s) as (Hc & _).
  pose proof (NewCustomMap_Inv knil vnil lessThan h) as (Hm & _).
  fold c in Hc. fold m in Hm. split.
  - split; [by rewrite (entries_towers knil vnil lessThan _ _ _ _ Hc)|].
    split; [done|].
    split; [by rewrite (shape_level_of knil lessThan _ _ _ _ Hc)|].
    split; [done|].
    split; [|done].
    intros k. apply (Get_absent knil vnil lessThan lt_trans c.1 c.2 1 []); [done|].
    intros a Ha. by apply elem_of_nil in Ha.
  - split; [by rewrite (entries_towers knil vnil lessThan _ _ _ _ Hm)|].
    split; [done|].
    split; [by rewrite (shape_level_of knil lessThan _ _ _ _ Hm)|].
    split; [done|].
    split; [|done].
    intros k. apply (Get_absent knil vnil lessThan lt_trans m.1 m.2 1 []); [done|].
    intros a Ha. by apply elem_of_nil in Ha.
Qed.

End OrderedSet.

(** Seeking and the set operations at the keys 10, 20 and 30. *)

Lemma GetGreaterOrEqual_spec_witness :
  ∃ r, lower_bound int_less (entries None None (store demo) (engine demo)) (Some 15) r ∧
       GetGreaterOrEqual None None int_less (store demo) (engine demo) (Some 15) =
       Ok (match entries None None (store demo) (engine demo) !! r with
           | Some (k, v) => (k, v, true)
           | None => (None, None, false)
           end).
Proof.
  apply (GetGreaterOrEqual_spec None None int_less int_less_irrefl int_less_trans
           int_less_total (store demo) (engine demo) (Some 15) demo_reachable).
Defined.

Lemma Seek_spec_witness :
  ∃ r, lower_bound int_less (entries None None (store demo) (engine demo)) (Some 15) r ∧
       SkipList_Seek int_less (store demo) (engine demo) (Some 15)
         = Ok (cursor (store demo) (engine demo) (S r)) ∧
       (λ it, (Key it, Value it)) <$> cursor (store demo) (engine demo) (S r)
         = entries None None (store demo) (engine demo) !! r.
Proof.
  apply (Seek_spec None None int_less int_less_irrefl int_less_trans
           int_less_total (store demo) (engine demo) (Some 15) demo_reachable).
Defined.

Lemma SeekToLast_spec_witness :
  SeekToLast (store demo) (engine demo)
    = Ok (if decide (Len (engine demo) = 0) then None
          else cursor (store demo) (engine demo) (Z.to_nat (Len (engine demo)))) ∧
  (Len (engine demo) ≠ 0 →
   (λ it, (Key it, Value it))
     <$> cursor (store demo) (engine demo) (Z.to_nat (Len (engine demo)))
   = last (entries None None (store demo) (engine demo))).
Proof.
  apply (SeekToLast_spec None None int_less int_less_irrefl int_less_trans
           int_less_total (store demo) (engine demo) demo_reachable).
Defined.


Lemma rangeIterator_Seek_spec_witness :
  let ri := mkRangeIterator (mkIter (Some 2%nat) (Some 30) (Some 300)) (Some 40) (Some 5) in
  ∃ r, lower_bound int_less (entries None None (store demo) (engine demo)) (Some 15) r ∧
       rangeIterator_Seek None int_less (store demo) (engine demo) ri (Some 15) =
       Ok (if int_less (Some 15) (lowerLimit ri) || negb (int_less (Some 15) (upperLimit ri))
           then (ri, false)
           else match cursor (store demo) (engine demo) (S r) with
                | Some it' => (mkRangeIterator it' (upperLimit ri) (lowerLimit ri), true)
                | None => (ri, false)
                end).
Proof.
  intros ri.
  apply (rangeIterator_Seek_spec None None int_less int_less_irrefl int_less_trans
           int_less_total (store demo) (engine demo) ri (Some 15) demo_reachable).
  - discriminate.
  - intros a [= <-]. exists 3%nat. by vm_compute.
Defined.

Lemma Iterator_visits_all_witness :
  ∃ it, moves iter_Next (length (entries None None (store demo) (engine demo)))
          (store demo) (Iterator None None (engine demo))
          = Some ((entries None None (store demo) (engine demo)).*1, it) ∧
        iter_Next (store demo) it = Ok (it, false).
Proof.
  apply (Iterator_visits_all None None int_less int_less_irrefl int_less_trans
           int_less_total (store demo) (engine demo) demo_reachable).
Defined.

Lemma Set_Add_spec_witness :
  ∃ h' s' rg' b,
    Set_Add None None int_less (store demo) (engine demo) coin (Some 25)
      = Ok (h', s', rg') ∧
    Set_Contains None int_less (store demo) (engine demo) (Some 25) = Ok b ∧
    Set_Len s' = Set_Len (engine demo) + (if b then 0 else 1) ∧
    ∀ k', Set_Contains None int_less h' s' k' =
          if decide (k' = Some 25) then Ok true
          else Set_Contains None int_less (store demo) (engine demo) k'.
Proof.
  apply (Set_Add_spec None None int_less int_less_irrefl int_less_trans
           int_less_total (store demo) (engine demo) coin (Some 25) demo_reachable).
  discriminate.
Defined.

Lemma Set_Remove_spec_witness :
  ∃ h' s' b,
    Set_Remove None None int_less (store demo) (engine demo) (Some 20) = Ok (h', s', b) ∧
    Set_Contains None int_less (store demo) (engine demo) (Some 20) = Ok b ∧
    Set_Len s' = Set_Len (engine demo) - (if b then 1 else 0) ∧
    ∀ k', Set_Contains None int_less h' s' k' =
          if decide (k' = Some 20) then Ok false
          else Set_Contains None int_less (store demo) (engine demo) k'.
Proof.
  apply (Set_Remove_spec None None int_less int_less_irrefl int_less_trans
           int_less_total (store demo) (engine demo) (Some 20) 1 demo_reachable).
  - discriminate.
  - by vm_compute.
  - by vm_compute.
Defined.

Lemma empty_engines_witness :
  let c := Clear None None (store demo) (engine demo) in
  let m := NewCustomMap (@None Z) (@None Z) (store demo) in
  (entries None None c.1 c.2 = [] ∧ Len c.2 = 0 ∧ level_of c.1 c.2 = Ok 0 ∧
   MaxLevel c.2 = MaxLevel (engine demo) ∧
   (∀ k, Get None int_less c.1 c.2 k = Ok (None, false)) ∧
   SeekToFirst c.1 c.2 = Ok None ∧ SeekToLast c.1 c.2 = Ok None) ∧
  (entries None None m.1 m.2 = [] ∧ Len m.2 = 0 ∧ level_of m.1 m.2 = Ok 0 ∧
   MaxLevel m.2 = 32 ∧
   (∀ k, Get None int_less m.1 m.2 k = Ok (None, false)) ∧
   SeekToFirst m.1 m.2 = Ok None ∧ SeekToLast m.1 m.2 = Ok None).
Proof.
  apply (empty_engines None None int_less int_less_trans (store demo) (engine demo)).
Defined.

(** * The sorted set under [Add], [Update] and [Remove] *)

Lemma wrap64_small z :
  -9223372036854775808 ≤ z < 9223372036854775808 → wrap64 z = z.
Proof.
  intros Hz. unfold wrap64.
  rewrite Z.mod_small by lia. lia.
Qed.

Section Pool.

Context {Sc : Type}.

Local Abbreviation zsetScore := (zsetScore (Sc := Sc)).

Implicit Types (c : list zsetScore) (p : zsetScorePool).

(** What the pool hands out: a cell with the next counter, which was
    waiting in the pool or is new; the other cells stay. *)
Lemma pool_Get_spec c p sc c' p' zs :
  pool_Get c p sc = (c', p', zs) →
  NoDup (pool p) → (∀ x, x ∈ pool p → (x < length c)%nat) →
  0 ≤ pool_counter p < MaxInt64 →
  c' !! zs = Some (mkScore sc (pool_counter p + 1)) ∧
  (∀ x, x ≠ zs → (x < length c)%nat → c' !! x = c !! x) ∧
  (length c ≤ length c')%nat ∧
  pool_counter p' = pool_counter p + 1 ∧
  NoDup (pool p') ∧ (zs ∉ pool p') ∧ (∀ x, x ∈ pool p' → x ∈ pool p) ∧
  (zs ∈ pool p ∨ zs = length c).
Proof.
  unfold pool_Get, MaxInt64. intros Hget Hnd Hlt Hpc.
  rewrite wrap64_small in Hget by lia.
  destruct (pool p) as [|s rest] eqn:Hp; injection Hget as <- <- <-; simpl.
  - split; [by rewrite lookup_app_r, Nat.sub_diag by lia|].
    split; [intros x _ Hx; by rewrite lookup_app_l|].
    split; [rewrite length_app; lia|]. split; [done|].
    split; [apply NoDup_nil_2|]. split; [apply not_elem_of_nil|].
    split; [by intros x Hx; apply elem_of_nil in Hx|by right].
  - apply NoDup_cons in Hnd as [Hs Hnd].
    split; [apply list_lookup_insert_eq, Hlt; left|].
    split; [intros x Hx _; by rewrite list_lookup_insert_ne|].
    split; [by rewrite length_insert|]. split; [done|].
    split; [done|]. split; [done|].
    split; [intros x Hx; by right|left; left].
Qed.

Lemma pool_Put_spec p s :
  NoDup (pool p) → s ∉ pool p →
  NoDup (pool (pool_Put p s)) ∧
  pool_counter (pool_Put p s) = pool_counter p ∧
  ∀ x, x ∈ pool (pool_Put p s) → x ∈ pool p ∨ x = s.
Proof.
  intros Hnd Hs. unfold pool_Put.
  destruct (decide (length (pool p) < pool_cap p)%nat); simpl.
  - split; [|split; [done|]].
    + apply NoDup_app. split; [done|]. split; [|apply NoDup_singleton].
      intros x Hx Hx'. apply list_elem_of_singleton in Hx' as ->. done.
    + intros x Hx. apply elem_of_app in Hx as [?|Hx]; [by left|].
      apply list_elem_of_singleton in Hx. by right.
  - split; [done|]. split; [done|]. intros x Hx. by left.
Qed.

End Pool.

(** ** The members of the list under [Set] and [Delete] *)

Section Members.

Context {K V : Type} `{EqDecision K}.
Variable knil : K.
Variable vnil : V.
Variable lessThan : K → K → bool.
Hypothesis lt_irrefl : ∀ a, lessThan a a = false.
Hypothesis lt_trans : ∀ a b c, lessThan a b = true → lessThan b c = true →
                               lessThan a c = true.

Local Abbreviation heap := (heap K V).
Local Abbreviation keyof := (keyof knil).
Local Abbreviation valueof := (valueof vnil).
Local Abbreviation shape := (shape knil lessThan).
Local Abbreviation Inv := (Inv knil lessThan).
Local Abbreviation entry_of := (entry_of knil vnil).

Implicit Types (h : heap) (s : SkipList) (ts : list tower).

(** [Set] of a key that no node holds adds one node. *)
Lemma Set_fresh h s L ts rg k v :
  Inv h s L ts → k ≠ knil →
  (∀ a, a ∈ ts.*1 → lessThan (keyof h a) k = false → lessThan k (keyof h a) = true) →
  (∀ a, a ∈ ts.*1 → keyof h a ≠ k) →
  ∃ h' s' rg' L' ts' f,
    SkipList_Set knil lessThan h s rg k v = Ok (h', s', rg') ∧
    Inv h' s' L' ts' ∧ MaxLevel s' = MaxLevel s ∧
    (f ∉ ts.*1) ∧ (∀ a, a ∈ ts'.*1 ↔ a = f ∨ a ∈ ts.*1) ∧
    entry_of h' f = (k, v) ∧
    (∀ a, a ∈ ts.*1 → entry_of h' a = entry_of h a).
Proof using EqDecision0 K V knil vnil lessThan lt_irrefl lt_trans.
  intros HInv Hk Htri Hfresh. pose proof HInv as (Hsh & _).
  destruct (SkipList_Set_Inv knil lessThan lt_irrefl lt_trans h s L ts rg k v HInv Hk)
    as (h' & s' & rg' & L' & ts' & i & f & ht & bk & Hset & HInv' & _ & HM & _ & Hf & Hbf
        & Hkv & Hcase).
  { intros a Ha _. by apply Htri. }
  destruct Hcase as [(-> & _ & _ & Hkf)|(-> & -> & _ & _ & _)].
  { exfalso. apply (Hfresh f); [|done]. apply list_elem_of_fmap. exists (f, ht).
    split; [done|]. by eapply list_elem_of_lookup_2. }
  exists h', s', rg', L', (take i ts ++ (length h, ht) :: drop i ts), (length h).
  split; [done|]. split; [done|]. split; [done|].
  assert (∀ a, a ∈ ts.*1 → (a < length h)%nat) as Hlt.
  { intros a Ha. by apply (tower_in_heap knil lessThan h s L ts a Hsh). }
  split; [intros Hin; specialize (Hlt _ Hin); lia|].
  split.
  { intros a. rewrite fmap_app, fmap_cons, elem_of_app, elem_of_cons, fmap_take, fmap_drop.
    simpl.
    assert (a ∈ ts.*1 ↔ a ∈ take i ts.*1 ∨ a ∈ drop i ts.*1) as ->
      by (by rewrite <- elem_of_app, take_drop).
    tauto. }
  split; [by rewrite (entry_of_binfo knil vnil), Hbf|].
  intros a Ha. apply entry_of_same, Hkv; [by apply Hlt|].
  specialize (Hlt _ Ha). lia.
Qed.

(** [Delete] of the key of a node takes this node out. *)
Lemma Delete_member h s L ts a :
  Inv h s L ts → Z.of_nat L ≤ MaxLevel s → a ∈ ts.*1 →
  ∃ h' s' L' ts',
    Delete knil vnil lessThan h s (keyof h a) = Ok (h', s', (valueof h a, true)) ∧
    Inv h' s' L' ts' ∧ MaxLevel s' = MaxLevel s ∧
    (∀ b, b ∈ ts'.*1 ↔ b ∈ ts.*1 ∧ b ≠ a) ∧
    (∀ b, entry_of h' b = entry_of h b).
Proof using EqDecision0 K V knil vnil lessThan lt_irrefl lt_trans.
  intros HInv HM Ha. pose proof HInv as (Hsh & _ & Hb).
  pose proof (back_nonnil _ _ _ _ Hb a Ha) as Hk.
  apply list_elem_of_fmap in Ha as ([a' ht] & -> & Ha).
  apply list_elem_of_lookup in Ha as [i Hi]. simpl in *.
  destruct (live_ctx knil lessThan lt_irrefl lt_trans h s L ts i a' ht Hsh Hi)
    as [Hctx Htgt].
  pose proof (Delete_Inv knil vnil lessThan h s L ts (keyof h a') i HInv Hk HM Hctx) as HD.
  rewrite Htgt in HD.
  destruct HD as (hc & cn & h' & s' & L' & _ & Hcn & _ & Hdel & HInv' & _ & HM' & _ & Hkv).
  exists h', s', L', (take i ts ++ drop (S i) ts).
  split. { rewrite Hdel. unfold Skiplist.valueof. by rewrite Hcn. }
  split; [done|]. split; [done|]. split.
  - intros b. pose proof (shape_nodup _ _ _ _ _ _ Hsh) as Hnd.
    apply NoDup_cons in Hnd as [_ Hnd].
    assert (ts.*1 !! i = Some a') as Hia by (by rewrite list_lookup_fmap, Hi).
    rewrite <- (take_drop_middle _ _ _ Hia) in Hnd |- *.
    rewrite fmap_app, fmap_take, fmap_drop.
    apply NoDup_app in Hnd as (_ & Hdis & Hnd2). apply NoDup_cons in Hnd2 as [Hnot _].
    rewrite !elem_of_app, elem_of_cons. split.
    + intros [Hin|Hin]; (split; [tauto|]); intros ->; [|done].
      apply (Hdis _ Hin). left.
    + intros [[?|[?|?]] Hne]; tauto.
  - intros b. apply entry_of_same, Hkv.
Qed.

(** Different nodes hold different keys. *)
Lemma keys_inj h s L ts a b :
  shape h s L ts → a ∈ ts.*1 → b ∈ ts.*1 → keyof h a = keyof h b → a = b.
Proof using EqDecision0 K V knil vnil lessThan lt_irrefl lt_trans.
  intros Hsh Ha Hb Heq.
  apply list_elem_of_lookup in Ha as [p Hp]. apply list_elem_of_lookup in Hb as [q Hq].
  destruct (Nat.lt_trichotomy p q) as [Hlt|[->|Hlt]].
  - pose proof (shape_sorted _ _ _ _ _ _ Hsh p q a b Hlt Hp Hq) as Hso.
    by rewrite Heq, lt_irrefl in Hso.
  - rewrite Hp in Hq. by injection Hq.
  - pose proof (shape_sorted _ _ _ _ _ _ Hsh q p b a Hlt Hq Hp) as Hso.
    by rewrite Heq, lt_irrefl in Hso.
Qed.

End Members.

(** ** The invariant of the sorted set *)

Section ZInv.

Context {AK Sc : Type} `{Countable AK} `{EqDecision Sc}.
Variable aknil : AK.
Variable scoreLessThan : Sc → Sc → bool.
Hypothesis sc_irrefl : ∀ a, scoreLessThan a a = false.
Hypothesis sc_trans : ∀ a b c, scoreLessThan a b = true → scoreLessThan b c = true →
                               scoreLessThan a c = true.
Hypothesis sc_total : ∀ a b, a ≠ b → scoreLessThan a b = false →
                             scoreLessThan b a = true.

Local Abbreviation zless := (zless scoreLessThan).
Local Abbreviation zworld := (zworld (AK := AK) (Sc := Sc)).
Local Abbreviation ZSet := (ZSet (AK := AK)).
Local Abbreviation zset_ok := (zset_ok aknil scoreLessThan).
Local Abbreviation zset_inv := (zset_inv aknil scoreLessThan).
Local Abbreviation Add := (Add aknil scoreLessThan).
Local Abbreviation Remove := (Remove aknil scoreLessThan).
Local Abbreviation Update := (Update aknil scoreLessThan).

Implicit Types (w : zworld) (z : ZSet) (l : list addr).

(** A cell with a later counter comes after the cells it does not come
    before. *)
Lemma zless_new c zs sc n ca za :
  c !! zs = Some (mkScore sc n) → c !! ca = Some za → counter za < n →
  zless c (Some ca) (Some zs) = false → zless c (Some zs) (Some ca) = true.
Proof using sc_total.
  intros Hzs Hca Hn.
  rewrite (zless_valid scoreLessThan c ca zs _ _ Hca Hzs),
    (zless_valid scoreLessThan c zs ca _ _ Hzs Hca). simpl.
  destruct (scoreLessThan (score za) sc) eqn:Hlt; [done|].
  destruct (decide (score za = sc)) as [Heq|Hne].
  { rewrite bool_decide_true by done. done. }
  intros _. by rewrite (sc_total _ _ Hne Hlt).
Qed.

Lemma Add_new_inv w z l k sc :
  zset_inv w z l → key2Score z !! k = None →
  pool_counter (zpool z) < MaxInt64 →
  ∃ w' z' l' zs,
    Add w z k sc = Ok (w', z', true) ∧
    zset_inv w' z' l' ∧
    key2Score z' = <[k := zs]> (key2Score z) ∧
    zcells w' !! zs = Some (mkScore sc (pool_counter (zpool z) + 1)) ∧
    (∀ k' c, key2Score z !! k' = Some c → zcells w' !! c = zcells w !! c) ∧
    pool_counter (zpool z') = pool_counter (zpool z) + 1 ∧
    MaxLevel (sl z') = MaxLevel (sl z).
Proof using sc_irrefl sc_trans sc_total.
  intros (Hok & Hnd & Hpool & Hpc0 & Hcnt) Hnone Hpc.
  destruct Hok as (L & ts & HInv & -> & Hcells & Hmap).
  unfold Skiplist.Add. rewrite Hnone.
  destruct (pool_Get (zcells w) (zpool z) sc) as [[c' p'] zs] eqn:Hget.
  destruct (pool_Get_spec _ _ _ _ _ _ Hget Hnd (λ x Hx, proj1 (Hpool x Hx))
              (conj Hpc0 Hpc))
    as (Hzs & Hsame & Hlen & Hpc' & Hnd' & Hzsp & Hsub & Hwhere).
  assert (∀ a, a ∈ ts.*1 →
            ∃ ca za, keyof None (zheap w) a = Some ca ∧ zcells w !! ca = Some za ∧
                     0 < counter za ≤ pool_counter (zpool z) ∧ ca ≠ zs ∧
                     c' !! ca = Some za) as Hlive.
  { intros a Ha. destruct (Hcells a Ha) as (za & Hza & _).
    pose proof (Hcnt a za Ha Hza) as Hc. unfold cell_of in Hza.
    destruct (keyof None (zheap w) a) as [ca|] eqn:Hk; simpl in Hza; [|done].
    exists ca, za. split; [done|]. split; [done|]. split; [done|].
    assert (ca ≠ zs) as Hne.
    { intros ->. destruct Hwhere as [Hin| ->].
      - by apply (proj2 (Hpool _ Hin) a Ha).
      - apply lookup_lt_Some in Hza. lia. }
    split; [done|]. rewrite Hsame; [done|done|by eapply lookup_lt_Some]. }
  assert (Inv None (zless c') (zheap w) (sl z) L ts) as HInv'.
  { apply (Inv_less_ext None (zless (zcells w))); [done|]. intros a b Ha Hb.
    destruct (Hlive a Ha) as (ca & za & -> & Hca & _ & _ & Hca').
    destruct (Hlive b Hb) as (cb & zb & -> & Hcb & _ & _ & Hcb').
    unfold Skiplist.zless. simpl. by rewrite Hca, Hca', Hcb, Hcb'. }
  destruct (Set_fresh None aknil (zless c') (zless_irrefl scoreLessThan sc_irrefl c')
              (zless_trans scoreLessThan sc_irrefl sc_trans c')
              (zheap w) (sl z) L ts (zrng w) (Some zs) k HInv')
    as (h' & s' & rg' & L' & ts' & f & Hset & HInv2 & HM & Hf & Hmem & Hef & Hsame_e).
  { done. }
  { intros a Ha. destruct (Hlive a Ha) as (ca & za & -> & _ & Hc & _ & Hca').
    apply (zless_new c' zs sc _ ca za Hzs Hca'). lia. }
  { intros a Ha. destruct (Hlive a Ha) as (ca & za & -> & _ & _ & Hne & _). congruence. }
  rewrite Hset. cbn [rbind].
  unfold Skiplist.entry_of in Hef. injection Hef as Hkf Hvf.
  assert (∀ a, a ∈ ts.*1 → keyof None h' a = keyof None (zheap w) a ∧
                           valueof aknil h' a = valueof aknil (zheap w) a) as Hold.
  { intros a Ha. specialize (Hsame_e a Ha). unfold Skiplist.entry_of in Hsame_e.
    by injection Hsame_e as -> ->. }
  exists (mkWorld c' h' rg'), (mkZSet (<[k := zs]> (key2Score z)) s' p'), (ts'.*1), zs.
  split; [done|]. split.
  - split; [|split; [done|split; [|split; [simpl; lia|]]]].
    + exists L', ts'. split; [done|]. split; [done|]. split.
      * intros a Ha. apply Hmem in Ha as [->|Ha].
        { exists (mkScore sc (pool_counter (zpool z) + 1)).
          unfold cell_of. simpl. rewrite Hkf. simpl. split; [done|lia]. }
        destruct (Hlive a Ha) as (ca & za & Hk & _ & Hc & _ & Hca').
        exists za. unfold cell_of. simpl. rewrite (proj1 (Hold a Ha)), Hk. simpl.
        split; [done|lia].
      * intros ak c. simpl. split.
        { intros Hl. destruct (decide (ak = k)) as [->|Hne].
          - rewrite lookup_insert_eq in Hl. injection Hl as <-.
            exists f. split; [apply Hmem; by left|done].
          - rewrite lookup_insert_ne in Hl by done.
            apply Hmap in Hl as (a & Ha & Hk & Hv).
            exists a. split; [apply Hmem; by right|].
            by rewrite (proj1 (Hold a Ha)), (proj2 (Hold a Ha)). }
        { intros (a & Ha & Hk & Hv). apply Hmem in Ha as [->|Ha].
          - rewrite Hkf in Hk. injection Hk as <-. rewrite Hvf in Hv. subst ak.
            by rewrite lookup_insert_eq.
          - rewrite (proj1 (Hold a Ha)) in Hk. rewrite (proj2 (Hold a Ha)) in Hv.
            assert (key2Score z !! ak = Some c) as Hl by (apply Hmap; eauto).
            rewrite lookup_insert_ne; [done|]. intros ->. by rewrite Hnone in Hl. }
    + simpl. intros c Hc. split.
      { pose proof (proj1 (Hpool c (Hsub c Hc))). lia. }
      intros a Ha. apply Hmem in Ha as [->|Ha].
      * rewrite Hkf. intros [= ->]. done.
      * rewrite (proj1 (Hold a Ha)). by apply (proj2 (Hpool c (Hsub c Hc))).
    + simpl. intros a za Ha Hza. unfold cell_of in Hza. simpl in Hza.
      apply Hmem in Ha as [->|Ha].
      * rewrite Hkf in Hza. simpl in Hza. rewrite Hzs in Hza. injection Hza as <-.
        simpl. lia.
      * destruct (Hlive a Ha) as (ca & za' & Hk & _ & Hc & _ & Hca').
        rewrite (proj1 (Hold a Ha)), Hk in Hza. simpl in Hza. rewrite Hca' in Hza.
        injection Hza as <-. lia.
  - simpl. split; [done|]. split; [done|]. split.
    { intros k' c Hl. apply Hmap in Hl as (a & Ha & Hk & _).
      destruct (Hlive a Ha) as (ca & za & Hk' & Hca & _ & _ & Hca').
      rewrite Hk in Hk'. injection Hk' as ->. by rewrite Hca, Hca'. }
    split; [done|]. done.
Qed.

Lemma Remove_inv w z l k cur lv :
  zset_inv w z l → key2Score z !! k = Some cur →
  level_of (zheap w) (sl z) = Ok lv → lv < MaxLevel (sl z) →
  ∃ w' z' l',
    Remove w z k = Ok (w', z', true) ∧
    zset_inv w' z' l' ∧
    key2Score z' = delete k (key2Score z) ∧
    zcells w' = zcells w ∧
    pool_counter (zpool z') = pool_counter (zpool z) ∧
    MaxLevel (sl z') = MaxLevel (sl z).
Proof using sc_irrefl sc_trans.
  intros (Hok & Hnd & Hpool & Hpc0 & Hcnt) Hk Hlv HM.
  destruct Hok as (L & ts & HInv & -> & Hcells & Hmap).
  pose proof HInv as (Hsh & _).
  rewrite (level_of_shape None (zless (zcells w)) _ _ _ _ _ Hsh Hlv) in HM.
  pose proof (zless_irrefl scoreLessThan sc_irrefl (zcells w)) as Hirr.
  pose proof (zless_trans scoreLessThan sc_irrefl sc_trans (zcells w)) as Htr.
  destruct (proj1 (Hmap k cur) Hk) as (a & Ha & Hka & Hva).
  destruct (Delete_member None aknil (zless (zcells w)) Hirr Htr (zheap w) (sl z) L ts a
              HInv ltac:(lia) Ha)
    as (h' & s' & L' & ts' & Hdel & HInv' & HM' & Hmem & Hsame).
  rewrite Hka, Hva in Hdel.
  unfold Skiplist.Remove. rewrite Hk, Hdel. cbn [rbind].
  assert (∀ b, keyof None h' b = keyof None (zheap w) b ∧
               valueof aknil h' b = valueof aknil (zheap w) b) as Hold.
  { intros b. specialize (Hsame b). unfold Skiplist.entry_of in Hsame.
    by injection Hsame as -> ->. }
  assert (cur ∉ pool (zpool z)) as Hcur.
  { intros Hin. by apply (proj2 (Hpool _ Hin) a Ha). }
  destruct (pool_Put_spec (zpool z) cur Hnd Hcur) as (Hnd' & Hpc' & Hsub).
  exists (mkWorld (zcells w) h' (zrng w)),
    (mkZSet (delete k (key2Score z)) s' (pool_Put (zpool z) cur)), (ts'.*1).
  split; [done|]. split; [|done].
  split; [|split; [done|split; [|split; [simpl; lia|]]]].
  - exists L', ts'. split; [done|]. split; [done|]. split.
    + intros b Hb. apply Hmem in Hb as [Hb _].
      destruct (Hcells b Hb) as (zb & Hzb & Hc). exists zb.
      unfold cell_of in *. simpl. by rewrite (proj1 (Hold b)).
    + intros ak c. simpl. split.
      * intros Hl. apply lookup_delete_Some in Hl as [Hne Hl].
        apply Hmap in Hl as (b & Hb & Hkb & Hvb). exists b.
        rewrite (proj1 (Hold b)), (proj2 (Hold b)). split; [|done].
        apply Hmem. split; [done|]. intros ->. congruence.
      * intros (b & Hb & Hkb & Hvb). apply Hmem in Hb as [Hb Hne].
        rewrite (proj1 (Hold b)) in Hkb. rewrite (proj2 (Hold b)) in Hvb.
        apply lookup_delete_Some. split; [|apply Hmap; eauto].
        intros <-. apply Hne.
        apply (keys_inj None aknil (zless (zcells w)) Hirr Htr (zheap w) (sl z) L ts b a
                 Hsh Hb Ha).
        rewrite Hka, Hkb. f_equal.
        assert (key2Score z !! valueof aknil (zheap w) a = Some c) as Hl
          by (apply Hmap; exists b; by rewrite Hva).
        rewrite Hva, Hk in Hl. by injection Hl.
  - simpl. intros c Hc. apply Hsub in Hc as [Hc| ->].
    + split; [by apply Hpool|]. intros b Hb. apply Hmem in Hb as [Hb _].
      rewrite (proj1 (Hold b)). by apply (proj2 (Hpool c Hc)).
    + split.
      * destruct (Hcells a Ha) as (za & Hza & _). unfold cell_of in Hza.
        rewrite Hka in Hza. simpl in Hza. by eapply lookup_lt_Some.
      * intros b Hb. apply Hmem in Hb as [Hb Hne]. rewrite (proj1 (Hold b)).
        intros Hkb. apply Hne.
        apply (keys_inj None aknil (zless (zcells w)) Hirr Htr (zheap w) (sl z) L ts b a
                 Hsh Hb Ha).
        by rewrite Hka.
  - simpl. intros b zb Hb Hzb. apply Hmem in Hb as [Hb _]. rewrite Hpc'.
    apply (Hcnt b zb Hb). unfold cell_of in *. simpl in Hzb.
    by rewrite (proj1 (Hold b)) in Hzb.
Qed.

(** Giving a member a new score is removing it and adding it again. *)
Lemma rescore_split w z k sc cur :
  key2Score z !! k = Some cur →
  rescore aknil scoreLessThan w z k sc cur =
  do (w1, z1, _) <- Remove w z k;
  do (w2, z2, _) <- Add w1 z1 k sc;
  Ok (w2, z2).
Proof.
  intros Hk. unfold rescore, Skiplist.Remove, Skiplist.Add. rewrite Hk.
  destruct (Delete None aknil (zless (zcells w)) (zheap w) (sl z) (Some cur))
    as [[[h s] r]| |]; cbn [rbind]; [|done..].
  cbn [key2Score zcells zpool zheap sl zrng]. rewrite lookup_delete_eq.
  destruct (pool_Get (zcells w) (pool_Put (zpool z) cur) sc) as [[c p] zs].
  destruct (SkipList_Set None (zless c) h s (zrng w) (Some zs) k)
    as [[[h2 s2] r2]| |]; cbn [rbind]; [|done..].
  by rewrite insert_delete_eq.
Qed.

Lemma rescore_inv w z l k sc cur lv :
  zset_inv w z l → key2Score z !! k = Some cur →
  level_of (zheap w) (sl z) = Ok lv → lv < MaxLevel (sl z) →
  pool_counter (zpool z) < MaxInt64 →
  ∃ w' z' l' zs,
    rescore aknil scoreLessThan w z k sc cur = Ok (w', z') ∧
    zset_inv w' z' l' ∧
    key2Score z' = <[k := zs]> (key2Score z) ∧
    zcells w' !! zs = Some (mkScore sc (pool_counter (zpool z) + 1)) ∧
    (∀ k' c, k' ≠ k → key2Score z !! k' = Some c → zcells w' !! c = zcells w !! c).
Proof using sc_irrefl sc_trans sc_total.
  intros Hinv Hk Hlv HM Hpc.
  destruct (Remove_inv w z l k cur lv Hinv Hk Hlv HM)
    as (w1 & z1 & l1 & Hrem & Hinv1 & Hm1 & Hc1 & Hpc1 & _).
  destruct (Add_new_inv w1 z1 l1 k sc Hinv1)
    as (w2 & z2 & l2 & zs & Hadd & Hinv2 & Hm2 & Hzs & Hframe & _).
  { by rewrite Hm1, lookup_delete_eq. }
  { by rewrite Hpc1. }
  exists w2, z2, l2, zs. rewrite (rescore_split w z k sc cur Hk), Hrem. cbn [rbind].
  rewrite Hadd. cbn [rbind]. split; [done|]. split; [done|].
  split; [by rewrite Hm2, Hm1, insert_delete_eq|].
  split; [by rewrite Hzs, Hpc1|].
  intros k' c Hne Hl. rewrite <- Hc1. apply (Hframe k').
  rewrite Hm1. by rewrite lookup_delete_ne.
Qed.

(** [Score] after the map and the cells have changed at one key. *)
Lemma Score_frame w z w' z' k zs sc n :
  key2Score z' = <[k := zs]> (key2Score z) →
  zcells w' !! zs = Some (mkScore sc n) →
  (∀ k' c, k' ≠ k → key2Score z !! k' = Some c → zcells w' !! c = zcells w !! c) →
  Score w' z' k = Ok sc ∧ ∀ k', k' ≠ k → Score w' z' k' = Score w z k'.
Proof.
  intros Hm Hzs Hframe. unfold Score. rewrite Hm. split.
  - rewrite lookup_insert_eq. simpl. by rewrite Hzs.
  - intros k' Hne. rewrite lookup_insert_ne by done.
    destruct (key2Score z !! k') as [c|] eqn:Hl; [|done].
    simpl. by rewrite (Hframe k' c Hne Hl).
Qed.

(** The branch of [Add] and [Update] for a key that the set holds. *)
Lemma present_inv w z l k sc cur lv :
  zset_inv w z l → key2Score z !! k = Some cur →
  level_of (zheap w) (sl z) = Ok lv → lv < MaxLevel (sl z) →
  pool_counter (zpool z) < MaxInt64 →
  ∃ w' z' l',
    (do cz <- load_cell (zcells w) (Some cur);
     if decide (sc ≠ score cz)
     then do (w, z) <- rescore aknil scoreLessThan w z k sc cur; Ok (w, z, true)
     else Ok (w, z, true)) = Ok (w', z', true) ∧
    zset_inv w' z' l' ∧
    Score w' z' k = Ok sc ∧
    (∀ k', k' ≠ k → Score w' z' k' = Score w z k') ∧
    Card z' = Card z.
Proof using sc_irrefl sc_trans sc_total.
  intros Hinv Hk Hlv HM Hpc.
  pose proof Hinv as ((L & ts & _ & -> & Hcells & Hmap) & _).
  destruct (proj1 (Hmap k cur) Hk) as (a & Ha & Hka & _).
  destruct (Hcells a Ha) as (cz & Hcz & _). unfold cell_of in Hcz.
  rewrite Hka in Hcz. simpl in Hcz.
  unfold load_cell. rewrite Hcz. cbn [rbind].
  destruct (decide (sc ≠ score cz)) as [Hne|Heq].
  - destruct (rescore_inv w z _ k sc cur lv Hinv Hk Hlv HM Hpc)
      as (w' & z' & l' & zs & Hre & Hinv' & Hm & Hzs & Hframe).
    exists w', z', l'. rewrite Hre. cbn [rbind]. split; [done|]. split; [done|].
    destruct (Score_frame w z w' z' k zs sc _ Hm Hzs Hframe) as [Hs Hf].
    split; [done|]. split; [done|].
    unfold Card. rewrite Hm. by rewrite map_size_insert_Some.
  - exists w, z, (ts.*1). split; [done|]. split; [done|].
    split; [|done]. apply dec_stable in Heq. subst sc.
    by apply (Score_present w z k cur cz).
Qed.

End ZInv.

(** * The operations of the sorted set *)

Section ZOperations.

Context {AK Sc : Type} `{Countable AK} `{EqDecision Sc}.
Variable aknil : AK.
Variable scoreLessThan : Sc → Sc → bool.
Hypothesis sc_irrefl : ∀ a, scoreLessThan a a = false.
Hypothesis sc_trans : ∀ a b c, scoreLessThan a b = true → scoreLessThan b c = true →
                               scoreLessThan a c = true.
Hypothesis sc_total : ∀ a b, a ≠ b → scoreLessThan a b = false →
                             scoreLessThan b a = true.

Local Abbreviation zless := (zless scoreLessThan).
Local Abbreviation zworld := (zworld (AK := AK) (Sc := Sc)).
Local Abbreviation ZSet := (ZSet (AK := AK)).
Local Abbreviation zset_inv := (zset_inv aknil scoreLessThan).
Local Abbreviation Add := (Add aknil scoreLessThan).
Local Abbreviation Remove := (Remove aknil scoreLessThan).
Local Abbreviation Update := (Update aknil scoreLessThan).

Implicit Types (w : zworld) (z : ZSet) (l : list addr).

(** An empty engine with any cells and any pool of cells. *)
Lemma empty_zset_inv c h s rg p :
  Inv None (zless c) h s 1 [] → NoDup (pool p) →
  (∀ x, x ∈ pool p → (x < length c)%nat) → 0 ≤ pool_counter p →
  zset_inv (mkWorld c h rg) (mkZSet ∅ s p) [].
Proof.
  intros HInv Hnd Hlt Hpc.
  split; [|split; [done|split; [|split; [done|]]]].
  - exists 1%nat, []. split; [done|]. split; [done|]. split.
    + intros a Ha. by apply elem_of_nil in Ha.
    + intros ak c0. simpl. rewrite lookup_empty. split; [done|].
      intros (a & Ha & _). by apply elem_of_nil in Ha.
  - simpl. intros x Hx. split; [by apply Hlt|]. intros a Ha. by apply elem_of_nil in Ha.
  - intros a zs Ha. by apply elem_of_nil in Ha.
Qed.

(** X19: [Add k sc] on a well-formed sorted set (whose engine is
    lower than [MaxLevel] and whose pool counter is below [MaxInt64])
    returns true and keeps the set well formed; afterwards [Score k] is
    [sc], the scores of the other keys are what they were, and [Card]
    has grown by one exactly if the set did not hold [k]. *)
Theorem ZSet_Add_spec w z l k sc lv :
  zset_inv w z l → pool_counter (zpool z) < MaxInt64 →
  level_of (zheap w) (sl z) = Ok lv → lv < MaxLevel (sl z) →
  ∃ w' z' l',
    Add w z k sc = Ok (w', z', true) ∧
    zset_inv w' z' l' ∧
    Score w' z' k = Ok sc ∧
    (∀ k', k' ≠ k → Score w' z' k' = Score w z k') ∧
    Card z' = Card z + match key2Score z !! k with Some _ => 0 | None => 1 end.
Proof using sc_irrefl sc_trans sc_total.
  intros Hinv Hpc Hlv HM.
  destruct (key2Score z !! k) as [cur|] eqn:Hk.
  - destruct (present_inv aknil scoreLessThan sc_irrefl sc_trans sc_total w z l k sc cur lv
                Hinv Hk Hlv HM Hpc) as (w' & z' & l' & Hrun & Hinv' & Hs & Hf & Hc).
    exists w', z', l'. unfold Skiplist.Add. rewrite Hk.
    split; [done|]. split; [done|]. split; [done|]. split; [done|lia].
  - destruct (Add_new_inv aknil scoreLessThan sc_irrefl sc_trans sc_total w z l k sc
                Hinv Hk Hpc) as (w' & z' & l' & zs & Hadd & Hinv' & Hm & Hzs & Hframe & _).
    exists w', z', l'. split; [done|]. split; [done|].
    destruct (Score_frame w z w' z' k zs sc _ Hm Hzs) as [Hs Hf].
    { intros k' c _. apply Hframe. }
    split; [done|]. split; [done|].
    unfold Card. rewrite Hm, map_size_insert_None by done. lia.
Qed.

(** X20: [Update k sc] for a key that the set holds returns
    true and keeps the set well formed; afterwards [Score k] is [sc],
    the scores of the other keys are what they were, and [Card] is
    unchanged. *)
Theorem ZSet_Update_spec w z l k sc cur lv :
  zset_inv w z l → key2Score z !! k = Some cur →
  pool_counter (zpool z) < MaxInt64 →
  level_of (zheap w) (sl z) = Ok lv → lv < MaxLevel (sl z) →
  ∃ w' z' l',
    Update w z k sc = Ok (w', z', true) ∧
    zset_inv w' z' l' ∧
    Score w' z' k = Ok sc ∧
    (∀ k', k' ≠ k → Score w' z' k' = Score w z k') ∧
    Card z' = Card z.
Proof using sc_irrefl sc_trans sc_total.
  intros Hinv Hk Hpc Hlv HM. unfold Skiplist.Update. rewrite Hk.
  by apply (present_inv aknil scoreLessThan sc_irrefl sc_trans sc_total w z l k sc cur lv).
Qed.

(** X21: [Remove k] for a key that the set holds returns true
    and keeps the set well formed; afterwards the set does not hold [k],
    the scores of the other keys are what they were, and [Card] has gone
    down by one. *)
Theorem ZSet_Remove_spec w z l k cur lv :
  zset_inv w z l → key2Score z !! k = Some cur →
  level_of (zheap w) (sl z) = Ok lv → lv < MaxLevel (sl z) →
  ∃ w' z' l',
    Remove w z k = Ok (w', z', true) ∧
    zset_inv w' z' l' ∧
    key2Score z' !! k = None ∧
    (∀ k', k' ≠ k → Score w' z' k' = Score w z k') ∧
    Card z' = Card z - 1.
Proof using sc_irrefl sc_trans.
  intros Hinv Hk Hlv HM.
  destruct (Remove_inv aknil scoreLessThan sc_irrefl sc_trans w z l k cur lv Hinv Hk Hlv HM)
    as (w' & z' & l' & Hrem & Hinv' & Hm & Hc & _).
  exists w', z', l'. split; [done|]. split; [done|].
  split; [by rewrite Hm, lookup_delete_eq|]. split.
  - intros k' Hne. unfold Score. by rewrite Hm, lookup_delete_ne, Hc.
  - unfold Card. rewrite Hm, map_size_delete_Some by done.
    assert (size (key2Score z) ≠ 0%nat) by (by apply (map_size_ne_0_lookup_2 _ k)).
    lia.
Qed.

(** X22: a new sorted set and a cleared one are well formed
    and hold no key; [Clear] keeps the cells, the pool and its
    counter. *)
Theorem ZSet_Clear_spec w z l c h rg :
  zset_inv w z l →
  let z0 := NewCustomZSet aknil h in
  let wz := ZSet_Clear aknil w z in
  zset_inv (mkWorld c z0.1 rg) z0.2 [] ∧ Card z0.2 = 0 ∧
  zset_inv wz.1 wz.2 [] ∧ Card wz.2 = 0 ∧
  zcells wz.1 = zcells w ∧ zpool wz.2 = zpool z.
Proof.
  intros (_ & Hnd & Hpool & Hpc & _) z0 wz.
  split; [|split; [done|split; [|done]]].
  - apply empty_zset_inv; [|apply NoDup_nil_2| |done].
    + apply (NewCustomMap_Inv None aknil (zless c) h).
    + intros x Hx. by apply elem_of_nil in Hx.
  - apply empty_zset_inv; [|done| |done].
    + apply (Clear_Inv None aknil (zless (zcells w)) (zheap w) (sl z)).
    + intros x Hx. by apply Hpool.
Qed.

End ZOperations.

(** The sorted set of integers, new and after [Add 7 50]. *)

Lemma znew_inv : zset_inv None Z.ltb znew.1 znew.2 [].
Proof.
  apply (empty_zset_inv None Z.ltb [] _ _ coin (mkPool [] 128 0)).
  - apply (NewCustomMap_Inv None None (zless Z.ltb []) []).
  - apply NoDup_nil_2.
  - intros x Hx. by apply elem_of_nil in Hx.
  - done.
Qed.

Lemma zdemo_inv : ∃ l, zset_inv None Z.ltb (zworld_of zdemo) (zset_of zdemo) l.
Proof.
  destruct (Add_new_inv None Z.ltb Z.ltb_irrefl ltb_trans ltb_total znew.1 znew.2 []
              (Some 7) 50 znew_inv)
    as (w' & z' & l' & zs & Hadd & Hinv' & _); [by vm_compute..|].
  exists l'. unfold zdemo. by rewrite Hadd.
Qed.

Lemma ZSet_Add_spec_witness :
  ∃ w' z' l',
    Add None Z.ltb znew.1 znew.2 (Some 7) 50 = Ok (w', z', true) ∧
    zset_inv None Z.ltb w' z' l' ∧
    Score w' z' (Some 7) = Ok 50 ∧
    (∀ k', k' ≠ Some 7 → Score w' z' k' = Score znew.1 znew.2 k') ∧
    Card z' = Card znew.2 + match key2Score znew.2 !! Some 7 with
                            | Some _ => 0
                            | None => 1
                            end.
Proof.
  apply (ZSet_Add_spec None Z.ltb Z.ltb_irrefl ltb_trans ltb_total znew.1 znew.2 []
           (Some 7) 50 0 znew_inv); by vm_compute.
Defined.

Lemma ZSet_Update_spec_witness :
  ∃ w' z' l',
    Update None Z.ltb (zworld_of zdemo) (zset_of zdemo) (Some 7) 60 = Ok (w', z', true) ∧
    zset_inv None Z.ltb w' z' l' ∧
    Score w' z' (Some 7) = Ok 60 ∧
    (∀ k', k' ≠ Some 7 → Score w' z' k' = Score (zworld_of zdemo) (zset_of zdemo) k') ∧
    Card z' = Card (zset_of zdemo).
Proof.
  destruct zdemo_inv as [l Hl].
  apply (ZSet_Update_spec None Z.ltb Z.ltb_irrefl ltb_trans ltb_total
           (zworld_of zdemo) (zset_of zdemo) l (Some 7) 60 0%nat 1 Hl); by vm_compute.
Defined.

Lemma ZSet_Remove_spec_witness :
  ∃ w' z' l',
    Remove None Z.ltb (zworld_of zdemo) (zset_of zdemo) (Some 7) = Ok (w', z', true) ∧
    zset_inv None Z.ltb w' z' l' ∧
    key2Score z' !! Some 7 = None ∧
    (∀ k', k' ≠ Some 7 → Score w' z' k' = Score (zworld_of zdemo) (zset_of zdemo) k') ∧
    Card z' = Card (zset_of zdemo) - 1.
Proof.
  destruct zdemo_inv as [l Hl].
  apply (ZSet_Remove_spec None Z.ltb Z.ltb_irrefl ltb_trans
           (zworld_of zdemo) (zset_of zdemo) l (Some 7) 0%nat 1 Hl); by vm_compute.
Defined.

Lemma ZSet_Clear_spec_witness :
  let z0 := NewCustomZSet (@None Z) [] in
  let wz := ZSet_Clear None (zworld_of zdemo) (zset_of zdemo) in
  zset_inv None Z.ltb (mkWorld [] z0.1 coin) z0.2 [] ∧ Card z0.2 = 0 ∧
  zset_inv None Z.ltb wz.1 wz.2 [] ∧ Card wz.2 = 0 ∧
  zcells wz.1 = zcells (zworld_of zdemo) ∧ zpool wz.2 = zpool (zset_of zdemo).
Proof.
  destruct zdemo_inv as [l Hl].
  apply (ZSet_Clear_spec None Z.ltb (zworld_of zdemo) (zset_of zdemo) l [] [] coin Hl).
Defined.

(** * Walking through the sorted set *)

Section Walk.

Context {K V : Type} `{EqDecision K}.
Variable knil : K.
Variable lessThan : K → K → bool.

Local Abbreviation heap := (heap K V).
Local Abbreviation iter := (iter (K := K) (V := V)).
Local Abbreviation shape := (shape knil lessThan).

Implicit Types (h : heap) (s : SkipList) (ts : list tower) (it : iter).

(** [Next] on a cursor that stands on the header or on a node. *)
Lemma iter_Next_at h s L ts p a ht it :
  shape h s L ts → ((header s, L) :: ts) !! p = Some (a, ht) → current it = Some a →
  iter_Next h it = Ok (match ts !! p with
                       | Some (b, _) => (from_option (iter_at b) it (h !! b), true)
                       | None => (it, false)
                       end).
Proof.
  intros Hsh Hp Hcur.
  destruct (tower_node h ((header s, L) :: ts) (shape_nodes _ _ _ _ _ _ Hsh)
              (shape_low1 _ _ _ _ _ _ Hsh) p a ht Hp) as (n & Hn & _ & Hnext).
  rewrite lookup_towers in Hnext.
  unfold iter_Next. rewrite Hcur. cbn [deref]. rewrite (load_Ok _ _ _ Hn).
  cbn [rbind]. unfold hasNext. rewrite Hnext.
  destruct (ts !! p) as [[b hb]|] eqn:Hb; simpl; [|done].
  destruct (tower_node h ((header s, L) :: ts) (shape_nodes _ _ _ _ _ _ Hsh)
              (shape_low1 _ _ _ _ _ _ Hsh) (S p) b hb Hb) as (nb & Hnb & _).
  by rewrite (load_Ok _ _ _ Hnb), Hnb.
Qed.

End Walk.

Section ZWalk.

Context {AK Sc : Type} `{Countable AK} `{EqDecision Sc}.
Variable aknil : AK.
Variable scoreLessThan : Sc → Sc → bool.

Local Abbreviation zless := (zless scoreLessThan).
Local Abbreviation zworld := (zworld (AK := AK) (Sc := Sc)).
Local Abbreviation ZSet := (ZSet (AK := AK)).
Local Abbreviation zset_ok := (zset_ok aknil scoreLessThan).
Local Abbreviation row := (row aknil).
Local Abbreviation rows := (rows aknil).

Implicit Types (w : zworld) (z : ZSet) (l : list addr).

Lemma rows_lookup w l i :
  (∀ a, a ∈ l → is_Some (row w a)) → rows w l !! i = l !! i ≫= row w.
Proof.
  revert i. induction l as [|a l IH]; intros i Hall; [done|].
  destruct (Hall a ltac:(left)) as [r Hr].
  unfold Skiplist.rows. cbn [omap list_omap]. rewrite Hr.
  destruct i as [|i]; simpl; [done|].
  apply IH. intros b Hb. apply Hall. by right.
Qed.

Lemma rows_length w l :
  (∀ a, a ∈ l → is_Some (row w a)) → length (rows w l) = length l.
Proof.
  induction l as [|a l IH]; intros Hall; [done|].
  destruct (Hall a ltac:(left)) as [r Hr].
  unfold Skiplist.rows. cbn [omap list_omap]. rewrite Hr. simpl. f_equal.
  apply IH. intros b Hb. apply Hall. by right.
Qed.

Lemma rows_cons w a l r : row w a = Some r → rows w (a :: l) = r :: rows w l.
Proof. intros Hr. unfold Skiplist.rows. cbn [omap list_omap]. by rewrite Hr. Qed.

Lemma rows_drop w l p :
  (∀ a, a ∈ l → is_Some (row w a)) → rows w (drop p l) = drop p (rows w l).
Proof.
  revert p. induction l as [|a l IH]; intros p Hall; [by destruct p|].
  destruct p as [|p]; [done|].
  destruct (Hall a ltac:(left)) as [r Hr]. rewrite (rows_cons w a l r Hr). simpl.
  apply IH. intros b Hb. apply Hall. by right.
Qed.

(** Every node of a well-formed set has its row. *)
Lemma zset_ok_row w z l a :
  zset_ok w z l → a ∈ l →
  ∃ c zs, keyof None (zheap w) a = Some c ∧ zcells w !! c = Some zs ∧
          key2Score z !! valueof aknil (zheap w) a = Some c ∧
          row w a = Some (valueof aknil (zheap w) a, score zs).
Proof.
  intros (L & ts & _ & -> & Hcells & Hmap) Ha.
  destruct (Hcells a Ha) as (zs & Hzs & _).
  unfold Skiplist.row. rewrite Hzs. unfold cell_of in Hzs.
  destruct (keyof None (zheap w) a) as [c|] eqn:Hk; simpl in Hzs; [|done].
  exists c, zs. split; [done|]. split; [done|]. split; [|done].
  apply Hmap. by exists a.
Qed.

Lemma zset_ok_rows w z l a : zset_ok w z l → a ∈ l → is_Some (row w a).
Proof.
  intros Hok Ha. destruct (zset_ok_row w z l a Hok Ha) as (c & zs & _ & _ & _ & ->).
  by eexists.
Qed.

End ZWalk.

Section ZLoops.

Context {AK Sc : Type} `{Countable AK} `{EqDecision Sc}.
Variable aknil : AK.
Variable scoreLessThan : Sc → Sc → bool.

Local Abbreviation zless := (zless scoreLessThan).
Local Abbreviation zworld := (zworld (AK := AK) (Sc := Sc)).
Local Abbreviation ZSet := (ZSet (AK := AK)).
Local Abbreviation iter := (iter (K := option addr) (V := AK)).
Local Abbreviation zset_ok := (zset_ok aknil scoreLessThan).
Local Abbreviation row := (row aknil).
Local Abbreviation rows := (rows aknil).

Variables (w : zworld) (z : ZSet) (L : nat) (ts : list tower).
Hypothesis Hsh : shape None (zless (zcells w)) (zheap w) (sl z) L ts.
Hypothesis Hrows : ∀ a, a ∈ ts.*1 → is_Some (row w a).

(** What the loops read on the node they have moved to. *)
Lemma row_read p b hb :
  ts !! p = Some (b, hb) →
  ∃ nb zs, zheap w !! b = Some nb ∧
           load_cell (zcells w) (key nb) = Ok zs ∧
           row w b = Some (value nb, score zs).
Proof using Hsh Hrows.
  intros Hb.
  destruct (tower_node (zheap w) ((header (sl z), L) :: ts) (shape_nodes _ _ _ _ _ _ Hsh)
              (shape_low1 _ _ _ _ _ _ Hsh) (S p) b hb Hb) as (nb & Hnb & _).
  destruct (Hrows b) as [r Hr].
  { apply list_elem_of_fmap. exists (b, hb). split; [done|].
    by eapply list_elem_of_lookup_2. }
  unfold Skiplist.row, cell_of, Skiplist.keyof, Skiplist.valueof in Hr.
  rewrite Hnb in Hr. simpl in Hr.
  destruct (key nb) as [c|] eqn:Hk; simpl in Hr; [|done].
  destruct (zcells w !! c) as [zs|] eqn:Hc; simpl in Hr; [|done].
  exists nb, zs. split; [done|]. rewrite Hk. simpl. rewrite Hc. split; [done|].
  unfold Skiplist.row, cell_of, Skiplist.keyof, Skiplist.valueof.
  rewrite Hnb. simpl. rewrite Hk. simpl. by rewrite Hc.
Qed.

Lemma Marshal_loop_spec fuel p a ht (it : iter) acc :
  ((header (sl z), L) :: ts) !! p = Some (a, ht) → current it = Some a →
  (length ts - p < fuel)%nat →
  Marshal_loop fuel (zcells w) (zheap w) it acc
    = Ok (acc ++ rows w (drop p (ts.*1))).
Proof using Hsh Hrows.
  revert p a ht it acc. induction fuel as [|fuel IH]; intros p a ht it acc Hp Hcur Hfuel;
    [lia|].
  cbn [Marshal_loop].
  rewrite (iter_Next_at None (zless (zcells w)) _ _ _ _ p a ht it Hsh Hp Hcur).
  destruct (ts !! p) as [[b hb]|] eqn:Hb.
  - destruct (row_read p b hb Hb) as (nb & zs & Hnb & Hload & Hrow).
    rewrite Hnb. cbn [rbind from_option]. cbn [Key ikey iter_at]. rewrite Hload.
    cbn [rbind Value ivalue].
    rewrite (IH (S p) b hb); [|done|done|].
    + f_equal. rewrite <- app_assoc. f_equal.
      assert (ts.*1 !! p = Some b) as Hb' by (by rewrite list_lookup_fmap, Hb).
      rewrite (drop_S _ _ _ Hb'). by rewrite (rows_cons aknil w b _ _ Hrow).
    + apply lookup_lt_Some in Hb. lia.
  - cbn [rbind]. rewrite drop_ge; [by rewrite app_nil_r|].
    rewrite length_fmap. by apply lookup_ge_None_1.
Qed.

Lemma Foreach_loop_spec {A : Type} (fn : AK → Sc → A → A) fuel p a ht (it : iter) st :
  ((header (sl z), L) :: ts) !! p = Some (a, ht) → current it = Some a →
  (length ts - p < fuel)%nat →
  Foreach_loop fuel (zcells w) (zheap w) it fn st
    = Ok (foldl (λ st e, fn e.1 e.2 st) st (rows w (drop p (ts.*1)))).
Proof using Hsh Hrows.
  revert p a ht it st. induction fuel as [|fuel IH]; intros p a ht it st Hp Hcur Hfuel;
    [lia|].
  cbn [Foreach_loop].
  rewrite (iter_Next_at None (zless (zcells w)) _ _ _ _ p a ht it Hsh Hp Hcur).
  destruct (ts !! p) as [[b hb]|] eqn:Hb.
  - destruct (row_read p b hb Hb) as (nb & zs & Hnb & Hload & Hrow).
    rewrite Hnb. cbn [rbind from_option]. cbn [Key ikey iter_at]. rewrite Hload.
    cbn [rbind Value ivalue].
    rewrite (IH (S p) b hb); [|done|done|].
    + assert (ts.*1 !! p = Some b) as Hb' by (by rewrite list_lookup_fmap, Hb).
      rewrite (drop_S _ _ _ Hb'). by rewrite (rows_cons aknil w b _ _ Hrow).
    + apply lookup_lt_Some in Hb. lia.
  - cbn [rbind]. rewrite drop_ge; [done|].
    rewrite length_fmap. by apply lookup_ge_None_1.
Qed.

(** The loop of [RangeByRank] on the node of rank [p]. *)
Lemma RangeByRank_loop_spec fuel p a ht na rankTo keys :
  ts !! p = Some (a, ht) → zheap w !! a = Some na →
  Z.of_nat (length ts) < 4294967296 →
  (length ts - p < fuel)%nat →
  RangeByRank_loop fuel (zcells w) (zheap w) (iter_at a na) (Z.of_nat (S p)) rankTo keys
    = Ok (keys ++ take (Z.to_nat (rankTo - Z.of_nat p)) (rows w (drop p (ts.*1)))).
Proof using Hsh Hrows.
  revert p a ht na keys.
  induction fuel as [|fuel IH]; intros p a ht na keys Hp Hna Hlen Hfuel; [lia|].
  cbn [RangeByRank_loop].
  destruct (Z.leb_spec (Z.of_nat (S p)) rankTo) as [Hle|Hgt].
  2:{ replace (Z.to_nat (rankTo - Z.of_nat p)) with 0%nat by lia.
      by rewrite take_0, app_nil_r. }
  destruct (row_read p a ht Hp) as (na' & zs & Hna' & Hload & Hrow).
  rewrite Hna in Hna'. injection Hna' as <-.
  cbn [Key ikey iter_at]. rewrite Hload. cbn [rbind Value ivalue].
  rewrite (iter_Next_at None (zless (zcells w)) _ _ _ _ (S p) a ht (iter_at a na) Hsh Hp eq_refl).
  assert (ts.*1 !! p = Some a) as Hp' by (by rewrite list_lookup_fmap, Hp).
  rewrite (drop_S _ _ _ Hp'), (rows_cons aknil w a _ _ Hrow).
  replace (Z.to_nat (rankTo - Z.of_nat p)) with (S (Z.to_nat (rankTo - Z.of_nat (S p))))
    by lia.
  cbn [take].
  destruct (ts !! S p) as [[b hb]|] eqn:Hb.
  - destruct (tower_node (zheap w) ((header (sl z), L) :: ts) (shape_nodes _ _ _ _ _ _ Hsh)
                (shape_low1 _ _ _ _ _ _ Hsh) (S (S p)) b hb Hb) as (nb & Hnb & _).
    rewrite Hnb. cbn [rbind from_option].
    pose proof (lookup_lt_Some _ _ _ Hb) as Hlt.
    rewrite wrap32_small by lia.
    replace (Z.of_nat (S p) + 1) with (Z.of_nat (S (S p))) by lia.
    rewrite (IH (S p) b hb nb); [|done|done|done|lia].
    by rewrite <- app_assoc.
  - cbn [rbind]. rewrite drop_ge.
    + change (rows w []) with (@nil (AK * Sc)). by rewrite take_nil.
    + rewrite length_fmap. by apply lookup_ge_None_1.
Qed.

End ZLoops.

(** * What the sorted set shows *)

Section ZViews.

Context {AK Sc : Type} `{Countable AK} `{EqDecision Sc}.
Variable aknil : AK.
Variable scoreLessThan : Sc → Sc → bool.
Hypothesis sc_irrefl : ∀ a, scoreLessThan a a = false.
Hypothesis sc_trans : ∀ a b c, scoreLessThan a b = true → scoreLessThan b c = true →
                               scoreLessThan a c = true.

Local Abbreviation zless := (zless scoreLessThan).
Local Abbreviation zworld := (zworld (AK := AK) (Sc := Sc)).
Local Abbreviation ZSet := (ZSet (AK := AK)).
Local Abbreviation zset_ok := (zset_ok aknil scoreLessThan).
Local Abbreviation row := (row aknil).
Local Abbreviation rows := (rows aknil).

Implicit Types (w : zworld) (z : ZSet) (l : list addr).

Lemma rows_at w z l i e :
  zset_ok w z l → rows w l !! i = Some e →
  ∃ a c zs, l !! i = Some a ∧ keyof None (zheap w) a = Some c ∧
            zcells w !! c = Some zs ∧ key2Score z !! e.1 = Some c ∧
            e = (valueof aknil (zheap w) a, score zs).
Proof.
  intros Hok. rewrite (rows_lookup aknil) by (intros; by eapply zset_ok_rows).
  destruct (l !! i) as [a|] eqn:Ha; simpl; [|done]. intros Hr.
  destruct (zset_ok_row aknil scoreLessThan w z l a Hok) as (c & zs & Hk & Hc & Hm & Hrow).
  { by eapply list_elem_of_lookup_2. }
  rewrite Hrow in Hr. injection Hr as <-. by exists a, c, zs.
Qed.

Lemma rows_of w z l i a :
  zset_ok w z l → l !! i = Some a →
  ∃ c zs, keyof None (zheap w) a = Some c ∧ zcells w !! c = Some zs ∧
          rows w l !! i = Some (valueof aknil (zheap w) a, score zs).
Proof.
  intros Hok Ha.
  destruct (zset_ok_row aknil scoreLessThan w z l a Hok) as (c & zs & Hk & Hc & Hm & Hrow).
  { by eapply list_elem_of_lookup_2. }
  exists c, zs. split; [done|]. split; [done|].
  rewrite (rows_lookup aknil) by (intros; by eapply zset_ok_rows).
  by rewrite Ha.
Qed.

(** Different nodes belong to different application keys. *)
Lemma values_inj w z l a b :
  zset_ok w z l → a ∈ l → b ∈ l →
  valueof aknil (zheap w) a = valueof aknil (zheap w) b → a = b.
Proof using sc_irrefl sc_trans.
  intros Hok Ha Hb Heq.
  destruct (zset_ok_row aknil scoreLessThan w z l a Hok Ha) as (ca & za & Hka & _ & Hma & _).
  destruct (zset_ok_row aknil scoreLessThan w z l b Hok Hb) as (cb & zb & Hkb & _ & Hmb & _).
  rewrite Heq, Hmb in Hma. injection Hma as ->.
  destruct Hok as (L & ts & (Hsh & _) & -> & _).
  apply (keys_inj None aknil (zless (zcells w))
           (zless_irrefl scoreLessThan sc_irrefl (zcells w))
           (zless_trans scoreLessThan sc_irrefl sc_trans (zcells w))
           (zheap w) (sl z) L ts a b Hsh Ha Hb).
  by rewrite Hka, Hkb.
Qed.

Lemma rows_keys w z l :
  zset_ok w z l → (rows w l).*1 = valueof aknil (zheap w) <$> l.
Proof.
  intros Hok. apply list_eq. intros i. rewrite !list_lookup_fmap.
  rewrite (rows_lookup aknil) by (intros; by eapply zset_ok_rows).
  destruct (l !! i) as [a|] eqn:Ha; [|done]. simpl.
  destruct (zset_ok_row aknil scoreLessThan w z l a Hok) as (c & zs & _ & _ & _ & ->);
    [by eapply list_elem_of_lookup_2|done].
Qed.

Lemma rows_NoDup w z l : zset_ok w z l → NoDup (rows w l).*1.
Proof using sc_irrefl sc_trans.
  intros Hok. rewrite (rows_keys w z l Hok).
  apply NoDup_fmap_2_strong.
  - intros a b. by apply (values_inj w z l).
  - destruct Hok as (L & ts & (Hsh & _) & -> & _).
    pose proof (shape_nodup _ _ _ _ _ _ Hsh) as Hnd. by apply NoDup_cons in Hnd as [_ ?].
Qed.

Lemma rows_card w z l : zset_ok w z l → Z.of_nat (length (rows w l)) = Card z.
Proof using sc_irrefl sc_trans.
  intros Hok. unfold Card. f_equal.
  rewrite <- (length_fmap fst (rows w l)), <- length_map_to_list.
  rewrite <- (length_fmap fst (map_to_list (key2Score z))).
  apply Permutation_length, NoDup_Permutation.
  - by apply (rows_NoDup w z l).
  - apply NoDup_fst_map_to_list.
  - intros k. rewrite (rows_keys w z l Hok), !list_elem_of_fmap. split.
    + intros (a & -> & Ha).
      destruct (zset_ok_row aknil scoreLessThan w z l a Hok Ha) as (c & zs & _ & _ & Hm & _).
      exists (valueof aknil (zheap w) a, c). split; [done|].
      by apply elem_of_map_to_list.
    + intros ([k' c] & -> & Hin). apply elem_of_map_to_list in Hin. simpl.
      destruct Hok as (L & ts & _ & -> & _ & Hmap).
      apply Hmap in Hin as (a & Ha & _ & Hv). by exists a.
Qed.

Lemma zset_ok_shape w z l :
  zset_ok w z l →
  ∃ L ts, shape None (zless (zcells w)) (zheap w) (sl z) L ts ∧ l = ts.*1 ∧
          ∀ a, a ∈ ts.*1 → is_Some (row w a).
Proof.
  intros Hok. pose proof Hok as (L & ts & (Hsh & _) & -> & _).
  exists L, ts. split; [done|]. split; [done|].
  intros a Ha. by apply (zset_ok_rows aknil scoreLessThan w z (ts.*1)).
Qed.

(** X23: on a well-formed sorted set, [Marshal] returns one
    pair of application key and score for every node, in list order:
    as many pairs as [Card] says, no key twice, a pair [(k, sc)]
    exactly if [Score k] is [sc], and no pair with a score below the
    score of a pair before it. *)
Theorem Marshal_spec w z l :
  zset_ok w z l →
  Marshal aknil w z = Ok (rows w l) ∧
  Z.of_nat (length (rows w l)) = Card z ∧
  NoDup (rows w l).*1 ∧
  (∀ k sc, (k, sc) ∈ rows w l ↔ Score w z k = Ok sc) ∧
  (∀ i j e1 e2, (i < j)%nat → rows w l !! i = Some e1 → rows w l !! j = Some e2 →
                scoreLessThan e2.2 e1.2 = false).
Proof using sc_irrefl sc_trans.
  intros Hok. destruct (zset_ok_shape w z l Hok) as (L & ts & Hsh & -> & Hrows).
  split.
  { unfold Marshal.
    rewrite (Marshal_loop_spec aknil scoreLessThan w z L ts Hsh Hrows _ 0 (header (sl z)) L);
      [done|done|done|].
    pose proof (shape_fuel _ _ _ _ _ _ Hsh) as Hf. simpl in Hf. unfold fuel_of. lia. }
  split; [by apply (rows_card w z)|]. split; [by apply (rows_NoDup w z)|]. split.
  - intros k sc. split.
    + intros Hin. apply list_elem_of_lookup in Hin as [i Hi].
      destruct (rows_at w z _ i _ Hok Hi) as (a & c & zs & _ & _ & Hc & Hm & [= -> ->]).
      simpl in Hm. by apply (Score_present w z _ c zs).
    + unfold Score. destruct (key2Score z !! k) as [c|] eqn:Hm; [|done].
      simpl. destruct (zcells w !! c) as [zs|] eqn:Hc; [|done]. simpl. intros [= <-].
      pose proof Hok as (L' & ts' & _ & Hl & _ & Hmap).
      apply Hmap in Hm as (a & Ha & Hk & Hv).
      apply list_elem_of_lookup in Ha as [i Hi].
      destruct (rows_of w z _ i a Hok Hi) as (c' & zs' & Hk' & Hc' & Hr).
      rewrite Hk in Hk'. injection Hk' as <-. rewrite Hc in Hc'. injection Hc' as <-.
      rewrite Hv in Hr. by eapply list_elem_of_lookup_2.
  - intros i j e1 e2 Hij H1 H2.
    destruct (rows_at w z _ i _ Hok H1) as (a & ca & za & Ha & Hka & Hca & _ & ->).
    destruct (rows_at w z _ j _ Hok H2) as (b & cb & zb & Hb & Hkb & Hcb & _ & ->).
    pose proof (shape_sorted _ _ _ _ _ _ Hsh i j a b Hij Ha Hb) as Hso.
    rewrite Hka, Hkb, (zless_valid scoreLessThan _ _ _ _ _ Hca Hcb) in Hso. simpl.
    destruct (scoreLessThan (score za) (score zb)) eqn:Hlt.
    + destruct (scoreLessThan (score zb) (score za)) eqn:Hgt; [|done].
      pose proof (sc_irrefl (score za)) as Hirr.
      by rewrite (sc_trans _ _ _ Hlt Hgt) in Hirr.
    + destruct (decide (score za = score zb)) as [->|]; [|done]. apply sc_irrefl.
Qed.

(** X24: on a well-formed sorted set, [Foreach fn] calls
    [fn] on the pairs that [Marshal] returns, in the same order. *)
Theorem Foreach_spec {A : Type} w z l (fn : AK → Sc → A → A) (st : A) :
  zset_ok w z l →
  Marshal aknil w z = Ok (rows w l) ∧
  Foreach aknil w z fn st = Ok (foldl (λ st e, fn e.1 e.2 st) st (rows w l)).
Proof.
  intros Hok. destruct (zset_ok_shape w z l Hok) as (L & ts & Hsh & -> & Hrows).
  pose proof (shape_fuel _ _ _ _ _ _ Hsh) as Hf. simpl in Hf.
  split.
  - unfold Marshal.
    rewrite (Marshal_loop_spec aknil scoreLessThan w z L ts Hsh Hrows _ 0 (header (sl z)) L);
      [done|done|done|].
    unfold fuel_of. lia.
  - unfold Foreach.
    rewrite (Foreach_loop_spec aknil scoreLessThan w z L ts Hsh Hrows fn _ 0
               (header (sl z)) L); [done|done|done|].
    unfold fuel_of. lia.
Qed.

(** X25: on a well-formed sorted set of fewer than [2^32]
    members, [Rank k] is one more than the index of the pair of [k] in
    what [Marshal] returns, and 0 for a key that the set does not
    hold. *)
Theorem ZSet_Rank_spec w z l :
  zset_ok w z l → Len (sl z) < 4294967296 →
  (∀ i k sc, rows w l !! i = Some (k, sc) → ZSet_Rank scoreLessThan w z k = Ok (Z.of_nat i + 1)) ∧
  (∀ k, k ∉ (rows w l).*1 → ZSet_Rank scoreLessThan w z k = Ok 0).
Proof using sc_irrefl sc_trans.
  intros Hok Hlen. destruct (zset_ok_shape w z l Hok) as (L & ts & Hsh & -> & Hrows).
  split.
  - intros i k sc Hi.
    destruct (rows_at w z _ i _ Hok Hi) as (a & c & zs & Ha & Hk & _ & Hm & [= -> ->]).
    simpl in Hm. unfold ZSet_Rank. rewrite Hm.
    rewrite list_lookup_fmap in Ha.
    destruct (ts !! i) as [[a' ht]|] eqn:Hi'; [|done]. simpl in Ha. injection Ha as ->.
    destruct (tower_node (zheap w) ((header (sl z), L) :: ts) (shape_nodes _ _ _ _ _ _ Hsh)
                (shape_low1 _ _ _ _ _ _ Hsh) (S i) a ht Hi') as (n & Hn & _).
    assert (key n = Some c) as <-.
    { unfold Skiplist.keyof in Hk. by rewrite Hn in Hk. }
    rewrite (Rank_present None (zless (zcells w))
               (zless_irrefl scoreLessThan sc_irrefl (zcells w))
               (zless_trans scoreLessThan sc_irrefl sc_trans (zcells w))
               (zheap w) (sl z) L ts i a ht n Hsh Hi' Hn).
    f_equal. unfold Len in Hlen. rewrite (shape_length _ _ _ _ _ _ Hsh) in Hlen.
    pose proof (lookup_lt_Some _ _ _ Hi'). rewrite wrap32_small; lia.
  - intros k Hk. unfold ZSet_Rank.
    destruct (key2Score z !! k) as [c|] eqn:Hm; [|done]. exfalso. apply Hk.
    pose proof Hok as (L' & ts' & _ & Hl & _ & Hmap).
    apply Hmap in Hm as (a & Ha & _ & Hv).
    rewrite (rows_keys w z _ Hok). apply list_elem_of_fmap. by exists a.
Qed.

(** X26: on a well-formed sorted set of fewer than
    [2^32] members, [RangeByRank from to] returns nil when [from] is 0,
    when [to < from] and when [from] exceeds the length, and otherwise
    the pairs of ranks [from] to [to], as far as they exist, in list
    order. *)
Theorem RangeByRank_spec w z l from to :
  zset_ok w z l → Len (sl z) < 4294967296 → 0 ≤ from → 0 ≤ to →
  RangeByRank w z from to =
  Ok (if decide (from = 0 ∨ to < from ∨ Len (sl z) < from) then None
      else Some (take (Z.to_nat (to - from + 1))
                      (drop (Z.to_nat from - 1) (rows w l)))).
Proof.
  intros Hok Hlen Hfrom Hto.
  destruct (zset_ok_shape w z l Hok) as (L & ts & Hsh & -> & Hrows).
  unfold RangeByRank. unfold Len in *.
  pose proof (shape_length _ _ _ _ _ _ Hsh) as Hl. rewrite Hl in *.
  rewrite wrap32_small by lia.
  set (rt := if Z.of_nat (length ts) <? to then Z.of_nat (length ts) else to).
  assert (rt = Z.min to (Z.of_nat (length ts))) as Hrt.
  { unfold rt. destruct (Z.ltb_spec (Z.of_nat (length ts)) to); lia. }
  destruct (Z.ltb_spec rt from) as [Hlt|Hge].
  { rewrite decide_True by lia. done. }
  rewrite (GetElemByRank_spec None (zless (zcells w)) (zheap w) (sl z) L ts from Hsh)
    by lia.
  cbn [rbind].
  destruct (decide (from = 0)) as [->|Hne].
  { rewrite decide_True by (by left). done. }
  rewrite decide_False by lia.
  destruct (lookup_lt_is_Some_2 ts (Z.to_nat from - 1)) as [[f hf] Hf]; [lia|].
  rewrite Hf.
  destruct (tower_node (zheap w) ((header (sl z), L) :: ts) (shape_nodes _ _ _ _ _ _ Hsh)
              (shape_low1 _ _ _ _ _ _ Hsh) (S (Z.to_nat from - 1)) f hf Hf)
    as (nf & Hnf & _).
  rewrite Hnf. cbn [fmap option_fmap option_map].
  pose proof (shape_fuel _ _ _ _ _ _ Hsh) as Hfuel. simpl in Hfuel.
  replace from with (Z.of_nat (S (Z.to_nat from - 1))) at 1 by lia.
  rewrite (RangeByRank_loop_spec aknil scoreLessThan w z L ts Hsh Hrows _
             (Z.to_nat from - 1) f hf nf rt [] Hf Hnf);
    [|lia|unfold fuel_of; lia].
  cbn [rbind app]. do 2 f_equal.
  rewrite (rows_drop aknil) by done.
  pose proof (rows_length aknil w (ts.*1) Hrows) as Hrl. rewrite length_fmap in Hrl.
  destruct (decide (to ≤ Z.of_nat (length ts))) as [Hle|Hgt].
  - f_equal. lia.
  - rewrite !take_ge; [done|rewrite length_drop; lia|rewrite length_drop; lia].
Qed.

End ZViews.

(** What the sorted set shows after [Add 7 50]. *)

Lemma Marshal_spec_witness :
  let w := zworld_of zdemo in
  let z := zset_of zdemo in
  Marshal None w z = Ok (rows None w [1%nat]) ∧
  Z.of_nat (length (rows None w [1%nat])) = Card z ∧
  NoDup (rows None w [1%nat]).*1 ∧
  (∀ k sc, (k, sc) ∈ rows None w [1%nat] ↔ Score w z k = Ok sc) ∧
  (∀ i j e1 e2, (i < j)%nat → rows None w [1%nat] !! i = Some e1 →
                rows None w [1%nat] !! j = Some e2 → (e2.2 <? e1.2) = false).
Proof.
  apply (Marshal_spec None Z.ltb Z.ltb_irrefl ltb_trans (zworld_of zdemo) (zset_of zdemo)
           [1%nat] zdemo_ok).
Defined.

Lemma Foreach_spec_witness :
  let w := zworld_of zdemo in
  let z := zset_of zdemo in
  let fn := λ (k : option Z) (sc : Z) (st : list (option Z * Z)), (k, sc) :: st in
  Marshal None w z = Ok (rows None w [1%nat]) ∧
  Foreach None w z fn [] = Ok (foldl (λ st e, fn e.1 e.2 st) [] (rows None w [1%nat])).
Proof.
  intros w z fn.
  apply (Foreach_spec None Z.ltb (zworld_of zdemo) (zset_of zdemo) [1%nat] fn []
           zdemo_ok).
Defined.

Lemma ZSet_Rank_spec_witness :
  let w := zworld_of zdemo in
  let z := zset_of zdemo in
  (∀ i k sc, rows None w [1%nat] !! i = Some (k, sc) →
             ZSet_Rank Z.ltb w z k = Ok (Z.of_nat i + 1)) ∧
  (∀ k, k ∉ (rows None w [1%nat]).*1 → ZSet_Rank Z.ltb w z k = Ok 0).
Proof.
  apply (ZSet_Rank_spec None Z.ltb Z.ltb_irrefl ltb_trans (zworld_of zdemo)
           (zset_of zdemo) [1%nat] zdemo_ok).
  by vm_compute.
Defined.

Lemma RangeByRank_spec_witness :
  let w := zworld_of zdemo in
  let z := zset_of zdemo in
  RangeByRank w z 1 10 =
  Ok (if decide (1 = 0 ∨ 10 < 1 ∨ Len (sl z) < 1) then None
      else Some (take (Z.to_nat (10 - 1 + 1))
                      (drop (Z.to_nat 1 - 1) (rows None w [1%nat])))).
Proof.
  apply (RangeByRank_spec None Z.ltb (zworld_of zdemo) (zset_of zdemo) [1%nat] 1 10
           zdemo_ok); by vm_compute.
Defined.

(** * [Unmarshal] *)

Section Unmarshal.

Context {AK Sc : Type} `{Countable AK} `{EqDecision Sc}.

Local Abbreviation zsetScore := (zsetScore (Sc := Sc)).

(** The cells, the map and the pool after the loop of [Unmarshal]. *)
Lemma Unmarshal_loop_spec (elements : list (AK * Sc)) :
  ∀ (c : list zsetScore) (m : gmap AK addr) (p : zsetScorePool) c' m' p' elems,
  Unmarshal_loop elements c m p = (c', m', p', elems) →
  NoDup (elements.*1) →
  NoDup (pool p) → (∀ x, x ∈ pool p → (x < length c)%nat) → 0 ≤ pool_counter p →
  pool_counter p + Z.of_nat (length elements) ≤ MaxInt64 →
  (∀ i k sc, elements !! i = Some (k, sc) →
     ∃ zs, elems !! i = Some (Some zs, k) ∧
           c' !! zs = Some (mkScore sc (pool_counter p + Z.of_nat i + 1)) ∧
           (zs ∉ pool p') ∧ m' !! k = Some zs) ∧
  length elems = length elements ∧
  (∀ k, k ∉ elements.*1 → m' !! k = m !! k) ∧
  (∀ x, (x < length c)%nat → x ∉ pool p → c' !! x = c !! x) ∧
  (length c ≤ length c')%nat ∧
  pool_counter p' = pool_counter p + Z.of_nat (length elements) ∧
  NoDup (pool p') ∧ (∀ x, x ∈ pool p' → x ∈ pool p).
Proof.
  induction elements as [|[k sc] rest IH]; intros c m p c' m' p' elems Hrun Hndk Hnd Hlt
    Hpc0 Hpc.
  { injection Hrun as <- <- <- <-. simpl.
    split; [intros i k sc Hi; by rewrite lookup_nil in Hi|].
    repeat (split; [done|]). split; [lia|]. by split. }
  cbn [Unmarshal_loop] in Hrun.
  destruct (pool_Get c p sc) as [[c1 p1] zs] eqn:Hget.
  destruct (Unmarshal_loop rest c1 (<[k := zs]> m) p1) as [[[c2 m2] p2] out] eqn:Hrest.
  injection Hrun as <- <- <- <-.
  rewrite fmap_cons in Hndk. apply NoDup_cons in Hndk as [Hk Hndk].
  cbn [length] in Hpc. unfold MaxInt64 in *.
  destruct (pool_Get_spec c p sc c1 p1 zs Hget Hnd Hlt)
    as (Hzs & Hsame & Hlen & Hpc1 & Hnd1 & Hzsp & Hsub & Hwhere);
    [unfold MaxInt64; lia|].
  destruct (IH c1 (<[k := zs]> m) p1 c2 m2 p2 out Hrest Hndk Hnd1)
    as (Hat & Hlen2 & Hout & Hkeep & Hlen' & Hpc2 & Hnd2 & Hsub2).
  { intros x Hx. specialize (Hlt x (Hsub x Hx)). lia. }
  { lia. }
  { lia. }
  assert (zs < length c1)%nat as Hzslt by (by eapply lookup_lt_Some).
  split.
  { intros [|i] k' sc' Hi; simpl in Hi.
    - injection Hi as <- <-. exists zs. split; [done|].
      split; [rewrite (Hkeep zs Hzslt Hzsp), Hzs; do 2 f_equal; lia|].
      split; [intros Hin; by apply Hzsp, Hsub2|].
      by rewrite (Hout k Hk), lookup_insert_eq.
    - destruct (Hat i k' sc' Hi) as (zs' & Hel & Hc & Hp & Hm).
      exists zs'. split; [done|]. split; [rewrite Hc; do 2 f_equal; lia|]. done. }
  split; [simpl; by rewrite Hlen2|]. split.
  { intros k' Hk'. rewrite fmap_cons in Hk'. apply not_elem_of_cons in Hk' as [Hne Hk'].
    rewrite (Hout k' Hk'). by rewrite lookup_insert_ne. }
  split.
  { intros x Hx Hxp. rewrite Hkeep; [| lia |].
    - apply Hsame; [|done]. intros ->. destruct Hwhere as [?| ->]; [done|lia].
    - intros Hin. by apply Hxp, Hsub. }
  split; [lia|]. split; [cbn [length]; lia|]. split; [done|].
  intros x Hx. by apply Hsub, Hsub2.
Qed.

End Unmarshal.

Section UnmarshalSet.

Context {AK Sc : Type} `{Countable AK} `{EqDecision Sc}.
Variable aknil : AK.
Variable scoreLessThan : Sc → Sc → bool.
Hypothesis sc_irrefl : ∀ a, scoreLessThan a a = false.
Hypothesis sc_trans : ∀ a b c, scoreLessThan a b = true → scoreLessThan b c = true →
                               scoreLessThan a c = true.
Hypothesis sc_total : ∀ a b, a ≠ b → scoreLessThan a b = false →
                             scoreLessThan b a = true.

Local Abbreviation zless := (zless scoreLessThan).
Local Abbreviation zworld := (zworld (AK := AK) (Sc := Sc)).
Local Abbreviation ZSet := (ZSet (AK := AK)).
Local Abbreviation zset_ok := (zset_ok aknil scoreLessThan).
Local Abbreviation zset_inv := (zset_inv aknil scoreLessThan).
Local Abbreviation rows := (rows aknil).

Implicit Types (w : zworld) (z : ZSet) (l : list addr).

(** X27: [Unmarshal] of pairs with pairwise different keys
    and scores that never descend, into a well-formed sorted set without
    members, returns true and gives a well-formed set of which [Marshal]
    returns these pairs; the caller's slice then holds the keys in
    second place. *)
Theorem Unmarshal_spec w z (elements : list (AK * Sc)) :
  zset_inv w z [] → NoDup elements.*1 →
  (∀ i e1 e2, elements !! i = Some e1 → elements !! S i = Some e2 →
              scoreLessThan e2.2 e1.2 = false) →
  pool_counter (zpool z) + Z.of_nat (length elements) ≤ MaxInt64 →
  ∃ w' z' l' elems,
    Unmarshal scoreLessThan w z elements = Ok (w', z', elems, true) ∧
    zset_inv w' z' l' ∧
    Marshal aknil w' z' = Ok elements ∧
    elems.*2 = elements.*1.
Proof using sc_irrefl sc_trans sc_total.
  intros (Hok & Hnd & Hpool & Hpc0 & _) Hndk Hsorted Hpc.
  destruct Hok as (L & ts & HInv & Hl & _ & Hmap).
  symmetry in Hl. apply fmap_nil_inv in Hl as ->.
  unfold Unmarshal.
  destruct (Unmarshal_loop elements (zcells w) (key2Score z) (zpool z))
    as [[[c' m'] p'] elems] eqn:Hloop.
  destruct (Unmarshal_loop_spec elements _ _ _ _ _ _ _ Hloop Hndk Hnd
              (λ x Hx, proj1 (Hpool x Hx)) Hpc0 Hpc)
    as (Hat & Hlen & Hout & _ & Hlenc & Hpc' & Hnd' & Hsub).
  assert (∀ i e, elems !! i = Some e →
            ∃ k sc zs, elements !! i = Some (k, sc) ∧ e = (Some zs, k) ∧
                       c' !! zs = Some (mkScore sc (pool_counter (zpool z) + Z.of_nat i + 1)))
    as Hback.
  { intros i e He. pose proof (lookup_lt_Some _ _ _ He) as Hi. rewrite Hlen in Hi.
    destruct (lookup_lt_is_Some_2 elements i Hi) as [[k sc] Hk].
    destruct (Hat i k sc Hk) as (zs & Hel & Hc & _).
    rewrite Hel in He. injection He as <-. by exists k, sc, zs. }
  assert (ascending (zless c') elems) as Hasc.
  { intros i e1 e2 H1 H2.
    destruct (Hback _ _ H1) as (k1 & s1 & z1 & Hk1 & -> & Hc1).
    destruct (Hback _ _ H2) as (k2 & s2 & z2 & Hk2 & -> & Hc2).
    simpl. rewrite (zless_valid scoreLessThan c' z1 z2 _ _ Hc1 Hc2). simpl.
    pose proof (Hsorted i _ _ Hk1 Hk2) as Hge. simpl in Hge.
    destruct (scoreLessThan s1 s2) eqn:Hlt; [done|].
    destruct (decide (s1 = s2)) as [_|Hne].
    - apply bool_decide_eq_true. lia.
    - by rewrite (sc_total _ _ Hne Hlt) in Hge. }
  assert (Inv None (zless c') (zheap w) (sl z) L []) as HInv'.
  { apply (Inv_less_ext None (zless (zcells w))); [done|].
    intros a b Ha. by apply elem_of_nil in Ha. }
  pose proof HInv as (Hsh & _ & Hb).
  assert (Len (sl z) = 0) as Hlen0.
  { unfold Len. by rewrite (shape_length _ _ _ _ _ _ Hsh). }
  destruct (Fill_spec None (zless c') (zless_trans scoreLessThan sc_irrefl sc_trans c')
              (zheap w) (sl z) L [] (zrng w) elems
              (Inv_wf None (zless c') _ _ _ _ HInv') Hlen0 Hasc)
    as (h' & s' & rg' & L' & ts' & Hrun & Hwf & Hhd & _ & _ & Hts & Hlh & Hold & Hnew).
  rewrite Hrun. cbn [rbind].
  assert (∀ i k sc, elements !! i = Some (k, sc) →
            ∃ zs, keyof None h' (length (zheap w) + i) = Some zs ∧
                  valueof aknil h' (length (zheap w) + i) = k ∧
                  c' !! zs = Some (mkScore sc (pool_counter (zpool z) + Z.of_nat i + 1)) ∧
                  (zs ∉ pool p') ∧ m' !! k = Some zs) as Hnode.
  { intros i k sc Hk. destruct (Hat i k sc Hk) as (zs & Hel & Hc & Hp & Hm).
    destruct (Hnew i _ Hel) as [b Hb']. simpl in Hb'.
    apply binfo_inv in Hb' as (n & Hn & _ & Hkn & Hvn).
    exists zs. unfold Skiplist.keyof, Skiplist.valueof. rewrite Hn. simpl.
    by rewrite Hkn, Hvn. }
  assert (∀ a, a ∈ ts'.*1 →
            ∃ i k sc, a = (length (zheap w) + i)%nat ∧ elements !! i = Some (k, sc))
    as Hmem.
  { intros a Ha. rewrite Hts in Ha. apply elem_of_seq in Ha as [Hlo Hhi].
    rewrite Hlen in Hhi.
    destruct (lookup_lt_is_Some_2 elements (a - length (zheap w))) as [[k sc] Hk]; [lia|].
    exists (a - length (zheap w))%nat, k, sc. split; [lia|done]. }
  assert (Inv None (zless c') h' s' L' ts') as HInv2.
  { apply wf_Inv; [done| |].
    - rewrite Hhd. rewrite (binfo_keyof None h'), Hold.
      + rewrite <- (binfo_keyof None). destruct (back_header _ _ _ _ Hb) as (hd & Hhd' & _ & Hk).
        unfold Skiplist.keyof. by rewrite Hhd'.
      + apply (shape_in_heap None (zless (zcells w)) _ _ _ _ 0 (header (sl z)) L Hsh eq_refl).
    - intros a Ha. destruct (Hmem a Ha) as (i & k & sc & -> & Hk).
      destruct (Hnode i k sc Hk) as (zs & -> & _). done. }
  assert (zset_ok (mkWorld c' h' rg') (mkZSet m' s' p') (ts'.*1)) as Hok'.
  { exists L', ts'. split; [done|]. split; [done|]. split.
    - intros a Ha. destruct (Hmem a Ha) as (i & k & sc & -> & Hk).
      destruct (Hnode i k sc Hk) as (zs & Hkz & _ & Hc & _).
      eexists. unfold cell_of. simpl. rewrite Hkz. simpl. split; [exact Hc|]. simpl. lia.
    - intros ak c. simpl. split.
      + intros Hm.
        destruct (decide (ak ∈ elements.*1)) as [Hin|Hout'].
        * apply list_elem_of_fmap in Hin as ([k sc] & -> & Hin).
          apply list_elem_of_lookup in Hin as [i Hi].
          destruct (Hnode i k sc Hi) as (zs & Hkz & Hvz & _ & _ & Hmz).
          simpl in Hm. rewrite Hmz in Hm. injection Hm as <-.
          exists (length (zheap w) + i)%nat. split; [|done].
          rewrite Hts. apply elem_of_seq. apply lookup_lt_Some in Hi. lia.
        * rewrite (Hout ak Hout') in Hm. apply Hmap in Hm as (a & Ha & _).
          by apply elem_of_nil in Ha.
      + intros (a & Ha & Hka & Hva). destruct (Hmem a Ha) as (i & k & sc & -> & Hk).
        destruct (Hnode i k sc Hk) as (zs & Hkz & Hvz & _ & _ & Hmz).
        rewrite Hkz in Hka. injection Hka as <-. by rewrite <- Hva, Hvz. }
  exists (mkWorld c' h' rg'), (mkZSet m' s' p'), (ts'.*1), elems.
  split; [done|]. split; [|split].
  - split; [done|]. split; [done|]. split; [|split; [simpl; lia|]].
    + simpl. intros x Hx. split.
      * pose proof (proj1 (Hpool x (Hsub x Hx))). lia.
      * intros a Ha. destruct (Hmem a Ha) as (i & k & sc & -> & Hk).
        destruct (Hnode i k sc Hk) as (zs & -> & _ & _ & Hp & _). intros [= ->]. done.
    + simpl. intros a za Ha Hza. destruct (Hmem a Ha) as (i & k & sc & -> & Hk).
      destruct (Hnode i k sc Hk) as (zs & Hkz & _ & Hc & _).
      unfold cell_of in Hza. simpl in Hza. rewrite Hkz in Hza. simpl in Hza.
      rewrite Hc in Hza. injection Hza as <-. simpl.
      apply lookup_lt_Some in Hk. lia.
  - destruct (Marshal_spec aknil scoreLessThan sc_irrefl sc_trans _ _ _ Hok') as [-> _].
    f_equal. apply list_eq. intros i.
    rewrite (rows_lookup aknil) by (intros; by eapply zset_ok_rows).
    rewrite Hts.
    destruct (elements !! i) as [[k sc]|] eqn:Hk.
    + pose proof (lookup_lt_Some _ _ _ Hk) as Hi.
      rewrite lookup_seq_lt by lia. simpl.
      destruct (Hnode i k sc Hk) as (zs & Hkz & Hvz & Hc & _).
      unfold Skiplist.row, cell_of. simpl. rewrite Hkz. simpl. rewrite Hc. simpl.
      by rewrite Hvz.
    + apply lookup_ge_None_1 in Hk. rewrite lookup_seq_ge by lia. done.
  - apply list_eq. intros i. rewrite !list_lookup_fmap.
    destruct (elements !! i) as [[k sc]|] eqn:Hk.
    + destruct (Hat i k sc Hk) as (zs & -> & _). done.
    + apply lookup_ge_None_1 in Hk. rewrite lookup_ge_None_2 by lia. done.
Qed.

End UnmarshalSet.

Lemma Unmarshal_spec_witness :
  ∃ w' z' l' elems,
    Unmarshal Z.ltb znew.1 znew.2 [(Some 1, 10); (Some 2, 20)]
      = Ok (w', z', elems, true) ∧
    zset_inv None Z.ltb w' z' l' ∧
    Marshal None w' z' = Ok [(Some 1, 10); (Some 2, 20)] ∧
    elems.*2 = [Some 1; Some 2].
Proof.
  apply (Unmarshal_spec None Z.ltb Z.ltb_irrefl ltb_trans ltb_total
           znew.1 znew.2 [(Some 1, 10); (Some 2, 20)] znew_inv).
  - by apply (bool_decide_unpack _).
  - intros [|[|i]] e1 e2 H1 H2; simplify_eq/=; done.
  - by vm_compute.
Defined.
